(** * Round-robin CPU scheduling simulator: [simulate_rr] of scheduler.cpp

    A shallow embedding of [simulate_rr] and the properties of it that the
    specification states.

    Modelling conventions.
    - [int64_t] and [int] values are integers of [Z]; every addition,
      subtraction and multiplication of the program wraps around ([add64],
      [sub64], [mul64], [int_size]), as on the two's-complement targets the
      program is built for.  A division by zero is undefined behaviour.
    - [std::vector] is a list; [push_back] appends at the end, [erase(begin())]
      drops the head, [at] is bounds checked and throws [std::out_of_range],
      [back] on an empty vector is undefined behaviour.  Failures are values
      of [failure], threaded by [result].
    - The [while(true)] loop is [loop], iterated over a step function [step]
      with an explicit bound on the number of iterations (fuel).
    - The module [Ideal] holds the same functions over unbounded integers.
      The program computes what they compute as long as no operation
      overflows ([step_ideal], [simulate_ideal]); the invariants of the loop
      are proved on them and carried over. *)

From Stdlib Require Import ZArith List Bool Lia Permutation Sorted.
Import ListNotations.
Open Scope Z_scope.

(** ** Data model *)

(** The [Process] record of common.h, as the simulator uses it. *)
Record Process : Type := mkProcess {
  id : Z;
  arrival_time : Z;
  burst : Z;
  start_time : Z;
  finish_time : Z
}.

Definition with_start (p : Process) (t : Z) : Process :=
  mkProcess (id p) (arrival_time p) (burst p) t (finish_time p).

Definition with_finish (p : Process) (t : Z) : Process :=
  mkProcess (id p) (arrival_time p) (burst p) (start_time p) t.

(** ** Failures *)

Inductive failure : Type :=
| out_of_range          (* std::out_of_range thrown by vector::at *)
| undefined_behaviour   (* back() of an empty vector, division by zero *)
| out_of_fuel.          (* the iteration bound of the model was reached *)

Inductive result (A : Type) : Type :=
| Ok (a : A)
| Fail (f : failure).
Arguments Ok {A} a.
Arguments Fail {A} f.

Definition bind {A B : Type} (r : result A) (k : A -> result B) : result B :=
  match r with
  | Ok a => k a
  | Fail f => Fail f
  end.

Notation "x <- e ;; k" := (bind e (fun x => k))
  (at level 61, e at next level, right associativity).
Notation "' pat <- e ;; k" := (bind e (fun x => match x with pat => k end))
  (at level 61, pat pattern, e at next level, right associativity).

(** ** Vectors *)

Definition size {A : Type} (v : list A) : Z := Z.of_nat (length v).

Definition empty {A : Type} (v : list A) : bool :=
  match v with
  | [] => true
  | _ :: _ => false
  end.

Definition push_back {A : Type} (v : list A) (x : A) : list A := v ++ [x].

(** [v.erase(v.begin())]; every call of the source is behind a test that
    [v] is not empty. *)
Definition erase_begin {A : Type} (v : list A) : list A := tl v.

(** [v.at(i)] for an [int] index: a negative index converts to a huge
    [size_t] and is out of range. *)
Definition vec_at {A : Type} (v : list A) (i : Z) : result A :=
  if i <? 0 then Fail out_of_range
  else match nth_error v (Z.to_nat i) with
       | Some a => Ok a
       | None => Fail out_of_range
       end.

Fixpoint upd {A : Type} (n : nat) (a : A) (v : list A) : list A :=
  match v, n with
  | [], _ => []
  | _ :: v', O => a :: v'
  | x :: v', S n' => x :: upd n' a v'
  end.

(** [v.at(i) = a]. *)
Definition vec_set {A : Type} (v : list A) (i : Z) (a : A) : result (list A) :=
  if i <? 0 then Fail out_of_range
  else if (Z.to_nat i <? length v)%nat then Ok (upd (Z.to_nat i) a v)
       else Fail out_of_range.

(** [v.back()]. *)
Definition back (v : list Z) : result Z :=
  match v with
  | [] => Fail undefined_behaviour
  | _ :: _ => Ok (last v 0)
  end.

(** ** The state of the simulation: the locals of [simulate_rr] *)

Record state : Type := mkState {
  curr_time : Z;
  rq : list Z;
  jq : list Z;
  remaining_bursts : list Z;
  processes : list Process;
  seq : list Z
}.

(** Lines 21-29. *)
Definition initial (ps : list Process) : state :=
  mkState 0 [] (map id ps) (map burst ps) ps [].

(** ** The pieces of the loop body *)

(** [if(processes.at(i).start_time == -1) processes.at(i).start_time = t;] *)
Definition set_start_if_unset (ps : list Process) (i t : Z)
  : result (list Process) :=
  p <- vec_at ps i ;;
  if start_time p =? -1 then vec_set ps i (with_start p t) else Ok ps.

(** [if((int64_t)seq.size() < max_seq_len && seq.back() != x) seq.push_back(x);] *)
Definition emit (max_seq_len : Z) (sq : list Z) (x : Z) : result (list Z) :=
  if size sq <? max_seq_len then
    b <- back sq ;;
    if b =? x then Ok sq else Ok (push_back sq x)
  else Ok sq.

(** Lines 39-49: no process in progress, some still to start. *)
Definition bootstrap (max_seq_len : Z) (st : state) : result state :=
  j0 <- vec_at (jq st) 0 ;;
  let rq1 := push_back (rq st) j0 in
  let jq1 := erase_begin (jq st) in
  r0 <- vec_at rq1 0 ;;
  p <- vec_at (processes st) r0 ;;
  let t := arrival_time p in
  let sq := if (size (seq st) <? max_seq_len) && (t =? 0)
            then push_back (seq st) r0
            else push_back (seq st) (-1) in
  Ok (mkState t rq1 jq1 (remaining_bursts st) (processes st) sq).

(** Lines 64-74 and 175-185: [flag] and [min_bursts] over the ready queue. *)
Fixpoint scan_bursts (quantum : Z) (rem : list Z) (rs : list Z) (min_bursts : Z)
  : result (bool * Z) :=
  match rs with
  | [] => Ok (true, min_bursts)
  | r :: rs' =>
      b <- vec_at rem r ;;
      if b <=? quantum then Ok (false, min_bursts)
      else scan_bursts quantum rem rs' (if b <? min_bursts then b else min_bursts)
  end.

(** Lines 92-96 and 201-205: the inner loop over the ready queue. *)
Fixpoint emit_round (max_seq_len : Z) (rs : list Z) (sq : list Z)
  : result (list Z) :=
  match rs with
  | [] => Ok sq
  | r :: rs' => sq1 <- emit max_seq_len sq r ;; emit_round max_seq_len rs' sq1
  end.

(** Lines 91-97 and 200-206: [count] iterations of the outer loop. *)
Fixpoint emit_rounds (max_seq_len : Z) (count : nat) (rs : list Z) (sq : list Z)
  : result (list Z) :=
  match count with
  | O => Ok sq
  | S c => sq1 <- emit_round max_seq_len rs sq ;; emit_rounds max_seq_len c rs sq1
  end.

(** Lines 115-118: the processes that arrived strictly before [t]. *)
Fixpoint arrivals_before (ps : list Process) (t : Z) (rq jq : list Z)
  : result (list Z * list Z) :=
  match jq with
  | [] => Ok (rq, [])
  | j :: jq' =>
      p <- vec_at ps j ;;
      if arrival_time p <? t then arrivals_before ps t (push_back rq j) jq'
      else Ok (rq, jq)
  end.

(** [rq.push_back(rq.at(0)); rq.erase(rq.begin());] *)
Definition requeue (rq : list Z) : result (list Z) :=
  h <- vec_at rq 0 ;; Ok (erase_begin (push_back rq h)).

(** Lines 115-129: arrivals and the preempted head go to the tail. *)
Definition requeue_with_arrivals (ps : list Process) (t : Z) (rq jq : list Z)
  : result (list Z * list Z) :=
  '(rq1, jq1) <- arrivals_before ps t rq jq ;;
  match jq1 with
  | [] => rq2 <- requeue rq1 ;; Ok (rq2, jq1)
  | j :: _ =>
      p <- vec_at ps j ;;
      if arrival_time p =? t then
        rq2 <- requeue rq1 ;; Ok (push_back rq2 j, erase_begin jq1)
      else
        rq2 <- requeue rq1 ;; Ok (rq2, jq1)
  end.

Definition with_queues (st : state) (rq' jq' : list Z) : state :=
  mkState (curr_time st) rq' jq' (remaining_bursts st) (processes st) (seq st).

(** What an iteration of [while(true)] ends with. *)
Inductive control : Type :=
| Continue (st : state)
| Break (st : state).

Definition state_of (c : control) : state :=
  match c with
  | Continue st => st
  | Break st => st
  end.

(** Line 39: the test of the bootstrap dispatch. *)
Definition bootstrap_guard (st : state) : bool :=
  empty (rq st) && negb (empty (jq st)).

(** ** The arithmetic of the program

    [int64_t] values wrap around modulo [2^64] and [int] values modulo
    [2^32], as the two's-complement targets of the program compute them. *)

(** The values of [int64_t]. *)
Definition int64 (z : Z) : Prop :=
  -9223372036854775808 <= z < 9223372036854775808.

(** The [int64_t] that is congruent to [z] modulo [2^64]. *)
Definition wrap64 (z : Z) : Z :=
  (z + 9223372036854775808) mod 18446744073709551616 - 9223372036854775808.

(** The [int] that is congruent to [z] modulo [2^32]. *)
Definition wrap32 (z : Z) : Z :=
  (z + 2147483648) mod 4294967296 - 2147483648.

Definition add64 (a b : Z) : Z := wrap64 (a + b).
Definition sub64 (a b : Z) : Z := wrap64 (a - b).
Definition mul64 (a b : Z) : Z := wrap64 (a * b).

(** [a / b] on [int64_t] truncates; a zero divisor, and the one quotient
    that has no [int64_t], are undefined behaviour. *)
Definition div64 (a b : Z) : result Z :=
  if (b =? 0) || ((a =? -9223372036854775808) && (b =? -1))
  then Fail undefined_behaviour
  else Ok (Z.quot a b).

(** [a % b] on [int64_t]. *)
Definition rem64 (a b : Z) : result Z :=
  if (b =? 0) || ((a =? -9223372036854775808) && (b =? -1))
  then Fail undefined_behaviour
  else Ok (Z.rem a b).

(** [(int)v.size()]. *)
Definition int_size {A : Type} (v : list A) : Z := wrap32 (size v).

(** The entries of [v] that [for(int i = 0; i < (int)v.size(); i++)]
    visits. *)
Definition counted {A : Type} (v : list A) : list A :=
  firstn (Z.to_nat (int_size v)) v.

(** ** The pieces of the loop body that compute times *)

(** Lines 76-79 and 187-191: [n]. *)
Definition full_rounds (quantum min_bursts : Z) : result Z :=
  n <- div64 min_bursts quantum ;;
  r <- rem64 min_bursts quantum ;;
  Ok (if r =? 0 then sub64 n 1 else n).

(** Lines 84-89 and 193-198: the first loop of the bulk skip; [i] is the
    loop counter. *)
Fixpoint stagger (quantum k curr i : Z) (rs : list Z)
  (ps : list Process) (rem : list Z) : result (list Process * list Z) :=
  match rs with
  | [] => Ok (ps, rem)
  | r :: rs' =>
      ps1 <- set_start_if_unset ps r (add64 curr (mul64 quantum i)) ;;
      b <- vec_at rem r ;;
      rem1 <- vec_set rem r (sub64 b (mul64 quantum k)) ;;
      stagger quantum k curr (i + 1) rs' ps1 rem1
  end.

(** Lines 83-97 and 193-206: [k] rounds at once.  The outer loop of the trace
    runs for [i < k && i < max_seq_len]. *)
Definition bulk_skip (quantum max_seq_len k : Z) (st : state) : result state :=
  '(ps, rem) <- stagger quantum k (curr_time st) 0 (counted (rq st))
                  (processes st) (remaining_bursts st) ;;
  let t := add64 (curr_time st) (mul64 (mul64 (int_size (rq st)) quantum) k) in
  sq <- emit_rounds max_seq_len (Z.to_nat (Z.min k max_seq_len))
          (counted (rq st)) (seq st) ;;
  Ok (mkState t (rq st) (jq st) rem ps sq).

(** Lines 106-113 and 212-219: the head runs for one quantum. *)
Definition run_quantum (quantum max_seq_len : Z) (st : state) : result state :=
  r0 <- vec_at (rq st) 0 ;;
  ps <- set_start_if_unset (processes st) r0 (curr_time st) ;;
  let t := add64 (curr_time st) quantum in
  sq <- emit max_seq_len (seq st) r0 ;;
  b <- vec_at (remaining_bursts st) r0 ;;
  rem <- vec_set (remaining_bursts st) r0 (sub64 b quantum) ;;
  Ok (mkState t (rq st) (jq st) rem ps sq).

(** Lines 136-145, 159-168 and 228-237: the head runs to completion and
    leaves the ready queue. *)
Definition run_to_completion (max_seq_len : Z) (st : state) : result state :=
  r0 <- vec_at (rq st) 0 ;;
  ps <- set_start_if_unset (processes st) r0 (curr_time st) ;;
  b <- vec_at (remaining_bursts st) r0 ;;
  let t := add64 (curr_time st) b in
  sq <- emit max_seq_len (seq st) r0 ;;
  rem <- vec_set (remaining_bursts st) r0 0 ;;
  p <- vec_at ps r0 ;;
  ps' <- vec_set ps r0 (with_finish p t) ;;
  Ok (mkState t (erase_begin (rq st)) (jq st) rem ps' sq).

(** Lines 106-130: the single-quantum preemption step with processes still
    pending. *)
Definition preempt_pending (quantum max_seq_len : Z) (st : state)
  : result control :=
  st2 <- run_quantum quantum max_seq_len st ;;
  '(rq', jq') <- requeue_with_arrivals (processes st2) (curr_time st2)
                   (rq st2) (jq st2) ;;
  Ok (Continue (with_queues st2 rq' jq')).

(** Lines 136-150: completion of the head with processes still pending; at
    most one process is moved to the ready queue. *)
Definition complete_pending (max_seq_len : Z) (st : state) : result control :=
  st2 <- run_to_completion max_seq_len st ;;
  j <- vec_at (jq st2) 0 ;;
  p <- vec_at (processes st2) j ;;
  if arrival_time p <=? curr_time st2 then
    Ok (Continue (with_queues st2 (push_back (rq st2) j) (erase_begin (jq st2))))
  else Ok (Continue st2).

(** Lines 212-222. *)
Definition preempt_drained (quantum max_seq_len : Z) (st : state)
  : result control :=
  st2 <- run_quantum quantum max_seq_len st ;;
  rq' <- requeue (rq st2) ;;
  Ok (Continue (with_queues st2 rq' (jq st2))).

(** Lines 228-238. *)
Definition complete_drained (max_seq_len : Z) (st : state) : result control :=
  st2 <- run_to_completion max_seq_len st ;;
  Ok (Continue st2).

(** Lines 64-79 and 175-191: [flag] and [n]. *)
Definition skippable_rounds (quantum : Z) (st : state) : result (bool * Z) :=
  r0 <- vec_at (rq st) 0 ;;
  b0 <- vec_at (remaining_bursts st) r0 ;;
  '(flag, min_bursts) <- scan_bursts quantum (remaining_bursts st)
                           (counted (rq st)) b0 ;;
  n <- full_rounds quantum min_bursts ;;
  Ok (flag, n).

(** Lines 52-152: processes in progress and others still to start.  With
    [bulk = false] the bulk skip of lines 83-97 is never taken.  The test of
    line 135 is the negation of the test of line 105, so the block always ends
    in [continue]. *)
Definition step_pending (bulk : bool) (quantum max_seq_len : Z) (st : state)
  : result control :=
  j0 <- vec_at (jq st) 0 ;;
  p0 <- vec_at (processes st) j0 ;;
  if arrival_time p0 =? curr_time st then
    Ok (Continue (with_queues st (push_back (rq st) j0) (erase_begin (jq st))))
  else
    '(flag, n) <- skippable_rounds quantum st ;;
    m <- div64 (sub64 (arrival_time p0) (curr_time st))
           (mul64 (int_size (rq st)) quantum) ;;
    st1 <- (if (add64 (curr_time st) (mul64 (int_size (rq st)) quantum)
                <? arrival_time p0)
               && flag && bulk
            then bulk_skip quantum max_seq_len (Z.min n m) st
            else Ok st) ;;
    r <- vec_at (rq st1) 0 ;;
    b <- vec_at (remaining_bursts st1) r ;;
    if quantum <? b then preempt_pending quantum max_seq_len st1
    else complete_pending max_seq_len st1.

(** Lines 155-240: processes in progress and none left to start. *)
Definition step_drained (bulk : bool) (quantum max_seq_len : Z) (st : state)
  : result control :=
  if size (rq st) =? 1 then
    st1 <- run_to_completion max_seq_len st ;; Ok (Break st1)
  else
    '(flag, n) <- skippable_rounds quantum st ;;
    st1 <- (if flag && bulk then bulk_skip quantum max_seq_len n st else Ok st) ;;
    r <- vec_at (rq st1) 0 ;;
    b <- vec_at (remaining_bursts st1) r ;;
    if quantum <? b then preempt_drained quantum max_seq_len st1
    else complete_drained max_seq_len st1.

(** Lines 31-241: one iteration of the loop. *)
Definition step (bulk : bool) (quantum max_seq_len : Z) (st : state)
  : result control :=
  if empty (rq st) && empty (jq st) then Ok (Break st)
  else
    st1 <- (if bootstrap_guard st then bootstrap max_seq_len st else Ok st) ;;
    if negb (empty (rq st1)) && negb (empty (jq st1)) then
      step_pending bulk quantum max_seq_len st1
    else if negb (empty (rq st1)) && empty (jq st1) then
      step_drained bulk quantum max_seq_len st1
    else Ok (Continue st1).

(** The loop, for at most [fuel] iterations. *)
Fixpoint loop (bulk : bool) (quantum max_seq_len : Z) (fuel : nat) (st : state)
  : result state :=
  match fuel with
  | O => Fail out_of_fuel
  | S fuel' =>
      c <- step bulk quantum max_seq_len st ;;
      match c with
      | Continue st' => loop bulk quantum max_seq_len fuel' st'
      | Break st' => Ok st'
      end
  end.

Definition simulate (bulk : bool) (fuel : nat) (quantum max_seq_len : Z)
  (ps : list Process) : result (list Process * list Z) :=
  st <- loop bulk quantum max_seq_len fuel (initial ps) ;;
  Ok (processes st, seq st).

(** [simulate_rr], and the variant of it that always advances one quantum at
    a time. *)
Definition simulate_rr := simulate true.
Definition simulate_rr_naive := simulate false.

(** The states at the start of an iteration of a run on [ps]. *)
Inductive reachable (bulk : bool) (q M : Z) (ps : list Process) : state -> Prop :=
| reach_initial : reachable bulk q M ps (initial ps)
| reach_step st st' :
    reachable bulk q M ps st ->
    step bulk q M st = Ok (Continue st') ->
    reachable bulk q M ps st'.

(** The iterations of a run that take the bootstrap dispatch of line 39. *)
Fixpoint bootstraps (bulk : bool) (q M : Z) (fuel : nat) (st : state) : nat :=
  match fuel with
  | O => O
  | S fuel' =>
      ((if bootstrap_guard st then 1 else 0) +
       match step bulk q M st with
       | Ok (Continue st') => bootstraps bulk q M fuel' st'
       | _ => 0
       end)%nat
  end.

(** ** The same pieces over unbounded integers

    The functions of the previous section with the arithmetic of [Z] in
    place of that of [int64_t], and every entry of the ready queue visited.
    They are a device of the proofs; the statements about the program are
    about the functions above. *)

Module Ideal.

(** [full_rounds] over unbounded integers. *)
Definition full_rounds (quantum min_bursts : Z) : result Z :=
  if quantum =? 0 then Fail undefined_behaviour
  else
    let n := Z.quot min_bursts quantum in
    Ok (if Z.rem min_bursts quantum =? 0 then n - 1 else n).

(** [stagger] over unbounded integers. *)
Fixpoint stagger (quantum k curr i : Z) (rs : list Z)
  (ps : list Process) (rem : list Z) : result (list Process * list Z) :=
  match rs with
  | [] => Ok (ps, rem)
  | r :: rs' =>
      ps1 <- set_start_if_unset ps r (curr + quantum * i) ;;
      b <- vec_at rem r ;;
      rem1 <- vec_set rem r (b - quantum * k) ;;
      stagger quantum k curr (i + 1) rs' ps1 rem1
  end.

(** [bulk_skip] over unbounded integers. *)
Definition bulk_skip (quantum max_seq_len k : Z) (st : state) : result state :=
  '(ps, rem) <- stagger quantum k (curr_time st) 0 (rq st)
                  (processes st) (remaining_bursts st) ;;
  let t := curr_time st + size (rq st) * quantum * k in
  sq <- emit_rounds max_seq_len (Z.to_nat (Z.min k max_seq_len)) (rq st) (seq st) ;;
  Ok (mkState t (rq st) (jq st) rem ps sq).

(** [run_quantum] over unbounded integers. *)
Definition run_quantum (quantum max_seq_len : Z) (st : state) : result state :=
  r0 <- vec_at (rq st) 0 ;;
  ps <- set_start_if_unset (processes st) r0 (curr_time st) ;;
  let t := curr_time st + quantum in
  sq <- emit max_seq_len (seq st) r0 ;;
  b <- vec_at (remaining_bursts st) r0 ;;
  rem <- vec_set (remaining_bursts st) r0 (b - quantum) ;;
  Ok (mkState t (rq st) (jq st) rem ps sq).

(** [run_to_completion] over unbounded integers. *)
Definition run_to_completion (max_seq_len : Z) (st : state) : result state :=
  r0 <- vec_at (rq st) 0 ;;
  ps <- set_start_if_unset (processes st) r0 (curr_time st) ;;
  b <- vec_at (remaining_bursts st) r0 ;;
  let t := curr_time st + b in
  sq <- emit max_seq_len (seq st) r0 ;;
  rem <- vec_set (remaining_bursts st) r0 0 ;;
  p <- vec_at ps r0 ;;
  ps' <- vec_set ps r0 (with_finish p t) ;;
  Ok (mkState t (erase_begin (rq st)) (jq st) rem ps' sq).

(** [preempt_pending] over unbounded integers. *)
Definition preempt_pending (quantum max_seq_len : Z) (st : state)
  : result control :=
  st2 <- run_quantum quantum max_seq_len st ;;
  '(rq', jq') <- requeue_with_arrivals (processes st2) (curr_time st2)
                   (rq st2) (jq st2) ;;
  Ok (Continue (with_queues st2 rq' jq')).

(** [complete_pending] over unbounded integers. *)
Definition complete_pending (max_seq_len : Z) (st : state) : result control :=
  st2 <- run_to_completion max_seq_len st ;;
  j <- vec_at (jq st2) 0 ;;
  p <- vec_at (processes st2) j ;;
  if arrival_time p <=? curr_time st2 then
    Ok (Continue (with_queues st2 (push_back (rq st2) j) (erase_begin (jq st2))))
  else Ok (Continue st2).

(** [preempt_drained] over unbounded integers. *)
Definition preempt_drained (quantum max_seq_len : Z) (st : state)
  : result control :=
  st2 <- run_quantum quantum max_seq_len st ;;
  rq' <- requeue (rq st2) ;;
  Ok (Continue (with_queues st2 rq' (jq st2))).

(** [complete_drained] over unbounded integers. *)
Definition complete_drained (max_seq_len : Z) (st : state) : result control :=
  st2 <- run_to_completion max_seq_len st ;;
  Ok (Continue st2).

(** [skippable_rounds] over unbounded integers. *)
Definition skippable_rounds (quantum : Z) (st : state) : result (bool * Z) :=
  r0 <- vec_at (rq st) 0 ;;
  b0 <- vec_at (remaining_bursts st) r0 ;;
  '(flag, min_bursts) <- scan_bursts quantum (remaining_bursts st) (rq st) b0 ;;
  n <- full_rounds quantum min_bursts ;;
  Ok (flag, n).

(** [step_pending] over unbounded integers. *)
Definition step_pending (bulk : bool) (quantum max_seq_len : Z) (st : state)
  : result control :=
  j0 <- vec_at (jq st) 0 ;;
  p0 <- vec_at (processes st) j0 ;;
  if arrival_time p0 =? curr_time st then
    Ok (Continue (with_queues st (push_back (rq st) j0) (erase_begin (jq st))))
  else
    '(flag, n) <- skippable_rounds quantum st ;;
    let m := Z.quot (arrival_time p0 - curr_time st) (size (rq st) * quantum) in
    st1 <- (if (curr_time st + size (rq st) * quantum <? arrival_time p0)
               && flag && bulk
            then bulk_skip quantum max_seq_len (Z.min n m) st
            else Ok st) ;;
    r <- vec_at (rq st1) 0 ;;
    b <- vec_at (remaining_bursts st1) r ;;
    if quantum <? b then preempt_pending quantum max_seq_len st1
    else complete_pending max_seq_len st1.

(** [step_drained] over unbounded integers. *)
Definition step_drained (bulk : bool) (quantum max_seq_len : Z) (st : state)
  : result control :=
  if size (rq st) =? 1 then
    st1 <- run_to_completion max_seq_len st ;; Ok (Break st1)
  else
    '(flag, n) <- skippable_rounds quantum st ;;
    st1 <- (if flag && bulk then bulk_skip quantum max_seq_len n st else Ok st) ;;
    r <- vec_at (rq st1) 0 ;;
    b <- vec_at (remaining_bursts st1) r ;;
    if quantum <? b then preempt_drained quantum max_seq_len st1
    else complete_drained max_seq_len st1.

(** [step] over unbounded integers. *)
Definition step (bulk : bool) (quantum max_seq_len : Z) (st : state)
  : result control :=
  if empty (rq st) && empty (jq st) then Ok (Break st)
  else
    st1 <- (if bootstrap_guard st then bootstrap max_seq_len st else Ok st) ;;
    if negb (empty (rq st1)) && negb (empty (jq st1)) then
      step_pending bulk quantum max_seq_len st1
    else if negb (empty (rq st1)) && empty (jq st1) then
      step_drained bulk quantum max_seq_len st1
    else Ok (Continue st1).

(** [loop] over unbounded integers. *)
Fixpoint loop (bulk : bool) (quantum max_seq_len : Z) (fuel : nat) (st : state)
  : result state :=
  match fuel with
  | O => Fail out_of_fuel
  | S fuel' =>
      c <- step bulk quantum max_seq_len st ;;
      match c with
      | Continue st' => loop bulk quantum max_seq_len fuel' st'
      | Break st' => Ok st'
      end
  end.

(** [simulate] over unbounded integers. *)
Definition simulate (bulk : bool) (fuel : nat) (quantum max_seq_len : Z)
  (ps : list Process) : result (list Process * list Z) :=
  st <- loop bulk quantum max_seq_len fuel (initial ps) ;;
  Ok (processes st, seq st).

(** [simulate_rr] over unbounded integers. *)
Definition simulate_rr := simulate true.
(** [simulate_rr_naive] over unbounded integers. *)
Definition simulate_rr_naive := simulate false.

(** [reachable] over unbounded integers. *)
Inductive reachable (bulk : bool) (q M : Z) (ps : list Process) : state -> Prop :=
| reach_initial : reachable bulk q M ps (initial ps)
| reach_step st st' :
    reachable bulk q M ps st ->
    step bulk q M st = Ok (Continue st') ->
    reachable bulk q M ps st'.

(** [bootstraps] over unbounded integers. *)
Fixpoint bootstraps (bulk : bool) (q M : Z) (fuel : nat) (st : state) : nat :=
  match fuel with
  | O => O
  | S fuel' =>
      ((if bootstrap_guard st then 1 else 0) +
       match step bulk q M st with
       | Ok (Continue st') => bootstraps bulk q M fuel' st'
       | _ => 0
       end)%nat
  end.

End Ideal.

(** ** The loop body as a total function

    On states whose queues hold indices of [processes] no access fails, and
    an iteration is the total function [next] ([step_next] below).  The
    definitions follow those of the previous section one by one. *)

Definition dummy : Process := mkProcess 0 0 0 0 0.

Definition proc (ps : list Process) (i : Z) : Process :=
  nth (Z.to_nat i) ps dummy.

Definition rem_of (rem : list Z) (i : Z) : Z := nth (Z.to_nat i) rem 0.

Definition put {A : Type} (v : list A) (i : Z) (a : A) : list A :=
  upd (Z.to_nat i) a v.

Definition start_p (ps : list Process) (i t : Z) : list Process :=
  if start_time (proc ps i) =? -1 then put ps i (with_start (proc ps i) t)
  else ps.

Definition emit_p (max_seq_len : Z) (sq : list Z) (x : Z) : list Z :=
  if size sq <? max_seq_len then
    if last sq 0 =? x then sq else push_back sq x
  else sq.

Definition bootstrap_p (max_seq_len : Z) (st : state) : state :=
  let j0 := hd 0 (jq st) in
  let rq1 := push_back (rq st) j0 in
  let r0 := hd 0 rq1 in
  let t := arrival_time (proc (processes st) r0) in
  let sq := if (size (seq st) <? max_seq_len) && (t =? 0)
            then push_back (seq st) r0
            else push_back (seq st) (-1) in
  mkState t rq1 (erase_begin (jq st)) (remaining_bursts st) (processes st) sq.

Fixpoint scan_p (quantum : Z) (rem : list Z) (rs : list Z) (min_bursts : Z)
  : bool * Z :=
  match rs with
  | [] => (true, min_bursts)
  | r :: rs' =>
      let b := rem_of rem r in
      if b <=? quantum then (false, min_bursts)
      else scan_p quantum rem rs' (if b <? min_bursts then b else min_bursts)
  end.

Definition full_rounds_p (quantum min_bursts : Z) : Z :=
  let n := Z.quot min_bursts quantum in
  if Z.rem min_bursts quantum =? 0 then n - 1 else n.

Definition skippable_p (quantum : Z) (st : state) : bool * Z :=
  let rem := remaining_bursts st in
  let '(flag, min_bursts) :=
    scan_p quantum rem (rq st) (rem_of rem (hd 0 (rq st))) in
  (flag, full_rounds_p quantum min_bursts).

Fixpoint stagger_p (quantum k curr i : Z) (rs : list Z)
  (ps : list Process) (rem : list Z) : list Process * list Z :=
  match rs with
  | [] => (ps, rem)
  | r :: rs' =>
      stagger_p quantum k curr (i + 1) rs'
        (start_p ps r (curr + quantum * i))
        (put rem r (rem_of rem r - quantum * k))
  end.

Definition emit_round_p (max_seq_len : Z) (rs : list Z) (sq : list Z) : list Z :=
  fold_left (emit_p max_seq_len) rs sq.

Fixpoint emit_rounds_p (max_seq_len : Z) (count : nat) (rs : list Z) (sq : list Z)
  : list Z :=
  match count with
  | O => sq
  | S c => emit_rounds_p max_seq_len c rs (emit_round_p max_seq_len rs sq)
  end.

Definition bulk_skip_p (quantum max_seq_len k : Z) (st : state) : state :=
  let '(ps, rem) := stagger_p quantum k (curr_time st) 0 (rq st)
                      (processes st) (remaining_bursts st) in
  mkState (curr_time st + size (rq st) * quantum * k) (rq st) (jq st) rem ps
    (emit_rounds_p max_seq_len (Z.to_nat (Z.min k max_seq_len)) (rq st) (seq st)).

Definition run_quantum_p (quantum max_seq_len : Z) (st : state) : state :=
  let r0 := hd 0 (rq st) in
  mkState (curr_time st + quantum) (rq st) (jq st)
    (put (remaining_bursts st) r0 (rem_of (remaining_bursts st) r0 - quantum))
    (start_p (processes st) r0 (curr_time st))
    (emit_p max_seq_len (seq st) r0).

Definition run_to_completion_p (max_seq_len : Z) (st : state) : state :=
  let r0 := hd 0 (rq st) in
  let t := curr_time st + rem_of (remaining_bursts st) r0 in
  let ps := start_p (processes st) r0 (curr_time st) in
  mkState t (erase_begin (rq st)) (jq st)
    (put (remaining_bursts st) r0 0)
    (put ps r0 (with_finish (proc ps r0) t))
    (emit_p max_seq_len (seq st) r0).

Fixpoint arrivals_before_p (ps : list Process) (t : Z) (rq jq : list Z)
  : list Z * list Z :=
  match jq with
  | [] => (rq, [])
  | j :: jq' =>
      if arrival_time (proc ps j) <? t
      then arrivals_before_p ps t (push_back rq j) jq'
      else (rq, jq)
  end.

Definition requeue_p (rq : list Z) : list Z :=
  erase_begin (push_back rq (hd 0 rq)).

Definition requeue_with_arrivals_p (ps : list Process) (t : Z) (rq jq : list Z)
  : list Z * list Z :=
  let '(rq1, jq1) := arrivals_before_p ps t rq jq in
  match jq1 with
  | [] => (requeue_p rq1, jq1)
  | j :: _ =>
      if arrival_time (proc ps j) =? t
      then (push_back (requeue_p rq1) j, erase_begin jq1)
      else (requeue_p rq1, jq1)
  end.

Definition preempt_pending_p (quantum max_seq_len : Z) (st : state) : state :=
  let st2 := run_quantum_p quantum max_seq_len st in
  let '(rq', jq') := requeue_with_arrivals_p (processes st2) (curr_time st2)
                       (rq st2) (jq st2) in
  with_queues st2 rq' jq'.

Definition complete_pending_p (max_seq_len : Z) (st : state) : state :=
  let st2 := run_to_completion_p max_seq_len st in
  let j := hd 0 (jq st2) in
  if arrival_time (proc (processes st2) j) <=? curr_time st2
  then with_queues st2 (push_back (rq st2) j) (erase_begin (jq st2))
  else st2.

Definition preempt_drained_p (quantum max_seq_len : Z) (st : state) : state :=
  let st2 := run_quantum_p quantum max_seq_len st in
  with_queues st2 (requeue_p (rq st2)) (jq st2).

(** The state at line 105, after the bulk skip if it is taken. *)
Definition skip_pending_p (bulk : bool) (quantum max_seq_len : Z) (st : state)
  : state :=
  let a := arrival_time (proc (processes st) (hd 0 (jq st))) in
  let '(flag, n) := skippable_p quantum st in
  let m := Z.quot (a - curr_time st) (size (rq st) * quantum) in
  if (curr_time st + size (rq st) * quantum <? a) && flag && bulk
  then bulk_skip_p quantum max_seq_len (Z.min n m) st
  else st.

(** The state at line 211. *)
Definition skip_drained_p (bulk : bool) (quantum max_seq_len : Z) (st : state)
  : state :=
  let '(flag, n) := skippable_p quantum st in
  if flag && bulk then bulk_skip_p quantum max_seq_len n st else st.

Definition head_rem (st : state) : Z :=
  rem_of (remaining_bursts st) (hd 0 (rq st)).

Definition step_pending_p (bulk : bool) (quantum max_seq_len : Z) (st : state)
  : control :=
  let j0 := hd 0 (jq st) in
  if arrival_time (proc (processes st) j0) =? curr_time st then
    Continue (with_queues st (push_back (rq st) j0) (erase_begin (jq st)))
  else
    let st1 := skip_pending_p bulk quantum max_seq_len st in
    if quantum <? head_rem st1
    then Continue (preempt_pending_p quantum max_seq_len st1)
    else Continue (complete_pending_p max_seq_len st1).

Definition step_drained_p (bulk : bool) (quantum max_seq_len : Z) (st : state)
  : control :=
  if size (rq st) =? 1 then Break (run_to_completion_p max_seq_len st)
  else
    let st1 := skip_drained_p bulk quantum max_seq_len st in
    if quantum <? head_rem st1
    then Continue (preempt_drained_p quantum max_seq_len st1)
    else Continue (run_to_completion_p max_seq_len st1).

Definition next (bulk : bool) (quantum max_seq_len : Z) (st : state) : control :=
  if empty (rq st) && empty (jq st) then Break st
  else
    let st1 := if bootstrap_guard st then bootstrap_p max_seq_len st else st in
    if negb (empty (rq st1)) && negb (empty (jq st1)) then
      step_pending_p bulk quantum max_seq_len st1
    else if negb (empty (rq st1)) && empty (jq st1) then
      step_drained_p bulk quantum max_seq_len st1
    else Continue st1.

(** Indices in range, and a trace that [back] can read once a process is in
    progress: what the accesses of an iteration need. *)
Definition valid (n : Z) (l : list Z) : Prop := Forall (fun i => 0 <= i < n) l.

Record in_range (st : state) : Prop := mkInRange {
  rng_len : size (remaining_bursts st) = size (processes st);
  rng_rq : valid (size (processes st)) (rq st);
  rng_jq : valid (size (processes st)) (jq st);
  rng_seq : rq st <> [] -> seq st <> []
}.

(** ** Invariants of the loop *)

(** The fields of a process that the simulation only reads. *)
Definition static (p : Process) : Z * Z * Z := (id p, arrival_time p, burst p).

(** The arrival time of the process of index [i]. *)
Definition arrival (st : state) (i : Z) : Z :=
  arrival_time (proc (processes st) i).

Definition sum (l : list Z) : Z := fold_right Z.add 0 l.

(** The processes of the queues are distinct and have work left, the ones in
    the ready queue have arrived. *)
Record Inv (st : state) : Prop := mkInv {
  inv_range : in_range st;
  inv_nodup : NoDup (rq st ++ jq st);
  inv_pos : Forall (fun i => 0 < rem_of (remaining_bursts st) i) (rq st ++ jq st);
  inv_nonneg : Forall (fun b => 0 <= b) (remaining_bursts st);
  inv_arrived : Forall (fun i => arrival st i <= curr_time st) (rq st)
}.

(** The processes in the queues. *)
Definition population (st : state) : Z := size (rq st) + size (jq st).

(** The total remaining burst. *)
Definition total_remaining (st : state) : Z := sum (remaining_bursts st).

(** Between two states of a run the read-only fields stay and nothing grows. *)
Record stable (st st' : state) : Prop := mkStable {
  st_static : map static (processes st') = map static (processes st);
  st_sum : total_remaining st' <= total_remaining st;
  st_jq : size (jq st') <= size (jq st);
  st_pop : population st' <= population st
}.

(** What an iteration that continues brings: a process leaves the pending
    queue, or a process leaves the queues, or the total remaining burst
    decreases by a quantum at least. *)
Definition progress (q : Z) (st st' : state) : Prop :=
  size (jq st') < size (jq st) \/
  population st' < population st \/
  total_remaining st' <= total_remaining st - q.

Definition advance (q : Z) (st st' : state) : Prop :=
  stable st st' /\ progress q st st'.

(** The head of the pending queue joins the ready queue (lines 55-56 and
    147-148). *)
Definition arrive (st : state) : state :=
  with_queues st (push_back (rq st) (hd 0 (jq st))) (erase_begin (jq st)).

(** An iteration either is [next] or, with a zero quantum, divides by zero. *)
Definition runs_as (r : result control) (c : control) (q : Z) : Prop :=
  (r = Ok c /\ in_range (state_of c)) \/ (q = 0 /\ r = Fail undefined_behaviour).

(** ** Inputs and runs *)

(** The process at position [i] has id [i]: ids index [processes] and
    [remaining_bursts]. *)
Definition ids_are_indices (ps : list Process) : Prop :=
  map id ps = map Z.of_nat (List.seq 0 (length ps)).

Definition positive_bursts (ps : list Process) : Prop :=
  Forall (fun p => 0 < burst p) ps.

Definition nonneg_arrivals (ps : list Process) : Prop :=
  Forall (fun p => 0 <= arrival_time p) ps.

Definition unset_starts (ps : list Process) : Prop :=
  Forall (fun p => start_time p = -1) ps.

(** A bound on the iterations left. *)
Definition measure (st : state) : Z :=
  total_remaining st + size (jq st) + population st.

(** A number of iterations that suffices on such inputs. *)
Definition enough_fuel (ps : list Process) : nat :=
  S (Z.to_nat (measure (initial ps))).

(** ** The trace *)


(** A state without its trace. *)
Definition core (st : state) : Z * list Z * list Z * list Z * list Process :=
  (curr_time st, rq st, jq st, remaining_bursts st, processes st).

(** ** The moves of an iteration *)

(** The elementary moves of an iteration, each from a state that satisfies
    the invariant: the bootstrap dispatch, an arrival, a bulk skip, a quantum
    of the head, the requeue of the head with the arrivals, a completion. *)
Inductive move (q M : Z) : state -> state -> Prop :=
| move_bootstrap st :
    Inv st -> rq st = [] -> jq st <> [] ->
    move q M st (bootstrap_p M st)
| move_arrive st :
    Inv st -> jq st <> [] -> seq st <> [] ->
    arrival st (hd 0 (jq st)) <= curr_time st ->
    move q M st (arrive st)
| move_bulk st k :
    Inv st -> rq st <> [] -> 1 <= k ->
    (forall r, In r (rq st) -> q * k < rem_of (remaining_bursts st) r) ->
    move q M st (bulk_skip_p q M k st)
| move_quantum st :
    Inv st -> rq st <> [] -> q < head_rem st ->
    move q M st (run_quantum_p q M st)
| move_requeue st rq' jq' :
    Inv st -> rq st <> [] -> seq st <> [] ->
    requeue_with_arrivals_p (processes st) (curr_time st) (rq st) (jq st) = (rq', jq') ->
    move q M st (with_queues st rq' jq')
| move_complete st :
    Inv st -> rq st <> [] ->
    move q M st (run_to_completion_p M st).

(** A sequence of moves. *)
Inductive moves (q M : Z) : state -> state -> Prop :=
| moves_done st : moves q M st st
| moves_step a b c : move q M a b -> moves q M b c -> moves q M a c.

(** What a move does to the start time of process [i]: nothing, or a first
    write, at the current time or later, for a process of the ready queue. *)
Definition start_written (a b : state) (i : Z) : Prop :=
  start_time (proc (processes b) i) = start_time (proc (processes a) i) \/
  (start_time (proc (processes a) i) = -1 /\ In i (rq a) /\
   curr_time a <= start_time (proc (processes b) i)).

(** Every process has its start time unset or no earlier than its arrival,
    and the processes that left the queues have started. *)
Definition starts_ok (st : state) : Prop :=
  forall i, 0 <= i < size (processes st) ->
    (start_time (proc (processes st) i) = -1 \/
     arrival st i <= start_time (proc (processes st) i)) /\
    (~ In i (rq st ++ jq st) -> arrival st i <= start_time (proc (processes st) i)).

(** A start time that is set is never written again. *)
Definition starts_kept (a b : state) : Prop :=
  forall i, 0 <= i -> start_time (proc (processes a) i) <> -1 ->
    start_time (proc (processes b) i) = start_time (proc (processes a) i).

(** The time and the arrivals are not negative. *)
Definition timed (st : state) : Prop :=
  0 <= curr_time st /\ Forall (fun a => 0 <= a) (map arrival_time (processes st)).

(** ** The bulk skip and the naive run *)

(** An iteration after its bootstrap dispatch. *)
Definition block (bulk : bool) (q M : Z) (s : state) : control :=
  if negb (empty (rq s)) && negb (empty (jq s)) then step_pending_p bulk q M s
  else if negb (empty (rq s)) && empty (jq s) then step_drained_p bulk q M s
  else Continue s.

(** Lines 39-49, when their test holds. *)
Definition boot (M : Z) (st : state) : state :=
  if bootstrap_guard st then bootstrap_p M st else st.

(** The tests of lines 54 and 158. *)
Definition tie (s : state) : bool :=
  negb (empty (jq s)) &&
  (arrival_time (proc (processes s) (hd 0 (jq s))) =? curr_time s).

Definition last_one (s : state) : bool := empty (jq s) && (size (rq s) =? 1).

(** The state at lines 105 and 211. *)
Definition skip (bulk : bool) (q M : Z) (s : state) : state :=
  if empty (jq s) then skip_drained_p bulk q M s else skip_pending_p bulk q M s.

(** Lines 105-151 and 211-239: the head runs for a quantum or to completion. *)
Definition single (q M : Z) (s : state) : state :=
  if empty (jq s) then
    if q <? head_rem s then preempt_drained_p q M s else run_to_completion_p M s
  else
    if q <? head_rem s then preempt_pending_p q M s else complete_pending_p M s.

(** The rest of a run from the state after a bootstrap dispatch. *)
Definition cont (bulk : bool) (q M : Z) (n : nat) (s : state) : result state :=
  match block bulk q M s with
  | Continue s' => Ideal.loop bulk q M n s'
  | Break s' => Ok s'
  end.

(** The naive run ahead of the optimized one: the processes [A] at the head
    of the pending queue of [O] have arrived, and the naive run has them at
    the tail of its ready queue. *)
Definition catch_up (O : state) (A J : list Z) : state :=
  mkState (curr_time O) (rq O ++ A) J (remaining_bursts O) (processes O) (seq O).

(** [O] holds back the processes [A], which have arrived, and [J] behind
    them. *)
Record lagging (O : state) (A J : list Z) : Prop := mkLagging {
  lag_jq : jq O = A ++ J;
  lag_arrived : Forall (fun a => arrival O a <= curr_time O) A;
  lag_ready : A <> [] -> rq O <> []
}.

(** [n] single quanta in a row, each followed by the requeue of the head. *)
Fixpoint quanta (q M : Z) (n : nat) (x : state) : state :=
  match n with
  | O => x
  | S n' => quanta q M n' (preempt_drained_p q M x)
  end.

(** The state after as many quanta as [post] is long, from a ready queue
    [post ++ pre]. *)
Definition round_state (q M : Z) (post pre : list Z) (x : state) : state :=
  mkState (curr_time x + size post * q) (pre ++ post) (jq x)
    (snd (stagger_p q 1 (curr_time x) 0 post (processes x) (remaining_bursts x)))
    (fst (stagger_p q 1 (curr_time x) 0 post (processes x) (remaining_bursts x)))
    (emit_round_p M post (seq x)).

(** ** Scenarios *)

(** Scenario B of the specification. *)
Definition scenarioB : list Process :=
  [mkProcess 0 0 4 (-1) (-1); mkProcess 1 1 4 (-1) (-1)].

(** An arrival at time -1, which the specification excludes: the first
    dispatch writes the start time -1, which reads as unset. *)
Definition negative_arrival : list Process :=
  [mkProcess 0 (-1) 9 (-1) (-1); mkProcess 1 100 1 (-1) (-1)].

(** A run in which the bulk skip is taken: it returns after 3 iterations,
    where the naive run needs 11. *)
Definition long_bursts : list Process :=
  [mkProcess 0 0 9 (-1) (-1); mkProcess 1 0 9 (-1) (-1)].

(** Two processes with an idle gap between them. *)
Definition idle_gap : list Process :=
  [mkProcess 0 0 1 (-1) (-1); mkProcess 1 5 1 (-1) (-1)].

(** A ready queue [0; 1] with a pending queue [2; 3; 4] whose processes
    arrive at times 1, 2 and 2, at time 0 with quantum 2. *)
Definition tie_state : state :=
  mkState 0 [0; 1] [2; 3; 4] [5; 5; 5; 5; 5]
    [mkProcess 0 0 5 (-1) (-1); mkProcess 1 0 5 (-1) (-1);
     mkProcess 2 1 5 (-1) (-1); mkProcess 3 2 5 (-1) (-1);
     mkProcess 4 2 5 (-1) (-1)]
    [0].

(** A process whose id is not its position, in an input that is otherwise
    as the specification asks. *)
Definition stray_id : list Process := [mkProcess 7 0 3 (-1) (-1)].

(** ** Actions, invariants and scenarios of the further properties *)

(** [sq'] is [sq] followed by entries of [xs]. *)
Definition extends (xs sq sq' : list Z) : Prop :=
  exists l, sq' = sq ++ l /\ incl l xs.

(** The entries of the trace are idle markers and indices of processes. *)
Definition entries_ok (st : state) : Prop :=
  Forall (fun x => x = -1 \/ 0 <= x < size (processes st)) (seq st).

(** Below the cap, the processes that left the queues are in the trace. *)
Definition shown (M : Z) (st : state) : Prop :=
  size (seq st) < M ->
  forall i, 0 <= i < size (processes st) -> In i (rq st ++ jq st) \/ In i (seq st).

(** A move leaves process [i] alone. *)
Definition untouched (a b : state) (i : Z) : Prop :=
  proc (processes b) i = proc (processes a) i /\
  rem_of (remaining_bursts b) i = rem_of (remaining_bursts a) i.

(** Process [i] of the ready queue runs for [d] units from time [t] on,
    without completing. *)
Definition ran (a b : state) (i : Z) : Prop :=
  In i (rq a) /\
  exists t d,
    proc (processes b) i =
      (if start_time (proc (processes a) i) =? -1
       then with_start (proc (processes a) i) t else proc (processes a) i) /\
    rem_of (remaining_bursts b) i = rem_of (remaining_bursts a) i - d /\
    0 < d < rem_of (remaining_bursts a) i /\
    curr_time a <= t /\ t + d <= curr_time b.

(** Process [i] is the head of the ready queue and runs to completion. *)
Definition completed (M : Z) (a b : state) (i : Z) : Prop :=
  rq a <> [] /\ i = hd 0 (rq a) /\ b = run_to_completion_p M a.

(** An unstarted process has its whole burst left, the pending processes are
    unstarted, a ready process that has started has run no longer than the
    time since its start, and a process that left the queues finished its
    burst or more after its start. *)
Definition served (st : state) : Prop :=
  forall i, 0 <= i < size (processes st) ->
    let p := proc (processes st) i in
    let r := rem_of (remaining_bursts st) i in
    (start_time p = -1 -> r = burst p) /\
    (In i (jq st) -> start_time p = -1) /\
    (In i (rq st) -> start_time p <> -1 -> start_time p + burst p - r <= curr_time st) /\
    (~ In i (rq st ++ jq st) ->
     start_time p <> -1 /\ start_time p + burst p <= finish_time p).

(** The latest arrival time, or 0 when every process arrives before 0. *)
Definition latest_arrival (ps : list Process) : Z :=
  fold_right Z.max 0 (map arrival_time ps).

(** No arrival is after [A]; from the current time, as from [A], the work
    left ends by [T]; the processes that left the queues finished by [T]. *)
Definition on_time (A T : Z) (st : state) : Prop :=
  (forall i, arrival st i <= A) /\
  curr_time st + total_remaining st <= T /\
  A + total_remaining st <= T /\
  forall i, 0 <= i < size (processes st) -> ~ In i (rq st ++ jq st) ->
    finish_time (proc (processes st) i) <= T.

(** The actions of an iteration after the bootstrap dispatch. *)
Inductive act (q M : Z) : state -> state -> Prop :=
| act_tie s :
    Inv s -> rq s <> [] -> tie s = true ->
    act q M s (arrive s)
| act_last s :
    Inv s -> rq s <> [] -> last_one s = true ->
    act q M s (run_to_completion_p M s)
| act_bulk s k :
    Inv s -> rq s <> [] -> 1 <= k ->
    (forall r, In r (rq s) -> q * k < rem_of (remaining_bursts s) r) ->
    jq s = [] \/ curr_time s + k * size (rq s) * q <= arrival s (hd 0 (jq s)) ->
    act q M s (bulk_skip_p q M k s)
| act_single s :
    Inv s -> rq s <> [] ->
    act q M s (single q M s).

(** With no process in progress and one pending, either nothing has run yet
    or the pending process arrives later: the CPU is idle. *)
Definition waiting (st : state) : Prop :=
  rq st = [] -> jq st <> [] ->
  (seq st = [] /\ curr_time st = 0) \/ curr_time st < arrival st (hd 0 (jq st)).

(** No two consecutive entries are equal. *)
Fixpoint compressed (l : list Z) : Prop :=
  match l with
  | x :: (y :: _) as l' => x <> y /\ compressed l'
  | _ => True
  end.

(** The trace is compressed as long as it is within the cap, and when no
    process is in progress its last entry, below the cap, is a process. *)
Definition tidy (M : Z) (st : state) : Prop :=
  (size (seq st) <= M -> compressed (seq st)) /\
  (rq st = [] -> seq st = [] \/ M <= size (seq st) \/ 0 <= last (seq st) 0).

(** The state is the initial one, or its trace starts with [x]. *)
Definition headed (ps : list Process) (x : Z) (st : state) : Prop :=
  st = initial ps \/ exists l, seq st = x :: l.

(** The processes that left the queues finished by the current time, at
    different times; before the first entry of the trace no process has left
    the queues. *)
Definition apart (st : state) : Prop :=
  (forall i, 0 <= i < size (processes st) -> ~ In i (rq st ++ jq st) ->
     finish_time (proc (processes st) i) <= curr_time st) /\
  (forall i j, 0 <= i < size (processes st) -> 0 <= j < size (processes st) ->
     i <> j -> ~ In i (rq st ++ jq st) -> ~ In j (rq st ++ jq st) ->
     finish_time (proc (processes st) i) <> finish_time (proc (processes st) j)) /\
  (seq st = [] -> forall i, 0 <= i < size (processes st) -> In i (rq st ++ jq st)).

(** Process [i] has no start time yet. *)
Definition unstartedb (ps : list Process) (i : Z) : bool :=
  start_time (proc ps i) =? -1.

(** Every entry is less than the entries after it. *)
Fixpoint increasing (l : list Z) : Prop :=
  match l with
  | [] => True
  | x :: l' => Forall (Z.lt x) l' /\ increasing l'
  end.

(** The processes that have started did so before the current time and in
    the order of their indices, before every process that has not; the
    processes of the queues that have not started are queued in the order of
    their indices; a process that left the queues has started; before the
    first entry of the trace no process has started. *)
Definition fifo (st : state) : Prop :=
  let ps := processes st in
  (forall i, 0 <= i < size ps -> start_time (proc ps i) <> -1 ->
     start_time (proc ps i) < curr_time st) /\
  (forall i j, 0 <= i -> i < j -> j < size ps -> start_time (proc ps j) <> -1 ->
     start_time (proc ps i) <> -1 /\ start_time (proc ps i) < start_time (proc ps j)) /\
  increasing (filter (unstartedb ps) (rq st ++ jq st)) /\
  (forall i, 0 <= i < size ps -> ~ In i (rq st ++ jq st) -> start_time (proc ps i) <> -1) /\
  (seq st = [] -> forall i, 0 <= i < size ps -> start_time (proc ps i) = -1).

(** Nothing has run and process 0 heads the pending queue, or process 0 has
    started at [a0], or it heads the ready queue at time [a0], unstarted. *)
Definition first_served (a0 : Z) (st : state) : Prop :=
  (seq st = [] /\ jq st <> [] /\ hd 0 (jq st) = 0 /\
   start_time (proc (processes st) 0) = -1) \/
  start_time (proc (processes st) 0) = a0 \/
  (start_time (proc (processes st) 0) = -1 /\ rq st <> [] /\ hd 0 (rq st) = 0 /\
   curr_time st = a0).

(** ** Runs that stay within 64 bits *)

(** The largest absolute arrival time of [ps]. *)
Definition span (ps : list Process) : Z :=
  fold_right (fun p r => Z.max (Z.abs (arrival_time p)) r) 0 ps.

(** An input whose run never overflows: fewer than [2^31] processes, and
    twice the largest absolute arrival time, the sum of the bursts and one
    quantum for each process together below [2^63]. *)
Definition fits (q : Z) (ps : list Process) : Prop :=
  size ps < 2147483648 /\
  2 * span ps + sum (map burst ps) + size ps * q < 9223372036854775808.

(** The states of such a run, for a bound [R] on the arrivals and a bound [B]
    on the total burst. *)
Record within (q R B : Z) (st : state) : Prop := mkWithin {
  wi_size : size (processes st) < 2147483648;
  wi_fit : 2 * R + B + size (processes st) * q < 9223372036854775808;
  wi_arr : forall i, - R <= arrival st i <= R;
  wi_lo : - R <= curr_time st;
  wi_tot : total_remaining st <= B;
  wi_hi : curr_time st + total_remaining st <= R + B
}.

(** ** The single steps of the program as total functions

    The steps that divide nothing, on states whose queues hold indices of
    [processes]: the functions of the same name in the section on the loop
    body as a total function, with the arithmetic of the program. *)

Definition run_quantum_w (quantum max_seq_len : Z) (st : state) : state :=
  let r0 := hd 0 (rq st) in
  mkState (add64 (curr_time st) quantum) (rq st) (jq st)
    (put (remaining_bursts st) r0
       (sub64 (rem_of (remaining_bursts st) r0) quantum))
    (start_p (processes st) r0 (curr_time st))
    (emit_p max_seq_len (seq st) r0).

Definition run_to_completion_w (max_seq_len : Z) (st : state) : state :=
  let r0 := hd 0 (rq st) in
  let t := add64 (curr_time st) (rem_of (remaining_bursts st) r0) in
  let ps := start_p (processes st) r0 (curr_time st) in
  mkState t (erase_begin (rq st)) (jq st)
    (put (remaining_bursts st) r0 0)
    (put ps r0 (with_finish (proc ps r0) t))
    (emit_p max_seq_len (seq st) r0).

Definition preempt_pending_w (quantum max_seq_len : Z) (st : state) : state :=
  let st2 := run_quantum_w quantum max_seq_len st in
  let '(rq', jq') := requeue_with_arrivals_p (processes st2) (curr_time st2)
                       (rq st2) (jq st2) in
  with_queues st2 rq' jq'.

Definition complete_pending_w (max_seq_len : Z) (st : state) : state :=
  let st2 := run_to_completion_w max_seq_len st in
  let j := hd 0 (jq st2) in
  if arrival_time (proc (processes st2) j) <=? curr_time st2
  then with_queues st2 (push_back (rq st2) j) (erase_begin (jq st2))
  else st2.

Definition preempt_drained_w (quantum max_seq_len : Z) (st : state) : state :=
  let st2 := run_quantum_w quantum max_seq_len st in
  with_queues st2 (requeue_p (rq st2)) (jq st2).

(** An iteration that throws no [std::out_of_range]: it ends in a state in
    range, or divides by zero. *)
Definition safe (r : result control) : Prop :=
  (exists c, r = Ok c /\ in_range (state_of c)) \/ r = Fail undefined_behaviour.

(** ** Runs that differ in the cap *)

(** Two states that differ in their traces only, neither of them empty. *)
Definition alike (a b : state) : Prop :=
  core a = core b /\ seq a <> [] /\ seq b <> [].

(** Two states that differ in their traces only, neither of them empty when
    a process is in progress. *)
Definition akin (a b : state) : Prop :=
  core a = core b /\ (rq a <> [] -> seq a <> [] /\ seq b <> []).

Definition same_control (R : state -> state -> Prop) (c d : control) : Prop :=
  match c, d with
  | Continue a, Continue b => R a b
  | Break a, Break b => R a b
  | _, _ => False
  end.

(** Two results that fail alike or return related values. *)
Definition agree {A : Type} (R : A -> A -> Prop) (r1 r2 : result A) : Prop :=
  match r1, r2 with
  | Ok a, Ok b => R a b
  | Fail f, Fail g => f = g
  | _, _ => False
  end.

(** What a run returns in [processes]. *)
Definition times (r : result (list Process * list Z)) : result (list Process) :=
  match r with
  | Ok (ps, _) => Ok ps
  | Fail f => Fail f
  end.

(** ** Inputs of the specification and runs that overflow *)

(** The inputs that the specification admits: a positive quantum, a cap that
    is not negative, and processes with distinct ids, sorted by arrival time,
    with arrival times that are not negative, positive bursts and start times
    unset. *)
Definition well_formed (q M : Z) (ps : list Process) : Prop :=
  0 < q /\ 0 <= M /\ NoDup (map id ps) /\ Sorted Z.le (map arrival_time ps) /\
  nonneg_arrivals ps /\ positive_bursts ps /\ unset_starts ps.

(** Five processes and the quantum [2^62]: with four processes ready, the
    length of a round, [4 * 2^62], wraps around to 0. *)
Definition wide_quantum : Z := 4611686018427387904.

Definition five_ready : list Process :=
  [mkProcess 0 0 1 (-1) (-1); mkProcess 1 0 1 (-1) (-1);
   mkProcess 2 0 1 (-1) (-1); mkProcess 3 0 1 (-1) (-1);
   mkProcess 4 100 1 (-1) (-1)].


(** Five processes and the quantum [2^61]: the time wraps around in the test
    of line 81, and the bulk skip is taken for a negative number of rounds. *)
Definition long_quantum : Z := 2305843009213693952.

Definition long_rounds : list Process :=
  [mkProcess 0 0 long_quantum (-1) (-1); mkProcess 1 1 long_quantum (-1) (-1);
   mkProcess 2 1 long_quantum (-1) (-1);
   mkProcess 3 1 (long_quantum + 5) (-1) (-1); mkProcess 4 1 1 (-1) (-1)].

(** The state of [idle_gap] when its first process has completed and the
    second has not arrived. *)
Definition idle_state : state :=
  mkState 1 [] [1] [0; 1]
    [mkProcess 0 0 1 0 1; mkProcess 1 5 1 (-1) (-1)] [0].

(** A ready queue [0] at time [2^63 - 2], with a process pending that arrives
    at [2^63 - 1]: the quantum 2 takes the time to [-2^63]. *)
Definition last_instant : state :=
  mkState 9223372036854775806 [0] [1] [5; 5]
    [mkProcess 0 0 5 0 (-1); mkProcess 1 9223372036854775807 5 (-1) (-1)] [0].

(** Two processes ready with long bursts and one pending that arrives at
    time 100: the state of [skip_input] after its first iteration. *)
Definition skip_input : list Process :=
  [mkProcess 0 0 9 (-1) (-1); mkProcess 1 0 9 (-1) (-1);
   mkProcess 2 100 1 (-1) (-1)].

Definition skip_state : state :=
  mkState 0 [0; 1] [2] [9; 9; 1] skip_input [0].

(** * Properties of the loop, over unbounded integers *)

(** ** Vectors *)

Lemma vec_at_ok {A : Type} (d : A) (v : list A) (i : Z) :
  0 <= i < size v -> vec_at v i = Ok (nth (Z.to_nat i) v d).
Proof.
  unfold vec_at, size. intros H.
  destruct (Z.ltb_spec i 0); [lia|].
  destruct (nth_error v (Z.to_nat i)) eqn:E.
  - now rewrite (nth_error_nth _ _ d E).
  - apply nth_error_None in E. lia.
Qed.

Lemma length_upd {A : Type} (n : nat) (a : A) (v : list A) :
  length (upd n a v) = length v.
Proof.
  revert n; induction v as [|x v IH]; intros [|n]; simpl; auto.
Qed.

Lemma nth_upd_same {A : Type} (d : A) (n : nat) (a : A) (v : list A) :
  (n < length v)%nat -> nth n (upd n a v) d = a.
Proof.
  revert n; induction v as [|x v IH]; intros [|n]; simpl; intros H;
    try lia; auto.
  apply IH. lia.
Qed.

Lemma nth_upd_other {A : Type} (d : A) (n m : nat) (a : A) (v : list A) :
  n <> m -> nth m (upd n a v) d = nth m v d.
Proof.
  revert n m; induction v as [|x v IH]; intros [|n] [|m]; simpl; intros H;
    try congruence; auto.
Qed.

Lemma map_upd {A B : Type} (f : A -> B) (d : A) (n : nat) (a : A) (v : list A) :
  f a = f (nth n v d) -> map f (upd n a v) = map f v.
Proof.
  revert n; induction v as [|x v IH]; intros [|n]; simpl; intros H; auto.
  - now rewrite H.
  - now rewrite IH.
Qed.

Lemma vec_set_ok {A : Type} (v : list A) (i : Z) (a : A) :
  0 <= i < size v -> vec_set v i a = Ok (put v i a).
Proof.
  unfold vec_set, size, put. intros H.
  destruct (Z.ltb_spec i 0); [lia|].
  destruct (Nat.ltb_spec (Z.to_nat i) (length v)); [reflexivity|lia].
Qed.

Lemma size_put {A : Type} (v : list A) (i : Z) (a : A) : size (put v i a) = size v.
Proof. unfold size, put. now rewrite length_upd. Qed.

Lemma rem_of_put_same (v : list Z) (i a : Z) :
  0 <= i < size v -> rem_of (put v i a) i = a.
Proof. unfold rem_of, put, size. intros. apply nth_upd_same. lia. Qed.

Lemma rem_of_put_other (v : list Z) (i j a : Z) :
  0 <= i -> 0 <= j -> i <> j -> rem_of (put v i a) j = rem_of v j.
Proof. unfold rem_of, put. intros. apply nth_upd_other. lia. Qed.

Lemma proc_put_same (v : list Process) (i : Z) (p : Process) :
  0 <= i < size v -> proc (put v i p) i = p.
Proof. unfold proc, put, size. intros. apply nth_upd_same. lia. Qed.

Lemma proc_put_other (v : list Process) (i j : Z) (p : Process) :
  0 <= i -> 0 <= j -> i <> j -> proc (put v i p) j = proc v j.
Proof. unfold proc, put. intros. apply nth_upd_other. lia. Qed.

(** ** The pieces of the loop body never fail on indices in range *)

Lemma valid_app n l1 l2 : valid n (l1 ++ l2) <-> valid n l1 /\ valid n l2.
Proof. apply Forall_app. Qed.

Lemma valid_cons n x l : valid n (x :: l) <-> 0 <= x < n /\ valid n l.
Proof. apply Forall_cons_iff. Qed.

Lemma valid_tl n l : valid n l -> valid n (tl l).
Proof. destruct l; simpl; auto. intros H. now apply valid_cons in H. Qed.

Lemma valid_hd n l : valid n l -> l <> [] -> 0 <= hd 0 l < n.
Proof. destruct l; simpl; [congruence|]. intros H _. now apply valid_cons in H. Qed.

Lemma valid_push n l x : valid n l -> 0 <= x < n -> valid n (push_back l x).
Proof. intros. apply valid_app. split; auto. apply valid_cons. split; auto. constructor. Qed.

Lemma vec_at_hd (v : list Z) : v <> [] -> vec_at v 0 = Ok (hd 0 v).
Proof. destruct v; [congruence|reflexivity]. Qed.

Lemma size_nonneg {A : Type} (v : list A) : 0 <= size v.
Proof. unfold size. lia. Qed.

Lemma size_app {A : Type} (u v : list A) : size (u ++ v) = size u + size v.
Proof. unfold size. rewrite length_app. lia. Qed.

Lemma size_cons {A : Type} (x : A) (v : list A) : size (x :: v) = 1 + size v.
Proof. unfold size. simpl length. lia. Qed.

Lemma emit_eq M sq x : sq <> [] -> emit M sq x = Ok (emit_p M sq x).
Proof.
  unfold emit, emit_p, back. intros H.
  destruct (size sq <? M); [|reflexivity].
  destruct sq; [congruence|]. cbn [bind].
  now destruct (last _ 0 =? x).
Qed.

Lemma emit_p_nonempty M sq x : sq <> [] -> emit_p M sq x <> [].
Proof.
  unfold emit_p, push_back. intros H.
  destruct (size sq <? M); auto. destruct (last sq 0 =? x); auto.
  destruct sq; simpl; congruence.
Qed.

Lemma size_start_p ps i t : size (start_p ps i t) = size ps.
Proof. unfold start_p. destruct (_ =? _); auto using size_put. Qed.

Lemma start_eq ps i t :
  0 <= i < size ps -> set_start_if_unset ps i t = Ok (start_p ps i t).
Proof.
  intros H. unfold set_start_if_unset, start_p, proc.
  rewrite (vec_at_ok dummy) by assumption. cbn [bind].
  destruct (_ =? _); [now apply vec_set_ok|reflexivity].
Qed.

Lemma scan_eq q rem rs m :
  valid (size rem) rs -> scan_bursts q rem rs m = Ok (scan_p q rem rs m).
Proof.
  revert m; induction rs as [|r rs IH]; intros m H; simpl; [reflexivity|].
  apply valid_cons in H as [Hr H].
  rewrite (vec_at_ok 0) by assumption. cbn [bind]. fold (rem_of rem r).
  destruct (_ <=? _); [reflexivity|]. now apply IH.
Qed.

Lemma skippable_eq q st :
  in_range st -> rq st <> [] ->
  Ideal.skippable_rounds q st =
  if q =? 0 then Fail undefined_behaviour else Ok (skippable_p q st).
Proof.
  intros [Hl Hr Hj Hs] Hne. unfold Ideal.skippable_rounds, skippable_p.
  rewrite vec_at_hd by assumption. cbn [bind].
  rewrite (vec_at_ok 0) by (rewrite Hl; now apply valid_hd). cbn [bind].
  fold (rem_of (remaining_bursts st) (hd 0 (rq st))).
  rewrite scan_eq by now rewrite Hl. cbn [bind].
  destruct (scan_p _ _ _ _) as [flag mb]. unfold Ideal.full_rounds, full_rounds_p.
  now destruct (q =? 0).
Qed.

Lemma stagger_sizes q k c i rs ps rem :
  size (fst (stagger_p q k c i rs ps rem)) = size ps /\
  size (snd (stagger_p q k c i rs ps rem)) = size rem.
Proof.
  revert i ps rem; induction rs as [|r rs IH]; intros i ps rem; simpl; auto.
  destruct (IH (i + 1) (start_p ps r (c + q * i)) (put rem r (rem_of rem r - q * k)))
    as [H1 H2].
  now rewrite H1, H2, size_start_p, size_put.
Qed.

Lemma stagger_eq q k c i rs ps rem :
  size rem = size ps -> valid (size ps) rs ->
  Ideal.stagger q k c i rs ps rem = Ok (stagger_p q k c i rs ps rem).
Proof.
  revert i ps rem; induction rs as [|r rs IH]; intros i ps rem Hl H; simpl;
    [reflexivity|].
  apply valid_cons in H as [Hr H].
  rewrite start_eq by assumption. cbn [bind].
  rewrite (vec_at_ok 0) by now rewrite Hl. cbn [bind].
  rewrite vec_set_ok by now rewrite Hl. cbn [bind].
  fold (rem_of rem r). apply IH.
  - now rewrite size_put, size_start_p.
  - now rewrite size_start_p.
Qed.

Lemma emit_round_p_nonempty M rs sq : sq <> [] -> emit_round_p M rs sq <> [].
Proof.
  unfold emit_round_p. revert sq; induction rs as [|r rs IH]; intros sq H; simpl; auto.
  apply IH. now apply emit_p_nonempty.
Qed.

Lemma emit_round_eq M rs sq :
  sq <> [] -> emit_round M rs sq = Ok (emit_round_p M rs sq).
Proof.
  unfold emit_round_p. revert sq; induction rs as [|r rs IH]; intros sq H; simpl;
    [reflexivity|].
  rewrite emit_eq by assumption. cbn [bind]. apply IH. now apply emit_p_nonempty.
Qed.

Lemma emit_rounds_p_nonempty M c rs sq : sq <> [] -> emit_rounds_p M c rs sq <> [].
Proof.
  revert sq; induction c as [|c IH]; intros sq H; simpl; auto.
  apply IH. now apply emit_round_p_nonempty.
Qed.

Lemma emit_rounds_eq M c rs sq :
  sq <> [] -> emit_rounds M c rs sq = Ok (emit_rounds_p M c rs sq).
Proof.
  revert sq; induction c as [|c IH]; intros sq H; simpl; [reflexivity|].
  rewrite emit_round_eq by assumption. cbn [bind]. apply IH.
  now apply emit_round_p_nonempty.
Qed.

Lemma bulk_skip_eq q M k st :
  in_range st -> rq st <> [] ->
  Ideal.bulk_skip q M k st = Ok (bulk_skip_p q M k st) /\
  in_range (bulk_skip_p q M k st).
Proof.
  intros [Hl Hr Hj Hs] Hne. unfold Ideal.bulk_skip, bulk_skip_p.
  rewrite stagger_eq by assumption. cbn [bind].
  pose proof (stagger_sizes q k (curr_time st) 0 (rq st) (processes st)
                (remaining_bursts st)) as [H1 H2].
  destruct (stagger_p _ _ _ _ _ _ _) as [ps rem]. simpl in H1, H2.
  rewrite emit_rounds_eq by auto. cbn [bind]. split; [reflexivity|].
  constructor; simpl; rewrite ?H1, ?H2; auto.
  intros _. apply emit_rounds_p_nonempty; auto.
Qed.

Lemma bootstrap_eq M st :
  in_range st -> jq st <> [] ->
  bootstrap M st = Ok (bootstrap_p M st) /\ in_range (bootstrap_p M st).
Proof.
  intros [Hl Hr Hj Hs] Hne. unfold bootstrap, bootstrap_p.
  rewrite vec_at_hd by assumption. cbn [bind].
  assert (Hv : valid (size (processes st)) (push_back (rq st) (hd 0 (jq st)))).
  { apply valid_push; auto. now apply valid_hd. }
  assert (Hn : push_back (rq st) (hd 0 (jq st)) <> []).
  { unfold push_back. destruct (rq st); simpl; congruence. }
  rewrite vec_at_hd by assumption. cbn [bind].
  rewrite (vec_at_ok dummy) by now apply valid_hd. cbn [bind].
  split; [reflexivity|].
  constructor; simpl; auto using valid_tl.
  intros _. unfold push_back. destruct (_ && _); destruct (seq st); simpl; congruence.
Qed.

Lemma run_quantum_eq q M st :
  in_range st -> rq st <> [] ->
  Ideal.run_quantum q M st = Ok (run_quantum_p q M st) /\
  in_range (run_quantum_p q M st).
Proof.
  intros [Hl Hr Hj Hs] Hne. unfold Ideal.run_quantum, run_quantum_p.
  pose proof (valid_hd _ _ Hr Hne) as Hh.
  rewrite vec_at_hd by assumption. cbn [bind].
  rewrite start_eq by assumption. cbn [bind].
  rewrite emit_eq by auto. cbn [bind].
  rewrite (vec_at_ok 0) by now rewrite Hl. cbn [bind].
  rewrite vec_set_ok by now rewrite Hl. cbn [bind].
  split; [reflexivity|].
  constructor; simpl; rewrite ?size_put, ?size_start_p; auto.
  intros _. apply emit_p_nonempty; auto.
Qed.

Lemma run_to_completion_eq M st :
  in_range st -> rq st <> [] ->
  Ideal.run_to_completion M st = Ok (run_to_completion_p M st) /\
  in_range (run_to_completion_p M st) /\
  seq (run_to_completion_p M st) <> [].
Proof.
  intros [Hl Hr Hj Hs] Hne. unfold Ideal.run_to_completion, run_to_completion_p.
  pose proof (valid_hd _ _ Hr Hne) as Hh.
  rewrite vec_at_hd by assumption. cbn [bind].
  rewrite start_eq by assumption. cbn [bind].
  rewrite (vec_at_ok 0) by now rewrite Hl. cbn [bind].
  rewrite emit_eq by auto. cbn [bind].
  rewrite vec_set_ok by now rewrite Hl. cbn [bind].
  rewrite (vec_at_ok dummy) by now rewrite size_start_p. cbn [bind].
  rewrite vec_set_ok by now rewrite size_start_p. cbn [bind].
  split; [reflexivity|].
  assert (Hse : emit_p M (seq st) (hd 0 (rq st)) <> []) by (apply emit_p_nonempty; auto).
  split; [|exact Hse].
  constructor; simpl; rewrite ?size_put, ?size_start_p; auto using valid_tl.
Qed.

Lemma arrivals_before_eq ps t rq0 jq0 :
  valid (size ps) jq0 ->
  arrivals_before ps t rq0 jq0 = Ok (arrivals_before_p ps t rq0 jq0).
Proof.
  revert rq0; induction jq0 as [|j jq0 IH]; intros rq0 H; simpl; [reflexivity|].
  apply valid_cons in H as [Hj H].
  rewrite (vec_at_ok dummy) by assumption. cbn [bind]. fold (proc ps j).
  destruct (_ <? _); [now apply IH|reflexivity].
Qed.

Lemma arrivals_before_valid n ps t rq0 jq0 :
  valid n rq0 -> valid n jq0 ->
  valid n (fst (arrivals_before_p ps t rq0 jq0)) /\
  valid n (snd (arrivals_before_p ps t rq0 jq0)) /\
  (rq0 <> [] -> fst (arrivals_before_p ps t rq0 jq0) <> []).
Proof.
  revert rq0; induction jq0 as [|j jq0 IH]; intros rq0 Hr H; simpl; auto.
  pose proof H as H'. apply valid_cons in H' as [Hj H'].
  destruct (_ <? _); simpl; auto.
  destruct (IH (push_back rq0 j)) as (H1 & H2 & H3); auto using valid_push.
  repeat split; auto. intros _. apply H3. unfold push_back.
  destruct rq0; simpl; congruence.
Qed.

Lemma requeue_eq rq0 : rq0 <> [] -> requeue rq0 = Ok (requeue_p rq0).
Proof. intros H. unfold requeue, requeue_p. now rewrite vec_at_hd. Qed.

Lemma requeue_valid n rq0 : valid n rq0 -> rq0 <> [] -> valid n (requeue_p rq0).
Proof.
  intros H Hne. unfold requeue_p. apply valid_tl, valid_push; auto.
  now apply valid_hd.
Qed.

Lemma requeue_with_arrivals_eq ps t rq0 jq0 :
  valid (size ps) rq0 -> valid (size ps) jq0 -> rq0 <> [] ->
  requeue_with_arrivals ps t rq0 jq0 = Ok (requeue_with_arrivals_p ps t rq0 jq0) /\
  valid (size ps) (fst (requeue_with_arrivals_p ps t rq0 jq0)) /\
  valid (size ps) (snd (requeue_with_arrivals_p ps t rq0 jq0)).
Proof.
  intros Hr Hj Hne. unfold requeue_with_arrivals, requeue_with_arrivals_p.
  rewrite arrivals_before_eq by assumption. cbn [bind].
  destruct (arrivals_before_valid _ ps t rq0 jq0 Hr Hj) as (H1 & H2 & H3).
  destruct (arrivals_before_p ps t rq0 jq0) as [rq1 jq1]. simpl in *.
  specialize (H3 Hne).
  destruct jq1 as [|j jq1].
  - rewrite requeue_eq by assumption. simpl. auto using requeue_valid.
  - pose proof H2 as H2'. apply valid_cons in H2' as [Hj1 H2'].
    rewrite (vec_at_ok dummy) by assumption. cbn [bind]. fold (proc ps j).
    rewrite requeue_eq by assumption. cbn [bind].
    destruct (_ =? _); simpl; auto using requeue_valid, valid_push.
Qed.

Lemma in_range_with_queues st rq' jq' :
  in_range st -> valid (size (processes st)) rq' ->
  valid (size (processes st)) jq' -> seq st <> [] ->
  in_range (with_queues st rq' jq').
Proof. intros [Hl Hr Hj Hs] H1 H2 H3. constructor; simpl; auto. Qed.

Lemma run_quantum_seq q M st :
  in_range st -> rq st <> [] -> seq (run_quantum_p q M st) <> [].
Proof. intros H Hne. simpl. apply emit_p_nonempty. now apply rng_seq. Qed.

Lemma preempt_pending_eq q M st :
  in_range st -> rq st <> [] ->
  Ideal.preempt_pending q M st = Ok (Continue (preempt_pending_p q M st)) /\
  in_range (preempt_pending_p q M st).
Proof.
  intros H Hne. unfold Ideal.preempt_pending, preempt_pending_p.
  destruct (run_quantum_eq q M st H Hne) as [E H2]. rewrite E. cbn [bind].
  pose proof (run_quantum_seq q M st H Hne) as Hs.
  set (st2 := run_quantum_p q M st) in *.
  destruct (requeue_with_arrivals_eq (processes st2) (curr_time st2) (rq st2) (jq st2))
    as (E2 & V1 & V2); [apply H2|apply H2|exact Hne|].
  rewrite E2. cbn [bind].
  destruct (requeue_with_arrivals_p _ _ _ _) as [rq' jq']. simpl in V1, V2.
  split; [reflexivity|]. now apply in_range_with_queues.
Qed.

Lemma complete_pending_eq M st :
  in_range st -> rq st <> [] -> jq st <> [] ->
  Ideal.complete_pending M st = Ok (Continue (complete_pending_p M st)) /\
  in_range (complete_pending_p M st).
Proof.
  intros H Hne Hj. unfold Ideal.complete_pending, complete_pending_p.
  destruct (run_to_completion_eq M st H Hne) as (E & H2 & Hs). rewrite E. cbn [bind].
  set (st2 := run_to_completion_p M st) in *.
  assert (Hj2 : jq st2 <> []) by exact Hj.
  pose proof (valid_hd _ _ (rng_jq _ H2) Hj2) as Hh.
  rewrite vec_at_hd by assumption. cbn [bind].
  rewrite (vec_at_ok dummy) by assumption. cbn [bind].
  fold (proc (processes st2) (hd 0 (jq st2))).
  destruct (_ <=? _); split; auto.
  apply in_range_with_queues; auto.
  - apply valid_push; auto. apply H2.
  - apply valid_tl, H2.
Qed.

Lemma preempt_drained_eq q M st :
  in_range st -> rq st <> [] ->
  Ideal.preempt_drained q M st = Ok (Continue (preempt_drained_p q M st)) /\
  in_range (preempt_drained_p q M st).
Proof.
  intros H Hne. unfold Ideal.preempt_drained, preempt_drained_p.
  destruct (run_quantum_eq q M st H Hne) as [E H2]. rewrite E. cbn [bind].
  pose proof (run_quantum_seq q M st H Hne) as Hs.
  set (st2 := run_quantum_p q M st) in *.
  rewrite requeue_eq by exact Hne. cbn [bind]. split; [reflexivity|].
  apply in_range_with_queues; auto.
  - apply requeue_valid; [apply H2|exact Hne].
  - apply H2.
Qed.

Lemma skip_pending_range bulk q M st :
  in_range st -> rq st <> [] ->
  in_range (skip_pending_p bulk q M st) /\ rq (skip_pending_p bulk q M st) = rq st
  /\ jq (skip_pending_p bulk q M st) = jq st.
Proof.
  intros H Hne. unfold skip_pending_p. destruct (skippable_p q st) as [flag n].
  destruct (_ && _); auto.
  destruct (bulk_skip_eq q M (Z.min n (Z.quot
    (arrival_time (proc (processes st) (hd 0 (jq st))) - curr_time st)
    (size (rq st) * q))) st H Hne) as [_ H2].
  split; [exact H2|]. unfold bulk_skip_p. now destruct (stagger_p _ _ _ _ _ _ _).
Qed.

Lemma skip_drained_range bulk q M st :
  in_range st -> rq st <> [] ->
  in_range (skip_drained_p bulk q M st) /\ rq (skip_drained_p bulk q M st) = rq st
  /\ jq (skip_drained_p bulk q M st) = jq st.
Proof.
  intros H Hne. unfold skip_drained_p. destruct (skippable_p q st) as [flag n].
  destruct (_ && _); auto.
  destruct (bulk_skip_eq q M n st H Hne) as [_ H2].
  split; [exact H2|]. unfold bulk_skip_p. now destruct (stagger_p _ _ _ _ _ _ _).
Qed.

Lemma step_pending_eq bulk q M st :
  in_range st -> rq st <> [] -> jq st <> [] ->
  runs_as (Ideal.step_pending bulk q M st) (step_pending_p bulk q M st) q.
Proof.
  intros H Hne Hj. unfold Ideal.step_pending, step_pending_p, runs_as.
  pose proof (valid_hd _ _ (rng_jq _ H) Hj) as Hh.
  rewrite vec_at_hd by assumption. cbn [bind].
  rewrite (vec_at_ok dummy) by assumption. cbn [bind].
  fold (proc (processes st) (hd 0 (jq st))).
  destruct (_ =? curr_time st).
  { left. split; [reflexivity|]. simpl. apply in_range_with_queues; auto.
    - apply valid_push; auto. apply H.
    - apply valid_tl, H.
    - now apply rng_seq. }
  rewrite skippable_eq by assumption.
  destruct (Z.eqb_spec q 0) as [->|Hq]; [right; auto|]. left. cbn [bind].
  destruct (skip_pending_range bulk q M st H Hne) as (H1 & Hr1 & Hj1).
  unfold skip_pending_p in *. destruct (skippable_p q st) as [flag n].
  set (k := Z.min n _) in *.
  set (st1 := if _ && _ && bulk then bulk_skip_p q M k st else st) in *.
  replace (if _ && _ && bulk then Ideal.bulk_skip q M k st else Ok st) with (Ok st1).
  2:{ subst st1. destruct (_ && _ && bulk); auto.
      symmetry. now apply bulk_skip_eq. }
  cbn [bind].
  assert (Hne1 : rq st1 <> []) by now rewrite Hr1.
  assert (Hjn1 : jq st1 <> []) by now rewrite Hj1.
  rewrite vec_at_hd by assumption. cbn [bind].
  rewrite (vec_at_ok 0)
    by (rewrite (rng_len _ H1); apply valid_hd; [apply H1|assumption]).
  cbn [bind]. fold (rem_of (remaining_bursts st1) (hd 0 (rq st1))).
  fold (head_rem st1).
  destruct (q <? head_rem st1).
  - destruct (preempt_pending_eq q M st1 H1 Hne1) as [E R]. now rewrite E.
  - destruct (complete_pending_eq M st1 H1 Hne1 Hjn1) as [E R]. now rewrite E.
Qed.

Lemma step_drained_eq bulk q M st :
  in_range st -> rq st <> [] ->
  runs_as (Ideal.step_drained bulk q M st) (step_drained_p bulk q M st) q.
Proof.
  intros H Hne. unfold Ideal.step_drained, step_drained_p, runs_as.
  destruct (size (rq st) =? 1).
  { left. destruct (run_to_completion_eq M st H Hne) as (E & R & _).
    now rewrite E. }
  rewrite skippable_eq by assumption.
  destruct (Z.eqb_spec q 0) as [->|Hq]; [right; auto|]. left. cbn [bind].
  destruct (skip_drained_range bulk q M st H Hne) as (H1 & Hr1 & Hj1).
  unfold skip_drained_p in *. destruct (skippable_p q st) as [flag n].
  set (st1 := if flag && bulk then bulk_skip_p q M n st else st) in *.
  replace (if flag && bulk then Ideal.bulk_skip q M n st else Ok st) with (Ok st1).
  2:{ subst st1. destruct (flag && bulk); auto.
      symmetry. now apply bulk_skip_eq. }
  cbn [bind].
  assert (Hne1 : rq st1 <> []) by now rewrite Hr1.
  rewrite vec_at_hd by assumption. cbn [bind].
  rewrite (vec_at_ok 0)
    by (rewrite (rng_len _ H1); apply valid_hd; [apply H1|assumption]).
  cbn [bind]. fold (rem_of (remaining_bursts st1) (hd 0 (rq st1))).
  fold (head_rem st1).
  destruct (q <? head_rem st1).
  - destruct (preempt_drained_eq q M st1 H1 Hne1) as [E R]. now rewrite E.
  - unfold Ideal.complete_drained.
    destruct (run_to_completion_eq M st1 H1 Hne1) as (E & R & _). now rewrite E.
Qed.

Lemma empty_false {A : Type} (v : list A) : empty v = false <-> v <> [].
Proof. destruct v; simpl; split; congruence. Qed.

Lemma empty_true {A : Type} (v : list A) : empty v = true <-> v = [].
Proof. destruct v; simpl; split; congruence. Qed.

Lemma step_eq bulk q M st :
  in_range st -> runs_as (Ideal.step bulk q M st) (next bulk q M st) q.
Proof.
  intros H. unfold Ideal.step, next, bootstrap_guard.
  destruct (empty (rq st)) eqn:Er; destruct (empty (jq st)) eqn:Ej; cbn [andb negb].
  - left. auto.
  - apply empty_false in Ej.
    destruct (bootstrap_eq M st H Ej) as [E H1]. rewrite E. cbn [bind].
    set (st1 := bootstrap_p M st) in *.
    assert (Hne : rq st1 <> []).
    { simpl. unfold push_back. destruct (rq st); simpl; congruence. }
    apply empty_false in Hne as Hne'. rewrite Hne'. cbn [andb negb].
    destruct (empty (jq st1)) eqn:Ej1; cbn [andb negb].
    + now apply step_drained_eq.
    + apply step_pending_eq; auto. now apply empty_false.
  - cbn [bind]. rewrite Er, Ej. cbn [andb negb].
    apply step_drained_eq; auto. now apply empty_false.
  - cbn [bind]. rewrite Er, Ej. cbn [andb negb].
    apply step_pending_eq; auto; now apply empty_false.
Qed.

(** ** Static fields, sums and the arithmetic of the bulk skip *)

Lemma static_proc ps ps' i :
  map static ps' = map static ps -> static (proc ps' i) = static (proc ps i).
Proof.
  intros H. unfold proc.
  rewrite <- !(map_nth static). now rewrite H.
Qed.

Lemma arrival_static ps ps' i :
  map static ps' = map static ps ->
  arrival_time (proc ps' i) = arrival_time (proc ps i).
Proof.
  intros H. pose proof (static_proc ps ps' i H) as E. unfold static in E.
  congruence.
Qed.

Lemma static_put ps i p :
  static p = static (proc ps i) -> map static (put ps i p) = map static ps.
Proof. intros H. unfold put. now apply map_upd with (d := dummy). Qed.

Lemma static_start_p ps i t : map static (start_p ps i t) = map static ps.
Proof.
  unfold start_p. destruct (_ =? _); [|reflexivity]. now apply static_put.
Qed.

Lemma static_fields ps ps' :
  map static ps' = map static ps ->
  map id ps' = map id ps /\ map arrival_time ps' = map arrival_time ps /\
  map burst ps' = map burst ps.
Proof.
  intros H.
  assert (E1 : forall l, map id l = map (fun x => fst (fst x)) (map static l))
    by (intros; now rewrite map_map).
  assert (E2 : forall l, map arrival_time l = map (fun x => snd (fst x)) (map static l))
    by (intros; now rewrite map_map).
  assert (E3 : forall l, map burst l = map snd (map static l))
    by (intros; now rewrite map_map).
  now rewrite (E1 ps'), (E2 ps'), (E3 ps'), H, <- E1, <- E2, <- E3.
Qed.

Lemma sum_upd n a v :
  (n < length v)%nat -> sum (upd n a v) = sum v - nth n v 0 + a.
Proof.
  revert n; induction v as [|x v IH]; intros [|n]; simpl; intros H; try lia.
  rewrite IH by lia. lia.
Qed.

Lemma sum_put v i a :
  0 <= i < size v -> sum (put v i a) = sum v - rem_of v i + a.
Proof. unfold put, rem_of, size. intros. apply sum_upd. lia. Qed.

Lemma Forall_upd {A : Type} (P : A -> Prop) n a (v : list A) :
  Forall P v -> P a -> Forall P (upd n a v).
Proof.
  revert n; induction v as [|x v IH]; intros [|n] H Ha; simpl; auto;
    inversion H; subst; constructor; auto.
Qed.

Lemma Forall_put {A : Type} (P : A -> Prop) i a (v : list A) :
  Forall P v -> P a -> Forall P (put v i a).
Proof. apply Forall_upd. Qed.

Lemma stagger_static q k c i rs ps rem :
  map static (fst (stagger_p q k c i rs ps rem)) = map static ps.
Proof.
  revert i ps rem; induction rs as [|r rs IH]; intros i ps rem; simpl; auto.
  rewrite IH. apply static_start_p.
Qed.

Lemma stagger_rem_out q k c i rs ps rem j :
  valid (size rem) rs -> 0 <= j -> ~ In j rs ->
  rem_of (snd (stagger_p q k c i rs ps rem)) j = rem_of rem j.
Proof.
  revert i ps rem; induction rs as [|r rs IH]; intros i ps rem V Hj Hn; simpl; auto.
  apply valid_cons in V as [Hr V]. simpl in Hn.
  rewrite IH; [|now rewrite size_put|assumption|tauto].
  apply rem_of_put_other; lia || tauto.
Qed.

Lemma stagger_rem_in q k c i rs ps rem j :
  valid (size rem) rs -> NoDup rs -> In j rs ->
  rem_of (snd (stagger_p q k c i rs ps rem)) j = rem_of rem j - q * k.
Proof.
  revert i ps rem; induction rs as [|r rs IH]; intros i ps rem V N Hi; simpl;
    [destruct Hi|].
  apply valid_cons in V as [Hr V]. inversion N as [|? ? Hnr N']; subst.
  destruct Hi as [->|Hi].
  - rewrite stagger_rem_out; [|now rewrite size_put|lia|assumption].
    now apply rem_of_put_same.
  - rewrite IH; [|now rewrite size_put|assumption|assumption].
    rewrite rem_of_put_other; auto; try lia.
    + unfold valid in V. rewrite Forall_forall in V. apply V in Hi. lia.
    + intros ->. contradiction.
Qed.

Lemma stagger_sum q k c i rs ps rem :
  valid (size rem) rs -> NoDup rs ->
  sum (snd (stagger_p q k c i rs ps rem)) = sum rem - size rs * (q * k).
Proof.
  revert i ps rem; induction rs as [|r rs IH]; intros i ps rem V N;
    cbn [stagger_p snd].
  - unfold size. simpl. lia.
  - apply valid_cons in V as [Hr V]. inversion N; subst.
    rewrite IH; [|now rewrite size_put|assumption].
    rewrite sum_put by assumption. rewrite size_cons. lia.
Qed.

Lemma stagger_nonneg q k c i rs ps rem :
  valid (size rem) rs -> NoDup rs ->
  Forall (fun b => 0 <= b) rem ->
  (forall r, In r rs -> q * k <= rem_of rem r) ->
  Forall (fun b => 0 <= b) (snd (stagger_p q k c i rs ps rem)).
Proof.
  revert i ps rem; induction rs as [|r rs IH]; intros i ps rem V N F H; simpl; auto.
  apply valid_cons in V as [Hr V]. inversion N as [|? ? Hnr N']; subst.
  apply IH; auto.
  - now rewrite size_put.
  - apply Forall_put; auto. specialize (H r (or_introl eq_refl)). lia.
  - intros r' Hr'. rewrite rem_of_put_other.
    + apply H. now right.
    + lia.
    + unfold valid in V. rewrite Forall_forall in V. apply V in Hr'. lia.
    + intros ->. contradiction.
Qed.

(** [scan_p] computes the minimum of the remaining bursts, and tells whether
    all of them exceed the quantum. *)
Lemma scan_true q rem rs m flag mb :
  scan_p q rem rs m = (flag, mb) -> flag = true ->
  (forall r, In r rs -> q < rem_of rem r /\ mb <= rem_of rem r) /\ mb <= m /\
  (mb = m \/ exists r, In r rs /\ mb = rem_of rem r).
Proof.
  revert m; induction rs as [|r rs IH]; intros m E F; simpl in E.
  - inversion E; subst. split; [intros r []|split; [lia|now left]].
  - destruct (Z.leb_spec (rem_of rem r) q); [inversion E; congruence|].
    apply IH in E; auto. destruct E as (H1 & H2 & H3).
    assert (Hm : mb <= rem_of rem r /\ mb <= m)
      by (destruct (Z.ltb_spec (rem_of rem r) m); lia).
    split; [|split; [lia|]].
    + intros r' [<-|Hr']; [lia|now apply H1].
    + destruct H3 as [H3|(r' & Hr' & ->)].
      * destruct (Z.ltb_spec (rem_of rem r) m); [|now left].
        right. exists r. split; [now left|assumption].
      * right. exists r'. split; [now right|reflexivity].
Qed.

Lemma full_rounds_spec q mb :
  0 < q -> q < mb ->
  1 <= full_rounds_p q mb /\ q * full_rounds_p q mb < mb <= q * (full_rounds_p q mb + 1).
Proof.
  intros Hq Hm. unfold full_rounds_p.
  rewrite Z.quot_div_nonneg, Z.rem_mod_nonneg by lia.
  pose proof (Z.div_mod mb q ltac:(lia)) as E.
  pose proof (Z.mod_pos_bound mb q Hq) as B.
  destruct (Z.eqb_spec (mb mod q) 0); nia.
Qed.

(** The rounds that [skippable_p] grants leave every ready process work. *)
Lemma skippable_spec q st n :
  0 < q -> rq st <> [] -> skippable_p q st = (true, n) ->
  1 <= n /\ forall r, In r (rq st) ->
    q < rem_of (remaining_bursts st) r /\ q * n < rem_of (remaining_bursts st) r.
Proof.
  intros Hq Hne. unfold skippable_p.
  destruct (scan_p _ _ _ _) as [flag mb] eqn:E. intros Hx. inversion Hx; subst.
  destruct (scan_true _ _ _ _ _ _ E eq_refl) as (H1 & H2 & H3).
  assert (Hmb : q < mb).
  { destruct H3 as [->|(r & Hr & ->)].
    - apply H1. destruct (rq st); [congruence|now left].
    - now apply H1. }
  destruct (full_rounds_spec q mb Hq Hmb) as (F1 & F2 & F3).
  split; [assumption|]. intros r Hr. destruct (H1 r Hr). lia.
Qed.

(** ** The invariant through the pieces of an iteration *)

Lemma size_tl {A : Type} (v : list A) : v <> [] -> size (tl v) = size v - 1.
Proof. destruct v; [congruence|]. intros _. unfold size. simpl tl. simpl length. lia. Qed.

Lemma size_push {A : Type} (v : list A) (x : A) : size (push_back v x) = size v + 1.
Proof. unfold push_back. rewrite size_app, size_cons. unfold size. simpl. lia. Qed.

Lemma hd_tl (v : list Z) : v <> [] -> v = hd 0 v :: tl v.
Proof. destruct v; [congruence|reflexivity]. Qed.

Lemma stable_refl st : stable st st.
Proof. constructor; reflexivity || lia. Qed.

Lemma stable_trans a b c : stable a b -> stable b c -> stable a c.
Proof.
  intros [S1 S2 S3 S4] [T1 T2 T3 T4]. constructor; try lia. congruence.
Qed.

Lemma advance_after q a b c : stable a b -> advance q b c -> advance q a c.
Proof.
  intros S [T P]. split; [eauto using stable_trans|].
  destruct S, T. unfold progress in *. lia.
Qed.

Lemma Inv_intro st st' :
  Inv st -> in_range st' ->
  map static (processes st') = map static (processes st) ->
  curr_time st <= curr_time st' ->
  NoDup (rq st' ++ jq st') ->
  (forall i, In i (rq st' ++ jq st') -> 0 < rem_of (remaining_bursts st') i) ->
  Forall (fun b => 0 <= b) (remaining_bursts st') ->
  (forall i, In i (rq st') -> In i (rq st) \/ arrival st i <= curr_time st') ->
  Inv st'.
Proof.
  intros I R S T N P F A. constructor; auto.
  - now apply Forall_forall.
  - apply Forall_forall. intros i Hi. unfold arrival. rewrite (arrival_static _ _ i S).
    destruct (A i Hi) as [H|H]; [|exact H].
    pose proof (inv_arrived _ I) as Ha. rewrite Forall_forall in Ha.
    apply Ha in H. unfold arrival in H. lia.
Qed.

Lemma Inv_pos st i :
  Inv st -> In i (rq st ++ jq st) -> 0 < rem_of (remaining_bursts st) i.
Proof. intros I. pose proof (inv_pos _ I) as H. rewrite Forall_forall in H. apply H. Qed.

Lemma Inv_valid st i :
  Inv st -> In i (rq st ++ jq st) -> 0 <= i < size (processes st).
Proof.
  intros I Hi. apply in_app_or in Hi.
  pose proof (rng_rq _ (inv_range _ I)) as H1.
  pose proof (rng_jq _ (inv_range _ I)) as H2.
  unfold valid in *. rewrite Forall_forall in H1, H2. destruct Hi; auto.
Qed.

Lemma bootstrap_Inv M st :
  Inv st -> rq st = [] -> jq st <> [] ->
  Inv (bootstrap_p M st) /\ stable st (bootstrap_p M st) /\
  size (jq (bootstrap_p M st)) < size (jq st) /\ rq (bootstrap_p M st) <> [].
Proof.
  intros I Hr Hj.
  destruct (bootstrap_eq M st (inv_range _ I) Hj) as [_ R].
  pose proof (inv_nodup _ I) as N. pose proof (inv_pos _ I) as P.
  rewrite Hr in N, P. simpl in N, P.
  rewrite (hd_tl _ Hj) in N, P.
  assert (E : rq (bootstrap_p M st) = [hd 0 (jq st)]) by (simpl; now rewrite Hr).
  assert (Ej : jq (bootstrap_p M st) = tl (jq st)) by reflexivity.
  split; [|split; [|split]].
  - constructor; auto.
    + now rewrite E, Ej.
    + now rewrite E, Ej.
    + apply (inv_nonneg _ I).
    + rewrite E. constructor; [|constructor].
      unfold arrival, bootstrap_p. cbn [processes curr_time]. rewrite Hr.
      unfold push_back. cbn [app hd]. lia.
  - constructor; try reflexivity.
    + rewrite Ej, size_tl by assumption. lia.
    + unfold population. rewrite E, Ej, Hr, size_tl by assumption.
      change (size [hd 0 (jq st)]) with 1. change (size (@nil Z)) with 0. lia.
  - rewrite Ej, size_tl by assumption. lia.
  - rewrite E. congruence.
Qed.

Lemma arrive_Inv st :
  Inv st -> jq st <> [] -> seq st <> [] ->
  arrival st (hd 0 (jq st)) <= curr_time st ->
  Inv (arrive st) /\ stable st (arrive st) /\ size (jq (arrive st)) < size (jq st).
Proof.
  intros I Hj Hs Ha.
  assert (E : rq (arrive st) ++ jq (arrive st) = rq st ++ jq st).
  { simpl. unfold push_back, erase_begin. rewrite <- app_assoc. simpl.
    now rewrite <- (hd_tl _ Hj). }
  split; [|split].
  - apply (Inv_intro st); auto; try reflexivity; try lia.
    + apply in_range_with_queues; auto; try apply (inv_range _ I).
      * apply valid_push; [apply (inv_range _ I)|].
        apply valid_hd; [apply (inv_range _ I)|assumption].
      * apply valid_tl, (inv_range _ I).
    + rewrite E. apply (inv_nodup _ I).
    + rewrite E. intros i. now apply Inv_pos.
    + apply (inv_nonneg _ I).
    + simpl. unfold push_back. intros i Hi. apply in_app_or in Hi.
      destruct Hi as [Hi|[<-|[]]]; auto.
  - constructor; try reflexivity.
    + simpl. unfold erase_begin. rewrite size_tl by assumption. lia.
    + unfold population. simpl. unfold erase_begin.
      rewrite size_push, size_tl by assumption. lia.
  - simpl. unfold erase_begin. rewrite size_tl by assumption. lia.
Qed.

Lemma bulk_skip_p_queues q M k st :
  rq (bulk_skip_p q M k st) = rq st /\ jq (bulk_skip_p q M k st) = jq st /\
  curr_time (bulk_skip_p q M k st) = curr_time st + size (rq st) * q * k /\
  processes (bulk_skip_p q M k st) =
    fst (stagger_p q k (curr_time st) 0 (rq st) (processes st) (remaining_bursts st)) /\
  remaining_bursts (bulk_skip_p q M k st) =
    snd (stagger_p q k (curr_time st) 0 (rq st) (processes st) (remaining_bursts st)) /\
  seq (bulk_skip_p q M k st) =
    emit_rounds_p M (Z.to_nat (Z.min k M)) (rq st) (seq st).
Proof. unfold bulk_skip_p. now destruct (stagger_p _ _ _ _ _ _ _). Qed.

Lemma NoDup_app_l {A : Type} (l1 l2 : list A) : NoDup (l1 ++ l2) -> NoDup l1.
Proof.
  induction l1 as [|x l1 IH]; simpl; intros H; [constructor|].
  inversion H; subst. constructor; auto. intros Hx. apply H2. apply in_or_app. auto.
Qed.

Lemma NoDup_app_disjoint {A : Type} (l1 l2 : list A) x :
  NoDup (l1 ++ l2) -> In x l1 -> In x l2 -> False.
Proof.
  induction l1 as [|y l1 IH]; simpl; intros H H1 H2; [auto|].
  inversion H; subst. destruct H1 as [->|H1]; auto.
  apply H4. apply in_or_app. auto.
Qed.

Lemma bulk_Inv q M k st :
  0 < q -> 0 <= k -> Inv st -> rq st <> [] ->
  (forall r, In r (rq st) -> q * k < rem_of (remaining_bursts st) r) ->
  Inv (bulk_skip_p q M k st) /\ stable st (bulk_skip_p q M k st) /\
  total_remaining (bulk_skip_p q M k st) = total_remaining st - size (rq st) * (q * k).
Proof.
  intros Hq Hk I Hne Hrem.
  destruct (bulk_skip_eq q M k st (inv_range _ I) Hne) as [_ R].
  destruct (bulk_skip_p_queues q M k st) as (Er & Ej & Et & Ep & Eb & Es).
  pose proof (inv_range _ I) as [Hl Vr Vj _].
  assert (Vr' : valid (size (remaining_bursts st)) (rq st)) by now rewrite Hl.
  assert (Nr : NoDup (rq st)) by (eapply NoDup_app_l, (inv_nodup _ I)).
  assert (Hsum : total_remaining (bulk_skip_p q M k st) =
                 total_remaining st - size (rq st) * (q * k)).
  { unfold total_remaining. rewrite Eb. now apply stagger_sum. }
  pose proof (size_nonneg (rq st)) as Hsz.
  split; [|split; [|exact Hsum]].
  - apply (Inv_intro st); auto.
    + rewrite Ep. apply stagger_static.
    + rewrite Et. nia.
    + rewrite Er, Ej. apply (inv_nodup _ I).
    + rewrite Er, Ej, Eb. intros i Hi.
      pose proof (Inv_pos _ _ I Hi) as Hp. pose proof (Inv_valid _ _ I Hi) as Hv.
      apply in_app_or in Hi. destruct Hi as [Hi|Hi].
      * rewrite stagger_rem_in; auto. specialize (Hrem i Hi). lia.
      * rewrite stagger_rem_out; auto; try lia.
        intros Hi'. exact (NoDup_app_disjoint _ _ _ (inv_nodup _ I) Hi' Hi).
    + rewrite Eb. apply stagger_nonneg; auto; [apply (inv_nonneg _ I)|].
      intros r Hr. specialize (Hrem r Hr). lia.
    + rewrite Er. auto.
  - constructor.
    + rewrite Ep. apply stagger_static.
    + rewrite Hsum. nia.
    + rewrite Ej. lia.
    + unfold population. rewrite Er, Ej. lia.
Qed.

Lemma quot_rounds a b : 0 < b -> b < a -> 1 <= Z.quot a b /\ b * Z.quot a b <= a.
Proof.
  intros Hb Ha. rewrite Z.quot_div_nonneg by lia.
  pose proof (Z.div_mod a b ltac:(lia)). pose proof (Z.mod_pos_bound a b Hb). nia.
Qed.

Lemma skip_pending_Inv bulk q M st :
  0 < q -> Inv st -> rq st <> [] ->
  Inv (skip_pending_p bulk q M st) /\ stable st (skip_pending_p bulk q M st) /\
  rq (skip_pending_p bulk q M st) = rq st /\ jq (skip_pending_p bulk q M st) = jq st.
Proof.
  intros Hq I Hne. unfold skip_pending_p.
  destruct (skippable_p q st) as [flag n] eqn:E.
  set (a := arrival_time _).
  destruct (Z.ltb_spec (curr_time st + size (rq st) * q) a) as [Hc|Hc];
    cbn [andb]; [|auto using stable_refl].
  destruct flag; cbn [andb]; [|auto using stable_refl].
  destruct bulk; [|auto using stable_refl].
  destruct (skippable_spec q st n Hq Hne E) as [Hn Hr].
  assert (Hsz : 1 <= size (rq st)).
  { destruct (rq st); [congruence|]. rewrite size_cons. pose proof (size_nonneg l). lia. }
  destruct (quot_rounds (a - curr_time st) (size (rq st) * q)) as [Hm _]; try nia.
  set (k := Z.min n _).
  destruct (bulk_Inv q M k st) as (I' & S & _); auto; try (subst k; lia).
  { intros r Hi. destruct (Hr r Hi). subst k. nia. }
  destruct (bulk_skip_p_queues q M k st) as (Er & Ej & _). auto.
Qed.

Lemma skip_drained_Inv bulk q M st :
  0 < q -> Inv st -> rq st <> [] ->
  Inv (skip_drained_p bulk q M st) /\ stable st (skip_drained_p bulk q M st) /\
  rq (skip_drained_p bulk q M st) = rq st /\ jq (skip_drained_p bulk q M st) = jq st.
Proof.
  intros Hq I Hne. unfold skip_drained_p.
  destruct (skippable_p q st) as [flag n] eqn:E.
  destruct flag; cbn [andb]; [|auto using stable_refl].
  destruct bulk; [|auto using stable_refl].
  destruct (skippable_spec q st n Hq Hne E) as [Hn Hr].
  destruct (bulk_Inv q M n st) as (I' & S & _); auto; try lia.
  { intros r Hi. now destruct (Hr r Hi). }
  destruct (bulk_skip_p_queues q M n st) as (Er & Ej & _). auto.
Qed.

(** ** The queues after a preemption *)

Lemma arrivals_before_split ps t rq0 jq0 :
  exists moved rest,
    arrivals_before_p ps t rq0 jq0 = (rq0 ++ moved, rest) /\
    jq0 = moved ++ rest /\
    Forall (fun j => arrival_time (proc ps j) < t) moved /\
    (rest = [] \/ t <= arrival_time (proc ps (hd 0 rest))).
Proof.
  revert rq0; induction jq0 as [|j jq0 IH]; intros rq0; simpl.
  - exists [], []. rewrite app_nil_r. auto.
  - destruct (Z.ltb_spec (arrival_time (proc ps j)) t) as [Hlt|Hge].
    + destruct (IH (push_back rq0 j)) as (moved & rest & E & Ej & F & R).
      exists (j :: moved), rest. unfold push_back in E.
      rewrite <- app_assoc in E. simpl in E.
      repeat split; auto. now rewrite Ej.
    + exists [], (j :: jq0). rewrite app_nil_r. simpl. auto.
Qed.

(** Lines 115-129 on a ready queue [h :: rs]: the processes that arrived
    strictly before [t], then the preempted head, then the process that
    arrives at [t] exactly, if the next pending one does. *)
Lemma requeue_with_arrivals_split ps t h rs jq0 :
  exists before same rest,
    requeue_with_arrivals_p ps t (h :: rs) jq0 =
      (rs ++ before ++ [h] ++ same, rest) /\
    jq0 = before ++ same ++ rest /\
    Forall (fun j => arrival_time (proc ps j) < t) before /\
    Forall (fun j => arrival_time (proc ps j) = t) same /\
    (same = [] /\ (rest = [] \/ t < arrival_time (proc ps (hd 0 rest))) \/
     exists j, same = [j]).
Proof.
  unfold requeue_with_arrivals_p.
  destruct (arrivals_before_split ps t (h :: rs) jq0)
    as (moved & rest & E & Ej & F & R).
  rewrite E.
  assert (Q : requeue_p ((h :: rs) ++ moved) = rs ++ moved ++ [h]).
  { unfold requeue_p, push_back, erase_begin. simpl. now rewrite <- app_assoc. }
  destruct rest as [|j rest].
  - exists moved, [], []. rewrite Q. simpl. rewrite !app_nil_r.
    rewrite app_nil_r in Ej.
    split; [reflexivity|]. split; [assumption|]. split; [assumption|].
    split; [constructor|]. left. auto.
  - destruct R as [R|R]; [discriminate|]. simpl in R.
    destruct (Z.eqb_spec (arrival_time (proc ps j)) t) as [Heq|Hne].
    + exists moved, [j], rest. rewrite Q. unfold push_back. simpl.
      rewrite <- !app_assoc. simpl.
      split; [reflexivity|]. split; [assumption|]. split; [assumption|].
      split; [repeat constructor; assumption|]. right. eauto.
    + exists moved, [], (j :: rest). rewrite Q. simpl.
      split; [reflexivity|]. split; [assumption|]. split; [assumption|].
      split; [constructor|]. left. split; auto. right. simpl. lia.
Qed.

Lemma requeue_with_arrivals_perm ps t rq0 jq0 rq' jq' :
  rq0 <> [] -> requeue_with_arrivals_p ps t rq0 jq0 = (rq', jq') ->
  Permutation (rq' ++ jq') (rq0 ++ jq0) /\ size jq' <= size jq0 /\
  size rq' + size jq' = size rq0 + size jq0 /\ rq' <> [] /\
  forall i, In i rq' -> In i rq0 \/ arrival_time (proc ps i) <= t.
Proof.
  intros Hne E. destruct rq0 as [|h rs]; [congruence|].
  destruct (requeue_with_arrivals_split ps t h rs jq0)
    as (before & same & rest & E' & Ej & F1 & F2 & _).
  rewrite E' in E. inversion E; subst. clear E.
  split; [|split; [|split; [|split]]].
  - simpl. rewrite <- !app_assoc. simpl.
    apply Permutation_sym. rewrite !(app_assoc rs before).
    apply Permutation_cons_app. reflexivity.
  - rewrite !size_app. pose proof (size_nonneg before). pose proof (size_nonneg same). lia.
  - repeat (rewrite size_app || rewrite size_cons). change (size (@nil Z)) with 0. lia.
  - destruct rs; simpl; [destruct before; simpl|]; congruence.
  - intros i Hi. rewrite Forall_forall in F1, F2.
    apply in_app_or in Hi as [Hi|Hi]; [left; now right|].
    apply in_app_or in Hi as [Hi|Hi]; [right; apply F1 in Hi; lia|].
    destruct Hi as [<-|Hi]; [left; now left|].
    right. apply F2 in Hi. lia.
Qed.

(** ** The invariant through the single steps *)

Lemma run_quantum_Inv q M st :
  0 < q -> Inv st -> rq st <> [] -> q < head_rem st ->
  Inv (run_quantum_p q M st) /\ stable st (run_quantum_p q M st) /\
  total_remaining (run_quantum_p q M st) = total_remaining st - q.
Proof.
  intros Hq I Hne Hh.
  destruct (run_quantum_eq q M st (inv_range _ I) Hne) as [_ R].
  pose proof (inv_range _ I) as [Hl Vr Vj _].
  pose proof (valid_hd _ _ Vr Hne) as Hv.
  assert (Hsum : total_remaining (run_quantum_p q M st) = total_remaining st - q).
  { unfold total_remaining. simpl. rewrite sum_put by now rewrite Hl. lia. }
  unfold head_rem in Hh.
  split; [|split; [|exact Hsum]].
  - apply (Inv_intro st); auto.
    + apply static_start_p.
    + simpl. lia.
    + apply (inv_nodup _ I).
    + simpl. intros i Hi. pose proof (Inv_pos _ _ I Hi) as Hp.
      pose proof (Inv_valid _ _ I Hi) as Hi'.
      destruct (Z.eq_dec (hd 0 (rq st)) i) as [<-|Hd].
      * rewrite rem_of_put_same by now rewrite Hl. lia.
      * rewrite rem_of_put_other; auto; lia.
    + simpl. apply Forall_put; [apply (inv_nonneg _ I)|lia].
  - constructor.
    + apply static_start_p.
    + lia.
    + simpl. lia.
    + unfold population. simpl. lia.
Qed.

Lemma with_queues_Inv st rq' jq' :
  Inv st -> seq st <> [] -> Permutation (rq' ++ jq') (rq st ++ jq st) ->
  (forall i, In i rq' -> In i (rq st) \/ arrival st i <= curr_time st) ->
  Inv (with_queues st rq' jq').
Proof.
  intros I Hs P A.
  assert (V : valid (size (processes st)) (rq' ++ jq')).
  { unfold valid. apply Forall_forall. intros i Hi. apply (Inv_valid _ _ I).
    eapply Permutation_in; eauto. }
  apply valid_app in V as [V1 V2].
  apply (Inv_intro st); auto; try reflexivity; try lia.
  - apply in_range_with_queues; auto. apply (inv_range _ I).
  - simpl. eapply Permutation_NoDup; [apply Permutation_sym; eauto|apply (inv_nodup _ I)].
  - simpl. intros i Hi. apply (Inv_pos _ _ I). eapply Permutation_in; eauto.
  - apply (inv_nonneg _ I).
Qed.

Lemma preempt_pending_Inv q M st :
  0 < q -> Inv st -> rq st <> [] -> q < head_rem st ->
  Inv (preempt_pending_p q M st) /\ advance q st (preempt_pending_p q M st).
Proof.
  intros Hq I Hne Hh.
  destruct (run_quantum_Inv q M st Hq I Hne Hh) as (I2 & S2 & T2).
  pose proof (run_quantum_seq q M st (inv_range _ I) Hne) as Hs.
  unfold preempt_pending_p. set (st2 := run_quantum_p q M st) in *.
  destruct (requeue_with_arrivals_p _ _ _ _) as [rq' jq'] eqn:E.
  assert (Hne2 : rq st2 <> []) by exact Hne.
  destruct (requeue_with_arrivals_perm _ _ _ _ _ _ Hne2 E) as (P & Sj & Sp & _ & A).
  split.
  - apply with_queues_Inv; auto.
  - split.
    + eapply stable_trans; [exact S2|]. constructor; try reflexivity; auto.
      unfold population, with_queues. cbn [rq jq]. lia.
    + right. right. unfold total_remaining, with_queues in *.
      cbn [remaining_bursts]. lia.
Qed.

Lemma requeue_perm (rq0 : list Z) : rq0 <> [] -> Permutation (requeue_p rq0) rq0.
Proof.
  destruct rq0 as [|h rs]; [congruence|]. intros _.
  unfold requeue_p, push_back, erase_begin. simpl.
  apply Permutation_sym, Permutation_cons_append.
Qed.

Lemma preempt_drained_Inv q M st :
  0 < q -> Inv st -> rq st <> [] -> q < head_rem st ->
  Inv (preempt_drained_p q M st) /\ advance q st (preempt_drained_p q M st).
Proof.
  intros Hq I Hne Hh.
  destruct (run_quantum_Inv q M st Hq I Hne Hh) as (I2 & S2 & T2).
  pose proof (run_quantum_seq q M st (inv_range _ I) Hne) as Hs.
  unfold preempt_drained_p. set (st2 := run_quantum_p q M st) in *.
  pose proof (requeue_perm (rq st2) Hne) as P.
  split.
  - apply with_queues_Inv; auto.
    + now apply Permutation_app_tail.
    + intros i Hi. left. eapply Permutation_in; eauto.
  - split.
    + eapply stable_trans; [exact S2|]. constructor; try reflexivity.
      unfold population, with_queues. cbn [rq jq].
      apply Permutation_length in P. unfold size. rewrite P. lia.
    + right. right. unfold total_remaining, with_queues in *.
      cbn [remaining_bursts]. lia.
Qed.

Lemma completion_Inv M st :
  Inv st -> rq st <> [] ->
  Inv (run_to_completion_p M st) /\ stable st (run_to_completion_p M st) /\
  population (run_to_completion_p M st) < population st /\
  jq (run_to_completion_p M st) = jq st /\
  rq (run_to_completion_p M st) = tl (rq st).
Proof.
  intros I Hne.
  destruct (run_to_completion_eq M st (inv_range _ I) Hne) as (_ & R & _).
  pose proof (inv_range _ I) as [Hl Vr Vj _].
  pose proof (valid_hd _ _ Vr Hne) as Hv.
  assert (Hin : In (hd 0 (rq st)) (rq st ++ jq st)).
  { apply in_or_app. left. destruct (rq st); [congruence|now left]. }
  pose proof (Inv_pos _ _ I Hin) as Hp.
  assert (St : map static (processes (run_to_completion_p M st)) =
               map static (processes st)).
  { simpl. rewrite static_put; [apply static_start_p|reflexivity]. }
  pose proof (inv_nodup _ I) as N. rewrite (hd_tl _ Hne) in N. simpl in N.
  inversion N as [|? ? Hnh N']; subst.
  split; [|split; [|split; [|split]]]; try reflexivity.
  - apply (Inv_intro st); auto.
    + simpl. lia.
    + simpl. intros i Hi.
      assert (Hi' : In i (rq st ++ jq st)).
      { rewrite (hd_tl _ Hne). simpl. now right. }
      pose proof (Inv_pos _ _ I Hi'). pose proof (Inv_valid _ _ I Hi').
      rewrite rem_of_put_other; auto; try lia. intros <-. contradiction.
    + simpl. apply Forall_put; [apply (inv_nonneg _ I)|lia].
    + simpl. intros i Hi. left. rewrite (hd_tl _ Hne). now right.
  - constructor; auto.
    + unfold total_remaining. simpl. rewrite sum_put by now rewrite Hl. lia.
    + simpl. lia.
    + unfold population. simpl. unfold erase_begin. rewrite size_tl by assumption. lia.
  - unfold population. simpl. unfold erase_begin. rewrite size_tl by assumption. lia.
Qed.

Lemma complete_pending_Inv q M st :
  Inv st -> rq st <> [] -> jq st <> [] ->
  Inv (complete_pending_p M st) /\ advance q st (complete_pending_p M st).
Proof.
  intros I Hne Hj.
  destruct (completion_Inv M st I Hne) as (I2 & S2 & P2 & Ej & Er).
  destruct (run_to_completion_eq M st (inv_range _ I) Hne) as (_ & _ & Hs).
  unfold complete_pending_p. set (st2 := run_to_completion_p M st) in *.
  destruct (Z.leb_spec (arrival_time (proc (processes st2) (hd 0 (jq st2))))
              (curr_time st2)) as [Ha|Ha].
  - assert (Hj2 : jq st2 <> []) by now rewrite Ej.
    destruct (arrive_Inv st2 I2 Hj2 Hs Ha) as (I3 & S3 & J3).
    split; [exact I3|]. split; [eauto using stable_trans|].
    right. left. destruct S3. unfold arrive in *. lia.
  - split; [exact I2|]. split; [exact S2|]. right. now left.
Qed.

(** ** An iteration keeps the invariant and makes progress *)

Lemma step_pending_Inv bulk q M st :
  0 < q -> Inv st -> rq st <> [] -> jq st <> [] ->
  exists st', step_pending_p bulk q M st = Continue st' /\ Inv st' /\ advance q st st'.
Proof.
  intros Hq I Hne Hj. unfold step_pending_p.
  destruct (Z.eqb_spec (arrival_time (proc (processes st) (hd 0 (jq st))))
              (curr_time st)) as [Ha|Ha].
  - eexists. split; [reflexivity|].
    assert (Ha' : arrival st (hd 0 (jq st)) <= curr_time st) by (unfold arrival; lia).
    destruct (arrive_Inv st I Hj (rng_seq _ (inv_range _ I) Hne) Ha') as (I3 & S3 & J3).
    split; [exact I3|]. split; [exact S3|]. now left.
  - destruct (skip_pending_Inv bulk q M st Hq I Hne) as (I1 & S1 & Er & Ej).
    set (st1 := skip_pending_p bulk q M st) in *.
    assert (Hne1 : rq st1 <> []) by now rewrite Er.
    assert (Hj1 : jq st1 <> []) by now rewrite Ej.
    destruct (Z.ltb_spec q (head_rem st1)) as [Hh|Hh]; eexists; (split; [reflexivity|]).
    + destruct (preempt_pending_Inv q M st1 Hq I1 Hne1 Hh) as [I2 A2].
      split; [exact I2|]. eapply advance_after; eauto.
    + destruct (complete_pending_Inv q M st1 I1 Hne1 Hj1) as [I2 A2].
      split; [exact I2|]. eapply advance_after; eauto.
Qed.

Lemma step_drained_Inv bulk q M st :
  0 < q -> Inv st -> rq st <> [] -> jq st = [] ->
  match step_drained_p bulk q M st with
  | Continue st' => Inv st' /\ advance q st st'
  | Break st' => Inv st' /\ stable st st' /\ rq st' = [] /\ jq st' = []
  end.
Proof.
  intros Hq I Hne Hj. unfold step_drained_p.
  destruct (Z.eqb_spec (size (rq st)) 1) as [H1|H1].
  - destruct (completion_Inv M st I Hne) as (I2 & S2 & P2 & Ej & Er).
    split; [exact I2|]. split; [exact S2|]. split; [|congruence].
    rewrite Er. destruct (rq st) as [|h [|h' rs]]; auto.
    rewrite !size_cons in H1. pose proof (size_nonneg rs). lia.
  - destruct (skip_drained_Inv bulk q M st Hq I Hne) as (I1 & S1 & Er & Ej).
    set (st1 := skip_drained_p bulk q M st) in *.
    assert (Hne1 : rq st1 <> []) by now rewrite Er.
    destruct (Z.ltb_spec q (head_rem st1)) as [Hh|Hh].
    + destruct (preempt_drained_Inv q M st1 Hq I1 Hne1 Hh) as [I2 A2].
      split; [exact I2|]. eapply advance_after; eauto.
    + destruct (completion_Inv M st1 I1 Hne1) as (I2 & S2 & P2 & _).
      split; [exact I2|]. eapply advance_after; eauto.
      split; [exact S2|]. right. now left.
Qed.

Lemma next_Inv bulk q M st :
  0 < q -> Inv st ->
  match next bulk q M st with
  | Continue st' => Inv st' /\ advance q st st'
  | Break st' => Inv st' /\ stable st st' /\ rq st' = [] /\ jq st' = []
  end.
Proof.
  intros Hq I. unfold next, bootstrap_guard.
  destruct (empty (rq st)) eqn:Er; destruct (empty (jq st)) eqn:Ej; cbn [andb negb].
  - apply empty_true in Er, Ej. auto using stable_refl.
  - apply empty_true in Er. apply empty_false in Ej.
    destruct (bootstrap_Inv M st I Er Ej) as (I1 & S1 & J1 & Hne).
    set (st1 := bootstrap_p M st) in *.
    apply empty_false in Hne as Hne'. rewrite Hne'. cbn [andb negb].
    destruct (empty (jq st1)) eqn:Ej1; cbn [andb negb].
    + apply empty_true in Ej1.
      pose proof (step_drained_Inv bulk q M st1 Hq I1 Hne Ej1) as H.
      destruct (step_drained_p bulk q M st1) as [st'|st'].
      * destruct H as [I2 A2]. split; [exact I2|]. eapply advance_after; eauto.
      * destruct H as (I2 & S2 & E1 & E2). eauto using stable_trans.
    + apply empty_false in Ej1.
      destruct (step_pending_Inv bulk q M st1 Hq I1 Hne Ej1) as (st' & E & I2 & A2).
      rewrite E. split; [exact I2|]. eapply advance_after; eauto.
  - cbv zeta. rewrite Er, Ej. cbn [andb negb].
    apply empty_false in Er. apply empty_true in Ej.
    now apply step_drained_Inv.
  - cbv zeta. rewrite Er, Ej. cbn [andb negb].
    apply empty_false in Er, Ej.
    destruct (step_pending_Inv bulk q M st Hq I Er Ej) as (st' & E & I2 & A2).
    now rewrite E.
Qed.

(** ** The loop *)

Lemma step_next bulk q M st :
  q <> 0 -> in_range st ->
  Ideal.step bulk q M st = Ok (next bulk q M st) /\ in_range (state_of (next bulk q M st)).
Proof.
  intros Hq R. destruct (step_eq bulk q M st R) as [H|[H _]]; [exact H|contradiction].
Qed.

Lemma sum_nonneg l : Forall (fun b => 0 <= b) l -> 0 <= sum l.
Proof. induction 1; simpl; lia. Qed.

Lemma measure_nonneg st : Inv st -> 0 <= measure st.
Proof.
  intros I. unfold measure, population, total_remaining.
  pose proof (sum_nonneg _ (inv_nonneg _ I)).
  pose proof (size_nonneg (rq st)). pose proof (size_nonneg (jq st)). lia.
Qed.

Lemma advance_measure q st st' : 0 < q -> advance q st st' -> measure st' < measure st.
Proof.
  intros Hq [[_ S1 S2 S3] P]. unfold measure, progress in *. lia.
Qed.

Lemma loop_terminates bulk q M fuel st :
  0 < q -> Inv st -> measure st < Z.of_nat fuel ->
  exists st', Ideal.loop bulk q M fuel st = Ok st' /\ Inv st' /\ stable st st' /\
              rq st' = [] /\ jq st' = [].
Proof.
  intros Hq. revert st; induction fuel as [|fuel IH]; intros st I Hm.
  - pose proof (measure_nonneg st I). lia.
  - cbn [Ideal.loop]. destruct (step_next bulk q M st) as [E _]; [lia|apply I|].
    rewrite E. cbn [bind]. pose proof (next_Inv bulk q M st Hq I) as H.
    destruct (next bulk q M st) as [st1|st1].
    + destruct H as [I1 A1]. pose proof (advance_measure q st st1 Hq A1).
      destruct (IH st1 I1) as (st' & E' & I' & S' & Q1 & Q2); [lia|].
      exists st'. split; [exact E'|]. split; [exact I'|]. split; [|auto].
      destruct A1. eauto using stable_trans.
    + destruct H as (I1 & S1 & Q1 & Q2). exists st1. auto.
Qed.

Lemma loop_more_fuel bulk q M fuel extra st st' :
  Ideal.loop bulk q M fuel st = Ok st' -> Ideal.loop bulk q M (fuel + extra) st = Ok st'.
Proof.
  revert st; induction fuel as [|fuel IH]; intros st; cbn [Ideal.loop Nat.add];
    [discriminate|].
  destruct (Ideal.step bulk q M st) as [[st1|st1]|f]; cbn [bind]; auto.
Qed.

Lemma loop_deterministic bulk q M f1 f2 st s1 s2 :
  Ideal.loop bulk q M f1 st = Ok s1 -> Ideal.loop bulk q M f2 st = Ok s2 -> s1 = s2.
Proof.
  intros H1 H2. apply (loop_more_fuel _ _ _ _ f2) in H1.
  apply (loop_more_fuel _ _ _ _ f1) in H2. rewrite Nat.add_comm in H2. congruence.
Qed.

(** ** The initial state *)

Lemma ids_valid ps : ids_are_indices ps -> valid (size ps) (map id ps).
Proof.
  unfold ids_are_indices, valid, size. intros ->. apply Forall_forall.
  intros i Hi. apply in_map_iff in Hi as (n & <- & Hn). apply in_seq in Hn. lia.
Qed.

Lemma ids_NoDup ps : ids_are_indices ps -> NoDup (map id ps).
Proof.
  unfold ids_are_indices. intros ->. generalize 0%nat.
  induction (length ps) as [|n IH]; intros s; simpl; constructor; auto.
  intros Hi. apply in_map_iff in Hi as (m & Hm & Hi). apply in_seq in Hi. lia.
Qed.

Lemma rem_of_bursts ps i : rem_of (map burst ps) i = burst (proc ps i).
Proof. unfold rem_of, proc. now rewrite <- (map_nth burst). Qed.

Lemma proc_in ps i : 0 <= i < size ps -> In (proc ps i) ps.
Proof. unfold proc, size. intros H. apply nth_In. lia. Qed.

Lemma initial_in_range ps : ids_are_indices ps -> in_range (initial ps).
Proof.
  intros Hi. constructor; simpl; auto using ids_valid.
  - unfold size. now rewrite length_map.
  - constructor.
Qed.

Lemma initial_Inv ps : ids_are_indices ps -> positive_bursts ps -> Inv (initial ps).
Proof.
  intros Hi Hb. constructor; simpl; auto using initial_in_range, ids_NoDup.
  - pose proof (ids_valid ps Hi) as V. unfold valid in V.
    rewrite Forall_forall in V. apply Forall_forall. intros i Hin.
    rewrite rem_of_bursts. unfold positive_bursts in Hb. rewrite Forall_forall in Hb.
    apply Hb, proc_in, V, Hin.
  - apply Forall_forall. intros b Hin. apply in_map_iff in Hin as (p & <- & Hp).
    unfold positive_bursts in Hb. rewrite Forall_forall in Hb. apply Hb in Hp. lia.
Qed.

Lemma reachable_Inv bulk q M ps st :
  0 < q -> ids_are_indices ps -> positive_bursts ps ->
  Ideal.reachable bulk q M ps st -> Inv st /\ stable (initial ps) st.
Proof.
  intros Hq Hi Hb. induction 1 as [|st st' _ [I S] E].
  - split; [now apply initial_Inv|apply stable_refl].
  - destruct (step_next bulk q M st) as [E' _]; [lia|apply I|].
    rewrite E' in E. pose proof (next_Inv bulk q M st Hq I) as H.
    inversion E as [E1]. rewrite E1 in H. destruct H as [I1 [S1 _]].
    eauto using stable_trans.
Qed.

Lemma simulate_runs bulk q M ps :
  0 < q -> ids_are_indices ps -> positive_bursts ps ->
  exists st', Ideal.loop bulk q M (enough_fuel ps) (initial ps) = Ok st' /\
              Ideal.simulate bulk (enough_fuel ps) q M ps = Ok (processes st', seq st') /\
              Inv st' /\ stable (initial ps) st' /\ rq st' = [] /\ jq st' = [].
Proof.
  intros Hq Hi Hb. pose proof (initial_Inv ps Hi Hb) as I.
  destruct (loop_terminates bulk q M (enough_fuel ps) (initial ps) Hq I)
    as (st' & E & R).
  { unfold enough_fuel. pose proof (measure_nonneg _ I). lia. }
  exists st'. split; [exact E|]. split; [|exact R].
  unfold Ideal.simulate. now rewrite E.
Qed.

(** ** The length of the trace *)



Lemma emit_p_cases M sq x :
  emit_p M sq x = sq \/ (size sq < M /\ emit_p M sq x = sq ++ [x]).
Proof.
  unfold emit_p, push_back. destruct (Z.ltb_spec (size sq) M); auto.
  destruct (last sq 0 =? x); auto.
Qed.















(** ** An iteration as a sequence of elementary moves

    Every iteration is a sequence of at most four of the moves below, each
    from a state that satisfies the invariant.  A property that every move
    keeps is kept by the loop. *)

Lemma moves_one q M a b : move q M a b -> moves q M a b.
Proof. intros H. eapply moves_step; [exact H|constructor]. Qed.

Lemma moves_app q M a b c : moves q M a b -> moves q M b c -> moves q M a c.
Proof. induction 1; auto. intros. eapply moves_step; eauto. Qed.

Lemma moves_keep q M (P : state -> Prop) :
  (forall a b, move q M a b -> P a -> P b) ->
  forall a b, moves q M a b -> P a -> P b.
Proof. intros H a b. induction 1; eauto. Qed.

Lemma moves_relate q M (R : state -> state -> Prop) :
  (forall a, R a a) -> (forall a b c, R a b -> R b c -> R a c) ->
  (forall a b, move q M a b -> R a b) ->
  forall a b, moves q M a b -> R a b.
Proof. intros Hr Ht H a b. induction 1; eauto. Qed.

Lemma skip_pending_moves bulk q M st :
  0 < q -> Inv st -> rq st <> [] -> moves q M st (skip_pending_p bulk q M st).
Proof.
  intros Hq I Hne. unfold skip_pending_p.
  destruct (skippable_p q st) as [flag n] eqn:E.
  set (a := arrival_time _).
  destruct (Z.ltb_spec (curr_time st + size (rq st) * q) a) as [Hc|Hc];
    cbn [andb]; [|constructor].
  destruct flag; cbn [andb]; [|constructor].
  destruct bulk; [|constructor].
  destruct (skippable_spec q st n Hq Hne E) as [Hn Hr].
  assert (Hsz : 1 <= size (rq st)).
  { destruct (rq st); [congruence|]. rewrite size_cons. pose proof (size_nonneg l). lia. }
  destruct (quot_rounds (a - curr_time st) (size (rq st) * q)) as [Hm _]; try nia.
  apply moves_one. constructor; auto; try lia.
  intros r Hi. destruct (Hr r Hi). nia.
Qed.

Lemma skip_drained_moves bulk q M st :
  0 < q -> Inv st -> rq st <> [] -> moves q M st (skip_drained_p bulk q M st).
Proof.
  intros Hq I Hne. unfold skip_drained_p.
  destruct (skippable_p q st) as [flag n] eqn:E.
  destruct flag; cbn [andb]; [|constructor].
  destruct bulk; [|constructor].
  destruct (skippable_spec q st n Hq Hne E) as [Hn Hr].
  apply moves_one. constructor; auto.
  intros r Hi. now destruct (Hr r Hi).
Qed.

Lemma preempt_pending_moves q M st :
  0 < q -> Inv st -> rq st <> [] -> q < head_rem st ->
  moves q M st (preempt_pending_p q M st).
Proof.
  intros Hq I Hne Hh.
  destruct (run_quantum_Inv q M st Hq I Hne Hh) as (I2 & _).
  pose proof (run_quantum_seq q M st (inv_range _ I) Hne) as Hs.
  eapply moves_step; [now apply move_quantum|].
  unfold preempt_pending_p. set (st2 := run_quantum_p q M st) in *.
  destruct (requeue_with_arrivals_p _ _ _ _) as [rq' jq'] eqn:E.
  apply moves_one. apply move_requeue; auto.
Qed.

Lemma preempt_drained_moves q M st :
  0 < q -> Inv st -> rq st <> [] -> jq st = [] -> q < head_rem st ->
  moves q M st (preempt_drained_p q M st).
Proof.
  intros Hq I Hne Hj Hh.
  destruct (run_quantum_Inv q M st Hq I Hne Hh) as (I2 & _).
  pose proof (run_quantum_seq q M st (inv_range _ I) Hne) as Hs.
  eapply moves_step; [now apply move_quantum|].
  unfold preempt_drained_p. set (st2 := run_quantum_p q M st) in *.
  assert (Hj2 : jq st2 = []) by exact Hj.
  rewrite Hj2 at 1. apply moves_one. apply move_requeue; auto.
  unfold requeue_with_arrivals_p. now rewrite Hj2.
Qed.

Lemma complete_pending_moves M q st :
  Inv st -> rq st <> [] -> jq st <> [] ->
  moves q M st (complete_pending_p M st).
Proof.
  intros I Hne Hj.
  destruct (completion_Inv M st I Hne) as (I2 & S2 & P2 & Ej & Er).
  destruct (run_to_completion_eq M st (inv_range _ I) Hne) as (_ & _ & Hs).
  eapply moves_step; [now apply move_complete|].
  unfold complete_pending_p. set (st2 := run_to_completion_p M st) in *.
  destruct (Z.leb_spec (arrival_time (proc (processes st2) (hd 0 (jq st2))))
              (curr_time st2)) as [Ha|Ha]; [|constructor].
  apply moves_one. apply move_arrive; auto.
Qed.

Lemma step_pending_moves bulk q M st :
  0 < q -> Inv st -> rq st <> [] -> jq st <> [] ->
  moves q M st (state_of (step_pending_p bulk q M st)).
Proof.
  intros Hq I Hne Hj. unfold step_pending_p.
  destruct (Z.eqb_spec (arrival_time (proc (processes st) (hd 0 (jq st))))
              (curr_time st)) as [Ha|Ha].
  - cbn [state_of]. apply moves_one. apply move_arrive; auto.
    + apply (rng_seq _ (inv_range _ I)), Hne.
    + unfold arrival. lia.
  - destruct (skip_pending_Inv bulk q M st Hq I Hne) as (I1 & S1 & Er & Ej).
    pose proof (skip_pending_moves bulk q M st Hq I Hne) as M1.
    set (st1 := skip_pending_p bulk q M st) in *.
    assert (Hne1 : rq st1 <> []) by now rewrite Er.
    assert (Hj1 : jq st1 <> []) by now rewrite Ej.
    destruct (Z.ltb_spec q (head_rem st1)) as [Hh|Hh]; cbn [state_of];
      (eapply moves_app; [exact M1|]).
    + now apply preempt_pending_moves.
    + now apply complete_pending_moves.
Qed.

Lemma step_drained_moves bulk q M st :
  0 < q -> Inv st -> rq st <> [] -> jq st = [] ->
  moves q M st (state_of (step_drained_p bulk q M st)).
Proof.
  intros Hq I Hne Hj. unfold step_drained_p.
  destruct (size (rq st) =? 1).
  - cbn [state_of]. apply moves_one. now apply move_complete.
  - destruct (skip_drained_Inv bulk q M st Hq I Hne) as (I1 & S1 & Er & Ej).
    pose proof (skip_drained_moves bulk q M st Hq I Hne) as M1.
    set (st1 := skip_drained_p bulk q M st) in *.
    assert (Hne1 : rq st1 <> []) by now rewrite Er.
    assert (Hj1 : jq st1 = []) by now rewrite Ej.
    destruct (Z.ltb_spec q (head_rem st1)) as [Hh|Hh]; cbn [state_of];
      (eapply moves_app; [exact M1|]).
    + now apply preempt_drained_moves.
    + apply moves_one. now apply move_complete.
Qed.

Lemma next_moves bulk q M st :
  0 < q -> Inv st -> moves q M st (state_of (next bulk q M st)).
Proof.
  intros Hq I. unfold next, bootstrap_guard.
  destruct (empty (rq st)) eqn:Er; destruct (empty (jq st)) eqn:Ej; cbn [andb negb].
  - constructor.
  - apply empty_true in Er. apply empty_false in Ej.
    destruct (bootstrap_Inv M st I Er Ej) as (I1 & S1 & J1 & Hne).
    eapply moves_step; [now apply move_bootstrap|].
    set (st1 := bootstrap_p M st) in *.
    apply empty_false in Hne as Hne'. rewrite Hne'. cbn [andb negb].
    destruct (empty (jq st1)) eqn:Ej1; cbn [andb negb].
    + apply empty_true in Ej1. now apply step_drained_moves.
    + apply empty_false in Ej1. now apply step_pending_moves.
  - cbv zeta. rewrite Er, Ej. cbn [andb negb].
    apply empty_false in Er. apply empty_true in Ej.
    now apply step_drained_moves.
  - cbv zeta. rewrite Er, Ej. cbn [andb negb].
    apply empty_false in Er, Ej. now apply step_pending_moves.
Qed.

Lemma reachable_keep bulk q M ps (P : state -> Prop) :
  0 < q -> ids_are_indices ps -> positive_bursts ps ->
  (forall a b, move q M a b -> P a -> P b) ->
  P (initial ps) -> forall st, Ideal.reachable bulk q M ps st -> P st.
Proof.
  intros Hq Hi Hb H H0 st R. induction R as [|st st' R IH E]; [exact H0|].
  destruct (reachable_Inv bulk q M ps st Hq Hi Hb R) as [I _].
  destruct (step_next bulk q M st) as [E' _]; [lia|apply I|].
  rewrite E' in E. inversion E as [E1].
  pose proof (next_moves bulk q M st Hq I) as Mv. rewrite E1 in Mv.
  eapply moves_keep; eauto.
Qed.

Lemma loop_keep bulk q M (P : state -> Prop) :
  0 < q -> (forall a b, move q M a b -> P a -> P b) ->
  forall fuel st st', Inv st -> P st -> Ideal.loop bulk q M fuel st = Ok st' -> P st'.
Proof.
  intros Hq H. induction fuel as [|fuel IH]; intros st st' I P0; cbn [Ideal.loop];
    [discriminate|].
  destruct (step_next bulk q M st) as [E _]; [lia|apply I|]. rewrite E. cbn [bind].
  pose proof (next_Inv bulk q M st Hq I) as HI.
  pose proof (next_moves bulk q M st Hq I) as Mv.
  destruct (next bulk q M st) as [st1|st1]; cbn [state_of] in Mv.
  - apply IH; [apply HI|]. eapply moves_keep; eauto.
  - intros L. inversion L; subst. eapply moves_keep; eauto.
Qed.

(** ** Start times *)

Lemma start_p_spec ps h t i :
  0 <= h < size ps -> 0 <= i ->
  proc (start_p ps h t) i =
  if (i =? h) && (start_time (proc ps h) =? -1)
  then with_start (proc ps h) t else proc ps i.
Proof.
  intros Hh Hi. unfold start_p.
  destruct (Z.eqb_spec i h) as [->|Hne]; cbn [andb].
  - destruct (_ =? -1); [now apply proc_put_same|reflexivity].
  - destruct (_ =? -1); [|reflexivity]. apply proc_put_other; lia.
Qed.

Lemma stagger_start q k c i0 rs ps rem i :
  valid (size ps) rs -> 0 <= q -> 0 <= i0 -> 0 <= i ->
  start_time (proc (fst (stagger_p q k c i0 rs ps rem)) i) = start_time (proc ps i) \/
  (start_time (proc ps i) = -1 /\ In i rs /\
   c <= start_time (proc (fst (stagger_p q k c i0 rs ps rem)) i)).
Proof.
  revert i0 ps rem; induction rs as [|r rs IH]; intros i0 ps rem V Hq H0 Hi;
    cbn [stagger_p]; [now left|].
  apply valid_cons in V as [Hr V].
  destruct (IH (i0 + 1) (start_p ps r (c + q * i0)) (put rem r (rem_of rem r - q * k)))
    as [E|(E1 & E2 & E3)]; try lia.
  { now rewrite size_start_p. }
  - rewrite E, start_p_spec by lia.
    destruct (Z.eqb_spec i r) as [->|Hne]; cbn [andb]; [|now left].
    destruct (Z.eqb_spec (start_time (proc ps r)) (-1)); [|now left].
    right. repeat split; auto; [now left|]. cbn. nia.
  - rewrite start_p_spec in E1 by lia.
    destruct (Z.eqb_spec i r) as [->|Hne]; cbn [andb] in E1.
    + destruct (Z.eqb_spec (start_time (proc ps r)) (-1)).
      * right. repeat split; auto. now left.
      * right. repeat split; auto. now left.
    + right. repeat split; auto. now right.
Qed.

Lemma proc_finish ps h t i :
  0 <= h < size ps -> 0 <= i ->
  start_time (proc (put ps h (with_finish (proc ps h) t)) i) = start_time (proc ps i).
Proof.
  intros Hh Hi. destruct (Z.eq_dec h i) as [->|Hne].
  - now rewrite proc_put_same.
  - rewrite proc_put_other; auto; lia.
Qed.

Lemma completion_start M st i :
  in_range st -> rq st <> [] -> 0 <= i ->
  start_time (proc (processes (run_to_completion_p M st)) i) =
  if (i =? hd 0 (rq st)) && (start_time (proc (processes st) i) =? -1)
  then curr_time st else start_time (proc (processes st) i).
Proof.
  intros R Hne Hi. pose proof (valid_hd _ _ (rng_rq _ R) Hne) as Hh.
  cbn [run_to_completion_p processes].
  rewrite proc_finish by (rewrite ?size_start_p; lia).
  rewrite start_p_spec by lia.
  destruct (Z.eqb_spec i (hd 0 (rq st))) as [->|Hd]; cbn [andb]; [|reflexivity].
  now destruct (_ =? -1).
Qed.

Lemma move_start_written q M a b i :
  0 < q -> move q M a b -> 0 <= i -> start_written a b i.
Proof.
  intros Hq Mv Hi. unfold start_written. destruct Mv.
  - now left.
  - now left.
  - destruct (bulk_skip_p_queues q M k st) as (_ & _ & _ & -> & _).
    apply stagger_start; try lia. apply (rng_rq _ (inv_range _ H)).
  - cbn [run_quantum_p processes].
    pose proof (valid_hd _ _ (rng_rq _ (inv_range _ H)) H0) as Hh.
    rewrite start_p_spec by lia.
    destruct (Z.eqb_spec i (hd 0 (rq st))) as [->|Hd]; cbn [andb]; [|now left].
    destruct (Z.eqb_spec (start_time (proc (processes st) (hd 0 (rq st)))) (-1));
      [|now left].
    right. repeat split; auto; [|cbn; lia].
    destruct (rq st); [congruence|now left].
  - now left.
  - rewrite completion_start by (auto; apply (inv_range _ H)).
    destruct (Z.eqb_spec i (hd 0 (rq st))) as [->|Hd]; cbn [andb]; [|now left].
    destruct (Z.eqb_spec (start_time (proc (processes st) (hd 0 (rq st)))) (-1));
      [|now left].
    right. repeat split; auto; [|lia].
    destruct (rq st); [congruence|now left].
Qed.

Lemma move_Inv q M a b : 0 < q -> move q M a b -> Inv a /\ Inv b /\ stable a b.
Proof.
  intros Hq Mv. destruct Mv.
  - destruct (bootstrap_Inv M st) as (I & S & _); auto.
  - destruct (arrive_Inv st) as (I & S & _); auto.
  - destruct (bulk_Inv q M k st) as (I & S & _); auto. lia.
  - destruct (run_quantum_Inv q M st) as (I & S & _); auto.
  - destruct (requeue_with_arrivals_perm _ _ _ _ _ _ H0 H2) as (P & Sj & Sp & _ & A).
    split; [assumption|]. split; [now apply with_queues_Inv|].
    constructor; try reflexivity; auto. unfold population, with_queues. cbn [rq jq]. lia.
  - destruct (completion_Inv M st) as (I & S & _); auto.
Qed.

(** The queues of a move: no process joins them, and the only one that
    leaves is the head of the ready queue, at its completion. *)
Lemma move_queues q M a b i :
  move q M a b ->
  (In i (rq b ++ jq b) -> In i (rq a ++ jq a)) /\
  (In i (rq a ++ jq a) -> In i (rq b ++ jq b) \/
     (rq a <> [] /\ i = hd 0 (rq a) /\ b = run_to_completion_p M a)).
Proof.
  intros Mv. destruct Mv.
  - assert (E : rq (bootstrap_p M st) ++ jq (bootstrap_p M st) = rq st ++ jq st).
    { cbn [bootstrap_p rq jq]. rewrite H0. unfold push_back, erase_begin. simpl.
      now rewrite <- (hd_tl _ H1). }
    rewrite E. auto.
  - assert (E : rq (arrive st) ++ jq (arrive st) = rq st ++ jq st).
    { simpl. unfold push_back, erase_begin. rewrite <- app_assoc. simpl.
      now rewrite <- (hd_tl _ H0). }
    rewrite E. auto.
  - destruct (bulk_skip_p_queues q M k st) as (-> & -> & _). auto.
  - cbn [run_quantum_p rq jq]. auto.
  - destruct (requeue_with_arrivals_perm _ _ _ _ _ _ H0 H2) as (P & _).
    unfold with_queues. cbn [rq jq]. split; intros Hi.
    + eapply Permutation_in; eauto.
    + left. eapply Permutation_in; [apply Permutation_sym|]; eauto.
  - cbn [run_to_completion_p rq jq]. unfold erase_begin. split; intros Hi.
    + rewrite (hd_tl _ H0). simpl. now right.
    + rewrite (hd_tl _ H0) in Hi. simpl in Hi. destruct Hi as [<-|Hi]; auto.
Qed.

Lemma Inv_arrived st i : Inv st -> In i (rq st) -> arrival st i <= curr_time st.
Proof.
  intros I. pose proof (inv_arrived _ I) as H. rewrite Forall_forall in H. apply H.
Qed.

Lemma move_starts_ok q M a b : 0 < q -> move q M a b -> starts_ok a -> starts_ok b.
Proof.
  intros Hq Mv J i Hi.
  destruct (move_Inv q M a b Hq Mv) as (Ia & Ib & S).
  pose proof (st_static _ _ S) as St.
  assert (Hsz : size (processes b) = size (processes a)).
  { unfold size. apply (f_equal (@length _)) in St. rewrite !length_map in St. lia. }
  rewrite Hsz in Hi. destruct (J i Hi) as [J1 J2].
  assert (Ea : arrival b i = arrival a i) by (unfold arrival; now apply arrival_static).
  rewrite Ea.
  pose proof (move_start_written q M a b i Hq Mv ltac:(lia)) as W.
  destruct (move_queues q M a b i Mv) as [Q1 Q2].
  split.
  - destruct W as [->|(W1 & W2 & W3)]; [exact J1|].
    right. pose proof (Inv_arrived a i Ia W2). lia.
  - intros Hn. destruct W as [W|(W1 & W2 & W3)].
    + rewrite W.
      destruct (in_dec Z.eq_dec i (rq a ++ jq a)) as [Hin|Hout]; [|now apply J2].
      destruct (Q2 Hin) as [Hb|(Hne & -> & ->)]; [contradiction|].
      rewrite completion_start in W by (auto; try lia; apply (inv_range _ Ia)).
      rewrite Z.eqb_refl in W. cbn [andb] in W.
      destruct (Z.eqb_spec (start_time (proc (processes a) (hd 0 (rq a)))) (-1)) as [E|E].
      * rewrite <- W. apply (Inv_arrived a); auto.
        destruct (rq a); [congruence|now left].
      * destruct J1; [contradiction|assumption].
    + pose proof (Inv_arrived a i Ia W2). lia.
Qed.

Lemma move_starts_kept q M a b : 0 < q -> move q M a b -> starts_kept a b.
Proof.
  intros Hq Mv i Hi Hs.
  destruct (move_start_written q M a b i Hq Mv Hi) as [W|(W & _)]; congruence.
Qed.


Lemma initial_starts_ok ps : ids_are_indices ps -> unset_starts ps -> starts_ok (initial ps).
Proof.
  intros Hi Hu i Hr. cbn [initial processes rq jq app] in *.
  unfold unset_starts in Hu. rewrite Forall_forall in Hu.
  split; [left; apply Hu; now apply proc_in|].
  intros Hn. exfalso. apply Hn. unfold ids_are_indices in Hi. rewrite Hi.
  apply in_map_iff. exists (Z.to_nat i). split; [lia|]. apply in_seq. unfold size in Hr. lia.
Qed.

(** ** The bulk skip against single quanta

    The run with the bulk skip and the run without it go through the same
    states, up to two things: a bulk skip of [k] rounds stands for [k] times
    the length of the ready queue iterations of the naive run, and after it
    the optimized run may for a while hold in its pending queue processes
    that the naive run has moved to its ready queue already ([lagging]). *)

Lemma next_block bulk q M st :
  next bulk q M st =
  if empty (rq st) && empty (jq st) then Break st else block bulk q M (boot M st).
Proof. reflexivity. Qed.

Lemma skip_jq bulk q M s : jq (skip bulk q M s) = jq s /\ rq (skip bulk q M s) = rq s.
Proof.
  unfold skip, skip_drained_p, skip_pending_p.
  destruct (skippable_p q s) as [flag n].
  destruct (empty (jq s)).
  - destruct (flag && bulk); auto.
    destruct (bulk_skip_p_queues q M n s) as (-> & -> & _). auto.
  - destruct (_ && _); auto.
    match goal with |- context [bulk_skip_p q M ?k s] =>
      destruct (bulk_skip_p_queues q M k s) as (-> & -> & _) end. auto.
Qed.

Lemma skip_false q M s : skip false q M s = s.
Proof.
  unfold skip, skip_drained_p, skip_pending_p.
  destruct (skippable_p q s) as [flag n]. rewrite !andb_false_r.
  now destruct (empty (jq s)).
Qed.

Lemma block_eq bulk q M s :
  rq s <> [] ->
  block bulk q M s =
  if tie s then Continue (arrive s)
  else if last_one s then Break (run_to_completion_p M s)
  else Continue (single q M (skip bulk q M s)).
Proof.
  intros Hne. apply empty_false in Hne. unfold block, tie, last_one, single.
  destruct (skip_jq bulk q M s) as [Ej Er]. rewrite Ej. unfold skip.
  rewrite Hne. cbn [negb andb].
  destruct (empty (jq s)) eqn:E; cbn [negb andb].
  - unfold step_drained_p. destruct (size (rq s) =? 1); [reflexivity|].
    now destruct (q <? _).
  - unfold step_pending_p. destruct (_ =? curr_time s); [reflexivity|].
    now destruct (q <? _).
Qed.

Lemma loop_cont bulk q M n st :
  q <> 0 -> in_range st ->
  Ideal.loop bulk q M (S n) st =
  if empty (rq st) && empty (jq st) then Ok st else cont bulk q M n (boot M st).
Proof.
  intros Hq R. cbn [Ideal.loop]. destruct (step_next bulk q M st Hq R) as [E _].
  rewrite E. cbn [bind]. rewrite next_block. unfold cont.
  now destruct (empty (rq st) && empty (jq st)).
Qed.

Lemma boot_id M st : rq st <> [] -> boot M st = st.
Proof.
  intros H. apply empty_false in H. unfold boot, bootstrap_guard. now rewrite H.
Qed.

Lemma loop_cont_ready bulk q M n st :
  q <> 0 -> in_range st -> rq st <> [] ->
  Ideal.loop bulk q M (S n) st = cont bulk q M n st.
Proof.
  intros Hq R Hne. rewrite loop_cont by assumption. rewrite boot_id by assumption.
  apply empty_false in Hne. now rewrite Hne.
Qed.

Lemma catch_up_nil O : catch_up O [] (jq O) = O.
Proof. destruct O. unfold catch_up. cbn. now rewrite app_nil_r. Qed.

Lemma lagging_nil O : lagging O [] (jq O).
Proof. constructor; auto; congruence. Qed.

Lemma Inv_catch_up O A J : Inv O -> lagging O A J -> Inv (catch_up O A J).
Proof.
  intros I [Hj Ha Hr]. destruct A as [|a A].
  - simpl in Hj. rewrite <- Hj. now rewrite catch_up_nil.
  - assert (Hne : rq O <> []) by (apply Hr; discriminate).
    change (catch_up O (a :: A) J) with (with_queues O (rq O ++ a :: A) J).
    apply with_queues_Inv; auto.
    + now apply (rng_seq _ (inv_range _ I)).
    + rewrite Hj, <- app_assoc. reflexivity.
    + intros i Hi. apply in_app_or in Hi as [Hi|Hi]; [now left|right].
      rewrite Forall_forall in Ha. now apply Ha.
Qed.

Lemma arrivals_before_prefix ps t r A J :
  Forall (fun j => arrival_time (proc ps j) < t) A ->
  arrivals_before_p ps t r (A ++ J) = arrivals_before_p ps t (r ++ A) J.
Proof.
  revert r; induction A as [|a A IH]; intros r F; simpl.
  - now rewrite app_nil_r.
  - inversion F; subst. destruct (Z.ltb_spec (arrival_time (proc ps a)) t); [|lia].
    rewrite IH by assumption. unfold push_back. now rewrite <- app_assoc.
Qed.

Lemma requeue_with_arrivals_prefix ps t r A J :
  Forall (fun j => arrival_time (proc ps j) < t) A ->
  requeue_with_arrivals_p ps t r (A ++ J) = requeue_with_arrivals_p ps t (r ++ A) J.
Proof.
  intros F. unfold requeue_with_arrivals_p. now rewrite arrivals_before_prefix.
Qed.

Lemma hd_app (r A : list Z) : r <> [] -> hd 0 (r ++ A) = hd 0 r.
Proof. destruct r; [congruence|reflexivity]. Qed.

Lemma tl_app (r A : list Z) : r <> [] -> tl (r ++ A) = tl r ++ A.
Proof. destruct r; [congruence|reflexivity]. Qed.

Lemma head_rem_catch_up O A J : rq O <> [] -> head_rem (catch_up O A J) = head_rem O.
Proof. intros H. unfold head_rem. cbn. now rewrite hd_app. Qed.

Lemma run_quantum_catch_up q M O A J :
  rq O <> [] ->
  run_quantum_p q M (catch_up O A J) = catch_up (run_quantum_p q M O) A J.
Proof. intros H. unfold run_quantum_p, catch_up. cbn. now rewrite hd_app. Qed.

Lemma run_to_completion_catch_up M O A J :
  rq O <> [] ->
  run_to_completion_p M (catch_up O A J) =
  mkState (curr_time (run_to_completion_p M O)) (tl (rq O) ++ A) J
    (remaining_bursts (run_to_completion_p M O))
    (processes (run_to_completion_p M O)) (seq (run_to_completion_p M O)).
Proof.
  intros H. unfold run_to_completion_p, catch_up, erase_begin. cbn.
  now rewrite hd_app, tl_app.
Qed.

Lemma empty_app_false (A J : list Z) : A <> [] -> empty (A ++ J) = false.
Proof. destruct A; [congruence|reflexivity]. Qed.

(** One single step of both runs, the naive one ahead by [A]. *)
Lemma single_catch_up q M O A J :
  0 < q -> Inv O -> rq O <> [] -> lagging O A J -> A <> [] ->
  exists A' J',
    single q M (catch_up O A J) = catch_up (single q M O) A' J' /\
    lagging (single q M O) A' J'.
Proof.
  intros Hq I Hne [Hj Ha Hr] HA.
  pose proof (inv_range _ I) as R.
  assert (EO0 : single q M O =
                if q <? head_rem O then preempt_pending_p q M O
                else complete_pending_p M O).
  { unfold single. now rewrite Hj, empty_app_false. }
  rewrite EO0. clear EO0. unfold single. rewrite head_rem_catch_up by assumption.
  cbn [catch_up jq].
  destruct (Z.ltb_spec q (head_rem O)) as [Hh|Hh].
  - (* the head is preempted: both runs are in the same state again *)
    exists [], (jq (preempt_pending_p q M O)).
    split; [|apply lagging_nil]. rewrite catch_up_nil.
    assert (F : Forall (fun j => arrival_time (proc (processes (run_quantum_p q M O)) j)
                                 < curr_time (run_quantum_p q M O)) A).
    { eapply Forall_impl; [|exact Ha]. intros a Hle. cbn beta in Hle.
      unfold arrival in Hle. cbn [run_quantum_p processes curr_time].
      rewrite (arrival_static _ _ a (static_start_p _ _ _)). lia. }
    assert (E : preempt_pending_p q M O =
                with_queues (run_quantum_p q M O)
                  (fst (requeue_with_arrivals_p (processes (run_quantum_p q M O))
                          (curr_time (run_quantum_p q M O)) (rq O ++ A) J))
                  (snd (requeue_with_arrivals_p (processes (run_quantum_p q M O))
                          (curr_time (run_quantum_p q M O)) (rq O ++ A) J))).
    { unfold preempt_pending_p.
      change (jq (run_quantum_p q M O)) with (jq O).
      change (rq (run_quantum_p q M O)) with (rq O).
      rewrite Hj, requeue_with_arrivals_prefix by assumption.
      now destruct (requeue_with_arrivals_p _ _ _ _). }
    rewrite E. destruct J as [|j J]; cbn [empty].
    + unfold preempt_drained_p. rewrite run_quantum_catch_up by assumption.
      unfold requeue_with_arrivals_p. cbn [arrivals_before_p fst snd].
      reflexivity.
    + unfold preempt_pending_p. rewrite run_quantum_catch_up by assumption.
      cbn [catch_up processes curr_time rq jq].
      change (rq (run_quantum_p q M O)) with (rq O).
      now destruct (requeue_with_arrivals_p _ _ _ _).
  - (* the head completes: at most one more process for each run *)
    destruct A as [|a A]; [congruence|].
    destruct (completion_Inv M O I Hne) as (I2 & S2 & _ & Ej2 & Er2).
    set (st2 := run_to_completion_p M O) in *.
    assert (Hin : In (hd 0 (rq O)) (rq O ++ jq O)).
    { apply in_or_app. left. destruct (rq O); [congruence|now left]. }
    pose proof (Inv_pos _ _ I Hin) as Hp.
    assert (Ht : curr_time O <= curr_time st2) by (cbn; lia).
    assert (Hst : forall i, arrival_time (proc (processes st2) i) = arrival O i).
    { intros i. unfold arrival. apply arrival_static. apply (st_static _ _ S2). }
    inversion Ha as [|? ? Haa HaA]; subst.
    assert (EO : complete_pending_p M O =
                 with_queues st2 (tl (rq O) ++ [a]) (A ++ J)).
    { unfold complete_pending_p. fold st2. rewrite Ej2, Er2, Hj. cbn [app hd].
      rewrite Hst. destruct (Z.leb_spec (arrival O a) (curr_time st2)); [|lia].
      reflexivity. }
    rewrite EO.
    assert (HA' : Forall (fun x => arrival (with_queues st2 (tl (rq O) ++ [a]) (A ++ J)) x
                                   <= curr_time st2) A).
    { eapply Forall_impl; [|exact HaA]. intros x Hx. cbn beta in Hx.
      unfold arrival, with_queues. cbn [processes]. rewrite Hst. lia. }
    destruct J as [|j J]; cbn [empty].
    + exists A, []. split.
      * rewrite run_to_completion_catch_up by assumption. fold st2.
        unfold catch_up, with_queues. cbn. now rewrite <- app_assoc.
      * constructor; cbn; auto. intros _. destruct (tl (rq O)); discriminate.
    + unfold complete_pending_p.
      rewrite run_to_completion_catch_up by assumption. fold st2.
      cbn [jq processes curr_time hd rq].
      destruct (Z.leb_spec (arrival_time (proc (processes st2) j)) (curr_time st2))
        as [Hle|Hgt].
      * exists (A ++ [j]), J. split.
        -- unfold catch_up, with_queues, push_back, erase_begin. cbn.
           now rewrite <- !app_assoc.
        -- constructor; cbn.
           ++ now rewrite <- app_assoc.
           ++ apply Forall_app. split; [exact HA'|].
              constructor; [|constructor]. unfold arrival. cbn. exact Hle.
           ++ intros _. destruct (tl (rq O)); discriminate.
      * exists A, (j :: J). split.
        -- unfold catch_up, with_queues. cbn. now rewrite <- app_assoc.
        -- constructor; cbn; auto. intros _. destruct (tl (rq O)); discriminate.
Qed.

Lemma arrive_catch_up O A j J :
  arrive (catch_up O A (j :: J)) = catch_up O (A ++ [j]) J.
Proof.
  unfold arrive, catch_up, with_queues, push_back, erase_begin. cbn.
  now rewrite <- app_assoc.
Qed.

Lemma size_ge_2 (r A : list Z) : r <> [] -> A <> [] -> (size (r ++ A) =? 1) = false.
Proof.
  intros Hr HA. destruct r; [congruence|]. destruct A; [congruence|].
  apply Z.eqb_neq. rewrite size_app, !size_cons.
  pose proof (size_nonneg r). pose proof (size_nonneg A). lia.
Qed.

Lemma catch_up_same O J : lagging O [] J -> catch_up O [] J = O.
Proof. intros [Hj _ _]. cbn in Hj. rewrite <- Hj. apply catch_up_nil. Qed.

(** The naive run, ahead by [A], takes the processes that arrive at the
    current time and then the single step; the optimized run takes the
    single step. *)
Lemma naive_catch_up q M O :
  0 < q -> Inv O -> rq O <> [] ->
  forall J A n R,
    lagging O A J ->
    A <> [] \/ (tie O = false /\ last_one O = false) ->
    cont false q M n (catch_up O A J) = Ok R ->
    exists n' A' J',
      (n' <= n)%nat /\
      Ideal.loop false q M n' (catch_up (single q M O) A' J') = Ok R /\
      lagging (single q M O) A' J'.
Proof.
  intros Hq I Hne. induction J as [|j J IH]; intros A n R L HA C.
  - assert (Hn : rq (catch_up O A []) <> []).
    { cbn. destruct (rq O); [congruence|discriminate]. }
    unfold cont in C. rewrite block_eq, skip_false in C by assumption.
    destruct A as [|a A].
    + destruct HA as [HA|[T Lo]]; [congruence|].
      rewrite (catch_up_same _ _ L) in C.
      rewrite T, Lo in C. exists n, [], (jq (single q M O)).
      rewrite catch_up_nil. auto using lagging_nil.
    + change (tie (catch_up O (a :: A) [])) with false in C.
      unfold last_one in C. cbn [catch_up jq rq empty andb] in C.
      rewrite size_ge_2 in C by (auto; discriminate).
      destruct (single_catch_up q M O (a :: A) [] Hq I Hne L ltac:(discriminate))
        as (A' & J' & E & L').
      rewrite E in C. exists n, A', J'. auto.
  - assert (Hn : rq (catch_up O A (j :: J)) <> []).
    { cbn. destruct (rq O); [congruence|discriminate]. }
    unfold cont in C. rewrite block_eq, skip_false in C by assumption.
    destruct A as [|a A].
    + destruct HA as [HA|[T Lo]]; [congruence|].
      rewrite (catch_up_same _ _ L) in C.
      rewrite T, Lo in C. exists n, [], (jq (single q M O)).
      rewrite catch_up_nil. auto using lagging_nil.
    + unfold last_one in C at 1. cbn [catch_up jq empty andb] in C.
      destruct (tie (catch_up O (a :: A) (j :: J))) eqn:T.
      * rewrite arrive_catch_up in C.
        assert (L' : lagging O ((a :: A) ++ [j]) J).
        { destruct L as [Hj Ha Hr]. constructor; auto.
          - rewrite Hj, <- app_assoc. reflexivity.
          - apply Forall_app. split; [exact Ha|]. constructor; [|constructor].
            unfold tie in T.
            cbn [catch_up jq processes curr_time empty negb andb hd] in T.
            apply Z.eqb_eq in T. unfold arrival. lia. }
        destruct n as [|n]; [discriminate|].
        rewrite loop_cont_ready in C.
        -- destruct (IH _ _ _ L' ltac:(left; discriminate) C) as (n' & A' & J' & Hn' & C' & L'').
           exists n', A', J'. split; [lia|auto].
        -- lia.
        -- apply inv_range, Inv_catch_up; auto.
        -- cbn. destruct (rq O); discriminate.
      * destruct (single_catch_up q M O (a :: A) (j :: J) Hq I Hne L ltac:(discriminate))
          as (A' & J' & E & L').
        rewrite E in C. exists n, A', J'. auto.
Qed.

Lemma skip_lagging bulk q M O A J :
  0 <= q -> lagging O A J -> A <> [] -> skip bulk q M O = O.
Proof.
  intros Hq [Hj Ha Hr] HA. unfold skip. rewrite Hj, empty_app_false by assumption.
  unfold skip_pending_p. destruct (skippable_p q O) as [flag n].
  rewrite Hj. destruct A as [|a A]; [congruence|]. cbn [app hd].
  inversion Ha; subst. unfold arrival in *.
  pose proof (size_nonneg (rq O)).
  destruct (Z.ltb_spec (curr_time O + size (rq O) * q)
              (arrival_time (proc (processes O) a))); [nia|reflexivity].
Qed.

(** ** Time never goes below zero *)

Lemma proc_arrival_nonneg ps i :
  Forall (fun a => 0 <= a) (map arrival_time ps) -> 0 <= arrival_time (proc ps i).
Proof.
  intros F. unfold proc.
  destruct (Nat.lt_ge_cases (Z.to_nat i) (length ps)) as [Hlt|Hge].
  - rewrite Forall_forall in F. apply F. apply in_map. now apply nth_In.
  - rewrite nth_overflow by assumption. cbn. lia.
Qed.

Lemma move_timed q M a b : 0 < q -> move q M a b -> timed a -> timed b.
Proof.
  intros Hq Mv [T F].
  destruct (move_Inv q M a b Hq Mv) as (Ia & Ib & S).
  destruct (static_fields _ _ (st_static _ _ S)) as (_ & Ea & _).
  split; [|now rewrite Ea].
  destruct Mv.
  - cbn. now apply proc_arrival_nonneg.
  - exact T.
  - destruct (bulk_skip_p_queues q M k st) as (_ & _ & -> & _).
    pose proof (size_nonneg (rq st)). nia.
  - cbn. lia.
  - exact T.
  - cbn. assert (Hin : In (hd 0 (rq st)) (rq st ++ jq st)).
    { apply in_or_app. left. destruct (rq st); [congruence|now left]. }
    pose proof (Inv_pos _ _ H Hin). lia.
Qed.

Lemma initial_timed ps : nonneg_arrivals ps -> timed (initial ps).
Proof.
  intros H. split; cbn; [lia|]. apply Forall_forall. intros a Ha.
  apply in_map_iff in Ha as (p & <- & Hp).
  unfold nonneg_arrivals in H. rewrite Forall_forall in H. now apply H.
Qed.

(** ** Quanta with no arrival and no completion *)

Lemma requeue_p_nonempty (r : list Z) : r <> [] -> requeue_p r <> [].
Proof.
  destruct r as [|h t]; [congruence|]. intros _.
  unfold requeue_p, push_back, erase_begin. cbn. destruct t; discriminate.
Qed.

Lemma requeue_p_size (r : list Z) : r <> [] -> size (requeue_p r) = size r.
Proof.
  intros H. apply requeue_perm in H. apply Permutation_length in H.
  unfold size. now rewrite H.
Qed.

(** A single step that no process interrupts: the head runs for a quantum
    and is requeued; a process that arrives at the very end of the quantum
    joins the ready queue behind it, which is where the naive run is ahead. *)
Lemma single_quiet q M x :
  rq x <> [] -> q < head_rem x ->
  jq x = [] \/ curr_time x + q <= arrival x (hd 0 (jq x)) ->
  exists A J',
    single q M x = catch_up (preempt_drained_p q M x) A J' /\
    lagging (preempt_drained_p q M x) A J' /\
    (A = [] -> tie (preempt_drained_p q M x) = false) /\
    (jq x = [] \/ curr_time x + q < arrival x (hd 0 (jq x)) -> A = []).
Proof.
  intros Hne Hh Hq. unfold single. apply Z.ltb_lt in Hh as Hh'. rewrite Hh'.
  destruct (jq x) as [|j J] eqn:Ej; cbn [empty].
  - exists [], (jq (preempt_drained_p q M x)). rewrite catch_up_nil.
    split; [reflexivity|]. split; [apply lagging_nil|]. split; [|auto].
    intros _. unfold tie. cbn [preempt_drained_p with_queues jq run_quantum_p].
    now rewrite Ej.
  - destruct Hq as [Hq|Hq]; [discriminate|]. cbn [hd] in Hq. unfold arrival in Hq.
    assert (Ea : arrival_time (proc (processes (run_quantum_p q M x)) j) =
                 arrival_time (proc (processes x) j)).
    { apply arrival_static. apply static_start_p. }
    unfold preempt_pending_p, requeue_with_arrivals_p.
    change (jq (run_quantum_p q M x)) with (jq x). rewrite Ej.
    cbn [arrivals_before_p]. rewrite Ea.
    change (curr_time (run_quantum_p q M x)) with (curr_time x + q).
    destruct (Z.ltb_spec (arrival_time (proc (processes x) j)) (curr_time x + q));
      [lia|].
    rewrite Ea.
    destruct (Z.eqb_spec (arrival_time (proc (processes x) j)) (curr_time x + q))
      as [Heq|Hneq].
    + exists [j], J. split; [|split; [|split]].
      * unfold preempt_drained_p, catch_up, with_queues, push_back, erase_begin.
        cbn. reflexivity.
      * constructor.
        -- cbn [preempt_drained_p with_queues jq run_quantum_p]. now rewrite Ej.
        -- constructor; [|constructor]. unfold arrival.
           cbn [preempt_drained_p with_queues processes curr_time run_quantum_p].
           rewrite (arrival_static _ _ j (static_start_p _ _ _)). lia.
        -- intros _. cbn [preempt_drained_p with_queues rq run_quantum_p].
           now apply requeue_p_nonempty.
      * discriminate.
      * intros [Hx|Hx]; [discriminate|]. cbn [hd] in Hx. unfold arrival in Hx. lia.
    + exists [], (jq (preempt_drained_p q M x)). rewrite catch_up_nil.
      split; [|split; [apply lagging_nil|split; [|auto]]].
      * unfold preempt_drained_p, with_queues. cbn. now rewrite Ej.
      * intros _. unfold tie.
        cbn [preempt_drained_p with_queues jq processes curr_time run_quantum_p].
        rewrite Ej. cbn [empty negb andb hd].
        rewrite (arrival_static _ _ j (static_start_p _ _ _)).
        now apply Z.eqb_neq.
Qed.

Lemma preempt_drained_p_queues q M x :
  rq (preempt_drained_p q M x) = requeue_p (rq x) /\
  jq (preempt_drained_p q M x) = jq x /\
  curr_time (preempt_drained_p q M x) = curr_time x + q.
Proof. repeat split. Qed.

(** The naive run through [S j] quanta that no arrival and no completion
    interrupt; at the end it may be ahead by one arrival. *)
Lemma naive_quanta q M j :
  0 < q ->
  forall x n R,
    Inv x -> rq x <> [] ->
    (forall i, (i <= j)%nat -> q < head_rem (quanta q M i x)) ->
    (jq x = [] /\ size (rq x) <> 1) \/
    (jq x <> [] /\ curr_time x + Z.of_nat (S j) * q <= arrival x (hd 0 (jq x))) ->
    cont false q M n x = Ok R ->
    exists n' A J',
      (n' <= n)%nat /\
      Ideal.loop false q M n' (catch_up (quanta q M (S j) x) A J') = Ok R /\
      lagging (quanta q M (S j) x) A J' /\
      (A = [] -> tie (quanta q M (S j) x) = false).
Proof.
  intros Hq. induction j as [|j IH]; intros x n R I Hne Hh Hquiet C.
  - (* one quantum *)
    pose proof (Hh 0%nat ltac:(lia)) as H0. cbn [quanta] in H0.
    assert (T : tie x = false).
    { unfold tie. destruct Hquiet as [[-> _]|[_ Ha]]; [reflexivity|].
      unfold arrival in Ha. apply andb_false_iff. right. apply Z.eqb_neq. lia. }
    assert (Lo : last_one x = false).
    { unfold last_one. destruct Hquiet as [[_ Hs]|[Hj _]].
      - apply andb_false_iff. right. now apply Z.eqb_neq.
      - apply empty_false in Hj. now rewrite Hj. }
    unfold cont in C. rewrite block_eq, skip_false, T, Lo in C by assumption.
    destruct (single_quiet q M x Hne H0) as (A & J' & E & L & Ht & _).
    { destruct Hquiet as [[-> _]|[_ Ha]]; [now left|right]. lia. }
    rewrite E in C. exists n, A, J'. cbn [quanta]. auto.
  - (* the first of several quanta: no arrival at its end *)
    pose proof (Hh 0%nat ltac:(lia)) as H0. cbn [quanta] in H0.
    assert (T : tie x = false).
    { unfold tie. destruct Hquiet as [[-> _]|[_ Ha]]; [reflexivity|].
      unfold arrival in Ha. apply andb_false_iff. right. apply Z.eqb_neq. lia. }
    assert (Lo : last_one x = false).
    { unfold last_one. destruct Hquiet as [[_ Hs]|[Hj _]].
      - apply andb_false_iff. right. now apply Z.eqb_neq.
      - apply empty_false in Hj. now rewrite Hj. }
    unfold cont in C. rewrite block_eq, skip_false, T, Lo in C by assumption.
    destruct (single_quiet q M x Hne H0) as (A & J' & E & L & _ & HA).
    { destruct Hquiet as [[-> _]|[_ Ha]]; [now left|right]. lia. }
    assert (A = []) as ->.
    { apply HA. destruct Hquiet as [[-> _]|[_ Ha]]; [now left|right]. lia. }
    rewrite E, (catch_up_same _ _ L) in C.
    destruct (preempt_drained_Inv q M x Hq I Hne H0) as [I1 _].
    destruct (preempt_drained_p_queues q M x) as (Er & Ej & Ec).
    set (x1 := preempt_drained_p q M x) in *.
    assert (Hne1 : rq x1 <> []) by (rewrite Er; now apply requeue_p_nonempty).
    destruct n as [|n]; [discriminate|].
    rewrite loop_cont_ready in C; [|lia|apply I1|exact Hne1].
    destruct (IH x1 n R I1 Hne1) as (n' & A & J'' & Hn' & C' & L' & T').
    + intros i Hi. apply (Hh (S i)). lia.
    + rewrite Ej, Er, Ec, requeue_p_size by assumption.
      destruct Hquiet as [[Hj Hs]|[Hj Ha]]; [left; auto|right].
      split; [exact Hj|].
      assert (Ea : arrival x1 (hd 0 (jq x)) = arrival x (hd 0 (jq x))).
      { unfold arrival. apply arrival_static. subst x1.
        cbn [preempt_drained_p with_queues processes run_quantum_p].
        apply static_start_p. }
      rewrite Ea. lia.
    + exact C.
    + exists n', A, J''. split; [lia|]. cbn [quanta]. fold x1. auto.
Qed.

(** ** A round of quanta is a bulk skip of one round *)

Lemma stagger_shift q k c i rs ps rem :
  stagger_p q k (c + q) i rs ps rem = stagger_p q k c (i + 1) rs ps rem.
Proof.
  revert i ps rem; induction rs as [|r rs IH]; intros i ps rem; cbn [stagger_p];
    [reflexivity|].
  rewrite IH. now replace (c + q + q * i) with (c + q * (i + 1)) by lia.
Qed.

Lemma state_eq t r j b p s t' r' j' b' p' s' :
  t = t' -> r = r' -> j = j' -> b = b' -> p = p' -> s = s' ->
  mkState t r j b p s = mkState t' r' j' b' p' s'.
Proof. intros. now subst. Qed.

Lemma quanta_round q M post :
  forall pre x, rq x = post ++ pre ->
    quanta q M (length post) x = round_state q M post pre x.
Proof.
  induction post as [|h t IH]; intros pre x Hr.
  - destruct x. cbn in Hr. subst. unfold round_state. cbn.
    rewrite app_nil_r. apply state_eq; auto. lia.
  - cbn [length quanta].
    assert (Hr1 : rq (preempt_drained_p q M x) = t ++ (pre ++ [h])).
    { cbn [preempt_drained_p with_queues rq run_quantum_p]. rewrite Hr.
      unfold requeue_p, push_back, erase_begin. cbn. now rewrite <- app_assoc. }
    rewrite (IH (pre ++ [h]) _ Hr1). unfold round_state.
    cbn [preempt_drained_p with_queues curr_time jq remaining_bursts processes seq
         run_quantum_p stagger_p emit_round_p fold_left].
    rewrite Hr. cbn [app hd]. rewrite stagger_shift.
    rewrite Z.mul_0_r, Z.add_0_r, Z.mul_1_r.
    apply state_eq; auto.
    + rewrite size_cons. ring.
    + now rewrite <- app_assoc.
Qed.

Lemma hd_skipn (l : list Z) i : (i < length l)%nat -> hd 0 (skipn i l) = nth i l 0.
Proof.
  revert i; induction l as [|x l IH]; intros [|i] H; cbn in *; try lia; auto.
  apply IH. lia.
Qed.

Lemma nth_not_in_firstn (l : list Z) i :
  NoDup l -> (i < length l)%nat -> ~ In (nth i l 0) (firstn i l).
Proof.
  intros N H Hin. rewrite <- (firstn_skipn i l) in N.
  apply (NoDup_app_disjoint _ _ _ N Hin).
  rewrite <- hd_skipn by assumption.
  destruct (skipn i l) eqn:E; [|now left].
  apply (f_equal (@length _)) in E. rewrite length_skipn in E. cbn in E. lia.
Qed.

(** During a round each head has the remaining burst it had at the start
    of the round. *)
Lemma quanta_head q M rs x i :
  rq x = rs -> NoDup rs -> valid (size (remaining_bursts x)) rs ->
  (i < length rs)%nat ->
  head_rem (quanta q M i x) = rem_of (remaining_bursts x) (nth i rs 0).
Proof.
  intros Hr N V Hi.
  assert (Hl : length (firstn i rs) = i) by (rewrite length_firstn; lia).
  assert (Hsplit : rq x = firstn i rs ++ skipn i rs ++ [])
    by now rewrite app_nil_r, firstn_skipn.
  pose proof (quanta_round q M (firstn i rs) _ x Hsplit) as E. rewrite Hl in E.
  rewrite E. unfold head_rem, round_state. cbn [rq remaining_bursts].
  rewrite app_nil_r.
  assert (Hh : hd 0 (skipn i rs ++ firstn i rs) = nth i rs 0).
  { rewrite <- hd_skipn by assumption. apply hd_app.
    intros E'. apply (f_equal (@length _)) in E'. rewrite length_skipn in E'.
    cbn in E'. lia. }
  rewrite Hh. apply stagger_rem_out.
  - unfold valid in *. rewrite Forall_forall in *. intros r Hin. apply V.
    rewrite <- (firstn_skipn i rs). apply in_or_app. now left.
  - unfold valid in V. rewrite Forall_forall in V.
    assert (In (nth i rs 0) rs) by now apply nth_In. apply V in H. lia.
  - now apply nth_not_in_firstn.
Qed.

Lemma quanta_add q M a b x : quanta q M (a + b) x = quanta q M b (quanta q M a x).
Proof. revert x; induction a as [|a IH]; intros x; cbn; auto. Qed.

(** After [a] full rounds the ready queue is as it was and its processes
    have [a] quanta less to run. *)
Lemma quanta_rounds q M rs a :
  forall x, rq x = rs -> NoDup rs -> valid (size (remaining_bursts x)) rs ->
    let y := quanta q M (a * length rs) x in
    rq y = rs /\ jq y = jq x /\
    size (remaining_bursts y) = size (remaining_bursts x) /\
    forall r, In r rs ->
      rem_of (remaining_bursts y) r = rem_of (remaining_bursts x) r - q * Z.of_nat a.
Proof.
  induction a as [|a IH]; intros x Hr N V; cbv zeta.
  - cbn [Nat.mul quanta]. repeat split; auto. intros r _. lia.
  - cbn [Nat.mul]. rewrite quanta_add.
    assert (Hsplit : rq x = rs ++ []) by now rewrite app_nil_r.
    rewrite (quanta_round q M rs [] x Hsplit).
    set (x1 := round_state q M rs [] x).
    destruct (stagger_sizes q 1 (curr_time x) 0 rs (processes x) (remaining_bursts x))
      as [_ Hs].
    assert (Hr1 : rq x1 = rs) by reflexivity.
    assert (V1 : valid (size (remaining_bursts x1)) rs).
    { subst x1. unfold round_state. cbn [remaining_bursts]. now rewrite Hs. }
    destruct (IH x1 Hr1 N V1) as (E1 & E2 & E3 & E4).
    repeat split; auto.
    + rewrite E3. exact Hs.
    + intros r Hin. rewrite (E4 r Hin). subst x1. unfold round_state.
      cbn [remaining_bursts]. rewrite stagger_rem_in by assumption. lia.
Qed.

(** Every head of [k] rounds has more than a quantum to run when every
    process of the ready queue has more than [k] quanta to run. *)
Lemma quanta_heads q M k x i :
  0 < q -> rq x <> [] -> NoDup (rq x) ->
  valid (size (remaining_bursts x)) (rq x) ->
  (forall r, In r (rq x) -> q * Z.of_nat k < rem_of (remaining_bursts x) r) ->
  (i < k * length (rq x))%nat ->
  q < head_rem (quanta q M i x).
Proof.
  intros Hq Hne N V Hrem Hi.
  set (rs := rq x) in *. set (L := length rs) in *.
  assert (HL : (0 < L)%nat) by (subst L; destruct rs; [congruence|cbn; lia]).
  pose proof (Nat.div_mod_eq i L) as Hdm.
  pose proof (Nat.mod_upper_bound i L ltac:(lia)) as Hb.
  set (a := (i / L)%nat) in *. set (b := (i mod L)%nat) in *.
  assert (Ha : (a < k)%nat) by nia.
  replace i with (a * L + b)%nat by lia. rewrite quanta_add.
  destruct (quanta_rounds q M rs a x eq_refl N V) as (E1 & E2 & E3 & E4).
  fold L in E1, E2, E3, E4. set (y := quanta q M (a * L) x) in *.
  rewrite (quanta_head q M rs y b E1 N); [| now rewrite E3 | exact Hb].
  assert (Hin : In (nth b rs 0) rs) by now apply nth_In.
  rewrite (E4 _ Hin). specialize (Hrem _ Hin). nia.
Qed.

(** ** Several rounds of quanta are a bulk skip *)

Lemma rem_ext (l1 l2 : list Z) :
  size l1 = size l2 ->
  (forall i, 0 <= i < size l1 -> rem_of l1 i = rem_of l2 i) -> l1 = l2.
Proof.
  unfold size. intros Hl H. apply (nth_ext _ _ 0 0); [lia|].
  intros n Hn. specialize (H (Z.of_nat n) ltac:(lia)).
  unfold rem_of in H. now rewrite Nat2Z.id in H.
Qed.

Lemma stagger_fst_indep q k k' c i rs ps rem rem' :
  fst (stagger_p q k c i rs ps rem) = fst (stagger_p q k' c i rs ps rem').
Proof.
  revert i ps rem rem'; induction rs as [|r rs IH]; intros i ps rem rem';
    cbn [stagger_p]; [reflexivity|]. apply IH.
Qed.

Lemma start_p_id ps r t : start_time (proc ps r) <> -1 -> start_p ps r t = ps.
Proof.
  intros H. unfold start_p. destruct (Z.eqb_spec (start_time (proc ps r)) (-1));
    [contradiction|reflexivity].
Qed.

Lemma stagger_fst_id q k c i rs ps rem :
  (forall r, In r rs -> start_time (proc ps r) <> -1) ->
  fst (stagger_p q k c i rs ps rem) = ps.
Proof.
  revert i rem; induction rs as [|r rs IH]; intros i rem H; cbn [stagger_p];
    [reflexivity|].
  rewrite start_p_id by (apply H; now left). apply IH. intros r' Hr'. apply H. now right.
Qed.

(** After a round at a time that is not negative every process of the
    ready queue has a start time. *)
Lemma stagger_started q k c i rs ps rem r :
  valid (size ps) rs -> 0 <= q -> 0 <= i -> 0 <= c -> In r rs ->
  start_time (proc (fst (stagger_p q k c i rs ps rem)) r) <> -1.
Proof.
  revert i ps rem; induction rs as [|r0 rs IH]; intros i ps rem V Hq Hi Hc Hin;
    [destruct Hin|].
  apply valid_cons in V as [Hr0 V]. cbn [stagger_p].
  destruct Hin as [->|Hin].
  - assert (Hs : start_time (proc (start_p ps r (c + q * i)) r) <> -1).
    { rewrite start_p_spec by lia. rewrite Z.eqb_refl. cbn [andb].
      destruct (Z.eqb_spec (start_time (proc ps r)) (-1)); [cbn; nia|assumption]. }
    destruct (stagger_start q k c (i + 1) rs (start_p ps r (c + q * i))
                (put rem r (rem_of rem r - q * k)) r) as [E|(E & _)];
      try lia; try congruence.
    now rewrite size_start_p.
  - apply IH; auto; try lia. now rewrite size_start_p.
Qed.

Lemma emit_rounds_p_snoc M c rs sq :
  emit_rounds_p M (S c) rs sq = emit_round_p M rs (emit_rounds_p M c rs sq).
Proof.
  revert sq; induction c as [|c IH]; intros sq; [reflexivity|].
  cbn [emit_rounds_p] in *. now rewrite IH.
Qed.

(** The state after [k] rounds of quanta, [k >= 1]. *)
Lemma quanta_bulk q M rs k :
  0 < q ->
  forall x, rq x = rs -> NoDup rs -> valid (size (processes x)) rs ->
    size (remaining_bursts x) = size (processes x) -> 0 <= curr_time x ->
    quanta q M (S k * length rs) x =
    mkState (curr_time x + size rs * q * Z.of_nat (S k)) rs (jq x)
      (snd (stagger_p q (Z.of_nat (S k)) (curr_time x) 0 rs (processes x)
              (remaining_bursts x)))
      (fst (stagger_p q (Z.of_nat (S k)) (curr_time x) 0 rs (processes x)
              (remaining_bursts x)))
      (emit_rounds_p M (S k) rs (seq x)).
Proof.
  intros Hq. induction k as [|k IH]; intros x Hr N V Hl Hc.
  - cbn [Nat.mul]. rewrite Nat.add_0_r.
    assert (Hsplit : rq x = rs ++ []) by now rewrite app_nil_r.
    rewrite (quanta_round q M rs [] x Hsplit). unfold round_state.
    apply state_eq; auto. cbn. lia.
  - replace (S (S k) * length rs)%nat with (length rs + S k * length rs)%nat by lia.
    rewrite quanta_add.
    assert (Hsplit : rq x = rs ++ []) by now rewrite app_nil_r.
    rewrite (quanta_round q M rs [] x Hsplit).
    set (x1 := round_state q M rs [] x).
    destruct (stagger_sizes q 1 (curr_time x) 0 rs (processes x) (remaining_bursts x))
      as [Hs1 Hs2].
    pose proof (size_nonneg rs) as Hsz.
    rewrite (IH x1); try reflexivity; auto.
    + unfold x1, round_state.
      cbn [curr_time jq remaining_bursts processes seq].
      set (ps1 := fst (stagger_p q 1 (curr_time x) 0 rs (processes x) (remaining_bursts x))).
      set (rem1 := snd (stagger_p q 1 (curr_time x) 0 rs (processes x) (remaining_bursts x))).
      assert (Hps : fst (stagger_p q (Z.of_nat (S k)) (curr_time x + size rs * q) 0 rs
                           ps1 rem1) = ps1).
      { apply stagger_fst_id. intros r Hin. subst ps1.
        apply stagger_started; auto; lia. }
      apply state_eq; auto.
      * rewrite !Nat2Z.inj_succ. ring.
      * apply rem_ext.
        -- destruct (stagger_sizes q (Z.of_nat (S k)) (curr_time x + size rs * q) 0 rs
                       ps1 rem1) as [_ ->].
           destruct (stagger_sizes q (Z.of_nat (S (S k))) (curr_time x) 0 rs
                       (processes x) (remaining_bursts x)) as [_ ->].
           exact Hs2.
        -- intros i Hi.
           assert (V' : valid (size (remaining_bursts x)) rs) by now rewrite Hl.
           assert (V1 : valid (size rem1) rs) by (subst rem1; now rewrite Hs2).
           destruct (in_dec Z.eq_dec i rs) as [Hin|Hout].
           ++ rewrite !stagger_rem_in by assumption. subst rem1.
              rewrite stagger_rem_in by assumption. rewrite !Nat2Z.inj_succ. ring.
           ++ rewrite !stagger_rem_out by (auto; lia). subst rem1.
              rewrite stagger_rem_out by (auto; lia). reflexivity.
      * rewrite Hps. subst ps1. apply stagger_fst_indep.
    + unfold x1, round_state. cbn [processes]. now rewrite Hs1.
    + unfold x1, round_state. cbn [processes remaining_bursts]. now rewrite Hs1, Hs2.
    + unfold x1, round_state. cbn [curr_time]. nia.
Qed.

(** ** The rounds of the trace beyond the cap add nothing *)

Lemma emit_p_full M sq x : M <= size sq -> emit_p M sq x = sq.
Proof.
  intros H. unfold emit_p. destruct (Z.ltb_spec (size sq) M); [lia|reflexivity].
Qed.

Lemma emit_p_grows M sq x : size sq <= size (emit_p M sq x).
Proof.
  destruct (emit_p_cases M sq x) as [->|[_ ->]]; [lia|].
  rewrite size_app. change (size [x]) with 1. lia.
Qed.

Lemma emit_round_p_grows M rs sq : size sq <= size (emit_round_p M rs sq).
Proof.
  unfold emit_round_p. revert sq; induction rs as [|r rs IH]; intros sq; simpl; [lia|].
  pose proof (emit_p_grows M sq r). specialize (IH (emit_p M sq r)). lia.
Qed.

Lemma emit_round_p_full M rs sq : M <= size sq -> emit_round_p M rs sq = sq.
Proof.
  unfold emit_round_p. revert sq; induction rs as [|r rs IH]; intros sq H; simpl; auto.
  rewrite emit_p_full by assumption. now apply IH.
Qed.

Lemma emit_rounds_p_full M c rs sq : M <= size sq -> emit_rounds_p M c rs sq = sq.
Proof.
  revert sq; induction c as [|c IH]; intros sq H; simpl; auto.
  rewrite emit_round_p_full by assumption. now apply IH.
Qed.

Lemma last_snoc (sq : list Z) x : last (sq ++ [x]) 0 = x.
Proof. apply last_last. Qed.

Lemma emit_p_idem M sq x : emit_p M (emit_p M sq x) x = emit_p M sq x.
Proof.
  destruct (emit_p_cases M sq x) as [E|[Hlt E]]; rewrite E; [exact E|].
  unfold emit_p. rewrite last_snoc, Z.eqb_refl. now destruct (_ <? M).
Qed.

(** A round over two distinct processes or more lengthens a trace below
    the cap. *)
Lemma emit_round_p_progress M r0 r1 rs sq :
  r0 <> r1 -> size sq < M -> size sq < size (emit_round_p M (r0 :: r1 :: rs) sq).
Proof.
  intros Hd Hlt. unfold emit_round_p. cbn [fold_left].
  fold (emit_round_p M rs (emit_p M (emit_p M sq r0) r1)).
  pose proof (emit_round_p_grows M rs (emit_p M (emit_p M sq r0) r1)) as G.
  assert (size sq < size (emit_p M (emit_p M sq r0) r1)); [|lia].
  unfold emit_p at 2. apply Z.ltb_lt in Hlt as Hlt'. rewrite Hlt'.
  destruct (Z.eqb_spec (last sq 0) r0) as [He|Hn].
  - unfold emit_p, push_back. rewrite Hlt'.
    destruct (Z.eqb_spec (last sq 0) r1); [congruence|].
    rewrite size_app. change (size [r1]) with 1. lia.
  - pose proof (emit_p_grows M (push_back sq r0) r1). unfold push_back in *.
    rewrite size_app in H. change (size [r0]) with 1 in H. lia.
Qed.

Lemma emit_rounds_p_reach M r0 r1 rs c sq :
  r0 <> r1 ->
  Z.min M (size sq + Z.of_nat c) <= size (emit_rounds_p M c (r0 :: r1 :: rs) sq).
Proof.
  intros Hd. revert sq; induction c as [|c IH]; intros sq.
  - cbn [emit_rounds_p]. lia.
  - cbn [emit_rounds_p]. specialize (IH (emit_round_p M (r0 :: r1 :: rs) sq)).
    destruct (Z.lt_ge_cases (size sq) M) as [Hlt|Hge].
    + pose proof (emit_round_p_progress M r0 r1 rs sq Hd Hlt). lia.
    + pose proof (emit_round_p_grows M (r0 :: r1 :: rs) sq). lia.
Qed.

Lemma emit_rounds_p_add M a b rs sq :
  emit_rounds_p M (a + b) rs sq = emit_rounds_p M b rs (emit_rounds_p M a rs sq).
Proof. revert sq; induction a as [|a IH]; intros sq; cbn; auto. Qed.

Lemma emit_rounds_p_single M c r sq :
  emit_rounds_p M (S c) [r] sq = emit_p M sq r.
Proof.
  induction c as [|c IH]; [reflexivity|].
  rewrite emit_rounds_p_snoc, IH. unfold emit_round_p. cbn [fold_left].
  apply emit_p_idem.
Qed.

(** Line 91 stops the rounds of the trace at [max_seq_len]: the rounds that
    it leaves out would add nothing. *)
Lemma emit_rounds_p_cut M k rs sq :
  NoDup rs -> rs <> [] -> 1 <= k ->
  emit_rounds_p M (Z.to_nat (Z.min k M)) rs sq = emit_rounds_p M (Z.to_nat k) rs sq.
Proof.
  intros N Hne Hk.
  destruct (Z.le_gt_cases k M) as [Hle|Hgt]; [now rewrite Z.min_l by lia|].
  rewrite Z.min_r by lia.
  destruct (Z.le_gt_cases M 0) as [H0|H0].
  { pose proof (size_nonneg sq). rewrite !emit_rounds_p_full by lia. reflexivity. }
  replace (Z.to_nat k) with (Z.to_nat M + (Z.to_nat k - Z.to_nat M))%nat by lia.
  rewrite emit_rounds_p_add.
  destruct rs as [|r0 [|r1 rs]]; [congruence| |].
  - destruct (Z.to_nat M) as [|m] eqn:Em; [lia|].
    destruct (Z.to_nat k - S m)%nat as [|d]; [reflexivity|].
    rewrite !emit_rounds_p_single. symmetry. apply emit_p_idem.
  - symmetry. apply emit_rounds_p_full.
    pose proof (emit_rounds_p_reach M r0 r1 rs (Z.to_nat M) sq) as H.
    pose proof (size_nonneg sq).
    assert (r0 <> r1).
    { inversion N as [|? ? Hn _]; subst. intros ->. apply Hn. now left. }
    specialize (H H2). lia.
Qed.

(** [k] rounds of quanta are the bulk skip of [k] rounds. *)
Lemma bulk_as_quanta q M k x :
  0 < q -> 1 <= k -> Inv x -> rq x <> [] -> 0 <= curr_time x ->
  quanta q M (Z.to_nat k * length (rq x)) x = bulk_skip_p q M k x.
Proof.
  intros Hq Hk I Hne Hc.
  pose proof (inv_range _ I) as [Hl Vr _ _].
  assert (N : NoDup (rq x)) by (eapply NoDup_app_l, (inv_nodup _ I)).
  destruct (Z.to_nat k) as [|kn] eqn:Ek; [lia|].
  rewrite (quanta_bulk q M (rq x) kn Hq x eq_refl N Vr Hl Hc).
  replace (Z.of_nat (S kn)) with k by lia.
  unfold bulk_skip_p. destruct (stagger_p _ _ _ _ _ _ _) as [ps rem]. cbn [fst snd].
  apply state_eq; auto. rewrite emit_rounds_p_cut by assumption. now rewrite Ek.
Qed.

(** ** The optimized run follows the naive run *)

Lemma block_ready bulk q M s :
  rq s <> [] -> next bulk q M s = block bulk q M s.
Proof.
  intros Hne. rewrite next_block, boot_id by assumption.
  apply empty_false in Hne. now rewrite Hne.
Qed.

Lemma block_good bulk q M s :
  0 < q -> Inv s -> timed s -> rq s <> [] ->
  Inv (state_of (block bulk q M s)) /\ timed (state_of (block bulk q M s)).
Proof.
  intros Hq I T Hne. rewrite <- block_ready by assumption. split.
  - pose proof (next_Inv bulk q M s Hq I) as H.
    destruct (next bulk q M s); apply H.
  - exact (moves_keep q M timed (fun a b Mv => move_timed q M a b Hq Mv) _ _
             (next_moves bulk q M s Hq I) T).
Qed.

(** When the bulk skip is taken it is a skip of [k >= 1] rounds that no
    arrival and no completion interrupt. *)
Lemma skip_cases q M s :
  0 < q -> Inv s -> rq s <> [] -> tie s = false -> last_one s = false ->
  skip true q M s = s \/
  exists k, 1 <= k /\ skip true q M s = bulk_skip_p q M k s /\
    (forall r, In r (rq s) -> q * k < rem_of (remaining_bursts s) r) /\
    ((jq s = [] /\ size (rq s) <> 1) \/
     (jq s <> [] /\
      curr_time s + k * size (rq s) * q <= arrival s (hd 0 (jq s)))).
Proof.
  intros Hq I Hne T Lo. unfold skip, last_one in *.
  destruct (empty (jq s)) eqn:Ej; cbn [andb] in Lo.
  - apply empty_true in Ej. apply Z.eqb_neq in Lo.
    unfold skip_drained_p. destruct (skippable_p q s) as [flag n] eqn:E.
    destruct flag; cbn [andb]; [|now left]. right.
    destruct (skippable_spec q s n Hq Hne E) as [Hn Hr].
    exists n. repeat split; auto. intros r Hin. now destruct (Hr r Hin).
  - apply empty_false in Ej.
    unfold skip_pending_p. destruct (skippable_p q s) as [flag n] eqn:E.
    set (a := arrival_time _).
    destruct (Z.ltb_spec (curr_time s + size (rq s) * q) a) as [Hc|Hc];
      cbn [andb]; [|now left].
    destruct flag; cbn [andb]; [|now left]. right.
    destruct (skippable_spec q s n Hq Hne E) as [Hn Hr].
    assert (Hsz : 1 <= size (rq s)).
    { destruct (rq s); [congruence|]. rewrite size_cons. pose proof (size_nonneg l). lia. }
    destruct (quot_rounds (a - curr_time s) (size (rq s) * q)) as [Hm Hm']; try nia.
    set (k := Z.min n _). exists k.
    split; [subst k; lia|]. split; [reflexivity|]. split.
    + intros r Hin. destruct (Hr r Hin). subst k. nia.
    + right. split; [exact Ej|]. unfold arrival. fold a. subst k. nia.
Qed.

Lemma arrive_good q s :
  0 < q -> Inv s -> timed s -> rq s <> [] -> tie s = true ->
  Inv (arrive s) /\ timed (arrive s) /\ (length (jq (arrive s)) < length (jq s))%nat.
Proof.
  intros Hq I T Hne Ht. unfold tie in Ht. apply andb_true_iff in Ht as [Hj Ha].
  apply negb_true_iff, empty_false in Hj. apply Z.eqb_eq in Ha.
  assert (Mv : move q 0 s (arrive s)).
  { constructor; auto.
    - now apply (rng_seq _ (inv_range _ I)).
    - unfold arrival. lia. }
  destruct (move_Inv q 0 _ _ Hq Mv) as (_ & I' & _).
  split; [exact I'|]. split; [exact (move_timed q 0 _ _ Hq Mv T)|].
  cbn. destruct (jq s); [congruence|cbn; lia].
Qed.

Section Simulation.

Variables (q M : Z) (n0 : nat) (l : nat).
Hypothesis Hq : 0 < q.

(** The statement of the simulation, for runs of the naive loop of at most
    [n'] iterations. *)
Let follows (n' : nat) (O : state) : Prop :=
  forall A J R,
    Inv O -> timed O -> lagging O A J ->
    Ideal.loop false q M n' (catch_up O A J) = Ok R ->
    exists m, Ideal.loop true q M m O = Ok R.

Hypothesis IHn : forall n' O, (n' <= n0)%nat -> follows n' O.
Hypothesis IHl : forall O, (length (jq O) < l)%nat -> follows (S n0) O.

(** One iteration of the optimized run, past its bootstrap dispatch. *)
Lemma simulation_step O A J R :
  Inv O -> timed O -> rq O <> [] -> lagging O A J ->
  (length (jq O) <= l)%nat ->
  cont false q M n0 (catch_up O A J) = Ok R ->
  exists m, cont true q M m O = Ok R.
Proof.
  intros I T Hne L Hl C.
  destruct (block_good true q M O Hq I T Hne) as [Ib Tb].
  unfold cont. rewrite block_eq in * by assumption.
  destruct A as [|a A].
  - (* both runs in the same state *)
    rewrite (catch_up_same _ _ L) in C. unfold cont in C.
    rewrite block_eq, skip_false in C by assumption.
    destruct (tie O) eqn:Ht.
    { cbn [state_of] in *.
      rewrite <- (catch_up_nil (arrive O)) in C.
      exact (IHn n0 (arrive O) (le_n _) _ _ _ Ib Tb (lagging_nil _) C). }
    destruct (last_one O) eqn:Lo; [exists 0%nat; exact C|].
    cbn [state_of] in *.
    destruct (skip_cases q M O Hq I Hne Ht Lo) as [E|(k & Hk & E & Hrem & Hquiet)].
    { rewrite E in *. rewrite <- (catch_up_nil (single q M O)) in C.
      exact (IHn n0 _ (le_n _) _ _ _ Ib Tb (lagging_nil _) C). }
    rewrite E in *. clear E.
    assert (N : NoDup (rq O)) by (eapply NoDup_app_l, (inv_nodup _ I)).
    pose proof (inv_range _ I) as [Hlen Vr _ _].
    assert (HL : (0 < length (rq O))%nat).
    { destruct (rq O); [congruence|cbn; lia]. }
    assert (Hj : exists j, S j = (Z.to_nat k * length (rq O))%nat).
    { exists (Z.to_nat k * length (rq O) - 1)%nat. nia. }
    destruct Hj as [j Hj].
    assert (C0 : cont false q M n0 O = Ok R).
    { unfold cont. now rewrite block_eq, skip_false, Ht, Lo by assumption. }
    destruct (naive_quanta q M j Hq O n0 R I Hne) as (n1 & A1 & J1 & Hn1 & C1 & L1 & T1).
    { intros i Hi. apply (quanta_heads q M (Z.to_nat k)); auto.
      - now rewrite Hlen.
      - intros r Hin. specialize (Hrem r Hin). lia.
      - lia. }
    { destruct Hquiet as [Hd|[Hp Ha]]; [now left|right]. split; [exact Hp|].
      rewrite Hj. unfold size in Ha. nia. }
    { exact C0. }
    rewrite Hj, bulk_as_quanta in C1, L1, T1 by (auto; apply T).
    set (B := bulk_skip_p q M k O) in *.
    destruct (bulk_Inv q M k O Hq ltac:(lia) I Hne Hrem) as (IB & _ & _).
    destruct (bulk_skip_p_queues q M k O) as (Er & Ej & _). fold B in Er, Ej.
    assert (HneB : rq B <> []) by now rewrite Er.
    assert (HneN : rq (catch_up B A1 J1) <> []).
    { cbn. destruct (rq B); [congruence|discriminate]. }
    destruct n1 as [|n1]; [discriminate|].
    rewrite loop_cont_ready in C1;
      [|lia|apply inv_range, Inv_catch_up; assumption|exact HneN].
    destruct (naive_catch_up q M B Hq IB HneB J1 A1 n1 R L1) as (n2 & A2 & J2 & Hn2 & C2 & L2).
    { destruct A1 as [|a1 A1]; [right|left; discriminate].
      split; [now apply T1|]. unfold last_one in *. now rewrite Er, Ej. }
    { exact C1. }
    exact (IHn n2 _ ltac:(lia) _ _ _ Ib Tb L2 C2).
  - (* the naive run is ahead *)
    assert (Hj : jq O = a :: A ++ J) by apply (lag_jq _ _ _ L).
    assert (Lo : last_one O = false) by (unfold last_one; now rewrite Hj).
    rewrite Lo in *.
    destruct (tie O) eqn:Ht.
    + cbn [state_of] in *.
      destruct (arrive_good q O Hq I T Hne Ht) as (Ia & Ta & Hlt).
      assert (La : lagging (arrive O) A J).
      { destruct L as [_ Ha Hr]. inversion Ha; subst. constructor.
        - cbn. now rewrite Hj.
        - exact H2.
        - intros _. cbn. unfold push_back. destruct (rq O); discriminate. }
      assert (E : catch_up (arrive O) A J = catch_up O (a :: A) J).
      { unfold catch_up, arrive, with_queues, push_back. cbn.
        rewrite Hj. cbn. now rewrite <- app_assoc. }
      apply (IHl (arrive O) ltac:(lia) A J R Ia Ta La).
      rewrite E, loop_cont_ready; auto; try lia.
      * apply inv_range, Inv_catch_up; assumption.
      * cbn. destruct (rq O); [congruence|discriminate].
    + cbn [state_of] in *.
      rewrite (skip_lagging true q M O (a :: A) J) in * by (auto; lia || discriminate).
      destruct (naive_catch_up q M O Hq I Hne J (a :: A) n0 R L) as (n2 & A2 & J2 & Hn2 & C2 & L2).
      { left. discriminate. }
      { exact C. }
      exact (IHn n2 _ Hn2 _ _ _ Ib Tb L2 C2).
Qed.

End Simulation.

(** The optimized run from [O] returns what the naive run returns from a
    state that is ahead of [O]. *)
Lemma simulation q M :
  0 < q ->
  forall n O A J R,
    Inv O -> timed O -> lagging O A J ->
    Ideal.loop false q M n (catch_up O A J) = Ok R ->
    exists m, Ideal.loop true q M m O = Ok R.
Proof.
  intros Hq n. induction n as [n IHn] using lt_wf_ind.
  intros O. remember (length (jq O)) as l eqn:El. revert O El.
  induction l as [l IHl] using lt_wf_ind. intros O El A J R I T L C.
  destruct n as [|n0]; [discriminate|].
  assert (IN : Inv (catch_up O A J)) by now apply Inv_catch_up.
  rewrite loop_cont in C by (lia || apply IN).
  assert (Step : forall O1 A1 J1,
             Inv O1 -> timed O1 -> rq O1 <> [] -> lagging O1 A1 J1 ->
             (length (jq O1) <= l)%nat ->
             cont false q M n0 (catch_up O1 A1 J1) = Ok R ->
             exists m, cont true q M m O1 = Ok R).
  { intros O1 A1 J1. apply (simulation_step q M n0 l Hq).
    - intros n' O' Hn'. apply (IHn n'). lia.
    - intros O' Hl'. intros A' J' R'. apply (IHl _ Hl' O' eq_refl). }
  destruct (rq O) as [|r0 rs] eqn:Er.
  - (* the ready queue of the optimized run is empty: no lag *)
    assert (A = []) as ->.
    { destruct A; [reflexivity|]. exfalso. apply (lag_ready _ _ _ L); [discriminate|exact Er]. }
    rewrite (catch_up_same _ _ L) in C. rewrite Er in C. cbn [empty andb] in C.
    destruct (jq O) as [|j0 js] eqn:Ej.
    + cbn [empty] in C. exists 1%nat.
      rewrite loop_cont by (lia || apply I). now rewrite Er, Ej.
    + cbn [empty] in C.
      assert (Hj : jq O <> []) by (rewrite Ej; discriminate).
      destruct (bootstrap_Inv M O I Er Hj) as (I1 & _ & Hlt & Hne1).
      assert (Mv : move q M O (bootstrap_p M O)) by now constructor.
      pose proof (move_timed q M _ _ Hq Mv T) as T1.
      assert (Eb : boot M O = bootstrap_p M O).
      { unfold boot, bootstrap_guard. now rewrite Er, Ej. }
      rewrite Eb in C. rewrite <- (catch_up_nil (bootstrap_p M O)) in C.
      destruct (Step _ _ _ I1 T1 Hne1 (lagging_nil _)) with (2 := C) as [m Hm].
      { unfold size in Hlt. rewrite Ej in Hlt. rewrite El. lia. }
      exists (S m). rewrite loop_cont by (lia || apply I).
      now rewrite Er, Ej, Eb.
  - assert (Hne : rq O <> []) by (rewrite Er; discriminate).
    assert (HneN : rq (catch_up O A J) <> []).
    { cbn. rewrite Er. discriminate. }
    rewrite boot_id in C by assumption.
    apply empty_false in HneN as HneN'. rewrite HneN' in C. cbn [andb] in C.
    destruct (Step O A J I T Hne L ltac:(lia) C) as [m Hm].
    exists (S m). rewrite loop_cont_ready; auto. lia. apply I.
Qed.

(** * The properties of the specification, over unbounded integers *)

Lemma scenarioB_indices : ids_are_indices scenarioB.
Proof. reflexivity. Qed.

Lemma scenarioB_bursts : positive_bursts scenarioB.
Proof. repeat constructor. Qed.

(** ** Termination *)

(** Over unbounded integers.
    On an input with a positive quantum, positive bursts and ids equal to
    positions, [simulate_rr] terminates: the loop exits with both queues
    empty within [enough_fuel] iterations, and every iteration of the run
    either is the last one, or moves a process out of the pending queue, or
    removes a process from the queues, or decreases the total remaining burst
    by a quantum at least. *)
Lemma ideal_run_terminates (q M : Z) (ps : list Process) :
  0 < q -> ids_are_indices ps -> positive_bursts ps ->
  (exists st',
     Ideal.loop true q M (enough_fuel ps) (initial ps) = Ok st' /\
     rq st' = [] /\ jq st' = [] /\
     Ideal.simulate_rr (enough_fuel ps) q M ps = Ok (processes st', seq st')) /\
  (forall st, Ideal.reachable true q M ps st ->
     exists c, Ideal.step true q M st = Ok c /\
       match c with
       | Continue st' => progress q st st'
       | Break st' => rq st' = [] /\ jq st' = []
       end).
Proof.
  intros Hq Hi Hb. split.
  - destruct (simulate_runs true q M ps Hq Hi Hb) as (st' & E & E' & _ & _ & Q1 & Q2).
    exists st'. auto.
  - intros st R. destruct (reachable_Inv true q M ps st Hq Hi Hb R) as [I _].
    destruct (step_next true q M st) as [E _]; [lia|apply I|].
    exists (next true q M st). split; [exact E|].
    pose proof (next_Inv true q M st Hq I) as H.
    destruct (next true q M st); [apply H|]. destruct H as (_ & _ & Q1 & Q2). auto.
Qed.

(** ** Frame *)


(** ** The cap on the trace *)


(** ** Start times *)


Lemma scenarioB_unset : unset_starts scenarioB.
Proof. repeat constructor. Qed.

(** ** The bulk skip *)

Lemma scenarioB_arrivals : nonneg_arrivals scenarioB.
Proof. repeat constructor; cbn; lia. Qed.

(** Over unbounded integers.
    The bulk skip is an optimization only: [simulate_rr] and the variant
    that never takes the bulk skip and advances one quantum at a time return
    the same processes, start and finish times included, and the same trace,
    for every cap [max_seq_len] and not only for a cap that does not bind. *)
Lemma ideal_skip_as_naive (q M : Z) (ps : list Process) :
  0 < q -> ids_are_indices ps -> positive_bursts ps -> nonneg_arrivals ps ->
  exists ps' sq,
    Ideal.simulate_rr_naive (enough_fuel ps) q M ps = Ok (ps', sq) /\
    Ideal.simulate_rr (enough_fuel ps) q M ps = Ok (ps', sq).
Proof.
  intros Hq Hi Hb Ha.
  destruct (simulate_runs false q M ps Hq Hi Hb) as (s1 & L1 & E1 & _).
  destruct (simulate_runs true q M ps Hq Hi Hb) as (s2 & L2 & E2 & _).
  exists (processes s1), (seq s1). split; [exact E1|].
  rewrite <- (catch_up_nil (initial ps)) in L1.
  destruct (simulation q M Hq _ _ _ _ _ (initial_Inv ps Hi Hb) (initial_timed ps Ha)
              (lagging_nil _) L1) as [m Lm].
  now rewrite (loop_deterministic _ _ _ _ _ _ _ _ Lm L2).
Qed.

(** * Further properties, over unbounded integers *)

(** ** The bulk skip stays clear of completions and arrivals *)

(** Over unbounded integers.
    When the scan of lines 64-79 (and 175-191) allows [n] full rounds,
    [n] is at least 1, and a bulk skip of [k <= n] rounds (lines 83-97 and
    193-206) completes no process: the queues stay, every ready process keeps
    a positive remaining burst, the same amount less than before, and the time
    advances by [k] rounds.  With a process pending that arrives at [a], after
    the first round, the number of rounds [min(n, m)] of line 83 is between 1
    and [n] and does not take the time past [a]. *)
Lemma ideal_skip_safe (q M : Z) (st : state) (n : Z) :
  0 < q -> Inv st -> rq st <> [] ->
  Ideal.skippable_rounds q st = Ok (true, n) ->
  1 <= n /\
  (forall k, 1 <= k <= n ->
     exists st1,
       Ideal.bulk_skip q M k st = Ok st1 /\ Inv st1 /\
       rq st1 = rq st /\ jq st1 = jq st /\
       curr_time st1 = curr_time st + size (rq st) * q * k /\
       forall r, In r (rq st) ->
         rem_of (remaining_bursts st1) r = rem_of (remaining_bursts st) r - q * k /\
         0 < rem_of (remaining_bursts st1) r) /\
  (forall a, curr_time st + size (rq st) * q < a ->
     let m := Z.quot (a - curr_time st) (size (rq st) * q) in
     1 <= Z.min n m <= n /\ curr_time st + size (rq st) * q * Z.min n m <= a).
Proof.
  intros Hq I Hne E.
  pose proof (inv_range _ I) as R.
  rewrite (skippable_eq q st R Hne) in E.
  destruct (Z.eqb_spec q 0) as [|_]; [lia|]. inversion E as [E1]. clear E.
  destruct (skippable_spec q st n Hq Hne E1) as [Hn Hr].
  split; [exact Hn|]. split.
  - intros k Hk.
    assert (Hlt : forall r, In r (rq st) -> q * k < rem_of (remaining_bursts st) r).
    { intros r Hin. destruct (Hr r Hin). nia. }
    destruct (bulk_skip_eq q M k st R Hne) as [Eb _].
    destruct (bulk_Inv q M k st Hq ltac:(lia) I Hne Hlt) as (I1 & _ & _).
    destruct (bulk_skip_p_queues q M k st) as (Qr & Qj & Qt & _ & Qb & _).
    exists (bulk_skip_p q M k st). repeat (split; [assumption|]).
    intros r Hin. rewrite Qb.
    rewrite stagger_rem_in; auto.
    + specialize (Hlt r Hin). lia.
    + rewrite (rng_len _ R). apply (rng_rq _ R).
    + apply (NoDup_app_l _ _ (inv_nodup _ I)).
  - intros a Ha m.
    assert (Hsz : 1 <= size (rq st)).
    { destruct (rq st); [congruence|]. rewrite size_cons. pose proof (size_nonneg l). lia. }
    destruct (quot_rounds (a - curr_time st) (size (rq st) * q)) as [Hm1 Hm2];
      [nia|lia|].
    fold m in Hm1, Hm2. split; [lia|].
    assert (0 < size (rq st) * q) by nia.
    assert (size (rq st) * q * Z.min n m <= size (rq st) * q * m) by (apply Z.mul_le_mono_nonneg_l; lia).
    lia.
Qed.

(** ** What a move appends to the trace *)

Lemma extends_refl xs sq : extends xs sq sq.
Proof. exists []. split; [now rewrite app_nil_r|intros x []]. Qed.

Lemma extends_trans xs a b c : extends xs a b -> extends xs b c -> extends xs a c.
Proof.
  intros (l1 & -> & H1) (l2 & -> & H2). exists (l1 ++ l2).
  split; [now rewrite app_assoc|]. now apply incl_app.
Qed.

Lemma extends_more xs ys a b : incl xs ys -> extends xs a b -> extends ys a b.
Proof. intros H (l & -> & Hl). exists l. split; [reflexivity|]. now apply incl_tran with xs. Qed.

Lemma emit_p_extends M sq x : extends [x] sq (emit_p M sq x).
Proof.
  destruct (emit_p_cases M sq x) as [->|[_ ->]]; [apply extends_refl|].
  exists [x]. split; [reflexivity|apply incl_refl].
Qed.

Lemma emit_round_p_extends M rs sq : extends rs sq (emit_round_p M rs sq).
Proof.
  unfold emit_round_p. revert sq.
  induction rs as [|r rs IH]; intros sq; cbn [fold_left]; [apply extends_refl|].
  eapply extends_trans.
  - apply (extends_more [r]); [|apply emit_p_extends].
    intros x [<-|[]]. now left.
  - apply (extends_more rs); [|apply IH]. intros x Hx. now right.
Qed.

Lemma emit_rounds_p_extends M c rs sq : extends rs sq (emit_rounds_p M c rs sq).
Proof.
  revert sq. induction c as [|c IH]; intros sq; cbn [emit_rounds_p];
    [apply extends_refl|].
  eapply extends_trans; [apply emit_round_p_extends|apply IH].
Qed.

(** A move appends idle markers and processes of the queues. *)
Lemma move_extends q M a b :
  move q M a b -> extends (-1 :: rq a ++ jq a) (seq a) (seq b).
Proof.
  intros Mv. destruct Mv as [st I Hr Hj|st I Hj Hs Ha|st k I Hne Hk Hlt|st I Hne Hh
                            |st rq' jq' I Hne Hs E|st I Hne].
  - unfold bootstrap_p. cbn [seq]. rewrite Hr. cbn [push_back app hd].
    destruct (_ && _).
    + exists [hd 0 (jq st)]. split; [reflexivity|].
      intros x [<-|[]]. right. destruct (jq st); [congruence|now left].
    + exists [-1]. split; [reflexivity|]. intros x [<-|[]]. now left.
  - apply extends_refl.
  - destruct (bulk_skip_p_queues q M k st) as (_ & _ & _ & _ & _ & ->).
    apply (extends_more (rq st)); [|apply emit_rounds_p_extends].
    intros x Hx. right. apply in_or_app. now left.
  - unfold run_quantum_p. cbn [seq].
    apply (extends_more [hd 0 (rq st)]); [|apply emit_p_extends].
    intros x [<-|[]]. right. apply in_or_app. left.
    destruct (rq st); [congruence|now left].
  - apply extends_refl.
  - unfold run_to_completion_p. cbn [seq].
    apply (extends_more [hd 0 (rq st)]); [|apply emit_p_extends].
    intros x [<-|[]]. right. apply in_or_app. left.
    destruct (rq st); [congruence|now left].
Qed.

Lemma move_size q M a b :
  0 < q -> move q M a b -> size (processes b) = size (processes a).
Proof.
  intros Hq Mv. destruct (move_Inv q M a b Hq Mv) as (_ & _ & S).
  pose proof (st_static _ _ S) as E. apply (f_equal (@length _)) in E.
  rewrite !length_map in E. unfold size. now rewrite E.
Qed.

(** ** The entries of the trace *)

Lemma move_entries_ok q M a b : 0 < q -> move q M a b -> entries_ok a -> entries_ok b.
Proof.
  intros Hq Mv H. unfold entries_ok in *.
  rewrite (move_size q M a b Hq Mv).
  destruct (move_extends q M a b Mv) as (l & -> & Hl).
  apply Forall_app. split; [exact H|].
  apply Forall_forall. intros x Hx. destruct (Hl x Hx) as [<-|Hin]; [now left|].
  right. destruct (move_Inv q M a b Hq Mv) as (I & _ & _).
  now apply (Inv_valid a x I).
Qed.

Lemma index_is_id ps x : ids_are_indices ps -> 0 <= x < size ps -> In x (map id ps).
Proof.
  intros Hi Hx. rewrite Hi. replace x with (Z.of_nat (Z.to_nat x)) by lia.
  apply in_map, in_seq. unfold size in Hx. lia.
Qed.

(** Over unbounded integers.
    The entries of the trace are the idle marker -1 and ids of processes
    (lines 43-48, 93-95, 110-112, 140-142 and their copies in the second
    block). *)
Lemma ideal_entries_of_trace (q M : Z) (ps : list Process) :
  0 < q -> ids_are_indices ps -> positive_bursts ps ->
  exists ps' sq,
    Ideal.simulate_rr (enough_fuel ps) q M ps = Ok (ps', sq) /\
    Forall (fun x => x = -1 \/ In x (map id ps)) sq.
Proof.
  intros Hq Hi Hb.
  destruct (simulate_runs true q M ps Hq Hi Hb) as (st' & L & E & _ & S & _).
  exists (processes st'), (seq st'). split; [exact E|].
  assert (H : entries_ok st').
  { apply (loop_keep true q M entries_ok Hq (fun a b => move_entries_ok q M a b Hq)
             (enough_fuel ps) (initial ps) st' (initial_Inv ps Hi Hb));
      [constructor|exact L]. }
  assert (Hs : size (processes st') = size ps).
  { pose proof (st_static _ _ S) as Es. apply (f_equal (@length _)) in Es.
    rewrite !length_map in Es. unfold size. cbn [initial processes] in Es. now rewrite Es. }
  unfold entries_ok in H. rewrite Hs in H.
  eapply Forall_impl; [|exact H]. cbv beta. intros x [->|Hx]; [now left|right].
  now apply index_is_id.
Qed.

(** ** Every process shows in a trace below the cap *)

Lemma emit_p_in M sq x : sq <> [] -> size sq < M -> In x (emit_p M sq x).
Proof.
  intros Hne Hs. unfold emit_p. destruct (Z.ltb_spec (size sq) M); [|lia].
  destruct (Z.eqb_spec (last sq 0) x) as [<-|_].
  - destruct (exists_last Hne) as (l & y & ->). rewrite last_snoc.
    apply in_or_app. right. now left.
  - apply in_or_app. right. now left.
Qed.

Lemma move_shown q M a b : 0 < q -> move q M a b -> shown M a -> shown M b.
Proof.
  intros Hq Mv H Hs i Hi.
  rewrite (move_size q M a b Hq Mv) in Hi.
  destruct (move_extends q M a b Mv) as (l & El & _).
  assert (Hs' : size (seq a) < M).
  { rewrite El, size_app in Hs. pose proof (size_nonneg l). lia. }
  destruct (H Hs' i Hi) as [Hin|Hin].
  - destruct (move_queues q M a b i Mv) as [_ Hq2].
    destruct (Hq2 Hin) as [Hb|(Hne & -> & ->)]; [now left|right].
    unfold run_to_completion_p. cbn [seq]. apply emit_p_in; [|exact Hs'].
    destruct (move_Inv q M a _ Hq Mv) as (I & _ & _).
    now apply (rng_seq _ (inv_range _ I)).
  - right. rewrite El. apply in_or_app. now left.
Qed.

(** Over unbounded integers.
    When the trace ends below the cap, every process is in it: each
    completion (lines 140-142, 163-165 and 232-234) appends the process to a
    trace below the cap unless it is the last entry. *)
Lemma ideal_processes_in_trace (q M : Z) (ps : list Process) :
  0 < q -> ids_are_indices ps -> positive_bursts ps ->
  exists ps' sq,
    Ideal.simulate_rr (enough_fuel ps) q M ps = Ok (ps', sq) /\
    (size sq < M -> Forall (fun p => In (id p) sq) ps).
Proof.
  intros Hq Hi Hb.
  destruct (simulate_runs true q M ps Hq Hi Hb) as (st' & L & E & _ & S & Er & Ej).
  exists (processes st'), (seq st'). split; [exact E|]. intros Hs.
  assert (H : shown M st').
  { apply (loop_keep true q M (shown M) Hq (fun a b => move_shown q M a b Hq)
             (enough_fuel ps) (initial ps) st' (initial_Inv ps Hi Hb)); [|exact L].
    intros _ i Hr. left. cbn [initial rq jq processes app] in *.
    now apply index_is_id. }
  assert (Hsz : size (processes st') = size ps).
  { pose proof (st_static _ _ S) as Es. apply (f_equal (@length _)) in Es.
    rewrite !length_map in Es. unfold size. cbn [initial processes] in Es. now rewrite Es. }
  apply Forall_forall. intros p Hp.
  pose proof (ids_valid ps Hi) as V. unfold valid in V. rewrite Forall_forall in V.
  specialize (V (id p) (in_map id ps p Hp)).
  rewrite <- Hsz in V. destruct (H Hs (id p) V) as [Hin|Hin]; [|exact Hin].
  rewrite Er, Ej in Hin. destruct Hin.
Qed.

(** ** What a move does to a process *)

Lemma stagger_proc q k c rs :
  forall i0 ps rem i,
    valid (size ps) rs -> 0 <= q -> 0 <= i ->
    (~ In i rs -> proc (fst (stagger_p q k c i0 rs ps rem)) i = proc ps i) /\
    (In i rs ->
     exists t, c + q * i0 <= t <= c + q * (i0 + size rs - 1) /\
       proc (fst (stagger_p q k c i0 rs ps rem)) i =
       if start_time (proc ps i) =? -1 then with_start (proc ps i) t else proc ps i).
Proof.
  induction rs as [|r rs IH]; intros i0 ps rem i V Hq Hi; cbn [stagger_p].
  - split; [reflexivity|intros []].
  - apply valid_cons in V as [Hr V].
    set (t0 := c + q * i0).
    destruct (IH (i0 + 1) (start_p ps r t0) (put rem r (rem_of rem r - q * k)) i)
      as [IH1 IH2]; try lia.
    { now rewrite size_start_p. }
    pose proof (size_nonneg rs) as Hs. rewrite size_cons.
    pose proof (start_p_spec ps r t0 i Hr Hi) as Sp.
    split.
    + intros Hn. rewrite IH1 by (intros Hin; apply Hn; now right).
      rewrite Sp. destruct (Z.eqb_spec i r) as [->|Hne]; [|reflexivity].
      exfalso. apply Hn. now left.
    + intros Hin. destruct (in_dec Z.eq_dec i rs) as [Hrs|Hrs].
      * destruct (IH2 Hrs) as (t & Ht & Et). rewrite Et, Sp.
        destruct (Z.eqb_spec i r) as [->|Hne]; cbn [andb].
        -- destruct (Z.eqb_spec (start_time (proc ps r)) (-1)) as [Eu|Eu].
           ++ cbn [with_start start_time].
              destruct (Z.eqb_spec t0 (-1)).
              ** exists t. split; [unfold t0 in *; nia|reflexivity].
              ** exists t0. split; [unfold t0; nia|reflexivity].
           ++ exists t0. split; [unfold t0; nia|].
              destruct (Z.eqb_spec (start_time (proc ps r)) (-1)); [contradiction|reflexivity].
        -- exists t. split; [unfold t0 in *; nia|reflexivity].
      * destruct Hin as [<-|Hin]; [|contradiction].
        rewrite (IH1 Hrs), Sp, Z.eqb_refl. cbn [andb].
        exists t0. split; [unfold t0; nia|reflexivity].
Qed.

Lemma completion_effect M st :
  Inv st -> rq st <> [] ->
  let h := hd 0 (rq st) in
  let p := proc (processes st) h in
  let b := run_to_completion_p M st in
  proc (processes b) h =
    with_finish (if start_time p =? -1 then with_start p (curr_time st) else p)
      (curr_time st + rem_of (remaining_bursts st) h) /\
  rem_of (remaining_bursts b) h = 0 /\
  curr_time b = curr_time st + rem_of (remaining_bursts st) h /\
  0 < rem_of (remaining_bursts st) h /\
  forall i, 0 <= i -> i <> h -> untouched st b i.
Proof.
  intros I Hne. cbv zeta. pose proof (inv_range _ I) as R.
  pose proof (valid_hd _ _ (rng_rq _ R) Hne) as Hh.
  assert (Hh' : 0 <= hd 0 (rq st) < size (remaining_bursts st)) by now rewrite (rng_len _ R).
  cbn [run_to_completion_p processes remaining_bursts curr_time].
  split; [|split; [|split; [|split]]].
  - rewrite proc_put_same by now rewrite size_start_p.
    rewrite start_p_spec by lia. rewrite Z.eqb_refl. cbn [andb].
    now destruct (start_time (proc (processes st) (hd 0 (rq st))) =? -1).
  - now apply rem_of_put_same.
  - reflexivity.
  - apply (Inv_pos st _ I). apply in_or_app. left.
    destruct (rq st); [congruence|now left].
  - intros i Hi Hd. unfold untouched.
    cbn [run_to_completion_p processes remaining_bursts]. split.
    + rewrite proc_put_other by lia. rewrite start_p_spec by lia.
      destruct (Z.eqb_spec i (hd 0 (rq st))); [contradiction|reflexivity].
    + apply rem_of_put_other; lia.
Qed.

Lemma move_effect q M a b i :
  0 < q -> move q M a b -> 0 <= i < size (processes a) ->
  untouched a b i \/ ran a b i \/ completed M a b i.
Proof.
  intros Hq Mv Hi.
  destruct Mv as [st I Hr Hj|st I Hj Hs Ha|st k I Hne Hk Hlt|st I Hne Hh
                 |st rq' jq' I Hne Hs E|st I Hne].
  - left. split; reflexivity.
  - left. split; reflexivity.
  - pose proof (inv_range _ I) as R.
    destruct (bulk_skip_p_queues q M k st) as (_ & _ & Et & Ep & Eb & _).
    destruct (stagger_proc q k (curr_time st) (rq st) 0 (processes st)
                (remaining_bursts st) i (rng_rq _ R)) as [S1 S2]; try lia.
    assert (V : valid (size (remaining_bursts st)) (rq st)).
    { rewrite (rng_len _ R). apply (rng_rq _ R). }
    destruct (in_dec Z.eq_dec i (rq st)) as [Hin|Hout].
    + right. left. split; [exact Hin|].
      destruct (S2 Hin) as (t & Ht & Es). exists t, (q * k).
      rewrite Ep, Eb, Et. split; [exact Es|].
      split; [apply stagger_rem_in; auto; apply (NoDup_app_l _ _ (inv_nodup _ I))|].
      specialize (Hlt i Hin).
      assert (1 <= size (rq st)).
      { destruct (rq st); [congruence|]. rewrite size_cons. pose proof (size_nonneg l). lia. }
      assert (0 <= (size (rq st) - 1) * (k - 1)) by nia.
      repeat split; nia.
    + left. split; [rewrite Ep; now apply S1|].
      rewrite Eb. apply stagger_rem_out; auto; lia.
  - pose proof (inv_range _ I) as R.
    pose proof (valid_hd _ _ (rng_rq _ R) Hne) as Hd.
    assert (Hd' : 0 <= hd 0 (rq st) < size (remaining_bursts st)) by now rewrite (rng_len _ R).
    unfold untouched, ran, run_quantum_p. cbn [processes remaining_bursts curr_time].
    rewrite start_p_spec by lia.
    destruct (Z.eqb_spec i (hd 0 (rq st))) as [->|Hn]; cbn [andb].
    + right. left. split; [destruct (rq st); [congruence|now left]|].
      exists (curr_time st), q. rewrite rem_of_put_same by assumption.
      unfold head_rem in Hh. repeat split; try lia.
    + left. split; [reflexivity|]. apply rem_of_put_other; lia.
  - left. split; reflexivity.
  - destruct (Z.eq_dec i (hd 0 (rq st))) as [->|Hn].
    + right. right. repeat split; auto.
    + left. now apply (completion_effect M st I Hne).
Qed.

(** The pending queue only loses processes, to the ready queue. *)
Lemma move_jq q M a b :
  move q M a b ->
  incl (jq b) (jq a) /\ forall i, In i (rq b) -> In i (rq a) \/ In i (jq a).
Proof.
  intros Mv.
  destruct Mv as [st I Hr Hj|st I Hj Hs Ha|st k I Hne Hk Hlt|st I Hne Hh
                 |st rq' jq' I Hne Hs E|st I Hne].
  - unfold bootstrap_p. cbn [rq jq]. rewrite Hr.
    destruct (jq st) as [|j js]; [congruence|]. cbn. split.
    + intros x Hx. now right.
    + intros i [<-|[]]. right. now left.
  - unfold arrive. cbn [with_queues rq jq].
    destruct (jq st) as [|j js]; [congruence|]. cbn. split.
    + intros x Hx. now right.
    + intros i Hin. apply in_app_or in Hin as [Hin|[<-|[]]]; [now left|right; now left].
  - destruct (bulk_skip_p_queues q M k st) as (-> & -> & _).
    split; [apply incl_refl|auto].
  - cbn [run_quantum_p rq jq]. split; [apply incl_refl|auto].
  - cbn [with_queues rq jq].
    destruct (rq st) as [|h rs] eqn:Er; [congruence|].
    destruct (requeue_with_arrivals_split (processes st) (curr_time st) h rs (jq st))
      as (before & same & rest & E2 & Ej & _).
    rewrite E in E2. inversion E2; subst rq' jq'. rewrite Ej. split.
    + intros x Hx. apply in_or_app. right. apply in_or_app. now right.
    + intros i Hin. rewrite !in_app_iff in Hin. rewrite !in_app_iff. cbn in *.
      intuition.
  - cbn [run_to_completion_p rq jq]. split; [apply incl_refl|].
    intros i Hin. left. destruct (rq st); [destruct Hin|now right].
Qed.

(** Between two bootstrap dispatches the time and the remaining work add up
    to the same value, and the time does not go back. *)
Lemma move_work q M a b :
  0 < q -> move q M a b ->
  (rq a = [] /\ jq a <> [] /\ b = bootstrap_p M a) \/
  (curr_time b + total_remaining b = curr_time a + total_remaining a /\
   curr_time a <= curr_time b).
Proof.
  intros Hq Mv.
  destruct Mv as [st I Hr Hj|st I Hj Hs Ha|st k I Hne Hk Hlt|st I Hne Hh
                 |st rq' jq' I Hne Hs E|st I Hne].
  - now left.
  - right. split; [reflexivity|]. cbn. lia.
  - right. destruct (bulk_Inv q M k st Hq ltac:(lia) I Hne Hlt) as (_ & _ & Et).
    destruct (bulk_skip_p_queues q M k st) as (_ & _ & Ec & _).
    assert (0 <= size (rq st)) by apply size_nonneg. rewrite Et, Ec. split; nia.
  - right. destruct (run_quantum_Inv q M st Hq I Hne Hh) as (_ & _ & Et).
    rewrite Et. cbn [run_quantum_p curr_time]. split; lia.
  - right. split; [reflexivity|]. cbn. lia.
  - right. destruct (completion_effect M st I Hne) as (_ & _ & Ec & Hp & _).
    rewrite Ec. unfold total_remaining, run_to_completion_p. cbn [remaining_bursts].
    pose proof (inv_range _ I) as R.
    pose proof (valid_hd _ _ (rng_rq _ R) Hne) as Hd.
    rewrite sum_put by now rewrite (rng_len _ R). split; lia.
Qed.

(** ** A process runs for its burst between its start and its finish *)

Lemma move_served q M a b :
  0 < q -> move q M a b -> timed a -> served a -> served b.
Proof.
  intros Hq Mv [T _] G i Hi.
  rewrite (move_size q M a b Hq Mv) in Hi.
  destruct (G i Hi) as (G1 & G2 & G3 & G4). cbv zeta in *.
  destruct (move_Inv q M a b Hq Mv) as (Ia & Ib & _).
  destruct (move_jq q M a b Mv) as [J1 J2].
  destruct (move_queues q M a b i Mv) as [_ Q2].
  destruct (move_effect q M a b i Hq Mv Hi) as [[Ep Er]|[(Hin & t & d & Ep & Er & Hd & Ht1 & Ht2)|(Hne & -> & ->)]].
  - rewrite Ep, Er. split; [exact G1|]. split; [intros Hj; apply G2, J1, Hj|]. split.
    + intros Hr Hs. destruct (J2 i Hr) as [Hra|Hja]; [|now apply G2 in Hja].
      destruct (move_work q M a b Hq Mv) as [(E0 & _)|[_ Hc]].
      * rewrite E0 in Hra. destruct Hra.
      * specialize (G3 Hra Hs). lia.
    + intros Hn. apply G4. intros Hq0.
      destruct (Q2 Hq0) as [Hb|(Hne & -> & ->)]; [contradiction|].
      destruct (completion_effect M a Ia Hne) as (_ & E0 & _ & Hp & _).
      rewrite E0 in Er. lia.
  - assert (Hb : In i (rq b ++ jq b)).
    { destruct (Q2 (in_or_app _ _ _ (or_introl Hin))) as [Hb|(Hne & -> & ->)]; [exact Hb|].
      destruct (completion_effect M a Ia Hne) as (_ & E0 & _). rewrite E0 in Er. lia. }
    rewrite Ep, Er.
    destruct (Z.eqb_spec (start_time (proc (processes a) i)) (-1)) as [Eu|Eu];
      cbn [with_start start_time burst finish_time].
    + split; [lia|]. split.
      { intros Hj. exfalso. apply (NoDup_app_disjoint _ _ i (inv_nodup _ Ia) Hin (J1 i Hj)). }
      split; [|intros Hn; contradiction].
      intros _ _. specialize (G1 Eu). lia.
    + split; [contradiction|]. split.
      { intros Hj. exfalso. apply (NoDup_app_disjoint _ _ i (inv_nodup _ Ia) Hin (J1 i Hj)). }
      split; [|intros Hn; contradiction].
      intros _ _. specialize (G3 Hin Eu). lia.
  - destruct (completion_effect M a Ia Hne) as (Ep & Er & Ec & Hp & _).
    assert (Hin : In (hd 0 (rq a)) (rq a)) by (destruct (rq a); [congruence|now left]).
    rewrite Ep, Er, Ec.
    destruct (Z.eqb_spec (start_time (proc (processes a) (hd 0 (rq a)))) (-1)) as [Eu|Eu];
      cbn [with_start with_finish start_time burst finish_time].
    + specialize (G1 Eu). repeat split; try lia.
      intros Hj. exfalso.
      apply (NoDup_app_disjoint _ _ _ (inv_nodup _ Ia) Hin (J1 _ Hj)).
    + specialize (G3 Hin Eu). repeat split; try lia; try contradiction.
      intros Hj. exfalso.
      apply (NoDup_app_disjoint _ _ _ (inv_nodup _ Ia) Hin (J1 _ Hj)).
Qed.

Lemma initial_served ps :
  ids_are_indices ps -> unset_starts ps -> served (initial ps).
Proof.
  intros Hi Hu i Hr. cbn [initial processes rq jq remaining_bursts app] in *.
  unfold unset_starts in Hu. rewrite Forall_forall in Hu.
  pose proof (Hu _ (proc_in ps i Hr)) as Hs.
  split; [intros _; apply rem_of_bursts|]. split; [auto|]. split; [intros []|].
  intros Hn. exfalso. apply Hn. now apply index_is_id.
Qed.

(** Over unbounded integers.
    A process finishes no earlier than its burst after its start, hence
    no earlier than its burst after its arrival: a finish time is the time
    reached when the remaining burst is used up (lines 139-144, 162-166 and
    231-236). *)
Lemma ideal_finish_past_burst (q M : Z) (ps : list Process) :
  0 < q -> ids_are_indices ps -> positive_bursts ps ->
  nonneg_arrivals ps -> unset_starts ps ->
  exists ps' sq,
    Ideal.simulate_rr (enough_fuel ps) q M ps = Ok (ps', sq) /\
    Forall (fun p => start_time p + burst p <= finish_time p /\
                     arrival_time p + burst p <= finish_time p) ps'.
Proof.
  intros Hq Hi Hb Ha Hu.
  destruct (simulate_runs true q M ps Hq Hi Hb) as (st' & L & E & I' & S & Er & Ej).
  exists (processes st'), (seq st'). split; [exact E|].
  assert (H : timed st' /\ served st').
  { apply (loop_keep true q M (fun s => timed s /\ served s) Hq) with
      (fuel := enough_fuel ps) (st := initial ps); auto.
    - intros a b Mv [T G]. split; [now apply (move_timed q M a b)|].
      now apply (move_served q M a b).
    - now apply initial_Inv.
    - split; [now apply initial_timed|now apply initial_served]. }
  assert (J : starts_ok st').
  { exact (loop_keep true q M starts_ok Hq (fun a b => move_starts_ok q M a b Hq)
             _ _ _ (initial_Inv ps Hi Hb) (initial_starts_ok ps Hi Hu) L). }
  destruct H as [_ G].
  apply Forall_forall. intros p Hp.
  destruct (In_nth _ _ dummy Hp) as (n & Hn & <-).
  assert (Hr : 0 <= Z.of_nat n < size (processes st')) by (unfold size; lia).
  destruct (G _ Hr) as (_ & _ & _ & G4). destruct (J _ Hr) as [_ J2].
  unfold arrival, proc in *. rewrite Nat2Z.id in *.
  rewrite Er, Ej in G4, J2. cbn [app] in G4, J2.
  destruct (G4 (fun x => x)) as [_ G5]. specialize (J2 (fun x => x)). lia.
Qed.

(** ** No process finishes after the last arrival plus the total burst *)

Lemma latest_arrival_bound ps :
  0 <= latest_arrival ps /\ forall i, arrival_time (proc ps i) <= latest_arrival ps.
Proof.
  unfold latest_arrival, proc. induction ps as [|p ps [IH0 IH]]; cbn [map fold_right].
  - split; [lia|]. intros i. destruct (Z.to_nat i); cbn; lia.
  - split; [lia|]. intros i. destruct (Z.to_nat i) as [|n] eqn:E; cbn [nth]; [lia|].
    specialize (IH (Z.of_nat n)). rewrite Nat2Z.id in IH. lia.
Qed.

Lemma move_on_time q M A T a b :
  0 < q -> move q M a b -> on_time A T a -> on_time A T b.
Proof.
  intros Hq Mv (H1 & H2 & H3 & H4).
  destruct (move_Inv q M a b Hq Mv) as (Ia & Ib & S).
  pose proof (st_sum _ _ S) as Hs.
  assert (Ea : forall i, arrival b i = arrival a i).
  { intros i. unfold arrival. apply arrival_static, (st_static _ _ S). }
  assert (Hc : curr_time b + total_remaining b <= T).
  { destruct (move_work q M a b Hq Mv) as [(_ & _ & ->)|[E _]]; [|lia].
    cbn [bootstrap_p curr_time]. unfold total_remaining in *. cbn [remaining_bursts].
    specialize (H1 (hd 0 (push_back (rq a) (hd 0 (jq a))))). unfold arrival in H1. lia. }
  split; [intros i; rewrite Ea; apply H1|]. split; [exact Hc|]. split; [lia|].
  intros i Hi Hn. rewrite (move_size q M a b Hq Mv) in Hi.
  destruct (move_queues q M a b i Mv) as [_ Q2].
  destruct (move_effect q M a b i Hq Mv Hi)
    as [[Ep Er]|[(Hin & t & d & Ep & Er & Hd & Ht1 & Ht2)|(Hne & -> & ->)]].
  - rewrite Ep. apply H4; [exact Hi|]. intros Hq0.
    destruct (Q2 Hq0) as [Hb|(Hne & -> & ->)]; [contradiction|].
    destruct (completion_effect M a Ia Hne) as (_ & E0 & _ & Hp & _).
    rewrite E0 in Er. lia.
  - exfalso. destruct (Q2 (in_or_app _ _ _ (or_introl Hin))) as [Hb|(Hne & -> & ->)];
      [contradiction|].
    destruct (completion_effect M a Ia Hne) as (_ & E0 & _). rewrite E0 in Er. lia.
  - destruct (completion_effect M a Ia Hne) as (Ep & _ & Ec & _).
    rewrite Ep. cbn [with_finish finish_time]. rewrite <- Ec.
    pose proof (sum_nonneg _ (inv_nonneg _ Ib)) as Hp. unfold total_remaining in Hc. lia.
Qed.

(** Over unbounded integers.
    Every process has finished by the latest arrival time plus the sum
    of all bursts: the time only advances by running a process (lines 90,
    109, 139, 162 and their copies), except at the bootstrap dispatch of line
    42, which sets it to an arrival time. *)
Lemma ideal_finish_bound (q M : Z) (ps : list Process) :
  0 < q -> ids_are_indices ps -> positive_bursts ps ->
  exists ps' sq,
    Ideal.simulate_rr (enough_fuel ps) q M ps = Ok (ps', sq) /\
    Forall (fun p => finish_time p <= latest_arrival ps + sum (map burst ps)) ps'.
Proof.
  intros Hq Hi Hb.
  destruct (simulate_runs true q M ps Hq Hi Hb) as (st' & L & E & I' & S & Er & Ej).
  exists (processes st'), (seq st'). split; [exact E|].
  set (A := latest_arrival ps). set (T := A + sum (map burst ps)).
  destruct (latest_arrival_bound ps) as [HA0 HA]. fold A in HA0, HA.
  assert (H : on_time A T st').
  { apply (loop_keep true q M (on_time A T) Hq (fun a b => move_on_time q M A T a b Hq)
             (enough_fuel ps) (initial ps) st' (initial_Inv ps Hi Hb)); [|exact L].
    unfold on_time, arrival, total_remaining. cbn [initial processes rq jq curr_time
      remaining_bursts app]. repeat split; try (unfold T; lia); auto.
    intros i Hr Hn. exfalso. apply Hn. now apply index_is_id. }
  destruct H as (_ & _ & _ & H4).
  apply Forall_forall. intros p Hp.
  destruct (In_nth _ _ dummy Hp) as (n & Hn & <-).
  assert (Hr : 0 <= Z.of_nat n < size (processes st')) by (unfold size; lia).
  specialize (H4 _ Hr). unfold proc in H4. rewrite Nat2Z.id, Er, Ej in H4.
  apply H4. intros [].
Qed.

(** ** An iteration after the bootstrap dispatch

    After its bootstrap dispatch an iteration admits a process that arrives
    at the current time, or completes the last process, or runs the head of
    the ready queue for a quantum or to completion, after a bulk skip if one
    is taken. *)

Lemma act_moves q M a b : 0 < q -> act q M a b -> moves q M a b.
Proof.
  intros Hq A. destruct A as [s I Hne Ht|s I Hne Hl|s k I Hne Hk Hlt Hj|s I Hne].
  - unfold tie in Ht. apply andb_true_iff in Ht as [Hj Ha].
    apply negb_true_iff, empty_false in Hj. apply Z.eqb_eq in Ha.
    apply moves_one. constructor; auto.
    + now apply (rng_seq _ (inv_range _ I)).
    + unfold arrival. lia.
  - apply moves_one. now constructor.
  - apply moves_one. now constructor.
  - unfold single. destruct (empty (jq s)) eqn:Ej.
    + apply empty_true in Ej. destruct (Z.ltb_spec q (head_rem s)).
      * now apply preempt_drained_moves.
      * apply moves_one. now constructor.
    + apply empty_false in Ej. destruct (Z.ltb_spec q (head_rem s)).
      * now apply preempt_pending_moves.
      * now apply complete_pending_moves.
Qed.

Lemma moves_Inv q M a b : 0 < q -> moves q M a b -> Inv a -> Inv b.
Proof.
  intros Hq. apply moves_keep. intros x y Mv _. now destruct (move_Inv q M x y Hq Mv) as (_ & I & _).
Qed.

Lemma act_Inv q M a b : 0 < q -> act q M a b -> Inv a /\ Inv b.
Proof.
  intros Hq A. assert (I : Inv a) by now destruct A.
  split; [exact I|]. exact (moves_Inv q M a b Hq (act_moves q M a b Hq A) I).
Qed.

Lemma act_timed q M a b : 0 < q -> act q M a b -> timed a -> timed b.
Proof.
  intros Hq A. apply (moves_keep q M timed (fun x y Mv => move_timed q M x y Hq Mv)).
  now apply act_moves.
Qed.

Lemma act_stable q M a b : 0 < q -> act q M a b -> stable a b.
Proof.
  intros Hq A. apply (moves_relate q M stable stable_refl stable_trans).
  - intros x y Mv. now destruct (move_Inv q M x y Hq Mv) as (_ & _ & S).
  - now apply act_moves.
Qed.

(** The queues, the time and the trace after [single]. *)
Lemma single_cases q M s h rs :
  rq s = h :: rs ->
  (q < head_rem s /\
   exists before same rest,
     jq s = before ++ same ++ rest /\
     single q M s =
       with_queues (run_quantum_p q M s) (rs ++ before ++ [h] ++ same) rest) \/
  (head_rem s <= q /\
   (single q M s = run_to_completion_p M s /\
    (jq s = [] \/
     curr_time s + head_rem s < arrival (run_to_completion_p M s) (hd 0 (jq s))) \/
    exists j js, jq s = j :: js /\
      single q M s = with_queues (run_to_completion_p M s) (rs ++ [j]) js)).
Proof.
  intros Hr. unfold single.
  destruct (Z.ltb_spec q (head_rem s)) as [Hh|Hh]; [left|right]; (split; [exact Hh|]).
  - destruct (empty (jq s)) eqn:Ej.
    + apply empty_true in Ej. exists [], [], []. split; [exact Ej|].
      unfold preempt_drained_p, requeue_p. cbn [run_quantum_p rq jq].
      rewrite Hr, Ej. cbn. reflexivity.
    + unfold preempt_pending_p. cbn [run_quantum_p rq jq curr_time processes].
      rewrite Hr.
      destruct (requeue_with_arrivals_split
                  (start_p (processes s) (hd 0 (h :: rs)) (curr_time s))
                  (curr_time s + q) h rs (jq s))
        as (before & same & rest & E & Ej' & _).
      rewrite E. exists before, same, rest. split; [exact Ej'|].
      unfold with_queues. cbn [run_quantum_p rq jq curr_time processes seq remaining_bursts].
      now rewrite Hr.
  - destruct (empty (jq s)) eqn:Ej.
    + apply empty_true in Ej. left. auto.
    + apply empty_false in Ej. unfold complete_pending_p.
      cbn [run_to_completion_p jq rq curr_time].
      destruct (Z.leb_spec
                  (arrival_time (proc (processes (run_to_completion_p M s)) (hd 0 (jq s))))
                  (curr_time s + rem_of (remaining_bursts s) (hd 0 (rq s)))) as [Ha|Ha].
      * right. destruct (jq s) as [|j js] eqn:Ejq; [congruence|].
        exists j, js. split; [reflexivity|].
        unfold with_queues, push_back, erase_begin.
        cbn [run_to_completion_p rq jq hd tl]. rewrite ?Hr, ?Ejq. reflexivity.
      * left. split; [reflexivity|]. right. unfold arrival, head_rem. exact Ha.
Qed.

Lemma act_waiting q M a b : act q M a b -> waiting b.
Proof.
  intros A Hr Hj.
  destruct A as [s I Hne Ht|s I Hne Hl|s k I Hne Hk Hlt Hj0|s I Hne].
  - exfalso. revert Hr. unfold arrive. cbn [with_queues rq]. unfold push_back.
    now destruct (rq s).
  - exfalso. unfold last_one in Hl. apply andb_true_iff in Hl as [Hl _].
    apply empty_true in Hl. cbn [run_to_completion_p jq] in Hj. contradiction.
  - exfalso. destruct (bulk_skip_p_queues q M k s) as (E & _). congruence.
  - destruct (rq s) as [|h rs] eqn:Er; [congruence|].
    destruct (single_cases q M s h rs Er)
      as [(_ & before & same & rest & _ & E)
         |(_ & [[E [Hj'|Ha]]|(j & js & _ & E)])]; rewrite E in *.
    + exfalso. cbn [with_queues rq] in Hr.
      apply app_eq_nil in Hr as [_ Hr]. apply app_eq_nil in Hr as [_ Hr]. discriminate.
    + exfalso. cbn [run_to_completion_p jq] in Hj. contradiction.
    + right. cbn [run_to_completion_p jq curr_time]. unfold head_rem in Ha.
      cbn [run_to_completion_p jq curr_time] in Ha. exact Ha.
    + exfalso. cbn [with_queues rq] in Hr.
      apply app_eq_nil in Hr as [_ Hr]. discriminate.
Qed.

(** An iteration after the bootstrap dispatch is an action, after a bulk
    skip if one is taken. *)
Lemma block_acts bulk q M s :
  0 < q -> Inv s -> rq s <> [] ->
  exists mid, (mid = s \/ act q M s mid) /\ act q M mid (state_of (block bulk q M s)).
Proof.
  intros Hq I Hne. rewrite block_eq by assumption.
  destruct (tie s) eqn:Ht; [exists s; split; [now left|now constructor]|].
  destruct (last_one s) eqn:Hl; [exists s; split; [now left|now constructor]|].
  cbn [state_of]. destruct bulk.
  - destruct (skip_cases q M s Hq I Hne Ht Hl) as [->|(k & Hk & -> & Hlt & Hc)].
    + exists s. split; [now left|now constructor].
    + assert (A : act q M s (bulk_skip_p q M k s)).
      { constructor; auto. destruct Hc as [[Hj _]|[_ Hc]]; auto. }
      exists (bulk_skip_p q M k s). split; [now right|].
      constructor; [apply (act_Inv q M _ _ Hq A)|].
      destruct (bulk_skip_p_queues q M k s) as (-> & _). exact Hne.
  - rewrite skip_false. exists s. split; [now left|now constructor].
Qed.

Lemma boot_good M st :
  Inv st -> ~ (rq st = [] /\ jq st = []) -> Inv (boot M st) /\ rq (boot M st) <> [].
Proof.
  intros I H. unfold boot, bootstrap_guard.
  destruct (rq st) as [|r rs] eqn:Er; cbn [empty andb negb].
  - destruct (jq st) as [|j js] eqn:Ej; [tauto|]. cbn [empty negb].
    destruct (bootstrap_Inv M st I Er) as (I1 & _ & _ & Hne); [congruence|]. auto.
  - rewrite Er. split; [exact I|discriminate].
Qed.

(** A property that the bootstrap dispatch of an idle CPU and the actions
    keep holds when the loop exits. *)
Lemma run_keep bulk q M (P : state -> Prop) :
  0 < q ->
  (forall a b, act q M a b -> P a -> P b) ->
  (forall a, Inv a -> rq a = [] -> jq a <> [] ->
     (seq a = [] /\ curr_time a = 0) \/ curr_time a < arrival a (hd 0 (jq a)) ->
     P a -> P (bootstrap_p M a)) ->
  forall fuel st st',
    Inv st -> waiting st -> P st ->
    Ideal.loop bulk q M fuel st = Ok st' -> P st'.
Proof.
  intros Hq HA HB. induction fuel as [|fuel IH]; intros st st' I W P0;
    [discriminate|].
  rewrite loop_cont by (try lia; apply I).
  destruct (empty (rq st) && empty (jq st)) eqn:E;
    [intros L; inversion L; subst; exact P0|].
  assert (Hn : ~ (rq st = [] /\ jq st = [])).
  { intros [E1 E2]. rewrite E1, E2 in E. discriminate. }
  destruct (boot_good M st I Hn) as [I1 Hne].
  assert (P1 : P (boot M st)).
  { unfold boot, bootstrap_guard in *.
    destruct (rq st) as [|r rs] eqn:Er; cbn [empty andb negb] in *; [|auto].
    destruct (jq st) as [|j js] eqn:Ej; [discriminate|]. cbn [empty negb].
    apply HB; auto; rewrite ?Ej; try discriminate.
    rewrite <- Ej. apply W; auto. rewrite Ej. discriminate. }
  destruct (block_acts bulk q M (boot M st) Hq I1 Hne) as (mid & Hm & A).
  assert (P2 : P mid).
  { destruct Hm as [->|A0]; [auto|]. exact (HA _ _ A0 P1). }
  pose proof (HA _ _ A P2) as P3.
  pose proof (act_waiting q M _ _ A) as W3.
  destruct (act_Inv q M _ _ Hq A) as [_ I3].
  unfold cont. destruct (block bulk q M (boot M st)) as [s'|s']; cbn [state_of] in *.
  - now apply IH.
  - intros L. inversion L; subst. exact P3.
Qed.

(** The same for the states at the start of an iteration. *)
Lemma reachable_run_keep bulk q M ps (P : state -> Prop) :
  0 < q -> ids_are_indices ps -> positive_bursts ps ->
  (forall a b, act q M a b -> P a -> P b) ->
  (forall a, Inv a -> rq a = [] -> jq a <> [] ->
     (seq a = [] /\ curr_time a = 0) \/ curr_time a < arrival a (hd 0 (jq a)) ->
     P a -> P (bootstrap_p M a)) ->
  P (initial ps) ->
  forall st, Ideal.reachable bulk q M ps st -> waiting st /\ P st.
Proof.
  intros Hq Hi Hb HA HB P0 st R. induction R as [|st st' R IH E].
  - split; [|exact P0]. intros _ _. now left.
  - destruct IH as (W & P1).
    destruct (reachable_Inv bulk q M ps st Hq Hi Hb R) as [I _].
    destruct (step_next bulk q M st) as [E' _]; [lia|apply I|].
    rewrite E' in E. inversion E as [E1]. clear E E'.
    rewrite next_block in E1.
    destruct (empty (rq st) && empty (jq st)) eqn:E; [discriminate|].
    assert (Hn : ~ (rq st = [] /\ jq st = [])).
    { intros [E2 E3]. rewrite E2, E3 in E. discriminate. }
    destruct (boot_good M st I Hn) as [I1 Hne].
    assert (P1' : P (boot M st)).
    { unfold boot, bootstrap_guard in *.
      destruct (rq st) as [|r rs] eqn:Er; cbn [empty andb negb] in *; [|auto].
      destruct (jq st) as [|j js] eqn:Ej; [discriminate|]. cbn [empty negb].
      apply HB; auto; rewrite ?Ej; try discriminate.
      rewrite <- Ej. apply W; auto. rewrite Ej. discriminate. }
    destruct (block_acts bulk q M (boot M st) Hq I1 Hne) as (mid & Hm & A).
    assert (P2 : P mid).
    { destruct Hm as [->|A0]; [auto|]. exact (HA _ _ A0 P1'). }
    rewrite E1 in A. cbn [state_of] in A.
    split; [exact (act_waiting q M _ _ A)|exact (HA _ _ A P2)].
Qed.

(** ** The clock *)

Lemma single_clock q M s :
  rq s <> [] -> curr_time (single q M s) = curr_time s + Z.min q (head_rem s).
Proof.
  intros Hne. destruct (rq s) as [|h rs] eqn:Er; [congruence|].
  destruct (single_cases q M s h rs Er)
    as [(Hh & before & same & rest & _ & E)
       |(Hh & [[E _]|(j & js & _ & E)])]; rewrite E;
    cbn [with_queues run_quantum_p run_to_completion_p curr_time];
    unfold head_rem in *; lia.
Qed.

Lemma act_clock q M a b : 0 < q -> act q M a b -> curr_time a <= curr_time b.
Proof.
  intros Hq A. destruct A as [s I Hne Ht|s I Hne Hl|s k I Hne Hk Hlt Hj|s I Hne].
  - cbn. lia.
  - destruct (completion_effect M s I Hne) as (_ & _ & -> & Hp & _). lia.
  - destruct (bulk_skip_p_queues q M k s) as (_ & _ & -> & _).
    pose proof (size_nonneg (rq s)). nia.
  - rewrite single_clock by assumption.
    assert (0 < head_rem s).
    { apply (Inv_pos s _ I). apply in_or_app. left. destruct (rq s); [congruence|now left]. }
    lia.
Qed.

(** Over unbounded integers.
    The time never goes back and is never negative.  At the start of
    an iteration that takes the bootstrap dispatch of line 39 after the first
    one, the next process arrives strictly later than the current time: the
    idle marker of line 47 stands for a gap in which no process is ready.
    Arrival times are not negative. *)
Lemma ideal_clock (q M : Z) (ps : list Process) (st : state) :
  0 < q -> ids_are_indices ps -> positive_bursts ps -> nonneg_arrivals ps ->
  Ideal.reachable true q M ps st ->
  0 <= curr_time st /\
  (rq st = [] -> jq st <> [] -> seq st <> [] ->
   curr_time st < arrival st (hd 0 (jq st))) /\
  (forall c, Ideal.step true q M st = Ok c -> curr_time st <= curr_time (state_of c)).
Proof.
  intros Hq Hi Hb Ha R.
  destruct (reachable_run_keep true q M ps timed Hq Hi Hb) with (st := st)
    as (W & T); auto.
  { intros a b A. now apply (act_timed q M). }
  { intros a I0 Hr Hj _. apply (move_timed q M); auto. now constructor. }
  { now apply initial_timed. }
  destruct (reachable_Inv true q M ps st Hq Hi Hb R) as [I _].
  split; [apply T|]. split.
  - intros Hr Hj Hs. destruct (W Hr Hj) as [[E _]|H]; [contradiction|exact H].
  - intros c E. destruct (step_next true q M st) as [E' _]; [lia|apply I|].
    rewrite E' in E. inversion E; subst c. clear E E'.
    rewrite next_block.
    destruct (empty (rq st) && empty (jq st)) eqn:E; [cbn; lia|].
    assert (Hn : ~ (rq st = [] /\ jq st = [])).
    { intros [E2 E3]. rewrite E2, E3 in E. discriminate. }
    destruct (boot_good M st I Hn) as [I1 Hne].
    assert (C1 : curr_time st <= curr_time (boot M st)).
    { unfold boot, bootstrap_guard in *.
      destruct (rq st) as [|r rs] eqn:Er; cbn [empty andb negb] in *; [|lia].
      destruct (jq st) as [|j js] eqn:Ej; [discriminate|]. cbn [empty negb].
      cbn [bootstrap_p curr_time]. rewrite Er, Ej. cbn [push_back app hd].
      assert (Hj : jq st <> []) by (rewrite Ej; discriminate).
      destruct (W Er Hj) as [[_ E0]|H].
      - rewrite E0. apply proc_arrival_nonneg, T.
      - unfold arrival in H. rewrite Ej in H. cbn [hd] in H. lia. }
    destruct (block_acts true q M (boot M st) Hq I1 Hne) as (mid & Hm & A).
    pose proof (act_clock q M _ _ Hq A) as C3.
    destruct Hm as [->|A0]; [lia|].
    pose proof (act_clock q M _ _ Hq A0). lia.
Qed.

(** ** A trace within the cap has no repeated consecutive entries *)

Lemma compressed_snoc l x :
  compressed l -> l = [] \/ last l 0 <> x -> compressed (l ++ [x]).
Proof.
  induction l as [|a [|b l] IH]; intros C H; cbn [app compressed] in *.
  - exact I.
  - split; [|exact I]. destruct H as [H|H]; [discriminate|]. cbn in H. congruence.
  - destruct C as [C1 C2]. split; [exact C1|]. apply IH; [exact C2|].
    right. destruct H as [H|H]; [discriminate|]. exact H.
Qed.

Lemma emit_p_compressed M sq x :
  sq <> [] -> compressed sq -> compressed (emit_p M sq x).
Proof.
  intros Hne C. unfold emit_p. destruct (size sq <? M); [|exact C].
  destruct (Z.eqb_spec (last sq 0) x); [exact C|].
  apply compressed_snoc; auto.
Qed.

Lemma emit_round_p_compressed M rs sq :
  sq <> [] -> compressed sq -> compressed (emit_round_p M rs sq).
Proof.
  unfold emit_round_p. revert sq.
  induction rs as [|r rs IH]; intros sq Hne C; cbn [fold_left]; [exact C|].
  apply IH; [now apply emit_p_nonempty|now apply emit_p_compressed].
Qed.

Lemma emit_rounds_p_compressed M c rs sq :
  sq <> [] -> compressed sq -> compressed (emit_rounds_p M c rs sq).
Proof.
  revert sq. induction c as [|c IH]; intros sq Hne C; cbn [emit_rounds_p]; [exact C|].
  apply IH; [now apply emit_round_p_nonempty|now apply emit_round_p_compressed].
Qed.

Lemma emit_p_last M sq x :
  sq <> [] -> size sq < M -> last (emit_p M sq x) 0 = x.
Proof.
  intros Hne Hs. unfold emit_p. destruct (Z.ltb_spec (size sq) M); [|lia].
  destruct (Z.eqb_spec (last sq 0) x); [assumption|apply last_snoc].
Qed.

(** The trace after an action. *)
Lemma act_seq q M a b :
  act q M a b ->
  seq a <> [] /\
  (seq b = seq a /\ rq b <> [] \/
   seq b = emit_p M (seq a) (hd 0 (rq a)) \/
   (exists c, seq b = emit_rounds_p M c (rq a) (seq a)) /\ rq b <> []).
Proof.
  intros A. destruct A as [s I Hne Ht|s I Hne Hl|s k I Hne Hk Hlt Hj|s I Hne];
    (split; [now apply (rng_seq _ (inv_range _ I))|]).
  - left. split; [reflexivity|]. cbn [arrive with_queues rq]. unfold push_back.
    now destruct (rq s).
  - right. left. reflexivity.
  - right. right. destruct (bulk_skip_p_queues q M k s) as (-> & _ & _ & _ & _ & ->).
    split; [eauto|exact Hne].
  - right. left. destruct (rq s) as [|h rs] eqn:Er; [congruence|].
    destruct (single_cases q M s h rs Er)
      as [(Hh & before & same & rest & _ & E)
         |(Hh & [[E _]|(j & js & _ & E)])]; rewrite E;
      cbn [with_queues run_quantum_p run_to_completion_p seq]; now rewrite Er.
Qed.

Lemma act_tidy q M a b : act q M a b -> tidy M a -> tidy M b.
Proof.
  intros A [C1 C2].
  assert (Hh : rq a <> [] /\ 0 <= hd 0 (rq a)).
  { assert (I : Inv a /\ rq a <> []) by (destruct A; auto). destruct I as [I Hne].
    split; [exact Hne|]. apply (valid_hd _ _ (rng_rq _ (inv_range _ I)) Hne). }
  destruct (act_seq q M a b A) as (Hne & [[E Hr]|[E|[[c E] Hr]]]);
    unfold tidy; rewrite E; split.
  - exact C1.
  - intros Hr'. contradiction.
  - intros Hs. apply emit_p_compressed; [exact Hne|]. apply C1.
    pose proof (emit_p_grows M (seq a) (hd 0 (rq a))). lia.
  - intros _. destruct (Z.ltb_spec (size (seq a)) M) as [Hlt|Hge].
    + right. right. rewrite emit_p_last by assumption. apply Hh.
    + right. left. rewrite emit_p_full by assumption. exact Hge.
  - intros Hs. apply emit_rounds_p_compressed; [exact Hne|]. apply C1.
    destruct (emit_rounds_p_extends M c (rq a) (seq a)) as (l & El & _).
    rewrite El, size_app in Hs. pose proof (size_nonneg l). lia.
  - intros Hr'. contradiction.
Qed.

Lemma bootstrap_tidy M a :
  timed a -> rq a = [] -> jq a <> [] ->
  (seq a = [] /\ curr_time a = 0) \/ curr_time a < arrival a (hd 0 (jq a)) ->
  tidy M a -> tidy M (bootstrap_p M a).
Proof.
  intros [T _] Hr Hj W [C1 C2]. split.
  - unfold bootstrap_p. cbn [seq]. rewrite Hr. unfold push_back. cbn [app hd].
    fold (arrival a (hd 0 (jq a))).
    destruct (Z.ltb_spec (size (seq a)) M) as [Hlt|Hge]; cbn [andb].
    + intros _. specialize (C1 ltac:(lia)).
      destruct W as [[E _]|W].
      * rewrite E. now destruct (_ =? 0).
      * destruct (Z.eqb_spec (arrival a (hd 0 (jq a))) 0) as [E0|_]; [lia|].
        apply compressed_snoc; [exact C1|].
        destruct (C2 Hr) as [E|[E|E]]; [now left|lia|right; lia].
    + rewrite size_app. change (size [-1]) with 1. lia.
  - intros E. exfalso. cbn [bootstrap_p rq] in E. rewrite Hr in E. discriminate.
Qed.

(** Over unbounded integers.
    A trace that ends within the cap is compressed: no two consecutive
    entries are equal.  Below the cap every emission of a process tests the
    last entry (lines 93, 110, 140, 163, 202, 216 and 232), and the bootstrap
    dispatch (lines 43-48) follows a process or starts the trace.  Arrival
    times are not negative. *)
Lemma ideal_compressed_within_cap (q M : Z) (ps : list Process) :
  0 < q -> ids_are_indices ps -> positive_bursts ps -> nonneg_arrivals ps ->
  exists ps' sq,
    Ideal.simulate_rr (enough_fuel ps) q M ps = Ok (ps', sq) /\
    (size sq <= M -> compressed sq).
Proof.
  intros Hq Hi Hb Ha.
  destruct (simulate_runs true q M ps Hq Hi Hb) as (st' & L & E & _).
  exists (processes st'), (seq st'). split; [exact E|].
  assert (H : timed st' /\ tidy M st').
  { apply (run_keep true q M (fun s => timed s /\ tidy M s) Hq) with
      (fuel := enough_fuel ps) (st := initial ps); auto.
    - intros a b A [T C]. split; [exact (act_timed q M a b Hq A T)|].
      exact (act_tidy q M a b A C).
    - intros a I0 Hr Hj W [T C]. split; [|now apply bootstrap_tidy].
      apply (move_timed q M a); auto. now constructor.
    - now apply initial_Inv.
    - intros _ _. now left.
    - split; [now apply initial_timed|].
      split; [intros _; exact I|intros _; now left]. }
  apply H.
Qed.

(** ** The first entry of the trace *)

Lemma move_headed q M p ps a b :
  id p = 0 ->
  let x := if (0 <? M) && (arrival_time p =? 0) then 0 else -1 in
  move q M a b -> headed (p :: ps) x a -> headed (p :: ps) x b.
Proof.
  intros Hp x Mv [Ea|(l & El)]; right.
  - destruct Mv as [st I Hr Hj|st I Hj Hs Ha|st k I Hne Hk Hlt|st I Hne Hh
                   |st rq' jq' I Hne Hs E|st I Hne];
      try (exfalso; rewrite Ea in *; cbn in *; congruence).
    rewrite Ea.
    unfold bootstrap_p, initial, proc. cbn [map jq rq seq processes push_back app hd].
    rewrite Hp. cbn [Z.to_nat nth size length Z.of_nat]. fold x.
    exists []. subst x. now destruct (_ && _).
  - destruct (move_extends q M a b Mv) as (l' & E & _).
    exists (l ++ l'). now rewrite E, El.
Qed.

(** Over unbounded integers.
    The trace of a run on [p :: ps] starts with the first process, 0,
    when it arrives at time 0 and the cap is positive, and with the idle
    marker otherwise (lines 42-48). *)
Lemma ideal_head_of_trace (q M : Z) (p : Process) (ps : list Process) :
  0 < q -> ids_are_indices (p :: ps) -> positive_bursts (p :: ps) ->
  exists ps' sq,
    Ideal.simulate_rr (enough_fuel (p :: ps)) q M (p :: ps) =
      Ok (ps', (if (0 <? M) && (arrival_time p =? 0) then 0 else -1) :: sq).
Proof.
  intros Hq Hi Hb.
  destruct (simulate_runs true q M (p :: ps) Hq Hi Hb) as (st' & L & E & _ & _ & Er & Ej).
  assert (Hp : id p = 0) by (unfold ids_are_indices in Hi; cbn in Hi; congruence).
  assert (H : headed (p :: ps) (if (0 <? M) && (arrival_time p =? 0) then 0 else -1) st').
  { apply (loop_keep true q M _ Hq (fun a b => move_headed q M p ps a b Hp)
             (enough_fuel (p :: ps)) (initial (p :: ps)) st' (initial_Inv _ Hi Hb));
      [now left|exact L]. }
  destruct H as [->|(l & El)]; [discriminate|].
  exists (processes st'), l. now rewrite <- El.
Qed.

(** ** No two processes finish at the same time *)

Lemma start_p_finish ps h t i :
  0 <= h < size ps -> 0 <= i ->
  finish_time (proc (start_p ps h t) i) = finish_time (proc ps i).
Proof.
  intros Hh Hi. rewrite start_p_spec by assumption.
  destruct (Z.eqb_spec i h) as [->|_]; cbn [andb]; [|reflexivity].
  now destruct (_ =? -1).
Qed.

(** What a completion of the head does to the finish times. *)
Lemma completion_finish M s b h rs i :
  Inv s -> rq s = h :: rs -> 0 <= i ->
  processes b = processes (run_to_completion_p M s) ->
  curr_time b = curr_time (run_to_completion_p M s) ->
  (forall x, In x (rq b ++ jq b) <-> In x (rs ++ jq s)) ->
  (finish_time (proc (processes b) i) = finish_time (proc (processes s) i) /\
   (In i (rq b ++ jq b) <-> In i (rq s ++ jq s))) \/
  (i = hd 0 (rq s) /\ ~ In i (rq b ++ jq b) /\
   finish_time (proc (processes b) i) = curr_time b /\ curr_time s < curr_time b).
Proof.
  intros I Hr Hi Ep Ec Hq.
  assert (Hne : rq s <> []) by (rewrite Hr; discriminate).
  destruct (completion_effect M s I Hne) as (Eh & _ & Ec' & Hp & Ho).
  rewrite Hr in *. cbn [hd] in *. rewrite Ep, Ec.
  destruct (Z.eq_dec i h) as [->|Hn].
  - right. split; [reflexivity|]. split.
    + rewrite Hq. intros Hin. pose proof (inv_nodup _ I) as N. rewrite Hr in N.
      cbn [app] in N. inversion N; contradiction.
    + rewrite Eh. cbn [with_finish finish_time]. split; lia.
  - left. destruct (Ho i Hi Hn) as [-> _]. split; [reflexivity|].
    rewrite Hq. cbn [app In]. split; [auto|]. intros [E|H]; [congruence|exact H].
Qed.

Lemma act_finish q M a b i :
  0 < q -> act q M a b -> 0 <= i < size (processes a) ->
  (finish_time (proc (processes b) i) = finish_time (proc (processes a) i) /\
   (In i (rq b ++ jq b) <-> In i (rq a ++ jq a))) \/
  (i = hd 0 (rq a) /\ ~ In i (rq b ++ jq b) /\
   finish_time (proc (processes b) i) = curr_time b /\ curr_time a < curr_time b).
Proof.
  intros Hq A Hi. destruct A as [s I Hne Ht|s I Hne Hl|s k I Hne Hk Hlt Hj|s I Hne].
  - left. split; [reflexivity|].
    unfold tie in Ht. apply andb_true_iff in Ht as [Hj _].
    apply negb_true_iff, empty_false in Hj.
    cbn [arrive with_queues rq jq]. unfold push_back, erase_begin.
    rewrite <- app_assoc. cbn [app]. rewrite <- (hd_tl _ Hj). reflexivity.
  - pose proof (hd_tl _ Hne) as Er.
    apply (completion_finish M s _ (hd 0 (rq s)) (tl (rq s))); auto; try lia.
    intros x. cbn [run_to_completion_p rq jq]. reflexivity.
  - left. destruct (bulk_skip_p_queues q M k s) as (-> & -> & _ & -> & _).
    split; [|reflexivity].
    destruct (stagger_proc q k (curr_time s) (rq s) 0 (processes s) (remaining_bursts s) i
                (rng_rq _ (inv_range _ I))) as [S1 S2]; try lia.
    destruct (in_dec Z.eq_dec i (rq s)) as [Hin|Hout]; [|now rewrite S1].
    destruct (S2 Hin) as (t & _ & ->). now destruct (_ =? -1).
  - pose proof (hd_tl _ Hne) as Er.
    pose proof (inv_range _ I) as R.
    pose proof (valid_hd _ _ (rng_rq _ R) Hne) as Hh.
    set (h := hd 0 (rq s)) in *. set (rs := tl (rq s)) in *.
    destruct (single_cases q M s h rs Er)
      as [(_ & before & same & rest & Ej & E)
         |(_ & [[E _]|(j & js & Ej & E)])]; rewrite E.
    + left. cbn [with_queues run_quantum_p processes rq jq]. fold h.
      split; [apply start_p_finish; lia|].
      rewrite Ej, Er. cbn [app In]. rewrite !in_app_iff. cbn [In]. tauto.
    + apply (completion_finish M s _ h rs); auto; try lia.
      intros x. cbn [run_to_completion_p rq jq]. reflexivity.
    + apply (completion_finish M s _ h rs); auto; try lia.
      intros x. cbn [with_queues rq jq]. rewrite Ej, <- app_assoc. reflexivity.
Qed.

Lemma act_size q M a b : 0 < q -> act q M a b -> size (processes b) = size (processes a).
Proof.
  intros Hq A. pose proof (st_static _ _ (act_stable q M a b Hq A)) as E.
  apply (f_equal (@length _)) in E. rewrite !length_map in E. unfold size. now rewrite E.
Qed.

Lemma act_seq_nonempty q M a b : act q M a b -> seq b <> [].
Proof.
  intros A. destruct (act_seq q M a b A) as (Hne & [[E _]|[E|[[c E] _]]]); rewrite E.
  - exact Hne.
  - now apply emit_p_nonempty.
  - now apply emit_rounds_p_nonempty.
Qed.

Lemma act_apart q M a b : 0 < q -> act q M a b -> apart a -> apart b.
Proof.
  intros Hq A (A1 & A2 & _).
  pose proof (act_clock q M a b Hq A) as C.
  pose proof (act_size q M a b Hq A) as Hs.
  split; [|split].
  - intros i Hi Hn. rewrite Hs in Hi.
    destruct (act_finish q M a b i Hq A Hi) as [[-> Q]|(_ & _ & -> & _)]; [|lia].
    rewrite Q in Hn. specialize (A1 i Hi Hn). lia.
  - intros i j Hi Hj Hd Hni Hnj. rewrite Hs in Hi, Hj.
    destruct (act_finish q M a b i Hq A Hi) as [[-> Qi]|(Ei & _ & -> & Ci)];
      destruct (act_finish q M a b j Hq A Hj) as [[-> Qj]|(Ej & _ & -> & Cj)].
    + rewrite Qi in Hni. rewrite Qj in Hnj. now apply A2.
    + rewrite Qi in Hni. specialize (A1 i Hi Hni). lia.
    + rewrite Qj in Hnj. specialize (A1 j Hj Hnj). lia.
    + congruence.
  - intros E. exfalso. now apply (act_seq_nonempty q M a b A).
Qed.

Lemma bootstrap_apart M a :
  rq a = [] -> jq a <> [] ->
  (seq a = [] /\ curr_time a = 0) \/ curr_time a < arrival a (hd 0 (jq a)) ->
  apart a -> apart (bootstrap_p M a).
Proof.
  intros Hr Hj W (A1 & A2 & A3).
  assert (Q : rq (bootstrap_p M a) ++ jq (bootstrap_p M a) = rq a ++ jq a).
  { cbn [bootstrap_p rq jq]. rewrite Hr. unfold push_back, erase_begin. cbn [app].
    now rewrite <- (hd_tl _ Hj). }
  unfold apart. rewrite Q. cbn [bootstrap_p processes curr_time seq]. clear Q.
  rewrite Hr in *. unfold push_back. cbn [app hd] in *. split; [|split].
  - intros i Hi Hn. destruct W as [[E _]|W].
    + exfalso. apply Hn. now apply A3.
    + specialize (A1 i Hi Hn). unfold arrival in W. lia.
  - exact A2.
  - intros E. exfalso. destruct (_ && _); now destruct (seq a).
Qed.

(** Over unbounded integers.
    No two processes finish at the same time: a finish time is the
    time at a completion (lines 144, 166 and 236), and the time advances by a
    positive remaining burst from one completion to the next. *)
Lemma ideal_finishes_differ (q M : Z) (ps : list Process) :
  0 < q -> ids_are_indices ps -> positive_bursts ps ->
  exists ps' sq,
    Ideal.simulate_rr (enough_fuel ps) q M ps = Ok (ps', sq) /\
    NoDup (map finish_time ps').
Proof.
  intros Hq Hi Hb.
  destruct (simulate_runs true q M ps Hq Hi Hb) as (st' & L & E & _ & _ & Er & Ej).
  exists (processes st'), (seq st'). split; [exact E|].
  assert (H : apart st').
  { apply (run_keep true q M apart Hq) with (fuel := enough_fuel ps) (st := initial ps);
      auto.
    - intros a b A. now apply (act_apart q M).
    - intros a _. apply bootstrap_apart.
    - now apply initial_Inv.
    - intros _ _. now left.
    - split; [|split].
      + intros i Hr Hn. exfalso. apply Hn. now apply index_is_id.
      + intros i j Hr _ _ Hn. exfalso. apply Hn. now apply index_is_id.
      + intros _ i Hr. now apply index_is_id. }
  destruct H as (_ & A2 & _). rewrite Er, Ej in A2.
  apply (NoDup_nth _ 0). intros i j Hli Hlj En. rewrite length_map in Hli, Hlj.
  destruct (Nat.eq_dec i j) as [|Hd]; [assumption|exfalso].
  apply (A2 (Z.of_nat i) (Z.of_nat j)); try (unfold size; lia); try (intros []).
  unfold proc. rewrite !Nat2Z.id.
  change 0 with (finish_time dummy) in En. now rewrite !map_nth in En.
Qed.

(** ** Processes start in the order of the input *)

Lemma increasing_app_r l1 l2 : increasing (l1 ++ l2) -> increasing l2.
Proof. induction l1 as [|x l1 IH]; cbn; [auto|]. intros [_ H]. auto. Qed.

Lemma increasing_app_lt l1 l2 a b :
  increasing (l1 ++ l2) -> In a l1 -> In b l2 -> a < b.
Proof.
  induction l1 as [|x l1 IH]; cbn; [intros _ []|].
  intros [F H] [->|Ha] Hb; [|auto].
  rewrite Forall_forall in F. apply F. apply in_or_app. now right.
Qed.

Lemma increasing_filter f l : increasing l -> increasing (filter f l).
Proof.
  induction l as [|x l IH]; cbn; [auto|]. intros [F H].
  destruct (f x); cbn; [|auto]. split; [|auto].
  rewrite Forall_forall in *. intros y Hy. apply filter_In in Hy as [Hy _]. auto.
Qed.

Lemma increasing_seq s n : increasing (map Z.of_nat (List.seq s n)).
Proof.
  revert s. induction n as [|n IH]; intros s; cbn; [exact I|].
  split; [|apply IH]. apply Forall_forall. intros y Hy.
  apply in_map_iff in Hy as (m & <- & Hm). apply in_seq in Hm. lia.
Qed.

Lemma filter_none {A : Type} (f : A -> bool) (l : list A) :
  (forall x, In x l -> f x = false) -> filter f l = [].
Proof.
  induction l as [|x l IH]; cbn; [auto|]. intros H.
  rewrite (H x) by now left. apply IH. intros y Hy. apply H. now right.
Qed.

(** The bulk skip starts the unstarted processes of the ready queue in the
    order of the queue. *)
Lemma stagger_order q k c rs :
  forall i0 ps rem,
    valid (size ps) rs -> NoDup rs -> 0 < q ->
    increasing (filter (unstartedb ps) rs) ->
    forall i j, In i rs -> In j rs ->
      unstartedb ps i = true -> unstartedb ps j = true -> i < j ->
      start_time (proc (fst (stagger_p q k c i0 rs ps rem)) i) <
      start_time (proc (fst (stagger_p q k c i0 rs ps rem)) j).
Proof.
  induction rs as [|r rs IH]; intros i0 ps rem V N Hq S i j Hi Hj Ui Uj Hij;
    [destruct Hi|].
  apply valid_cons in V as [Hr V]. inversion N as [|? ? Hnr N']; subst.
  cbn [stagger_p]. set (t0 := c + q * i0).
  set (ps1 := start_p ps r t0). set (rem1 := put rem r (rem_of rem r - q * k)).
  assert (V1 : valid (size ps1) rs) by (unfold ps1; now rewrite size_start_p).
  assert (Hpos : forall x, In x rs -> 0 <= x).
  { intros x Hx. unfold valid in V. rewrite Forall_forall in V. apply V in Hx. lia. }
  assert (Hother : forall x, 0 <= x -> x <> r -> proc ps1 x = proc ps x).
  { intros x Hx Hn. unfold ps1. rewrite start_p_spec by lia.
    destruct (Z.eqb_spec x r); [contradiction|reflexivity]. }
  assert (Hu : forall x, In x rs -> unstartedb ps1 x = unstartedb ps x).
  { intros x Hx. unfold unstartedb. rewrite Hother; auto. intros ->. contradiction. }
  assert (S1 : increasing (filter (unstartedb ps1) rs)).
  { rewrite (filter_ext_in _ _ _ Hu). cbn [filter] in S.
    destruct (unstartedb ps r); [apply S|exact S]. }
  destruct Hi as [<-|Hi]; destruct Hj as [<-|Hj].
  - lia.
  - destruct (stagger_proc q k c rs (i0 + 1) ps1 rem1 r V1) as [P1 _]; try lia.
    pose proof (Hpos j Hj) as Hj0.
    destruct (stagger_proc q k c rs (i0 + 1) ps1 rem1 j V1) as [_ P2]; try lia.
    rewrite (P1 Hnr). destruct (P2 Hj) as (t & Ht & ->).
    fold (unstartedb ps1 j). rewrite (Hu j Hj), Uj.
    unfold ps1. rewrite start_p_spec by lia. rewrite Z.eqb_refl.
    fold (unstartedb ps r). rewrite Ui. cbn [andb with_start start_time].
    unfold t0. nia.
  - exfalso. cbn [filter] in S. rewrite Uj in S. destruct S as [F _].
    rewrite Forall_forall in F. specialize (F i).
    assert (r < i); [|lia]. apply F. apply filter_In. auto.
  - rewrite <- (Hu i Hi) in Ui. rewrite <- (Hu j Hj) in Uj.
    now apply (IH (i0 + 1) ps1 rem1).
Qed.

Lemma fifo_head_runs a b h rs :
  Inv a -> timed a -> fifo a -> rq a = h :: rs ->
  size (processes b) = size (processes a) ->
  (forall i, 0 <= i ->
     start_time (proc (processes b) i) =
     if (i =? h) && (start_time (proc (processes a) h) =? -1)
     then curr_time a else start_time (proc (processes a) i)) ->
  curr_time a < curr_time b ->
  (forall f, f h = false -> filter f (rq b ++ jq b) = filter f (rs ++ jq a)) ->
  (forall i, In i (rq a ++ jq a) -> i <> h -> In i (rq b ++ jq b)) ->
  seq b <> [] ->
  fifo b.
Proof.
  intros I [T _] (F1 & F2 & F3 & F5 & _) Hr Hs Est Hc Hf Hq Hseq.
  cbv zeta in *. unfold fifo. cbv zeta. rewrite Hs.
  pose proof (inv_range _ I) as R.
  assert (Hh : 0 <= h < size (processes a)).
  { pose proof (rng_rq _ R) as V. rewrite Hr in V. now apply valid_cons in V. }
  assert (Sh : start_time (proc (processes b) h) <> -1).
  { rewrite Est by lia. rewrite Z.eqb_refl. cbn [andb].
    destruct (Z.eqb_spec (start_time (proc (processes a) h)) (-1)); [lia|assumption]. }
  assert (So : forall i, 0 <= i -> i <> h ->
                 start_time (proc (processes b) i) = start_time (proc (processes a) i)).
  { intros i Hi Hn. rewrite Est by lia. destruct (Z.eqb_spec i h); [contradiction|reflexivity]. }
  assert (Sk : forall i, 0 <= i -> start_time (proc (processes a) i) <> -1 ->
                 start_time (proc (processes b) i) = start_time (proc (processes a) i)).
  { intros i Hi Hn. rewrite Est by lia.
    destruct (Z.eqb_spec i h) as [->|]; cbn [andb]; [|reflexivity].
    destruct (Z.eqb_spec (start_time (proc (processes a) h)) (-1)); [contradiction|reflexivity]. }
  assert (Hfirst : forall i, 0 <= i < size (processes a) -> i <> h ->
                     start_time (proc (processes a) h) = -1 ->
                     start_time (proc (processes a) i) = -1 -> h < i).
  { intros i Hi Hn Uh Ui.
    destruct (in_dec Z.eq_dec i (rq a ++ jq a)) as [Hin|Hout];
      [|now apply F5 in Hout].
    rewrite Hr in F3, Hin. cbn [app filter] in F3.
    unfold unstartedb in F3 at 1. rewrite Uh in F3. cbn in F3. destruct F3 as [F _].
    rewrite Forall_forall in F. apply F. apply filter_In. split.
    - destruct Hin as [E|Hin]; [congruence|exact Hin].
    - unfold unstartedb. now rewrite Ui. }
  split; [|split; [|split; [|split]]].
  - intros i Hi Hn. rewrite Est in * by lia.
    destruct (Z.eqb_spec i h) as [->|]; cbn [andb] in *.
    + destruct (Z.eqb_spec (start_time (proc (processes a) h)) (-1)); [lia|].
      specialize (F1 h Hi Hn). lia.
    + specialize (F1 i Hi Hn). lia.
  - intros i j Hi Hij Hj Hn.
    destruct (Z.eq_dec j h) as [->|Hjh];
      [destruct (Z.eqb_spec (start_time (proc (processes a) h)) (-1)) as [Uh|Uh]|].
    + assert (Si : start_time (proc (processes a) i) <> -1).
      { intros Ui. assert (h < i) by (apply Hfirst; auto; lia). lia. }
      rewrite (Sk i Hi Si). split; [exact Si|].
      rewrite Est by lia. rewrite Z.eqb_refl. cbn [andb].
      destruct (Z.eqb_spec (start_time (proc (processes a) h)) (-1)); [|contradiction].
      apply F1; auto. lia.
    + rewrite (Sk h) in * by (auto; lia).
      destruct (F2 i h Hi Hij Hj Uh) as [Si Hlt].
      rewrite (Sk i Hi Si). auto.
    + rewrite (So j) in * by lia.
      destruct (F2 i j Hi Hij Hj Hn) as [Si Hlt].
      rewrite (Sk i Hi Si). auto.
  - rewrite (Hf (unstartedb (processes b))).
    + assert (E : filter (unstartedb (processes b)) (rs ++ jq a) =
                  filter (unstartedb (processes a)) (rs ++ jq a)).
      { apply filter_ext_in. intros x Hx. unfold unstartedb. rewrite So; auto.
        - assert (Vx : 0 <= x < size (processes a)).
          { apply (Inv_valid a x I). rewrite Hr. now right. }
          lia.
        - intros ->. pose proof (inv_nodup _ I) as N. rewrite Hr in N.
          cbn [app] in N. inversion N; contradiction. }
      rewrite E. rewrite Hr in F3. cbn [app filter] in F3.
      destruct (unstartedb (processes a) h); [apply F3|exact F3].
    + unfold unstartedb. now apply Z.eqb_neq.
  - intros i Hi Hn. destruct (Z.eq_dec i h) as [->|Hd]; [exact Sh|].
    rewrite So by lia. apply F5; [exact Hi|]. intros Hin. apply Hn. now apply Hq.
  - intros E. contradiction.
Qed.

Lemma fifo_bulk q M k s :
  0 < q -> Inv s -> timed s -> rq s <> [] -> 1 <= k -> fifo s ->
  fifo (bulk_skip_p q M k s).
Proof.
  intros Hq I [T _] Hne Hk (F1 & F2 & F3 & F5 & _). cbv zeta in *.
  pose proof (inv_range _ I) as R.
  destruct (bulk_skip_p_queues q M k s) as (Er & Ej & Ec & Ep & _ & Es).
  unfold fifo. cbv zeta. rewrite Er, Ej, Ec, Ep.
  destruct (stagger_sizes q k (curr_time s) 0 (rq s) (processes s) (remaining_bursts s))
    as [Hs _]. rewrite Hs.
  set (ps' := fst (stagger_p q k (curr_time s) 0 (rq s) (processes s) (remaining_bursts s))).
  assert (Hsz : 1 <= size (rq s)).
  { destruct (rq s); [congruence|]. rewrite size_cons. pose proof (size_nonneg l). lia. }
  assert (P : forall i, 0 <= i ->
            (~ In i (rq s) -> proc ps' i = proc (processes s) i) /\
            (In i (rq s) ->
             exists t, curr_time s <= t <= curr_time s + q * (size (rq s) - 1) /\
               proc ps' i =
               if start_time (proc (processes s) i) =? -1
               then with_start (proc (processes s) i) t else proc (processes s) i)).
  { intros i Hi.
    destruct (stagger_proc q k (curr_time s) (rq s) 0 (processes s) (remaining_bursts s) i
                (rng_rq _ R)) as [S1 S2]; try lia.
    split; [exact S1|]. intros Hin. destruct (S2 Hin) as (t & Ht & E).
    exists t. split; [lia|exact E]. }
  assert (Sk : forall i, 0 <= i -> start_time (proc (processes s) i) <> -1 ->
                 proc ps' i = proc (processes s) i).
  { intros i Hi Hn. destruct (P i Hi) as [P1 P2].
    destruct (in_dec Z.eq_dec i (rq s)) as [Hin|Hout]; [|auto].
    destruct (P2 Hin) as (t & _ & ->).
    destruct (Z.eqb_spec (start_time (proc (processes s) i)) (-1)); [contradiction|reflexivity]. }
  assert (Sn : forall i, 0 <= i -> In i (rq s) -> start_time (proc (processes s) i) = -1 ->
                 curr_time s <= start_time (proc ps' i) <=
                 curr_time s + q * (size (rq s) - 1)).
  { intros i Hi Hin Hu. destruct (P i Hi) as [_ P2]. destruct (P2 Hin) as (t & Ht & ->).
    rewrite Hu. cbn. lia. }
  assert (Su : forall i, 0 <= i -> start_time (proc ps' i) = -1 ->
                 start_time (proc (processes s) i) = -1 /\ ~ In i (rq s)).
  { intros i Hi Hu.
    destruct (Z.eq_dec (start_time (proc (processes s) i)) (-1)) as [E|E].
    - split; [exact E|]. intros Hin. pose proof (Sn i Hi Hin E). lia.
    - rewrite Sk in Hu by assumption. contradiction. }
  split; [|split; [|split; [|split]]].
  - intros i Hi Hn.
    destruct (Z.eq_dec (start_time (proc (processes s) i)) (-1)) as [E|E].
    + destruct (in_dec Z.eq_dec i (rq s)) as [Hin|Hout].
      * pose proof (Sn i ltac:(lia) Hin E). nia.
      * destruct (P i ltac:(lia)) as [P1 _]. rewrite (P1 Hout) in Hn. contradiction.
    + rewrite Sk by (auto; lia). specialize (F1 i Hi E). nia.
  - intros i j Hi Hij Hj Hn.
    destruct (Z.eq_dec (start_time (proc (processes s) j)) (-1)) as [Uj|Sj].
    + assert (Hjin : In j (rq s)).
      { destruct (in_dec Z.eq_dec j (rq s)) as [Hin|Hout]; [assumption|].
        destruct (P j ltac:(lia)) as [P1 _]. rewrite (P1 Hout) in Hn. contradiction. }
      pose proof (Sn j ltac:(lia) Hjin Uj) as Bj.
      destruct (Z.eq_dec (start_time (proc (processes s) i)) (-1)) as [Ui|Si].
      * destruct (in_dec Z.eq_dec i (rq s)) as [Hin|Hout].
        -- pose proof (Sn i Hi Hin Ui) as Bi. split; [lia|].
           apply stagger_order; auto.
           ++ apply (rng_rq _ R).
           ++ apply (NoDup_app_l _ _ (inv_nodup _ I)).
           ++ rewrite filter_app in F3. clear - F3.
              induction (filter (unstartedb (processes s)) (rq s)) as [|x l IH];
                cbn in *; [exact I|]. destruct F3 as [F H]. split; [|auto].
              apply Forall_app in F. apply F.
           ++ unfold unstartedb. now rewrite Ui.
           ++ unfold unstartedb. now rewrite Uj.
        -- exfalso.
           assert (Hq0 : In i (jq s)).
           { destruct (in_dec Z.eq_dec i (rq s ++ jq s)) as [H|H].
             - apply in_app_or in H as [H|H]; [contradiction|exact H].
             - apply F5 in H; [contradiction|lia]. }
           rewrite filter_app in F3.
           assert (j < i); [|lia].
           apply (increasing_app_lt _ _ j i F3); apply filter_In; split; auto;
             unfold unstartedb; now apply Z.eqb_eq.
      * rewrite (Sk i Hi Si). split; [exact Si|].
        assert (0 <= i < size (processes s)) by lia.
        specialize (F1 i H Si). lia.
    + rewrite (Sk j) in * by (auto; lia).
      destruct (F2 i j Hi Hij Hj Sj) as [Si Hlt].
      rewrite (Sk i Hi Si). auto.
  - rewrite filter_app.
    assert (E1 : filter (unstartedb ps') (rq s) = []).
    { apply filter_none. intros x Hx. unfold unstartedb. apply Z.eqb_neq. intros Hu.
      assert (Hx0 : 0 <= x).
      { pose proof (rng_rq _ R) as V. unfold valid in V. rewrite Forall_forall in V.
        apply V in Hx. lia. }
      now destruct (Su x Hx0 Hu). }
    assert (E2 : filter (unstartedb ps') (jq s) = filter (unstartedb (processes s)) (jq s)).
    { apply filter_ext_in. intros x Hx. unfold unstartedb.
      assert (Hx0 : 0 <= x).
      { pose proof (rng_jq _ R) as V. unfold valid in V. rewrite Forall_forall in V.
        apply V in Hx. lia. }
      destruct (P x Hx0) as [P1 _]. rewrite P1; [reflexivity|].
      intros Hin. apply (NoDup_app_disjoint _ _ x (inv_nodup _ I) Hin Hx). }
    rewrite E1, E2. cbn [app]. rewrite filter_app in F3.
    now apply increasing_app_r in F3.
  - intros i Hi Hn Hu. destruct (Su i ltac:(lia) Hu) as [E _]. now apply (F5 i Hi Hn).
  - intros E. exfalso. rewrite Es in E.
    exact (emit_rounds_p_nonempty M _ (rq s) (seq s) (rng_seq _ R Hne) E).
Qed.

Lemma act_fifo q M a b : 0 < q -> act q M a b -> timed a -> fifo a -> fifo b.
Proof.
  intros Hq A T F.
  pose proof (act_size q M a b Hq A) as Hs.
  pose proof (act_seq_nonempty q M a b A) as Hseq.
  destruct A as [s I Hne Ht|s I Hne Hl|s k I Hne Hk Hlt Hj|s I Hne].
  - unfold tie in Ht. apply andb_true_iff in Ht as [Hj _].
    apply negb_true_iff, empty_false in Hj.
    destruct F as (F1 & F2 & F3 & F5 & F6). unfold fifo. cbv zeta in *.
    assert (Q : rq (arrive s) ++ jq (arrive s) = rq s ++ jq s).
    { cbn [arrive with_queues rq jq]. unfold push_back, erase_begin.
      rewrite <- app_assoc. cbn [app]. now rewrite <- (hd_tl _ Hj). }
    rewrite Q. cbn [arrive with_queues processes curr_time seq]. auto 10.
  - pose proof (hd_tl _ Hne) as Er.
    destruct (completion_effect M s I Hne) as (_ & _ & Ec & Hp & _).
    apply (fifo_head_runs s _ (hd 0 (rq s)) (tl (rq s))); auto; try lia.
    + intros i Hi. rewrite completion_start by (auto; apply (inv_range _ I)).
      destruct (Z.eqb_spec i (hd 0 (rq s))) as [->|]; reflexivity.
    + intros i Hin Hn. cbn [run_to_completion_p rq jq]. unfold erase_begin.
      rewrite Er in Hin. destruct Hin as [E|Hin]; [congruence|exact Hin].
  - now apply fifo_bulk.
  - pose proof (hd_tl _ Hne) as Er.
    pose proof (inv_range _ I) as R.
    pose proof (valid_hd _ _ (rng_rq _ R) Hne) as Hh.
    destruct (completion_effect M s I Hne) as (_ & _ & Ec & Hp & _).
    set (h := hd 0 (rq s)) in *. set (rs := tl (rq s)) in *.
    destruct (single_cases q M s h rs Er)
      as [(_ & before & same & rest & Ej & E)
         |(_ & [[E _]|(j & js & Ej & E)])]; rewrite E in *.
    + apply (fifo_head_runs s _ h rs); auto.
      * intros i Hi. cbn [with_queues run_quantum_p processes]. fold h.
        rewrite start_p_spec by lia.
        destruct (Z.eqb_spec i h) as [->|]; cbn [andb]; [|reflexivity].
        now destruct (_ =? -1).
      * cbn [with_queues run_quantum_p curr_time]. lia.
      * intros f Hf. cbn [with_queues rq jq]. rewrite Ej, !filter_app.
        cbn [filter]. rewrite Hf. cbn [app]. now rewrite <- !app_assoc.
      * intros i Hin Hn. cbn [with_queues rq jq]. rewrite Er, Ej in Hin.
        cbn [app In] in Hin. rewrite !in_app_iff in *. cbn [In] in *.
        intuition congruence.
    + apply (fifo_head_runs s _ h rs); auto; try lia.
      * intros i Hi. rewrite completion_start by auto. fold h.
        destruct (Z.eqb_spec i h) as [->|]; reflexivity.
      * intros i Hin Hn. cbn [run_to_completion_p rq jq]. unfold erase_begin.
        fold rs. rewrite Er in Hin. destruct Hin as [E'|Hin]; [congruence|exact Hin].
    + apply (fifo_head_runs s _ h rs); auto; try (cbn [with_queues curr_time]; lia).
      * intros i Hi. cbn [with_queues processes].
        rewrite completion_start by auto. fold h.
        destruct (Z.eqb_spec i h) as [->|]; reflexivity.
      * intros f _. cbn [with_queues rq jq]. now rewrite Ej, <- app_assoc.
      * intros i Hin Hn. cbn [with_queues rq jq]. rewrite Er, Ej in Hin.
        cbn [app In] in Hin. rewrite !in_app_iff in *. cbn [In] in *.
        intuition congruence.
Qed.

Lemma bootstrap_fifo M a :
  rq a = [] -> jq a <> [] ->
  (seq a = [] /\ curr_time a = 0) \/ curr_time a < arrival a (hd 0 (jq a)) ->
  fifo a -> fifo (bootstrap_p M a).
Proof.
  intros Hr Hj W (F1 & F2 & F3 & F5 & F6). cbv zeta in *.
  assert (Q : rq (bootstrap_p M a) ++ jq (bootstrap_p M a) = rq a ++ jq a).
  { cbn [bootstrap_p rq jq]. rewrite Hr. unfold push_back, erase_begin. cbn [app].
    now rewrite <- (hd_tl _ Hj). }
  unfold fifo. cbv zeta. rewrite Q. cbn [bootstrap_p processes curr_time seq]. clear Q.
  rewrite Hr in *. unfold push_back. cbn [app hd] in *.
  split; [|split; [|split; [|split]]]; auto.
  - intros i Hi Hn. destruct W as [[E _]|W].
    + exfalso. now apply Hn, F6.
    + specialize (F1 i Hi Hn). unfold arrival in W. lia.
  - intros E. exfalso. destruct (_ && _); now destruct (seq a).
Qed.

(** Over unbounded integers.
    Processes are dispatched for the first time in the order of the
    input: start times increase strictly with the position in [processes],
    whatever the arrival times.  The pending queue is the input in order
    (lines 26-29), a process joins the ready queue at its tail (lines 40, 55,
    116, 123, 147) behind the processes that have not run yet, and only a
    process that has run is requeued (lines 121 and 127). *)
Lemma ideal_dispatch_order (q M : Z) (ps : list Process) :
  0 < q -> ids_are_indices ps -> positive_bursts ps ->
  nonneg_arrivals ps -> unset_starts ps ->
  exists ps' sq,
    Ideal.simulate_rr (enough_fuel ps) q M ps = Ok (ps', sq) /\
    forall i j, 0 <= i -> i < j -> j < size ps' ->
      start_time (proc ps' i) < start_time (proc ps' j).
Proof.
  intros Hq Hi Hb Ha Hu.
  destruct (simulate_runs true q M ps Hq Hi Hb) as (st' & L & E & _ & _ & Er & Ej).
  exists (processes st'), (seq st'). split; [exact E|].
  assert (H : timed st' /\ fifo st').
  { apply (run_keep true q M (fun s => timed s /\ fifo s) Hq) with
      (fuel := enough_fuel ps) (st := initial ps); auto.
    - intros a b A [T F]. split; [exact (act_timed q M a b Hq A T)|].
      exact (act_fifo q M a b Hq A T F).
    - intros a I0 Hr Hj W [T F]. split; [|now apply bootstrap_fifo].
      apply (move_timed q M a); auto. now constructor.
    - now apply initial_Inv.
    - intros _ _. now left.
    - split; [now apply initial_timed|].
      assert (U : forall i, 0 <= i < size ps -> start_time (proc ps i) = -1).
      { intros i Hr. unfold unset_starts in Hu. rewrite Forall_forall in Hu.
        apply Hu. now apply proc_in. }
      unfold fifo. cbn [initial processes rq jq seq curr_time app].
      split; [|split; [|split; [|split]]].
      + intros i Hr Hn. now rewrite U in Hn.
      + intros i j H0 Hij Hj Hn. rewrite U in Hn by lia. contradiction.
      + apply increasing_filter. rewrite Hi. apply increasing_seq.
      + intros i Hr Hn. exfalso. apply Hn. now apply index_is_id.
      + intros _. exact U. }
  destruct H as [_ (_ & F2 & _ & F5 & _)]. cbv zeta in *.
  rewrite Er, Ej in F5. cbn [app] in F5.
  intros i j H0 Hij Hj. apply F2; auto. apply F5; [lia|intros []].
Qed.

(** ** The first process starts when it arrives *)

Lemma moves_starts_kept q M a b : 0 < q -> moves q M a b -> starts_kept a b.
Proof.
  intros Hq. apply (moves_relate q M starts_kept).
  - intros x i _ _. reflexivity.
  - intros x y z H1 H2 i Hi Hs. rewrite (H2 i Hi); [now apply H1|].
    now rewrite (H1 i Hi Hs).
  - intros x y. now apply move_starts_kept.
Qed.

Lemma act_first_served q M a0 a b :
  0 < q -> a0 <> -1 -> act q M a b -> first_served a0 a -> first_served a0 b.
Proof.
  intros Hq H0 A [(Hs & _)|[Hd|(Hu & Hne & Hh & Hc)]].
  - exfalso. destruct (act_seq q M a b A) as [Hn _]. contradiction.
  - right. left.
    rewrite (moves_starts_kept q M a b Hq (act_moves q M a b Hq A) 0); [exact Hd|lia|].
    now rewrite Hd.
  - destruct A as [s I _ Ht|s I _ Hl|s k I _ Hk Hlt Hj|s I _].
    + right. right. cbn [arrive with_queues processes rq curr_time].
      unfold push_back. repeat split; auto.
      * now destruct (rq s).
      * now rewrite hd_app.
    + right. left. rewrite completion_start by (auto; try lia; apply (inv_range _ I)).
      rewrite Hh, Hu. cbn. exact Hc.
    + right. left. pose proof (inv_range _ I) as R.
      destruct (bulk_skip_p_queues q M k s) as (_ & _ & _ & -> & _).
      destruct (rq s) as [|h rs] eqn:Er; [congruence|]. cbn [hd] in Hh. subst h.
      cbn [stagger_p].
      pose proof (rng_rq _ R) as V. rewrite Er in V. apply valid_cons in V as [V0 V].
      pose proof (inv_nodup _ I) as N. rewrite Er in N. cbn [app] in N.
      assert (Hn : ~ In 0 rs).
      { inversion N as [|? ? Hn' _]; subst. intros Hin. apply Hn'.
        apply in_or_app. now left. }
      destruct (stagger_proc q k (curr_time s) rs (0 + 1)
                  (start_p (processes s) 0 (curr_time s + q * 0))
                  (put (remaining_bursts s) 0 (rem_of (remaining_bursts s) 0 - q * k)) 0)
        as [P1 _]; try lia.
      { now rewrite size_start_p. }
      rewrite (P1 Hn), start_p_spec by lia. rewrite Hu. cbn. lia.
    + right. left. pose proof (inv_range _ I) as R.
      pose proof (hd_tl _ Hne) as Er.
      pose proof (valid_hd _ _ (rng_rq _ R) Hne) as Hv.
      destruct (single_cases q M s (hd 0 (rq s)) (tl (rq s)) Er)
        as [(_ & before & same & rest & _ & E)
           |(_ & [[E _]|(j & js & _ & E)])]; rewrite E.
      * cbn [with_queues run_quantum_p processes]. rewrite start_p_spec by lia.
        rewrite Hh, Hu. cbn. exact Hc.
      * rewrite completion_start by (auto; lia). rewrite Hh, Hu. cbn. exact Hc.
      * cbn [with_queues processes].
        rewrite completion_start by (auto; lia). rewrite Hh, Hu. cbn. exact Hc.
Qed.

Lemma bootstrap_first_served M a0 a :
  rq a = [] -> jq a <> [] -> a0 = arrival a 0 ->
  first_served a0 a -> first_served a0 (bootstrap_p M a).
Proof.
  intros Hr Hj H0 [(Hs & _ & Hh & Hu)|[Hd|(_ & Hne & _)]]; [| |contradiction].
  - right. right. cbn [bootstrap_p processes rq curr_time]. rewrite Hr.
    unfold push_back. cbn [app hd]. rewrite Hh. repeat split; auto. discriminate.
  - right. left. exact Hd.
Qed.

(** Over unbounded integers.
    The first process of the input starts at its arrival time: the
    bootstrap dispatch sets the time to its arrival (lines 40-42) and it
    heads the ready queue until it runs.  Arrival times are not negative and
    start times come unset. *)
Lemma ideal_first_start (q M : Z) (p : Process) (ps : list Process) :
  0 < q -> ids_are_indices (p :: ps) -> positive_bursts (p :: ps) ->
  nonneg_arrivals (p :: ps) -> unset_starts (p :: ps) ->
  exists ps' sq,
    Ideal.simulate_rr (enough_fuel (p :: ps)) q M (p :: ps) = Ok (ps', sq) /\
    start_time (proc ps' 0) = arrival_time p.
Proof.
  intros Hq Hi Hb Ha Hu.
  destruct (simulate_runs true q M (p :: ps) Hq Hi Hb) as (st' & L & E & _ & _ & Er & Ej).
  exists (processes st'), (seq st'). split; [exact E|].
  assert (H0 : arrival_time p <> -1).
  { inversion Ha; subst. lia. }
  set (P := fun s => arrival s 0 = arrival_time p /\ first_served (arrival_time p) s).
  assert (H : P st').
  { apply (run_keep true q M P Hq) with
      (fuel := enough_fuel (p :: ps)) (st := initial (p :: ps)); auto.
    - intros a b A [Ea F]. split; [|exact (act_first_served q M _ a b Hq H0 A F)].
      rewrite <- Ea. unfold arrival. apply arrival_static.
      apply (st_static _ _ (act_stable q M a b Hq A)).
    - intros a I0 Hr Hj _ [Ea F]. split; [exact Ea|].
      apply bootstrap_first_served; auto.
    - now apply initial_Inv.
    - intros _ _. now left.
    - split; [reflexivity|]. left. cbn [initial seq jq processes map hd].
      assert (Hp : id p = 0) by (unfold ids_are_indices in Hi; cbn in Hi; congruence).
      inversion Hu; subst. repeat split; auto. discriminate. }
  destruct H as [_ [(_ & Hj & _)|[Hd|(_ & Hne & _)]]]; [contradiction|exact Hd|contradiction].
Qed.

(** * The program within 64 bits

    As long as no operation overflows, the program computes what the
    functions of [Ideal] compute. *)

(** ** Arithmetic that does not overflow *)

Lemma wrap64_id z : int64 z -> wrap64 z = z.
Proof. unfold int64, wrap64. intros H. rewrite Z.mod_small; lia. Qed.

Lemma add64_id a b : int64 (a + b) -> add64 a b = a + b.
Proof. apply wrap64_id. Qed.

Lemma sub64_id a b : int64 (a - b) -> sub64 a b = a - b.
Proof. apply wrap64_id. Qed.

Lemma mul64_id a b : int64 (a * b) -> mul64 a b = a * b.
Proof. apply wrap64_id. Qed.

Lemma int_size_id {A : Type} (v : list A) :
  size v < 2147483648 -> int_size v = size v.
Proof.
  intros H. unfold int_size, wrap32. pose proof (size_nonneg v).
  rewrite Z.mod_small; lia.
Qed.

Lemma counted_id {A : Type} (v : list A) : size v < 2147483648 -> counted v = v.
Proof.
  intros H. unfold counted. rewrite int_size_id by assumption.
  unfold size. rewrite Nat2Z.id. apply firstn_all.
Qed.

Lemma div64_pos a b : 0 < b -> div64 a b = Ok (Z.quot a b).
Proof.
  intros H. unfold div64.
  destruct (Z.eqb_spec b 0); [lia|]. destruct (Z.eqb_spec b (-1)); [lia|].
  now rewrite andb_false_r.
Qed.

Lemma rem64_pos a b : 0 < b -> rem64 a b = Ok (Z.rem a b).
Proof.
  intros H. unfold rem64.
  destruct (Z.eqb_spec b 0); [lia|]. destruct (Z.eqb_spec b (-1)); [lia|].
  now rewrite andb_false_r.
Qed.

Lemma quot_bounds a b : 0 < b -> 0 <= a -> 0 <= Z.quot a b <= a.
Proof.
  intros Hb Ha. split; [apply Z.quot_pos; lia|].
  apply Z.quot_le_upper_bound; nia.
Qed.

Lemma full_rounds_ideal q mb :
  0 < q -> 0 <= mb -> int64 mb -> full_rounds q mb = Ok (full_rounds_p q mb).
Proof.
  intros Hq Hm Hi. unfold full_rounds, full_rounds_p.
  rewrite div64_pos, rem64_pos by assumption. cbn [bind].
  destruct (Z.rem mb q =? 0); [|reflexivity].
  rewrite sub64_id; [reflexivity|].
  pose proof (quot_bounds mb q Hq Hm). unfold int64 in *. lia.
Qed.

(** ** The pieces of the loop body *)

Lemma scan_keeps (P : Z -> Prop) q rem rs m :
  (forall i, P (rem_of rem i)) -> P m -> P (snd (scan_p q rem rs m)).
Proof.
  intros H. revert m; induction rs as [|r rs IH]; intros m Hm; simpl; auto.
  destruct (rem_of rem r <=? q); simpl; auto.
  apply IH. destruct (rem_of rem r <? m); auto.
Qed.

Lemma skippable_ideal q st :
  0 < q -> in_range st -> rq st <> [] -> size (rq st) < 2147483648 ->
  (forall i, 0 <= rem_of (remaining_bursts st) i /\
             int64 (rem_of (remaining_bursts st) i)) ->
  skippable_rounds q st = Ok (skippable_p q st).
Proof.
  intros Hq [Hl Hr Hj Hs] Hne Hsz Hb. unfold skippable_rounds, skippable_p.
  rewrite vec_at_hd by assumption. cbn [bind].
  rewrite (vec_at_ok 0) by (rewrite Hl; now apply valid_hd). cbn [bind].
  fold (rem_of (remaining_bursts st) (hd 0 (rq st))).
  rewrite counted_id by assumption.
  rewrite scan_eq by now rewrite Hl. cbn [bind].
  pose proof (scan_keeps (fun b => 0 <= b /\ int64 b) q (remaining_bursts st)
                (rq st) (rem_of (remaining_bursts st) (hd 0 (rq st))) Hb (Hb _))
    as Hm.
  destruct (scan_p _ _ _ _) as [flag mb]. simpl in Hm.
  rewrite full_rounds_ideal by tauto. reflexivity.
Qed.

Lemma stagger_ideal q k c i rs ps rem :
  size rem = size ps -> valid (size ps) rs -> NoDup rs ->
  int64 (q * k) ->
  (forall r, In r rs -> int64 (rem_of rem r - q * k)) ->
  (forall j, i <= j < i + size rs -> int64 (q * j) /\ int64 (c + q * j)) ->
  stagger q k c i rs ps rem = Ok (stagger_p q k c i rs ps rem).
Proof.
  revert i ps rem; induction rs as [|r rs IH]; intros i ps rem Hl H N Hk Hr Hj;
    simpl; [reflexivity|].
  apply valid_cons in H as [Hv H]. inversion N as [|? ? Hn N']; subst.
  pose proof (size_nonneg rs) as Hs.
  destruct (Hj i) as [J1 J2]; [rewrite size_cons; lia|].
  rewrite (mul64_id q i), add64_id, (mul64_id q k) by assumption.
  rewrite start_eq by assumption. cbn [bind].
  rewrite (vec_at_ok 0) by now rewrite Hl. cbn [bind].
  fold (rem_of rem r). rewrite sub64_id by (apply Hr; now left).
  rewrite vec_set_ok by now rewrite Hl. cbn [bind].
  apply IH; auto.
  - now rewrite size_put, size_start_p.
  - now rewrite size_start_p.
  - intros r' Hr'. rewrite rem_of_put_other.
    + apply Hr. now right.
    + lia.
    + pose proof (proj1 (Forall_forall _ _) H r' Hr'). simpl in *. lia.
    + intros ->. contradiction.
  - intros j Hjj. apply Hj. rewrite size_cons. lia.
Qed.

Lemma bulk_skip_ideal q M k st :
  in_range st -> rq st <> [] -> NoDup (rq st) -> size (rq st) < 2147483648 ->
  int64 (q * k) ->
  (forall r, In r (rq st) -> int64 (rem_of (remaining_bursts st) r - q * k)) ->
  (forall j, 0 <= j < size (rq st) ->
     int64 (q * j) /\ int64 (curr_time st + q * j)) ->
  int64 (size (rq st) * q) -> int64 (size (rq st) * q * k) ->
  int64 (curr_time st + size (rq st) * q * k) ->
  bulk_skip q M k st = Ok (bulk_skip_p q M k st).
Proof.
  intros [Hl Hr Hj Hs] Hne N Hsz Hk Hrem Hi H1 H2 H3.
  unfold bulk_skip, bulk_skip_p.
  rewrite counted_id, int_size_id by assumption.
  rewrite stagger_ideal by auto. cbn [bind].
  rewrite (mul64_id (size (rq st)) q), mul64_id, add64_id by assumption.
  destruct (stagger_p _ _ _ _ _ _ _) as [ps rem].
  rewrite emit_rounds_eq by auto. reflexivity.
Qed.

Lemma run_quantum_ideal q M st :
  in_range st -> rq st <> [] ->
  int64 (curr_time st + q) -> int64 (head_rem st - q) ->
  run_quantum q M st = Ok (run_quantum_p q M st).
Proof.
  intros [Hl Hr Hj Hs] Hne H1 H2. unfold run_quantum, run_quantum_p.
  pose proof (valid_hd _ _ Hr Hne) as Hh.
  rewrite vec_at_hd by assumption. cbn [bind].
  rewrite start_eq by assumption. cbn [bind].
  rewrite emit_eq by auto. cbn [bind].
  rewrite (vec_at_ok 0) by now rewrite Hl. cbn [bind].
  fold (rem_of (remaining_bursts st) (hd 0 (rq st))).
  rewrite add64_id, sub64_id by assumption.
  rewrite vec_set_ok by now rewrite Hl. reflexivity.
Qed.

Lemma run_to_completion_ideal M st :
  in_range st -> rq st <> [] -> int64 (curr_time st + head_rem st) ->
  run_to_completion M st = Ok (run_to_completion_p M st).
Proof.
  intros [Hl Hr Hj Hs] Hne H1. unfold run_to_completion, run_to_completion_p.
  pose proof (valid_hd _ _ Hr Hne) as Hh.
  rewrite vec_at_hd by assumption. cbn [bind].
  rewrite start_eq by assumption. cbn [bind].
  rewrite (vec_at_ok 0) by now rewrite Hl. cbn [bind].
  fold (rem_of (remaining_bursts st) (hd 0 (rq st))).
  rewrite add64_id by assumption.
  rewrite emit_eq by auto. cbn [bind].
  rewrite vec_set_ok by now rewrite Hl. cbn [bind].
  rewrite (vec_at_ok dummy) by now rewrite size_start_p. cbn [bind].
  rewrite vec_set_ok by now rewrite size_start_p. reflexivity.
Qed.

(** ** The states of a run that fits *)

Lemma rem_le_sum l i :
  Forall (fun b => 0 <= b) l -> 0 <= rem_of l i <= sum l.
Proof.
  unfold rem_of. generalize (Z.to_nat i) as n.
  induction l as [|b l IH]; intros n H; [destruct n; simpl; lia|].
  inversion H as [|? ? Hb Hl]; subst. pose proof (sum_nonneg l Hl).
  destruct n; simpl; [lia|]. specialize (IH n Hl). lia.
Qed.

Lemma valid_NoDup_size n l : valid n l -> NoDup l -> size l <= Z.max n 0.
Proof.
  intros V N.
  assert (I : incl l (map Z.of_nat (List.seq 0 (Z.to_nat n)))).
  { intros x Hx. pose proof (proj1 (Forall_forall _ _) V x Hx) as B. simpl in B.
    apply in_map_iff. exists (Z.to_nat x). split; [lia|].
    apply in_seq. lia. }
  apply NoDup_incl_length in I; [|assumption].
  rewrite length_map, length_seq in I. unfold size. lia.
Qed.

Lemma Inv_rq_size st : Inv st -> size (rq st) <= size (processes st).
Proof.
  intros I. pose proof (size_nonneg (processes st)).
  pose proof (valid_NoDup_size _ _ (rng_rq _ (inv_range _ I))
                (NoDup_app_l _ _ (inv_nodup _ I))).
  lia.
Qed.

Lemma within_rem q R B st i :
  Inv st -> within q R B st ->
  0 <= rem_of (remaining_bursts st) i <= B.
Proof.
  intros I W. pose proof (rem_le_sum (remaining_bursts st) i (inv_nonneg _ I)).
  pose proof (wi_tot _ _ _ _ W). unfold total_remaining in *. lia.
Qed.

Lemma within_move q M R B a b :
  0 < q -> move q M a b -> within q R B a -> within q R B b.
Proof.
  intros Hq Mv W. destruct (move_Inv q M a b Hq Mv) as (Ia & Ib & S).
  pose proof (move_size q M a b Hq Mv) as Es.
  assert (Ea : forall i, arrival b i = arrival a i).
  { intros i. unfold arrival. apply arrival_static, S. }
  pose proof (st_sum _ _ S) as Hs.
  destruct W as [W1 W2 W3 W4 W5 W6].
  destruct (move_work q M a b Hq Mv) as [(_ & _ & ->)|[E L]].
  - pose proof (W3 (hd 0 (push_back (rq a) (hd 0 (jq a))))) as H.
    unfold arrival in H. unfold total_remaining in *.
    constructor; simpl; [exact W1|exact W2|exact W3|lia|exact W5|].
    unfold total_remaining. simpl. lia.
  - constructor; try rewrite Es; auto; try lia.
    intros i. rewrite Ea. apply W3.
Qed.

Lemma span_bound ps i : - span ps <= arrival_time (proc ps i) <= span ps.
Proof.
  unfold proc. generalize (Z.to_nat i) as n.
  induction ps as [|p ps IH]; intros n; [destruct n; simpl; lia|].
  simpl span. destruct n; simpl; [lia|]. specialize (IH n). lia.
Qed.

Lemma initial_within q ps :
  fits q ps -> within q (span ps) (sum (map burst ps)) (initial ps).
Proof.
  intros [F1 F2]. pose proof (span_bound ps 0) as H0.
  constructor; simpl; auto; try lia.
  - intros i. apply span_bound.
  - unfold total_remaining. simpl. lia.
  - unfold total_remaining. simpl. lia.
Qed.

(** ** An iteration within 64 bits *)

Section Within.

Variables (q R B : Z).
Hypothesis Hq : 0 < q.

Lemma preempt_ideal M st :
  Inv st -> within q R B st -> rq st <> [] -> q < head_rem st ->
  run_quantum q M st = Ok (run_quantum_p q M st).
Proof.
  intros I W Hne Hh. apply run_quantum_ideal; auto; [apply I| |].
  - pose proof (within_rem q R B st (hd 0 (rq st)) I W) as Hb.
    fold (head_rem st) in Hb.
    pose proof (rem_le_sum (remaining_bursts st) (hd 0 (rq st)) (inv_nonneg _ I)) as Ht.
    fold (head_rem st) in Ht. fold (total_remaining st) in Ht.
    destruct W as [W1 W2 W3 W4 W5 W6]. pose proof (size_nonneg (processes st)).
    pose proof (W3 0).
    assert (0 <= size (processes st) * q) by nia. unfold int64. lia.
  - pose proof (within_rem q R B st (hd 0 (rq st)) I W) as Hb.
    fold (head_rem st) in Hb.
    destruct W as [W1 W2 W3 W4 W5 W6]. pose proof (size_nonneg (processes st)).
    pose proof (W3 0).
    assert (0 <= size (processes st) * q) by nia. unfold int64. lia.
Qed.

Lemma complete_ideal M st :
  Inv st -> within q R B st -> rq st <> [] ->
  run_to_completion M st = Ok (run_to_completion_p M st).
Proof.
  intros I W Hne. apply run_to_completion_ideal; auto; [apply I|].
  pose proof (rem_le_sum (remaining_bursts st) (hd 0 (rq st)) (inv_nonneg _ I)) as Ht.
  fold (head_rem st) in Ht. fold (total_remaining st) in Ht.
  destruct W as [W1 W2 W3 W4 W5 W6]. pose proof (size_nonneg (processes st)).
  pose proof (W3 0).
    assert (0 <= size (processes st) * q) by nia. unfold int64. lia.
Qed.

Lemma skippable_within st :
  Inv st -> within q R B st -> rq st <> [] ->
  skippable_rounds q st = Ok (skippable_p q st).
Proof.
  intros I W Hne. apply skippable_ideal; auto; [apply I| |].
  - pose proof (Inv_rq_size st I). pose proof (wi_size _ _ _ _ W). lia.
  - intros i. pose proof (within_rem q R B st i I W) as Hb.
    destruct W as [W1 W2 W3 W4 W5 W6]. pose proof (size_nonneg (processes st)).
    pose proof (W3 0).
    assert (0 <= size (processes st) * q) by nia. unfold int64. lia.
Qed.

Lemma bulk_within M k st :
  Inv st -> within q R B st -> rq st <> [] -> 1 <= k ->
  (forall r, In r (rq st) -> q * k < rem_of (remaining_bursts st) r) ->
  bulk_skip q M k st = Ok (bulk_skip_p q M k st).
Proof.
  intros I W Hne Hk Hr.
  pose proof (Inv_rq_size st I) as Hsz.
  destruct (bulk_Inv q M k st Hq ltac:(lia) I Hne Hr) as (I' & _ & Et).
  pose proof (sum_nonneg _ (inv_nonneg _ I')) as Ht'. fold (total_remaining (bulk_skip_p q M k st)) in Ht'.
  pose proof (sum_nonneg _ (inv_nonneg _ I)) as Ht. fold (total_remaining st) in Ht.
  assert (Hs1 : 1 <= size (rq st)).
  { destruct (rq st); [congruence|]. rewrite size_cons.
    pose proof (size_nonneg l). lia. }
  assert (Hqk : 0 < q * k) by nia.
  assert (Hqk' : q * k <= B).
  { pose proof (hd_tl _ Hne) as E.
    assert (Hin : In (hd 0 (rq st)) (rq st)) by (rewrite E at 2; now left).
    pose proof (Hr _ Hin). pose proof (within_rem q R B st (hd 0 (rq st)) I W). lia. }
  destruct W as [W1 W2 W3 W4 W5 W6]. pose proof (W3 0) as HR.
  assert (Hnq : 0 <= size (processes st) * q) by (pose proof (size_nonneg (processes st)); nia).
  assert (Hsq : size (rq st) * q <= size (processes st) * q) by nia.
  assert (Hsqk : size (rq st) * q * k = size (rq st) * (q * k)) by ring.
  apply bulk_skip_ideal; auto.
  - apply I.
  - apply (NoDup_app_l _ _ (inv_nodup _ I)).
  - lia.
  - unfold int64. lia.
  - intros r Hin. pose proof (Hr r Hin).
    pose proof (within_rem q R B st r I (mkWithin _ _ _ _ W1 W2 W3 W4 W5 W6)).
    unfold int64. lia.
  - intros j Hj. assert (0 <= q * j <= size (rq st) * q) by nia.
    unfold int64. split; lia.
  - unfold int64. nia.
  - unfold int64. rewrite Hsqk. nia.
  - unfold int64. rewrite Hsqk. nia.
Qed.

Lemma step_pending_ideal bulk M st :
  Inv st -> within q R B st -> rq st <> [] -> jq st <> [] ->
  step_pending bulk q M st = Ok (step_pending_p bulk q M st).
Proof.
  intros I W Hne Hj. pose proof (inv_range _ I) as H.
  unfold step_pending, step_pending_p.
  pose proof (valid_hd _ _ (rng_jq _ H) Hj) as Hh.
  rewrite vec_at_hd by assumption. cbn [bind].
  rewrite (vec_at_ok dummy) by assumption. cbn [bind].
  fold (proc (processes st) (hd 0 (jq st))).
  destruct (_ =? curr_time st); [reflexivity|].
  rewrite skippable_within by assumption. cbn [bind].
  destruct (skip_pending_Inv bulk q M st Hq I Hne) as (I1 & _ & Hr1 & Hj1).
  pose proof (moves_keep q M (within q R B)
                (fun a b Mv => within_move q M R B a b Hq Mv) _ _
                (skip_pending_moves bulk q M st Hq I Hne) W) as W1.
  pose proof (skippable_spec q st) as Sp.
  unfold skip_pending_p in *. destruct (skippable_p q st) as [flag n].
  pose proof (Inv_rq_size st I) as Hsz.
  assert (Hs1 : 1 <= size (rq st)).
  { destruct (rq st); [congruence|]. rewrite size_cons.
    pose proof (size_nonneg l). lia. }
  set (a := arrival_time (proc (processes st) (hd 0 (jq st)))) in *.
  assert (Ha : - R <= a <= R) by apply (wi_arr _ _ _ _ W (hd 0 (jq st))).
  pose proof (sum_nonneg _ (inv_nonneg _ I)) as Ht. fold (total_remaining st) in Ht.
  assert (Hb : int64 (size (rq st) * q) /\ 0 < size (rq st) * q /\
               int64 (a - curr_time st) /\
               int64 (curr_time st + size (rq st) * q)).
  { destruct W as [V1 V2 V3 V4 V5 V6]. unfold int64. repeat split; nia. }
  destruct Hb as (B1 & B2 & B3 & B4).
  rewrite int_size_id by (pose proof (wi_size _ _ _ _ W); lia).
  rewrite mul64_id, sub64_id, add64_id by assumption.
  rewrite div64_pos by assumption. cbn [bind].
  set (k := Z.min n _) in *.
  set (st1 := if _ && _ && bulk then bulk_skip_p q M k st else st) in *.
  replace (if _ && _ && bulk then bulk_skip q M k st else Ok st) with (Ok st1).
  2:{ subst st1.
      destruct (Z.ltb_spec (curr_time st + size (rq st) * q) a) as [Hlt|];
        [|reflexivity].
      destruct flag; [|reflexivity]. destruct bulk; [|reflexivity]. cbn [andb].
      symmetry. destruct (Sp n Hq Hne eq_refl) as [Hn Hall].
      destruct (quot_rounds (a - curr_time st) (size (rq st) * q)) as [Hm _];
        [lia|lia|].
      apply (bulk_within M k); auto; [lia|].
      intros r Hin. destruct (Hall r Hin) as [_ Hl]. nia. }
  cbn [bind].
  assert (Hne1 : rq st1 <> []) by now rewrite Hr1.
  assert (Hjn1 : jq st1 <> []) by now rewrite Hj1.
  pose proof (inv_range _ I1) as H1.
  rewrite vec_at_hd by assumption. cbn [bind].
  rewrite (vec_at_ok 0)
    by (rewrite (rng_len _ H1); apply valid_hd; [apply H1|assumption]).
  cbn [bind]. fold (rem_of (remaining_bursts st1) (hd 0 (rq st1))).
  fold (head_rem st1).
  destruct (Z.ltb_spec q (head_rem st1)).
  - unfold preempt_pending. rewrite preempt_ideal by assumption.
    destruct (preempt_pending_eq q M st1 H1 Hne1) as [E _].
    unfold Ideal.preempt_pending in E.
    rewrite (proj1 (run_quantum_eq q M st1 H1 Hne1)) in E. exact E.
  - unfold complete_pending. rewrite complete_ideal by assumption.
    destruct (complete_pending_eq M st1 H1 Hne1 Hjn1) as [E _].
    unfold Ideal.complete_pending in E.
    rewrite (proj1 (run_to_completion_eq M st1 H1 Hne1)) in E. exact E.
Qed.

Lemma step_drained_ideal bulk M st :
  Inv st -> within q R B st -> rq st <> [] -> jq st = [] ->
  step_drained bulk q M st = Ok (step_drained_p bulk q M st).
Proof.
  intros I W Hne Hj. pose proof (inv_range _ I) as H.
  unfold step_drained, step_drained_p.
  destruct (size (rq st) =? 1).
  { rewrite complete_ideal by assumption. reflexivity. }
  rewrite skippable_within by assumption. cbn [bind].
  destruct (skip_drained_Inv bulk q M st Hq I Hne) as (I1 & _ & Hr1 & Hj1).
  pose proof (moves_keep q M (within q R B)
                (fun a b Mv => within_move q M R B a b Hq Mv) _ _
                (skip_drained_moves bulk q M st Hq I Hne) W) as W1.
  pose proof (skippable_spec q st) as Sp.
  unfold skip_drained_p in *. destruct (skippable_p q st) as [flag n].
  set (st1 := if flag && bulk then bulk_skip_p q M n st else st) in *.
  replace (if flag && bulk then bulk_skip q M n st else Ok st) with (Ok st1).
  2:{ subst st1. destruct flag; [|reflexivity]. destruct bulk; [|reflexivity].
      cbn [andb]. symmetry. destruct (Sp n Hq Hne eq_refl) as [Hn Hall].
      apply (bulk_within M n); auto.
      intros r Hin. now destruct (Hall r Hin). }
  cbn [bind].
  assert (Hne1 : rq st1 <> []) by now rewrite Hr1.
  pose proof (inv_range _ I1) as H1.
  rewrite vec_at_hd by assumption. cbn [bind].
  rewrite (vec_at_ok 0)
    by (rewrite (rng_len _ H1); apply valid_hd; [apply H1|assumption]).
  cbn [bind]. fold (rem_of (remaining_bursts st1) (hd 0 (rq st1))).
  fold (head_rem st1).
  destruct (Z.ltb_spec q (head_rem st1)).
  - unfold preempt_drained. rewrite preempt_ideal by assumption.
    destruct (preempt_drained_eq q M st1 H1 Hne1) as [E _].
    unfold Ideal.preempt_drained in E.
    rewrite (proj1 (run_quantum_eq q M st1 H1 Hne1)) in E. exact E.
  - unfold complete_drained. rewrite complete_ideal by assumption. reflexivity.
Qed.

(** Within 64 bits an iteration of the program is [next]. *)
Lemma step_within bulk M st :
  Inv st -> within q R B st -> step bulk q M st = Ok (next bulk q M st).
Proof.
  intros I W. pose proof (inv_range _ I) as H.
  unfold step, next, bootstrap_guard.
  destruct (empty (rq st)) eqn:Er; destruct (empty (jq st)) eqn:Ej; cbn [andb negb].
  - reflexivity.
  - apply empty_false in Ej. apply empty_true in Er.
    destruct (bootstrap_eq M st H Ej) as [E H1]. rewrite E. cbn [bind].
    destruct (bootstrap_Inv M st I Er Ej) as (I1 & _ & _ & Hne).
    pose proof (within_move q M R B _ _ Hq (move_bootstrap q M st I Er Ej) W) as W1.
    set (st1 := bootstrap_p M st) in *.
    apply empty_false in Hne as Hne'. rewrite Hne'. cbn [andb negb].
    destruct (empty (jq st1)) eqn:Ej1; cbn [andb negb].
    + apply step_drained_ideal; auto. now apply empty_true.
    + apply step_pending_ideal; auto. now apply empty_false.
  - cbn [bind]. rewrite Er, Ej. cbn [andb negb].
    apply step_drained_ideal; auto; [now apply empty_false|now apply empty_true].
  - cbn [bind]. rewrite Er, Ej. cbn [andb negb].
    apply step_pending_ideal; auto; now apply empty_false.
Qed.

Lemma step_ideal bulk M st :
  Inv st -> within q R B st -> step bulk q M st = Ideal.step bulk q M st.
Proof.
  intros I W. rewrite step_within by assumption.
  symmetry. apply step_next; [lia|apply I].
Qed.

Lemma next_within bulk M st :
  Inv st -> within q R B st ->
  Inv (state_of (next bulk q M st)) /\ within q R B (state_of (next bulk q M st)).
Proof.
  intros I W. split.
  - pose proof (next_Inv bulk q M st Hq I) as N.
    destruct (next bulk q M st); simpl; tauto.
  - apply (moves_keep q M (within q R B)
             (fun a b Mv => within_move q M R B a b Hq Mv) _ _
             (next_moves bulk q M st Hq I) W).
Qed.

Lemma loop_ideal bulk M fuel st :
  Inv st -> within q R B st ->
  loop bulk q M fuel st = Ideal.loop bulk q M fuel st.
Proof.
  revert st; induction fuel as [|fuel IH]; intros st I W; [reflexivity|].
  cbn [loop Ideal.loop]. rewrite <- step_ideal by assumption.
  rewrite step_within by assumption. cbn [bind].
  destruct (next_within bulk M st I W) as [I1 W1].
  destruct (next bulk q M st); [|reflexivity]. now apply IH.
Qed.


End Within.

(** ** A run within 64 bits *)

Section Fits.

Variables (q : Z) (ps : list Process).
Hypothesis Hq : 0 < q.
Hypothesis Hids : ids_are_indices ps.
Hypothesis Hpos : positive_bursts ps.
Hypothesis Hfit : fits q ps.

Lemma simulate_ideal bulk fuel M :
  simulate bulk fuel q M ps = Ideal.simulate bulk fuel q M ps.
Proof.
  unfold simulate, Ideal.simulate.
  rewrite (loop_ideal q (span ps) (sum (map burst ps)) Hq);
    auto using initial_Inv, initial_within.
Qed.

Lemma loop_fits bulk fuel M :
  loop bulk q M fuel (initial ps) = Ideal.loop bulk q M fuel (initial ps).
Proof.
  apply (loop_ideal q (span ps) (sum (map burst ps)) Hq);
    auto using initial_Inv, initial_within.
Qed.

Lemma simulate_rr_ideal fuel M :
  simulate_rr fuel q M ps = Ideal.simulate_rr fuel q M ps.
Proof. apply simulate_ideal. Qed.

Lemma simulate_rr_naive_ideal fuel M :
  simulate_rr_naive fuel q M ps = Ideal.simulate_rr_naive fuel q M ps.
Proof. apply simulate_ideal. Qed.


Lemma ideal_reachable_within bulk M st :
  Ideal.reachable bulk q M ps st ->
  Inv st /\ within q (span ps) (sum (map burst ps)) st.
Proof.
  intros Rc. split.
  - now apply (reachable_Inv bulk q M ps st).
  - apply (reachable_keep bulk q M ps
             (within q (span ps) (sum (map burst ps))) Hq Hids Hpos); auto.
    + intros a b Mv. now apply within_move with (M := M).
    + now apply initial_within.
Qed.

Lemma reachable_ideal bulk M st :
  reachable bulk q M ps st <-> Ideal.reachable bulk q M ps st.
Proof.
  split.
  - induction 1 as [|st st' Rc IH E]; [constructor|].
    destruct (ideal_reachable_within bulk M st IH) as [I W].
    apply Ideal.reach_step with st; [assumption|].
    now rewrite <- (step_ideal q _ _ Hq bulk M st I W).
  - induction 1 as [|st st' Rc IH E]; [constructor|].
    destruct (ideal_reachable_within bulk M st Rc) as [I W].
    apply reach_step with st; [assumption|].
    now rewrite (step_ideal q _ _ Hq bulk M st I W).
Qed.

Lemma reachable_step_ideal bulk M st :
  reachable bulk q M ps st -> step bulk q M st = Ideal.step bulk q M st.
Proof.
  intros Rc. apply reachable_ideal in Rc.
  destruct (ideal_reachable_within bulk M st Rc) as [I W].
  exact (step_ideal q _ _ Hq bulk M st I W).
Qed.

End Fits.

(** * The program on any input

    What holds of the program whether its arithmetic overflows or not. *)

(** ** The single steps *)

Lemma run_quantum_w_eq q M st :
  in_range st -> rq st <> [] ->
  run_quantum q M st = Ok (run_quantum_w q M st) /\
  in_range (run_quantum_w q M st) /\ seq (run_quantum_w q M st) <> [].
Proof.
  intros [Hl Hr Hj Hs] Hne. unfold run_quantum, run_quantum_w.
  pose proof (valid_hd _ _ Hr Hne) as Hh.
  rewrite vec_at_hd by assumption. cbn [bind].
  rewrite start_eq by assumption. cbn [bind].
  rewrite emit_eq by auto. cbn [bind].
  rewrite (vec_at_ok 0) by now rewrite Hl. cbn [bind].
  rewrite vec_set_ok by now rewrite Hl. cbn [bind].
  assert (Hse : emit_p M (seq st) (hd 0 (rq st)) <> []) by (apply emit_p_nonempty; auto).
  split; [reflexivity|]. split; [|exact Hse].
  constructor; simpl; rewrite ?size_put, ?size_start_p; auto.
Qed.

Lemma run_to_completion_w_eq M st :
  in_range st -> rq st <> [] ->
  run_to_completion M st = Ok (run_to_completion_w M st) /\
  in_range (run_to_completion_w M st) /\
  seq (run_to_completion_w M st) <> [].
Proof.
  intros [Hl Hr Hj Hs] Hne. unfold run_to_completion, run_to_completion_w.
  pose proof (valid_hd _ _ Hr Hne) as Hh.
  rewrite vec_at_hd by assumption. cbn [bind].
  rewrite start_eq by assumption. cbn [bind].
  rewrite (vec_at_ok 0) by now rewrite Hl. cbn [bind].
  rewrite emit_eq by auto. cbn [bind].
  rewrite vec_set_ok by now rewrite Hl. cbn [bind].
  rewrite (vec_at_ok dummy) by now rewrite size_start_p. cbn [bind].
  rewrite vec_set_ok by now rewrite size_start_p. cbn [bind].
  split; [reflexivity|].
  assert (Hse : emit_p M (seq st) (hd 0 (rq st)) <> []) by (apply emit_p_nonempty; auto).
  split; [|exact Hse].
  constructor; simpl; rewrite ?size_put, ?size_start_p; auto using valid_tl.
Qed.

Lemma preempt_pending_w_eq q M st :
  in_range st -> rq st <> [] ->
  preempt_pending q M st = Ok (Continue (preempt_pending_w q M st)) /\
  in_range (preempt_pending_w q M st).
Proof.
  intros H Hne. unfold preempt_pending, preempt_pending_w.
  destruct (run_quantum_w_eq q M st H Hne) as (E & H2 & Hs). rewrite E. cbn [bind].
  set (st2 := run_quantum_w q M st) in *.
  destruct (requeue_with_arrivals_eq (processes st2) (curr_time st2) (rq st2) (jq st2))
    as (E2 & V1 & V2); [apply H2|apply H2|exact Hne|].
  rewrite E2. cbn [bind].
  destruct (requeue_with_arrivals_p _ _ _ _) as [rq' jq']. simpl in V1, V2.
  split; [reflexivity|]. now apply in_range_with_queues.
Qed.

Lemma complete_pending_w_eq M st :
  in_range st -> rq st <> [] -> jq st <> [] ->
  complete_pending M st = Ok (Continue (complete_pending_w M st)) /\
  in_range (complete_pending_w M st).
Proof.
  intros H Hne Hj. unfold complete_pending, complete_pending_w.
  destruct (run_to_completion_w_eq M st H Hne) as (E & H2 & Hs). rewrite E. cbn [bind].
  set (st2 := run_to_completion_w M st) in *.
  assert (Hj2 : jq st2 <> []) by exact Hj.
  pose proof (valid_hd _ _ (rng_jq _ H2) Hj2) as Hh.
  rewrite vec_at_hd by assumption. cbn [bind].
  rewrite (vec_at_ok dummy) by assumption. cbn [bind].
  fold (proc (processes st2) (hd 0 (jq st2))).
  destruct (_ <=? _); split; auto.
  apply in_range_with_queues; auto.
  - apply valid_push; auto. apply H2.
  - apply valid_tl, H2.
Qed.

Lemma preempt_drained_w_eq q M st :
  in_range st -> rq st <> [] ->
  preempt_drained q M st = Ok (Continue (preempt_drained_w q M st)) /\
  in_range (preempt_drained_w q M st).
Proof.
  intros H Hne. unfold preempt_drained, preempt_drained_w.
  destruct (run_quantum_w_eq q M st H Hne) as (E & H2 & Hs). rewrite E. cbn [bind].
  set (st2 := run_quantum_w q M st) in *.
  rewrite requeue_eq by exact Hne. cbn [bind]. split; [reflexivity|].
  apply in_range_with_queues; auto.
  - apply requeue_valid; [apply H2|exact Hne].
  - apply H2.
Qed.

(** ** No access out of range *)

Lemma valid_counted n l : valid n l -> valid n (counted l).
Proof.
  unfold counted, valid. generalize (Z.to_nat (int_size l)) as c.
  intros c H. revert c. induction H as [|x l Hx H IH]; intros [|c]; simpl; auto.
Qed.

Lemma div64_cases a b :
  div64 a b = Fail undefined_behaviour \/ exists z, div64 a b = Ok z.
Proof. unfold div64. destruct (_ || _); eauto. Qed.

Lemma rem64_cases a b :
  rem64 a b = Fail undefined_behaviour \/ exists z, rem64 a b = Ok z.
Proof. unfold rem64. destruct (_ || _); eauto. Qed.

Lemma full_rounds_cases q mb :
  full_rounds q mb = Fail undefined_behaviour \/ exists n, full_rounds q mb = Ok n.
Proof.
  unfold full_rounds.
  destruct (div64_cases mb q) as [E|[n E]]; rewrite E; cbn [bind]; auto.
  destruct (rem64_cases mb q) as [E'|[r E']]; rewrite E'; cbn [bind]; eauto.
Qed.

Lemma skippable_cases q st :
  in_range st -> rq st <> [] ->
  skippable_rounds q st = Fail undefined_behaviour \/
  exists flag n, skippable_rounds q st = Ok (flag, n).
Proof.
  intros [Hl Hr Hj Hs] Hne. unfold skippable_rounds.
  rewrite vec_at_hd by assumption. cbn [bind].
  rewrite (vec_at_ok 0) by (rewrite Hl; now apply valid_hd). cbn [bind].
  rewrite scan_eq by (rewrite Hl; now apply valid_counted). cbn [bind].
  destruct (scan_p _ _ _ _) as [flag mb].
  destruct (full_rounds_cases q mb) as [E|[n E]]; rewrite E; cbn [bind]; eauto.
Qed.

Lemma skippable_zero st :
  in_range st -> rq st <> [] ->
  skippable_rounds 0 st = Fail undefined_behaviour.
Proof.
  intros [Hl Hr Hj Hs] Hne. unfold skippable_rounds.
  rewrite vec_at_hd by assumption. cbn [bind].
  rewrite (vec_at_ok 0) by (rewrite Hl; now apply valid_hd). cbn [bind].
  rewrite scan_eq by (rewrite Hl; now apply valid_counted). cbn [bind].
  destruct (scan_p _ _ _ _) as [flag mb]. reflexivity.
Qed.

Lemma stagger_sizes_w q k c i rs ps rem :
  size rem = size ps -> valid (size ps) rs ->
  exists ps' rem',
    stagger q k c i rs ps rem = Ok (ps', rem') /\
    size ps' = size ps /\ size rem' = size rem.
Proof.
  revert i ps rem; induction rs as [|r rs IH]; intros i ps rem Hl H; simpl;
    [eauto|].
  apply valid_cons in H as [Hr H].
  rewrite start_eq by assumption. cbn [bind].
  rewrite (vec_at_ok 0) by now rewrite Hl. cbn [bind].
  rewrite vec_set_ok by now rewrite Hl. cbn [bind].
  destruct (IH (i + 1) (start_p ps r (add64 c (mul64 q i)))
              (put rem r (sub64 (nth (Z.to_nat r) rem 0) (mul64 q k))))
    as (ps' & rem' & E & E1 & E2).
  - now rewrite size_put, size_start_p.
  - now rewrite size_start_p.
  - exists ps', rem'. rewrite E, E1, E2, size_start_p, size_put. auto.
Qed.

Lemma bulk_skip_range q M k st :
  in_range st -> rq st <> [] ->
  exists st', bulk_skip q M k st = Ok st' /\ in_range st' /\
              rq st' = rq st /\ jq st' = jq st.
Proof.
  intros [Hl Hr Hj Hs] Hne. unfold bulk_skip.
  destruct (stagger_sizes_w q k (curr_time st) 0 (counted (rq st)) (processes st)
              (remaining_bursts st) Hl (valid_counted _ _ Hr))
    as (ps' & rem' & E & E1 & E2).
  rewrite E. cbn [bind].
  rewrite emit_rounds_eq by auto. cbn [bind].
  eexists. split; [reflexivity|]. split; [|auto].
  constructor; simpl; rewrite ?E1, ?E2; auto.
  intros _. apply emit_rounds_p_nonempty; auto.
Qed.

Lemma step_pending_safe bulk q M st :
  in_range st -> rq st <> [] -> jq st <> [] ->
  safe (step_pending bulk q M st).
Proof.
  intros H Hne Hj. unfold step_pending, safe.
  pose proof (valid_hd _ _ (rng_jq _ H) Hj) as Hh.
  rewrite vec_at_hd by assumption. cbn [bind].
  rewrite (vec_at_ok dummy) by assumption. cbn [bind].
  destruct (_ =? curr_time st).
  { left. eexists. split; [reflexivity|]. simpl. apply in_range_with_queues; auto.
    - apply valid_push; auto. apply H.
    - apply valid_tl, H.
    - now apply rng_seq. }
  destruct (skippable_cases q st H Hne) as [E|(flag & n & E)]; rewrite E; cbn [bind];
    [now right|].
  match goal with |- context [div64 ?a ?b] =>
    destruct (div64_cases a b) as [E'|[m E']]; rewrite E'; cbn [bind]; [now right|]
  end.
  match goal with |- context [bind (if ?c then ?x else Ok st) _] =>
    assert (S : exists st1, (if c then x else Ok st) = Ok st1 /\ in_range st1 /\
                            rq st1 = rq st /\ jq st1 = jq st)
  end.
  { destruct (_ && _ && bulk); [|eauto]. now apply bulk_skip_range. }
  destruct S as (st1 & E1 & H1 & Hr1 & Hj1). rewrite E1. cbn [bind].
  assert (Hne1 : rq st1 <> []) by now rewrite Hr1.
  assert (Hjn1 : jq st1 <> []) by now rewrite Hj1.
  rewrite vec_at_hd by assumption. cbn [bind].
  rewrite (vec_at_ok 0)
    by (rewrite (rng_len _ H1); apply valid_hd; [apply H1|assumption]).
  cbn [bind]. left.
  destruct (q <? _).
  - destruct (preempt_pending_w_eq q M st1 H1 Hne1) as [E2 R2]. eauto.
  - destruct (complete_pending_w_eq M st1 H1 Hne1 Hjn1) as [E2 R2]. eauto.
Qed.

Lemma step_drained_safe bulk q M st :
  in_range st -> rq st <> [] -> safe (step_drained bulk q M st).
Proof.
  intros H Hne. unfold step_drained, safe.
  destruct (size (rq st) =? 1).
  { left. destruct (run_to_completion_w_eq M st H Hne) as (E & R & _).
    rewrite E. cbn [bind]. eauto. }
  destruct (skippable_cases q st H Hne) as [E|(flag & n & E)]; rewrite E; cbn [bind];
    [now right|].
  assert (S : exists st1, (if flag && bulk then bulk_skip q M n st else Ok st) = Ok st1 /\
                          in_range st1 /\ rq st1 = rq st /\ jq st1 = jq st).
  { destruct (flag && bulk); [|eauto]. now apply bulk_skip_range. }
  destruct S as (st1 & E1 & H1 & Hr1 & Hj1). rewrite E1. cbn [bind].
  assert (Hne1 : rq st1 <> []) by now rewrite Hr1.
  rewrite vec_at_hd by assumption. cbn [bind].
  rewrite (vec_at_ok 0)
    by (rewrite (rng_len _ H1); apply valid_hd; [apply H1|assumption]).
  cbn [bind]. left.
  destruct (q <? _).
  - destruct (preempt_drained_w_eq q M st1 H1 Hne1) as [E2 R2]. eauto.
  - unfold complete_drained.
    destruct (run_to_completion_w_eq M st1 H1 Hne1) as (E2 & R2 & _).
    rewrite E2. cbn [bind]. eauto.
Qed.

Lemma step_safe bulk q M st : in_range st -> safe (step bulk q M st).
Proof.
  intros H. unfold step, bootstrap_guard.
  destruct (empty (rq st)) eqn:Er; destruct (empty (jq st)) eqn:Ej; cbn [andb negb].
  - left. eauto.
  - apply empty_false in Ej.
    destruct (bootstrap_eq M st H Ej) as [E H1]. rewrite E. cbn [bind].
    set (st1 := bootstrap_p M st) in *.
    assert (Hne : rq st1 <> []).
    { simpl. unfold push_back. destruct (rq st); simpl; congruence. }
    apply empty_false in Hne as Hne'. rewrite Hne'. cbn [andb negb].
    destruct (empty (jq st1)) eqn:Ej1; cbn [andb negb].
    + now apply step_drained_safe.
    + apply step_pending_safe; auto. now apply empty_false.
  - cbn [bind]. rewrite Er, Ej. cbn [andb negb].
    apply step_drained_safe; auto. now apply empty_false.
  - cbn [bind]. rewrite Er, Ej. cbn [andb negb].
    apply step_pending_safe; auto; now apply empty_false.
Qed.

Lemma loop_safe bulk q M fuel st :
  in_range st -> loop bulk q M fuel st <> Fail out_of_range.
Proof.
  revert st; induction fuel as [|fuel IH]; intros st R; cbn [loop]; [discriminate|].
  destruct (step_safe bulk q M st R) as [(c & E & R')|E]; rewrite E; cbn [bind];
    [|discriminate].
  destruct c as [st'|st']; [now apply IH|discriminate].
Qed.

(** ** Fuel *)

Lemma loop_fuel bulk q M fuel extra st r :
  loop bulk q M fuel st = r -> r <> Fail out_of_fuel ->
  loop bulk q M (fuel + extra) st = r.
Proof.
  revert st; induction fuel as [|fuel IH]; intros st E N; cbn [loop] in *;
    [congruence|].
  cbn [Nat.add loop].
  destruct (step bulk q M st) as [[st'|st']|f]; cbn [bind] in *; auto.
Qed.

Lemma simulate_fuel bulk q M fuel extra ps r :
  simulate bulk fuel q M ps = r -> r <> Fail out_of_fuel ->
  simulate bulk (fuel + extra) q M ps = r.
Proof.
  unfold simulate. intros E N.
  destruct (loop bulk q M fuel (initial ps)) as [st|f] eqn:L.
  - now rewrite (loop_fuel _ _ _ _ extra _ _ L).
  - rewrite (loop_fuel _ _ _ _ extra _ _ L); [exact E|].
    cbn [bind] in E. congruence.
Qed.

(** ** A zero quantum *)

(** With a zero quantum an iteration from a state with a process in progress
    divides by zero (lines 76 and 187), unless it only admits the head of the
    pending queue (line 54) or completes the last process (line 158). *)
Lemma step_zero bulk M st :
  in_range st -> rq st <> [] -> jq st <> [] \/ size (rq st) <> 1 ->
  step bulk 0 M st = Fail undefined_behaviour \/
  (jq st <> [] /\ step bulk 0 M st = Ok (Continue (arrive st)) /\
   in_range (arrive st)).
Proof.
  intros R Hr H. unfold step, bootstrap_guard.
  apply empty_false in Hr as Er. rewrite Er. cbn [andb negb bind].
  rewrite Er. cbn [andb negb].
  destruct (jq st) as [|j js] eqn:Ej; cbn [empty andb negb].
  - left. unfold step_drained. destruct H as [H|H]; [congruence|].
    apply Z.eqb_neq in H. rewrite H.
    rewrite (skippable_zero st R Hr). reflexivity.
  - unfold step_pending. rewrite Ej.
    change (vec_at (j :: js) 0) with (Ok j). cbn [bind].
    assert (Hj : 0 <= j < size (processes st)).
    { pose proof (rng_jq _ R) as V. rewrite Ej in V. now apply valid_cons in V. }
    rewrite (vec_at_ok dummy _ _ Hj). cbn [bind].
    fold (proc (processes st) j).
    destruct (Z.eqb_spec (arrival_time (proc (processes st) j)) (curr_time st)) as [Ha|Ha].
    + right. split; [discriminate|]. unfold arrive. rewrite Ej. cbn [hd].
      split; [reflexivity|].
      apply in_range_with_queues; auto.
      * apply valid_push; [apply (rng_rq _ R)|exact Hj].
      * pose proof (rng_jq _ R) as V. rewrite Ej in V. apply valid_cons in V. apply V.
      * now apply (rng_seq _ R).
    + left. rewrite (skippable_zero st R Hr). reflexivity.
Qed.

Lemma loop_zero_quantum bulk M :
  forall n st,
    in_range st -> rq st <> [] -> jq st <> [] \/ size (rq st) <> 1 ->
    (length (jq st) < n)%nat ->
    loop bulk 0 M n st = Fail undefined_behaviour.
Proof.
  induction n as [|n IH]; intros st R Hr H Hn; [lia|].
  cbn [loop].
  destruct (step_zero bulk M st R Hr H) as [E|(Hj & E & R')]; rewrite E; cbn [bind];
    [reflexivity|].
  apply IH; auto.
  - unfold arrive. cbn [rq with_queues]. unfold push_back. now destruct (rq st).
  - right. unfold arrive. cbn [rq with_queues]. rewrite size_push.
    destruct (rq st) as [|r rs]; [congruence|]. rewrite size_cons.
    pose proof (size_nonneg rs). lia.
  - unfold arrive. cbn [jq with_queues]. unfold erase_begin.
    destruct (jq st); [congruence|]. cbn [tl length] in *. lia.
Qed.

(** The iteration that takes the bootstrap dispatch goes on as an iteration
    from the state after it. *)
Lemma step_bootstrap bulk q M st :
  in_range st -> rq st = [] -> jq st <> [] ->
  step bulk q M st = step bulk q M (bootstrap_p M st) /\
  in_range (bootstrap_p M st) /\ rq (bootstrap_p M st) = [hd 0 (jq st)] /\
  jq (bootstrap_p M st) = tl (jq st).
Proof.
  intros R Hr Hj. destruct (bootstrap_eq M st R Hj) as [E R1].
  assert (Hq : rq (bootstrap_p M st) = [hd 0 (jq st)]).
  { unfold bootstrap_p. cbn [rq]. now rewrite Hr. }
  split; [|auto].
  unfold step at 1. unfold bootstrap_guard. rewrite Hr.
  apply empty_false in Hj as Ej. rewrite Ej. cbn [empty andb negb].
  rewrite E. cbn [bind].
  unfold step, bootstrap_guard. rewrite !Hq. cbn [empty andb negb bind].
  rewrite !Hq. reflexivity.
Qed.

(** ** A cap that is not positive *)

Ltac same_binds :=
  repeat match goal with
         | |- bind ?e _ = bind ?e _ => destruct e; cbn [bind]; [|reflexivity]
         | |- (let '(_, _) := ?p in _) = _ => destruct p
         end.

Lemma emit_nonpos M sq x : M <= 0 -> emit M sq x = Ok sq.
Proof.
  intros H. unfold emit. pose proof (size_nonneg sq).
  destruct (Z.ltb_spec (size sq) M); [lia|reflexivity].
Qed.

Lemma bootstrap_nonpos M st : M <= 0 -> bootstrap M st = bootstrap 0 st.
Proof.
  intros H. unfold bootstrap. same_binds. pose proof (size_nonneg (seq st)).
  destruct (Z.ltb_spec (size (seq st)) M); [lia|].
  destruct (Z.ltb_spec (size (seq st)) 0); [lia|reflexivity].
Qed.

Lemma bulk_skip_nonpos q M k st : M <= 0 -> bulk_skip q M k st = bulk_skip q 0 k st.
Proof.
  intros H. unfold bulk_skip. same_binds.
  replace (Z.to_nat (Z.min k M)) with O by lia.
  replace (Z.to_nat (Z.min k 0)) with O by lia. reflexivity.
Qed.

Lemma run_quantum_nonpos q M st : M <= 0 -> run_quantum q M st = run_quantum q 0 st.
Proof.
  intros H. unfold run_quantum. same_binds.
  rewrite !emit_nonpos by lia. reflexivity.
Qed.

Lemma run_to_completion_nonpos M st :
  M <= 0 -> run_to_completion M st = run_to_completion 0 st.
Proof.
  intros H. unfold run_to_completion. same_binds.
  rewrite !emit_nonpos by lia. reflexivity.
Qed.

Lemma step_nonpos bulk q M st : M <= 0 -> step bulk q M st = step bulk q 0 st.
Proof.
  intros H. unfold step.
  destruct (empty (rq st) && empty (jq st)); [reflexivity|].
  rewrite (bootstrap_nonpos M st H).
  destruct (if bootstrap_guard st then bootstrap 0 st else Ok st) as [st1|];
    cbn [bind]; [|reflexivity].
  destruct (negb (empty (rq st1)) && negb (empty (jq st1))).
  - unfold step_pending. same_binds.
    destruct (_ =? _); [reflexivity|]. same_binds.
    rewrite (bulk_skip_nonpos q M _ st1 H). same_binds.
    unfold preempt_pending, complete_pending.
    rewrite (run_quantum_nonpos q M _ H), (run_to_completion_nonpos M _ H).
    reflexivity.
  - destruct (negb (empty (rq st1)) && empty (jq st1)); [|reflexivity].
    unfold step_drained.
    rewrite (run_to_completion_nonpos M st1 H).
    destruct (_ =? _); [reflexivity|]. same_binds.
    rewrite (bulk_skip_nonpos q M _ st1 H). same_binds.
    unfold preempt_drained, complete_drained.
    rewrite (run_quantum_nonpos q M _ H), (run_to_completion_nonpos M _ H).
    reflexivity.
Qed.

(** ** The cap does not steer the program

    Two runs that differ in [max_seq_len] go through states that differ in
    their traces only, and fail alike, whatever the input. *)

Ltac both_binds :=
  repeat match goal with
         | |- agree _ (bind ?e _) (bind ?e _) =>
             destruct e; cbn [bind]; [|reflexivity]
         | |- agree _ (let '(_, _) := ?p in _) (let '(_, _) := ?p in _) =>
             destruct p
         end.

Ltac eq_core Hc :=
  match type of Hc with
  | core ?a = core ?b =>
      let t := fresh "t" in let r := fresh "r" in let j := fresh "j" in
      let rem := fresh "rem" in let ps := fresh "ps" in let s := fresh "s" in
      let t' := fresh "t" in let r' := fresh "r" in let j' := fresh "j" in
      let rem' := fresh "rem" in let ps' := fresh "ps" in let s' := fresh "s" in
      destruct a as [t r j rem ps s], b as [t' r' j' rem' ps' s'];
      unfold core in Hc; cbn [curr_time rq jq remaining_bursts processes seq] in *;
      inversion Hc; subst; clear Hc
  end.

Ltac split_alike H :=
  let Hc := fresh "Hc" in let N1 := fresh "N" in let N2 := fresh "N" in
  destruct H as (Hc & N1 & N2); eq_core Hc.

Ltac fields := cbn [curr_time rq jq remaining_bursts processes seq with_queues].

Ltac is_alike :=
  cbn [agree same_control]; unfold alike, core; fields; repeat split; assumption.

Lemma run_quantum_alike q M1 M2 a b :
  alike a b -> agree alike (run_quantum q M1 a) (run_quantum q M2 b).
Proof.
  intros H. split_alike H. unfold run_quantum. fields. both_binds.
  rewrite !emit_eq by assumption. cbn [bind]. both_binds.
  repeat split; cbn [seq]; now apply emit_p_nonempty.
Qed.

Lemma run_to_completion_alike M1 M2 a b :
  alike a b -> agree alike (run_to_completion M1 a) (run_to_completion M2 b).
Proof.
  intros H. split_alike H. unfold run_to_completion. fields. both_binds.
  rewrite !emit_eq by assumption. cbn [bind]. both_binds.
  repeat split; cbn [seq]; now apply emit_p_nonempty.
Qed.

Lemma bulk_skip_alike q M1 M2 k a b :
  alike a b -> agree alike (bulk_skip q M1 k a) (bulk_skip q M2 k b).
Proof.
  intros H. split_alike H. unfold bulk_skip. fields. both_binds.
  rewrite !emit_rounds_eq by assumption. cbn [bind].
  repeat split; cbn [seq]; now apply emit_rounds_p_nonempty.
Qed.

Lemma preempt_pending_alike q M1 M2 a b :
  alike a b ->
  agree (same_control alike) (preempt_pending q M1 a) (preempt_pending q M2 b).
Proof.
  intros H. unfold preempt_pending.
  pose proof (run_quantum_alike q M1 M2 a b H) as R.
  destruct (run_quantum q M1 a) as [a2|], (run_quantum q M2 b) as [b2|];
    cbn [agree bind] in *; try contradiction; [|exact R].
  split_alike R. fields. both_binds. is_alike.
Qed.

Lemma complete_pending_alike M1 M2 a b :
  alike a b ->
  agree (same_control alike) (complete_pending M1 a) (complete_pending M2 b).
Proof.
  intros H. unfold complete_pending.
  pose proof (run_to_completion_alike M1 M2 a b H) as R.
  destruct (run_to_completion M1 a) as [a2|], (run_to_completion M2 b) as [b2|];
    cbn [agree bind] in *; try contradiction; [|exact R].
  split_alike R. fields. both_binds. destruct (_ <=? _); is_alike.
Qed.

Lemma preempt_drained_alike q M1 M2 a b :
  alike a b ->
  agree (same_control alike) (preempt_drained q M1 a) (preempt_drained q M2 b).
Proof.
  intros H. unfold preempt_drained.
  pose proof (run_quantum_alike q M1 M2 a b H) as R.
  destruct (run_quantum q M1 a) as [a2|], (run_quantum q M2 b) as [b2|];
    cbn [agree bind] in *; try contradiction; [|exact R].
  split_alike R. fields. both_binds. is_alike.
Qed.

Lemma complete_drained_alike M1 M2 a b :
  alike a b ->
  agree (same_control alike) (complete_drained M1 a) (complete_drained M2 b).
Proof.
  intros H. unfold complete_drained.
  pose proof (run_to_completion_alike M1 M2 a b H) as R.
  destruct (run_to_completion M1 a) as [a2|], (run_to_completion M2 b) as [b2|];
    cbn [agree bind] in *; try contradiction; exact R.
Qed.

Lemma skippable_alike q a b :
  alike a b -> skippable_rounds q a = skippable_rounds q b.
Proof. intros H. split_alike H. reflexivity. Qed.

(** The part of an iteration after the bulk skip. *)
Lemma dispatch_alike q
  (f1 f2 g1 g2 : state -> result control) (r1 r2 : result state) :
  agree alike r1 r2 ->
  (forall x y, alike x y -> agree (same_control alike) (f1 x) (f2 y)) ->
  (forall x y, alike x y -> agree (same_control alike) (g1 x) (g2 y)) ->
  agree (same_control alike)
    (st1 <- r1 ;; r <- vec_at (rq st1) 0 ;; b <- vec_at (remaining_bursts st1) r ;;
     if q <? b then f1 st1 else g1 st1)
    (st1 <- r2 ;; r <- vec_at (rq st1) 0 ;; b <- vec_at (remaining_bursts st1) r ;;
     if q <? b then f2 st1 else g2 st1).
Proof.
  intros R F G.
  destruct r1 as [a1|], r2 as [b1|]; cbn [agree bind] in *; try contradiction;
    [|exact R].
  split_alike R. fields. both_binds.
  destruct (q <? _); [apply F|apply G]; is_alike.
Qed.

Lemma skip_alike q M1 M2 k (c : bool) a b :
  alike a b ->
  agree alike (if c then bulk_skip q M1 k a else Ok a)
              (if c then bulk_skip q M2 k b else Ok b).
Proof. intros H. destruct c; [now apply bulk_skip_alike|exact H]. Qed.

Lemma step_pending_alike bulk q M1 M2 a b :
  alike a b ->
  agree (same_control alike) (step_pending bulk q M1 a) (step_pending bulk q M2 b).
Proof.
  intros H. unfold step_pending. rewrite (skippable_alike q a b H).
  split_alike H. fields. both_binds.
  destruct (_ =? _); [is_alike|].
  both_binds.
  apply dispatch_alike.
  - apply skip_alike. is_alike.
  - intros x y. apply preempt_pending_alike.
  - intros x y. apply complete_pending_alike.
Qed.

Lemma step_drained_alike bulk q M1 M2 a b :
  alike a b ->
  agree (same_control alike) (step_drained bulk q M1 a) (step_drained bulk q M2 b).
Proof.
  intros H. unfold step_drained. rewrite (skippable_alike q a b H).
  pose proof (run_to_completion_alike M1 M2 a b H) as R.
  split_alike H. fields.
  destruct (_ =? 1).
  { destruct (run_to_completion M1 _), (run_to_completion M2 _);
      cbn [agree bind] in *; try contradiction; exact R. }
  both_binds.
  apply dispatch_alike.
  - apply skip_alike. is_alike.
  - intros x y. apply preempt_drained_alike.
  - intros x y. apply complete_drained_alike.
Qed.

Lemma bootstrap_alike M1 M2 a b :
  core a = core b -> agree alike (bootstrap M1 a) (bootstrap M2 b).
Proof.
  intros Hc. eq_core Hc. unfold bootstrap. fields. both_binds.
  repeat split; cbn [seq]; destruct (_ && _); unfold push_back;
    intros E; now apply app_eq_nil in E.
Qed.

Lemma agree_weaken (R S : state -> state -> Prop) r1 r2 :
  (forall a b, R a b -> S a b) ->
  agree (same_control R) r1 r2 -> agree (same_control S) r1 r2.
Proof.
  intros W. destruct r1 as [[a|a]|], r2 as [[b|b]|]; cbn; auto.
Qed.

Lemma alike_akin a b : alike a b -> akin a b.
Proof. intros (Hc & N1 & N2). now split. Qed.

Lemma step_akin bulk q M1 M2 a b :
  akin a b -> agree (same_control akin) (step bulk q M1 a) (step bulk q M2 b).
Proof.
  intros [Hc Hs].
  pose proof (bootstrap_alike M1 M2 a b Hc) as Rb.
  eq_core Hc. unfold step, bootstrap_guard. fields.
  assert (A : r0 <> [] ->
              alike (mkState t0 r0 j0 rem0 ps0 s) (mkState t0 r0 j0 rem0 ps0 s0)).
  { intros Hne. destruct (Hs Hne). is_alike. }
  destruct (empty r0) eqn:Er; destruct (empty j0) eqn:Ej; cbn [andb negb].
  - split; [reflexivity|exact Hs].
  - destruct (bootstrap M1 _) as [a1|], (bootstrap M2 _) as [b1|];
      cbn [agree bind] in *; try contradiction; [|exact Rb].
    pose proof (step_pending_alike bulk q M1 M2 a1 b1 Rb) as Rp.
    pose proof (step_drained_alike bulk q M1 M2 a1 b1 Rb) as Rd.
    pose proof (alike_akin _ _ Rb) as Rk.
    split_alike Rb. fields.
    destruct (negb (empty _) && negb (empty _));
      [now apply (agree_weaken alike akin _ _ alike_akin)|].
    destruct (negb (empty _) && empty _);
      [now apply (agree_weaken alike akin _ _ alike_akin)|].
    exact Rk.
  - cbn [bind]. fields. rewrite Er, Ej. cbn [andb negb].
    apply (agree_weaken alike akin _ _ alike_akin). apply step_drained_alike.
    apply A. now apply empty_false.
  - cbn [bind]. fields. rewrite Er, Ej. cbn [andb negb].
    apply (agree_weaken alike akin _ _ alike_akin). apply step_pending_alike.
    apply A. now apply empty_false.
Qed.

Lemma loop_akin bulk q M1 M2 fuel a b :
  akin a b -> agree akin (loop bulk q M1 fuel a) (loop bulk q M2 fuel b).
Proof.
  revert a b; induction fuel as [|fuel IH]; intros a b H; cbn [loop]; [reflexivity|].
  pose proof (step_akin bulk q M1 M2 a b H) as R.
  destruct (step bulk q M1 a) as [[a1|a1]|], (step bulk q M2 b) as [[b1|b1]|];
    cbn [agree same_control bind] in *; try contradiction; auto.
Qed.

Lemma simulate_times bulk fuel q M1 M2 ps :
  times (simulate bulk fuel q M1 ps) = times (simulate bulk fuel q M2 ps).
Proof.
  unfold simulate.
  assert (H : akin (initial ps) (initial ps)) by (split; [reflexivity|now intros []]).
  pose proof (loop_akin bulk q M1 M2 fuel _ _ H) as R.
  destruct (loop bulk q M1 fuel (initial ps)) as [a|],
           (loop bulk q M2 fuel (initial ps)) as [b|];
    cbn [agree bind times] in *; try contradiction; [|now rewrite R].
  destruct R as [Hc _]. unfold core in Hc. now inversion Hc.
Qed.

(** ** The trace under a cap of zero *)

Ltac bind_ok H :=
  repeat match type of H with
         | bind ?e _ = Ok _ =>
             let E := fresh "E" in
             destruct e eqn:E; cbn [bind] in H; [|discriminate H]
         | (let '(_, _) := ?p in _) = Ok _ => destruct p
         end.

Lemma run_quantum_zero q st st' : run_quantum q 0 st = Ok st' -> seq st' = seq st.
Proof.
  unfold run_quantum. intros H. bind_ok H.
  rewrite emit_nonpos in E1 by lia. inversion E1; inversion H; subst. reflexivity.
Qed.

Lemma run_to_completion_zero st st' :
  run_to_completion 0 st = Ok st' -> seq st' = seq st.
Proof.
  unfold run_to_completion. intros H. bind_ok H.
  rewrite emit_nonpos in E2 by lia. inversion E2; inversion H; subst. reflexivity.
Qed.

Lemma bulk_skip_zero q k st st' : bulk_skip q 0 k st = Ok st' -> seq st' = seq st.
Proof.
  unfold bulk_skip. intros H. bind_ok H.
  replace (Z.to_nat (Z.min k 0)) with O in E0 by lia. cbn [emit_rounds] in E0.
  inversion E0; inversion H; subst. reflexivity.
Qed.

Lemma preempt_pending_zero q x y :
  preempt_pending q 0 x = Ok y -> seq (state_of y) = seq x.
Proof.
  unfold preempt_pending. intros H. bind_ok H. inversion H; subst.
  cbn. now apply run_quantum_zero with q.
Qed.

Lemma complete_pending_zero x y :
  complete_pending 0 x = Ok y -> seq (state_of y) = seq x.
Proof.
  unfold complete_pending. intros H. bind_ok H.
  apply run_to_completion_zero in E.
  destruct (_ <=? _); inversion H; subst; cbn; exact E.
Qed.

Lemma preempt_drained_zero q x y :
  preempt_drained q 0 x = Ok y -> seq (state_of y) = seq x.
Proof.
  unfold preempt_drained. intros H. bind_ok H. inversion H; subst.
  cbn. now apply run_quantum_zero with q.
Qed.

Lemma complete_drained_zero x y :
  complete_drained 0 x = Ok y -> seq (state_of y) = seq x.
Proof.
  unfold complete_drained. intros H. bind_ok H. inversion H; subst.
  cbn. now apply run_to_completion_zero.
Qed.

Lemma skip_zero q k (c : bool) st st1 :
  (if c then bulk_skip q 0 k st else Ok st) = Ok st1 -> seq st1 = seq st.
Proof.
  destruct c; [apply bulk_skip_zero|]. intros H. now inversion H.
Qed.

Lemma step_pending_zero bulk q st c :
  step_pending bulk q 0 st = Ok c -> seq (state_of c) = seq st.
Proof.
  unfold step_pending. intros H. bind_ok H.
  destruct (_ =? _); [now inversion H|]. bind_ok H.
  match goal with E : (if _ then _ else _) = Ok _ |- _ => apply skip_zero in E end.
  destruct (q <? _);
    [apply preempt_pending_zero in H|apply complete_pending_zero in H]; congruence.
Qed.

Lemma step_drained_zero bulk q st c :
  step_drained bulk q 0 st = Ok c -> seq (state_of c) = seq st.
Proof.
  unfold step_drained. intros H.
  destruct (_ =? 1).
  { bind_ok H. inversion H; subst. cbn. now apply run_to_completion_zero. }
  bind_ok H.
  match goal with E : (if _ then _ else _) = Ok _ |- _ => apply skip_zero in E end.
  destruct (q <? _);
    [apply preempt_drained_zero in H|apply complete_drained_zero in H]; congruence.
Qed.

Lemma bootstrap_zero st st' : bootstrap 0 st = Ok st' -> seq st' = seq st ++ [-1].
Proof.
  unfold bootstrap. intros H. bind_ok H. pose proof (size_nonneg (seq st)).
  destruct (Z.ltb_spec (size (seq st)) 0); [lia|].
  cbn [andb] in H. now inversion H.
Qed.

Lemma step_zero_cap bulk q st c :
  step bulk q 0 st = Ok c ->
  seq (state_of c) =
    seq st ++ repeat (-1) (if bootstrap_guard st then 1 else 0).
Proof.
  unfold step. intros H.
  destruct (empty (rq st) && empty (jq st)) eqn:E0.
  { inversion H; subst. unfold bootstrap_guard.
    apply andb_prop in E0 as [_ ->]. rewrite andb_false_r. cbn. now rewrite app_nil_r. }
  destruct (if bootstrap_guard st then bootstrap 0 st else Ok st) as [s|] eqn:E;
    cbn [bind] in H; [|discriminate].
  assert (S1 : seq s = seq st ++ repeat (-1) (if bootstrap_guard st then 1 else 0)).
  { destruct (bootstrap_guard st).
    - now apply bootstrap_zero.
    - inversion E; subst. cbn. now rewrite app_nil_r. }
  rewrite <- S1.
  destruct (negb (empty (rq s)) && negb (empty (jq s)));
    [now apply step_pending_zero with bulk q|].
  destruct (negb (empty (rq s)) && empty (jq s));
    [now apply step_drained_zero with bulk q|].
  now inversion H.
Qed.

Lemma loop_zero_cap bulk q fuel st st' :
  loop bulk q 0 fuel st = Ok st' ->
  seq st' = seq st ++ repeat (-1) (bootstraps bulk q 0 fuel st).
Proof.
  revert st; induction fuel as [|fuel IH]; intros st H; cbn [loop] in H;
    [discriminate|].
  cbn [bootstraps]. destruct (step bulk q 0 st) as [c|] eqn:E; cbn [bind] in H;
    [|discriminate].
  apply step_zero_cap in E. rewrite repeat_app, app_assoc, <- E.
  destruct c as [s|s]; cbn [state_of] in *.
  - now apply IH.
  - inversion H; subst. cbn. now rewrite app_nil_r.
Qed.

(** * Main theorems *)

(** ** The scenarios *)

Lemma scenarioB_fits : fits 2 scenarioB.
Proof. split; reflexivity. Qed.

Lemma stray_id_well_formed : well_formed 2 10 stray_id.
Proof. unfold well_formed. repeat split; repeat constructor; simpl; intuition lia. Qed.

Lemma stray_id_throws n : simulate_rr (S n) 2 10 stray_id = Fail out_of_range.
Proof. reflexivity. Qed.

Lemma five_ready_well_formed : well_formed wide_quantum 10 five_ready.
Proof.
  unfold well_formed, wide_quantum.
  repeat split; repeat constructor; simpl; intuition lia.
Qed.

Lemma five_ready_indices : ids_are_indices five_ready.
Proof. reflexivity. Qed.

Lemma five_ready_divides n :
  simulate_rr (4 + n) wide_quantum 10 five_ready = Fail undefined_behaviour.
Proof. apply simulate_fuel; [vm_compute; reflexivity|discriminate]. Qed.


Lemma long_rounds_well_formed : well_formed long_quantum 10 long_rounds.
Proof.
  unfold well_formed, long_quantum, long_rounds, long_quantum.
  repeat split; repeat constructor; simpl; intuition lia.
Qed.

Lemma long_bursts_indices : ids_are_indices long_bursts.
Proof. reflexivity. Qed.

Lemma long_bursts_bursts : positive_bursts long_bursts.
Proof. repeat constructor. Qed.

Lemma long_bursts_arrivals : nonneg_arrivals long_bursts.
Proof. repeat constructor; cbn; lia. Qed.

Lemma long_bursts_fits : fits 2 long_bursts.
Proof. split; reflexivity. Qed.

Lemma idle_gap_indices : ids_are_indices idle_gap.
Proof. reflexivity. Qed.

Lemma idle_gap_bursts : positive_bursts idle_gap.
Proof. repeat constructor. Qed.

Lemma idle_gap_arrivals : nonneg_arrivals idle_gap.
Proof. repeat constructor; cbn; lia. Qed.

Lemma idle_gap_fits : fits 1 idle_gap.
Proof. split; reflexivity. Qed.

Lemma loop_deterministic_w bulk q M f1 f2 st s1 s2 :
  loop bulk q M f1 st = Ok s1 -> loop bulk q M f2 st = Ok s2 -> s1 = s2.
Proof.
  intros H1 H2.
  assert (N1 : Ok s1 <> Fail out_of_fuel) by discriminate.
  assert (N2 : Ok s2 <> Fail out_of_fuel) by discriminate.
  pose proof (loop_fuel bulk q M f1 f2 st _ H1 N1) as A.
  pose proof (loop_fuel bulk q M f2 f1 st _ H2 N2) as B.
  rewrite Nat.add_comm in B. congruence.
Qed.

(** ** Termination *)

(** C7, as the specification states it, fails: on an input that the
    specification admits the run throws when an id is not a position, and
    divides by zero when the length of a round, four times the quantum
    [2^62], wraps around to 0. *)
Lemma termination_fails_on_admitted_inputs :
  (well_formed 2 10 stray_id /\
   forall n, simulate_rr (S n) 2 10 stray_id = Fail out_of_range) /\
  (well_formed wide_quantum 10 five_ready /\ ids_are_indices five_ready /\
   forall n, simulate_rr (4 + n) wide_quantum 10 five_ready =
             Fail undefined_behaviour).
Proof.
  split; [split; [exact stray_id_well_formed|exact stray_id_throws]|].
  split; [exact five_ready_well_formed|].
  split; [exact five_ready_indices|exact five_ready_divides].
Qed.

(** C7, amended.  On an input with a positive quantum, positive bursts, ids
    equal to positions, and times that fit 64 bits ([fits]), [simulate_rr]
    terminates: the loop exits with both queues empty within [enough_fuel]
    iterations, and every iteration of the run either is the last one, or
    moves a process out of the pending queue, or removes a process from the
    queues, or decreases the total remaining burst by a quantum at least. *)
Theorem simulate_rr_terminates (q M : Z) (ps : list Process) :
  0 < q -> ids_are_indices ps -> positive_bursts ps -> fits q ps ->
  (exists st',
     loop true q M (enough_fuel ps) (initial ps) = Ok st' /\
     rq st' = [] /\ jq st' = [] /\
     simulate_rr (enough_fuel ps) q M ps = Ok (processes st', seq st')) /\
  (forall st, reachable true q M ps st ->
     exists c, step true q M st = Ok c /\
       match c with
       | Continue st' => progress q st st'
       | Break st' => rq st' = [] /\ jq st' = []
       end).
Proof.
  intros Hq Hi Hb Hf.
  destruct (ideal_run_terminates q M ps Hq Hi Hb) as [T P]. split.
  - now rewrite loop_fits, simulate_rr_ideal by assumption.
  - intros st Rc. rewrite (reachable_step_ideal q ps Hq Hi Hb Hf true M st Rc).
    apply P. now apply reachable_ideal.
Qed.

Lemma simulate_rr_terminates_witness :
  (exists st',
     loop true 2 10 (enough_fuel scenarioB) (initial scenarioB) = Ok st' /\
     rq st' = [] /\ jq st' = [] /\
     simulate_rr (enough_fuel scenarioB) 2 10 scenarioB = Ok (processes st', seq st')) /\
  (forall st, reachable true 2 10 scenarioB st ->
     exists c, step true 2 10 st = Ok c /\
       match c with
       | Continue st' => progress 2 st st'
       | Break st' => rq st' = [] /\ jq st' = []
       end).
Proof.
  apply (simulate_rr_terminates 2 10 scenarioB);
    [lia | exact scenarioB_indices | exact scenarioB_bursts | exact scenarioB_fits].
Defined.

(** ** Frame *)




(** ** Bounds-checked accesses *)

(** C10. Ids index [processes] and [remaining_bursts]: when every process
    has its position as id no access of [simulate_rr] is out of range,
    whatever the quantum, the cap and the number of iterations; unique ids
    are not enough, since a single process with id 7 makes the first
    iteration throw. *)
Theorem at_in_range_needs_indices :
  (forall ps q M fuel,
     ids_are_indices ps -> simulate_rr fuel q M ps <> Fail out_of_range) /\
  (NoDup (map id stray_id) /\ positive_bursts stray_id /\
   nonneg_arrivals stray_id /\ unset_starts stray_id /\
   simulate_rr 1 2 10 stray_id = Fail out_of_range).
Proof.
  split.
  - intros ps q M fuel Hi. unfold simulate_rr, simulate.
    pose proof (loop_safe true q M fuel (initial ps) (initial_in_range ps Hi)) as H.
    destruct (loop true q M fuel (initial ps)) as [st|f]; cbn [bind]; congruence.
  - repeat split; repeat constructor; simpl; intuition lia.
Qed.

Lemma at_in_range_needs_indices_witness :
  ids_are_indices scenarioB /\ simulate_rr 4 2 10 scenarioB <> Fail out_of_range.
Proof.
  split; [exact scenarioB_indices|].
  apply (proj1 at_in_range_needs_indices). exact scenarioB_indices.
Defined.

(** ** Scenario B *)

(** C2, as the specification states it, fails: P0 finishes at 6, not at 8. *)
Lemma scenarioB_finish_is_not_8 :
  simulate_rr 4 2 10 scenarioB =
    Ok ([mkProcess 0 0 4 0 6; mkProcess 1 1 4 2 8], [0; 1; 0; 1]) /\
  ~ (exists fuel ps' sq,
       simulate_rr fuel 2 10 scenarioB = Ok (ps', sq) /\
       sq = [0; 1; 0; 1] /\
       start_time (proc ps' 0) = 0 /\ start_time (proc ps' 1) = 2 /\
       finish_time (proc ps' 0) = 8).
Proof.
  split; [reflexivity|].
  intros (fuel & ps' & sq & E & _ & _ & _ & F).
  assert (E4 : simulate_rr 4 2 10 scenarioB =
               Ok ([mkProcess 0 0 4 0 6; mkProcess 1 1 4 2 8], [0; 1; 0; 1]))
    by reflexivity.
  unfold simulate_rr, simulate in E, E4.
  destruct (loop true 2 10 fuel (initial scenarioB)) as [s1|] eqn:L1; [|discriminate].
  destruct (loop true 2 10 4 (initial scenarioB)) as [s2|] eqn:L2; [|discriminate].
  pose proof (loop_deterministic_w _ _ _ _ _ _ _ _ L1 L2) as ->.
  cbn [bind] in E, E4. rewrite E4 in E. inversion E; subst. discriminate F.
Qed.

(** C2, amended: the trace is [0, 1, 0, 1], P0 starts at 0 and P1 at 2, P0
    finishes at 6 and P1 at 8, for every cap of 4 entries or more. *)
Theorem scenarioB_result (M : Z) (fuel : nat) :
  4 <= M -> (4 <= fuel)%nat ->
  simulate_rr fuel 2 M scenarioB =
    Ok ([mkProcess 0 0 4 0 6; mkProcess 1 1 4 2 8], [0; 1; 0; 1]).
Proof.
  intros HM Hf. replace fuel with (4 + (fuel - 4))%nat by lia.
  apply simulate_fuel; [|discriminate].
  destruct M as [|[[p|p|]|[p|p|]|]|p]; try lia; vm_compute; reflexivity.
Qed.

Lemma scenarioB_result_witness :
  simulate_rr 4 2 4 scenarioB =
    Ok ([mkProcess 0 0 4 0 6; mkProcess 1 1 4 2 8], [0; 1; 0; 1]).
Proof. apply (scenarioB_result 4 4); lia. Defined.

(** ** The cap on the trace *)




Example idle_gap_trace :
  simulate_rr 2 1 1 idle_gap =
    Ok ([mkProcess 0 0 1 0 1; mkProcess 1 5 1 5 6], [0; -1]).
Proof. reflexivity. Qed.

(** ** The cap and the times *)

(** C8. The processes that [simulate_rr] returns, start and finish times
    included, do not depend on [max_seq_len], and neither does a failure of
    the run, whatever the input and the number of iterations; with a cap of
    zero the trace is one idle marker per iteration that takes the bootstrap
    dispatch, and nothing else. *)
Theorem times_independent_of_cap (q M1 M2 : Z) (ps : list Process) (fuel : nat) :
  times (simulate_rr fuel q M1 ps) = times (simulate_rr fuel q M2 ps) /\
  (forall ps' sq,
     simulate_rr fuel q 0 ps = Ok (ps', sq) ->
     sq = repeat (-1) (bootstraps true q 0 fuel (initial ps))).
Proof.
  split; [apply simulate_times|].
  intros ps' sq E. unfold simulate_rr, simulate in E.
  destruct (loop true q 0 fuel (initial ps)) as [st|] eqn:L; cbn [bind] in E;
    [|discriminate].
  inversion E; subst. now apply loop_zero_cap in L.
Qed.

Example scenarioB_times :
  simulate_rr 4 2 0 scenarioB =
    Ok ([mkProcess 0 0 4 0 6; mkProcess 1 1 4 2 8], [-1]) /\
  simulate_rr 4 2 2 scenarioB =
    Ok ([mkProcess 0 0 4 0 6; mkProcess 1 1 4 2 8], [0; 1]).
Proof. split; reflexivity. Qed.

(** ** Compression of the trace *)

(** C4 fails on the code: with a cap of zero (or any cap that the trace has
    reached) each bootstrap dispatch appends an idle marker without looking at
    the last entry, and the trace of [idle_gap] is two idle markers. *)
Theorem consecutive_idle_markers :
  simulate_rr 2 1 0 idle_gap =
    Ok ([mkProcess 0 0 1 0 1; mkProcess 1 5 1 5 6], [-1; -1]) /\
  simulate_rr 3 1 1 (idle_gap ++ [mkProcess 2 9 1 (-1) (-1)]) =
    Ok ([mkProcess 0 0 1 0 1; mkProcess 1 5 1 5 6; mkProcess 2 9 1 9 10],
        [0; -1; -1]).
Proof. split; reflexivity. Qed.

(** ** Start times *)




(** ** The tie between a preempted head and an arrival *)

(** C6. In the single-quantum preemption step with processes still pending
    (lines 106-130), on a ready queue [h :: rs]: the time after the quantum
    is the 64-bit sum of the time and the quantum; the pending processes that
    arrived strictly before that time join the ready queue first, in order,
    then the preempted head [h], and after it the next pending process if it
    arrives at that very time. *)
Theorem preempted_head_before_same_instant (q M : Z) (st : state) (h : Z) (rs : list Z) :
  in_range st -> rq st = h :: rs ->
  exists st' before same,
    preempt_pending q M st = Ok (Continue st') /\
    curr_time st' = add64 (curr_time st) q /\
    jq st = before ++ same ++ jq st' /\
    rq st' = rs ++ before ++ [h] ++ same /\
    Forall (fun j => arrival st j < curr_time st') before /\
    Forall (fun j => arrival st j = curr_time st') same /\
    (same = [] /\ (jq st' = [] \/ curr_time st' < arrival st (hd 0 (jq st'))) \/
     exists j, same = [j]).
Proof.
  intros R Hr.
  assert (Hne : rq st <> []) by (rewrite Hr; discriminate).
  destruct (preempt_pending_w_eq q M st R Hne) as [E _].
  unfold preempt_pending_w in E. set (st2 := run_quantum_w q M st) in *.
  assert (Hr2 : rq st2 = h :: rs) by exact Hr.
  destruct (requeue_with_arrivals_split (processes st2) (curr_time st2) h rs (jq st2))
    as (before & same & rest & E2 & Ej & F1 & F2 & D).
  rewrite Hr2, E2 in E.
  assert (A : forall j, arrival_time (proc (processes st2) j) = arrival st j).
  { intros j. unfold arrival. apply arrival_static. apply static_start_p. }
  exists (with_queues st2 (rs ++ before ++ [h] ++ same) rest), before, same.
  split; [exact E|]. split; [reflexivity|]. split; [exact Ej|].
  split; [reflexivity|].
  cbn [with_queues curr_time jq].
  split; [|split].
  - eapply Forall_impl; [|exact F1]. intros j Hj. now rewrite <- A.
  - eapply Forall_impl; [|exact F2]. intros j Hj. now rewrite <- A.
  - destruct D as [[-> D]|D]; [left|now right]. split; [reflexivity|].
    destruct D as [D|D]; [now left|right]. now rewrite <- A.
Qed.

Lemma tie_state_in_range : in_range tie_state.
Proof.
  constructor; [reflexivity| | |discriminate];
    repeat constructor; simpl; lia.
Qed.

Lemma preempted_head_before_same_instant_witness :
  exists st' before same,
    preempt_pending 2 10 tie_state = Ok (Continue st') /\
    curr_time st' = add64 (curr_time tie_state) 2 /\
    jq tie_state = before ++ same ++ jq st' /\
    rq st' = [1] ++ before ++ [0] ++ same /\
    Forall (fun j => arrival tie_state j < curr_time st') before /\
    Forall (fun j => arrival tie_state j = curr_time st') same /\
    (same = [] /\ (jq st' = [] \/ curr_time st' < arrival tie_state (hd 0 (jq st'))) \/
     exists j, same = [j]).
Proof.
  apply (preempted_head_before_same_instant 2 10 tie_state 0 [1]);
    [exact tie_state_in_range | reflexivity].
Defined.

(** On [tie_state] two processes arrive before the head is requeued and one
    at the time it is; at the last instant of the clock the time wraps
    around, and the process that arrives at [2^63 - 1] stays pending. *)
Example tie_state_queues :
  preempt_pending 2 10 tie_state =
    Ok (Continue (mkState 2 [1; 2; 0; 3] [4] [3; 5; 5; 5; 5]
          [mkProcess 0 0 5 0 (-1); mkProcess 1 0 5 (-1) (-1);
           mkProcess 2 1 5 (-1) (-1); mkProcess 3 2 5 (-1) (-1);
           mkProcess 4 2 5 (-1) (-1)]
          [0])) /\
  preempt_pending 2 10 last_instant =
    Ok (Continue (mkState (-9223372036854775808) [0] [1] [3; 5]
          [mkProcess 0 0 5 0 (-1); mkProcess 1 9223372036854775807 5 (-1) (-1)]
          [0])).
Proof. split; reflexivity. Qed.

(** ** The bulk skip *)

(** C1, as the specification states it, fails: on an input that the
    specification admits neither run returns when an id is not a position,
    and when the time wraps around in the test of line 81 the bulk skip is
    taken for a negative number of rounds and the two runs differ. *)
Lemma skip_differs_on_admitted_inputs :
  (well_formed 2 10 stray_id /\
   forall n, simulate_rr (S n) 2 10 stray_id = Fail out_of_range /\
             simulate_rr_naive (S n) 2 10 stray_id = Fail out_of_range) /\
  (well_formed long_quantum 10 long_rounds /\ ids_are_indices long_rounds /\
   forall n,
     simulate_rr (8 + n) long_quantum 10 long_rounds =
       Ok ([mkProcess 0 0 2305843009213693952 0 2305843009213693952;
            mkProcess 1 1 2305843009213693952
              2305843009213693952 4611686018427387904;
            mkProcess 2 1 2305843009213693952
              4611686018427387904 6917529027641081856;
            mkProcess 3 1 2305843009213693957
              6917529027641081856 (-9223372036854775802);
            mkProcess 4 1 1 4611686018427387904 4611686018427387905],
           [0; 1; 2; 3; 4; 3]) /\
     simulate_rr_naive (8 + n) long_quantum 10 long_rounds =
       Ok ([mkProcess 0 0 2305843009213693952 0 2305843009213693952;
            mkProcess 1 1 2305843009213693952
              2305843009213693952 4611686018427387904;
            mkProcess 2 1 2305843009213693952
              4611686018427387904 6917529027641081856;
            mkProcess 3 1 2305843009213693957
              6917529027641081856 (-9223372036854775803);
            mkProcess 4 1 1 1 2],
           [0; 1; 2; 3; -1; 4])).
Proof.
  split; [split; [exact stray_id_well_formed|split; reflexivity]|].
  split; [exact long_rounds_well_formed|]. split; [reflexivity|].
  intros n. split; (apply simulate_fuel; [vm_compute; reflexivity|discriminate]).
Qed.

(** C1, amended.  On an input with a positive quantum, positive bursts,
    arrival times that are not negative, ids equal to positions, and times
    that fit 64 bits, the bulk skip is an optimization only: [simulate_rr]
    and the variant that never takes the bulk skip and advances one quantum
    at a time return the same processes, start and finish times included, and
    the same trace, for every cap [max_seq_len] and not only for a cap that
    does not bind. *)
Theorem bulk_skip_is_naive (q M : Z) (ps : list Process) :
  0 < q -> ids_are_indices ps -> positive_bursts ps -> nonneg_arrivals ps ->
  fits q ps ->
  exists ps' sq,
    simulate_rr_naive (enough_fuel ps) q M ps = Ok (ps', sq) /\
    simulate_rr (enough_fuel ps) q M ps = Ok (ps', sq).
Proof.
  intros Hq Hi Hb Ha Hf.
  rewrite simulate_rr_ideal, simulate_rr_naive_ideal by assumption.
  now apply ideal_skip_as_naive.
Qed.

(** On [long_bursts] the optimized run takes the bulk skip. *)
Lemma bulk_skip_is_naive_witness :
  exists ps' sq,
    simulate_rr_naive (enough_fuel long_bursts) 2 10 long_bursts = Ok (ps', sq) /\
    simulate_rr (enough_fuel long_bursts) 2 10 long_bursts = Ok (ps', sq).
Proof.
  apply (bulk_skip_is_naive 2 10 long_bursts);
    [lia | exact long_bursts_indices | exact long_bursts_bursts
     | exact long_bursts_arrivals | exact long_bursts_fits].
Defined.

Example long_bursts_run :
  simulate_rr 3 2 10 long_bursts =
    Ok ([mkProcess 0 0 9 0 17; mkProcess 1 0 9 2 18], [0; 1; 0; 1; 0; 1; 0; 1; 0; 1]) /\
  simulate_rr 2 2 10 long_bursts = Fail out_of_fuel /\
  simulate_rr_naive 11 2 10 long_bursts =
    Ok ([mkProcess 0 0 9 0 17; mkProcess 1 0 9 2 18], [0; 1; 0; 1; 0; 1; 0; 1; 0; 1]) /\
  simulate_rr_naive 10 2 10 long_bursts = Fail out_of_fuel.
Proof. repeat split. Qed.

(** The hypothesis on arrivals is needed: a start time of -1 is written
    again, by the naive run at the second quantum and by the optimized run
    after the bulk skip. *)
Example negative_arrival_run :
  simulate_rr 4 2 10 negative_arrival =
    Ok ([mkProcess 0 (-1) 9 7 8; mkProcess 1 100 1 100 101], [-1; 0; -1; 1]) /\
  simulate_rr_naive 8 2 10 negative_arrival =
    Ok ([mkProcess 0 (-1) 9 1 8; mkProcess 1 100 1 100 101], [-1; 0; -1; 1]).
Proof. split; reflexivity. Qed.

(** * Further properties of [simulate_rr] *)

(** ** A single process *)

(** X1. A single process of id 0 runs from its arrival to completion in the
    first iteration (lines 39-49 and 158-170), whatever the quantum, zero and
    negative quanta included: the quantum is never read.  It finishes at the
    64-bit sum of its arrival time and its burst.  The trace is the process
    alone when it arrives at time 0 and the cap is positive, and the idle
    marker otherwise, followed by the process when the cap allows a second
    entry. *)
Theorem single_process (q M : Z) (p : Process) (fuel : nat) :
  id p = 0 ->
  simulate_rr (S fuel) q M [p] =
    Ok ([mkProcess 0 (arrival_time p) (burst p)
           (if start_time p =? -1 then arrival_time p else start_time p)
           (add64 (arrival_time p) (burst p))],
        if (0 <? M) && (arrival_time p =? 0) then [0]
        else if 1 <? M then [-1; 0] else [-1]).
Proof.
  destruct p as [i a b s f]. cbn [id]. intros ->.
  set (p := mkProcess 0 a b s f).
  assert (R : in_range (initial [p])) by (apply initial_in_range; reflexivity).
  destruct (bootstrap_eq M (initial [p]) R) as [E1 R1]; [discriminate|].
  destruct (run_to_completion_w_eq M (bootstrap_p M (initial [p])) R1) as [E2 _];
    [discriminate|].
  unfold simulate_rr, simulate. cbn [loop]. unfold step at 1.
  change (empty (rq (initial [p]))) with true.
  change (empty (jq (initial [p]))) with false.
  change (bootstrap_guard (initial [p])) with true.
  cbn [andb]. rewrite E1. cbn [bind].
  change (empty (rq (bootstrap_p M (initial [p])))) with false.
  change (empty (jq (bootstrap_p M (initial [p])))) with true.
  cbn [andb negb]. unfold step_drained.
  change (size (rq (bootstrap_p M (initial [p]))) =? 1) with true.
  cbv iota. rewrite E2. cbn [bind].
  clear. subst p. cbv -[Z.ltb Z.eqb add64].
  destruct (s =? -1); destruct (0 <? M) eqn:E0; destruct (a =? 0);
    destruct (1 <? M) eqn:E3; try reflexivity;
    apply Z.ltb_ge in E0; apply Z.ltb_lt in E3; lia.
Qed.

Lemma single_process_witness :
  simulate_rr 1 0 10 [mkProcess 0 5 3 (-1) (-1)] =
    Ok ([mkProcess 0 5 3 5 8], [-1; 0]).
Proof. apply (single_process 0 10 (mkProcess 0 5 3 (-1) (-1)) 0). reflexivity. Defined.

(** A process that arrives at the last instant of the clock finishes at the
    first one. *)
Example last_instant_process :
  simulate_rr 1 2 10 [mkProcess 0 9223372036854775807 1 (-1) (-1)] =
    Ok ([mkProcess 0 9223372036854775807 1
           9223372036854775807 (-9223372036854775808)], [-1; 0]).
Proof. reflexivity. Qed.

(** ** A zero quantum *)

(** X2. With a zero quantum and two processes or more, [simulate_rr] divides
    by zero (lines 76 and 187) within as many iterations as there are
    processes. *)
Theorem zero_quantum_divides (M : Z) (ps : list Process) (fuel : nat) :
  ids_are_indices ps -> (2 <= length ps)%nat -> (length ps <= fuel)%nat ->
  simulate_rr fuel 0 M ps = Fail undefined_behaviour.
Proof.
  intros Hi Hl Hf. unfold simulate_rr, simulate.
  assert (R : in_range (initial ps)) by now apply initial_in_range.
  assert (Hj : jq (initial ps) <> []).
  { cbn [initial jq]. destruct ps; [cbn in Hl; lia|discriminate]. }
  destruct (step_bootstrap true 0 M (initial ps) R eq_refl Hj) as (E & R1 & Hr1 & Hj1).
  destruct fuel as [|n]; [lia|].
  assert (L : loop true 0 M (S n) (initial ps) =
              loop true 0 M (S n) (bootstrap_p M (initial ps))).
  { cbn [loop]. now rewrite E. }
  rewrite L, loop_zero_quantum; auto.
  - rewrite Hr1. discriminate.
  - left. rewrite Hj1. cbn [initial jq].
    destruct ps as [|p [|p' ps]]; cbn in Hl; try lia. discriminate.
  - rewrite Hj1. cbn [initial jq].
    destruct ps as [|p ps]; cbn [map tl length] in *; [lia|]. rewrite length_map. lia.
Qed.

Lemma zero_quantum_divides_witness :
  simulate_rr 2 0 10 scenarioB = Fail undefined_behaviour.
Proof.
  apply (zero_quantum_divides 10 scenarioB 2); [reflexivity|simpl; lia|simpl; lia].
Defined.

(** ** A cap that is not positive *)

(** X3. A cap that is zero or negative is a cap of zero: no test
    [seq.size() < max_seq_len] holds (lines 43, 91-93, 110, 140, 163, 200-202,
    216 and 232), so the run, its failures and its trace included, is the run
    with [max_seq_len = 0], whatever the input. *)
Theorem nonpositive_cap (fuel : nat) (q M : Z) (ps : list Process) :
  M <= 0 ->
  simulate_rr fuel q M ps = simulate_rr fuel q 0 ps /\
  simulate_rr_naive fuel q M ps = simulate_rr_naive fuel q 0 ps.
Proof.
  intros H.
  assert (L : forall b n st, loop b q M n st = loop b q 0 n st).
  { intros b. induction n as [|n IH]; intros st; cbn [loop]; [reflexivity|].
    rewrite (step_nonpos b q M st H).
    destruct (step b q 0 st) as [[s|s]|]; cbn [bind]; auto. }
  unfold simulate_rr, simulate_rr_naive, simulate. now rewrite !L.
Qed.

Lemma nonpositive_cap_witness :
  simulate_rr 4 2 (-3) scenarioB = simulate_rr 4 2 0 scenarioB /\
  simulate_rr_naive 4 2 (-3) scenarioB = simulate_rr_naive 4 2 0 scenarioB.
Proof. apply (nonpositive_cap 4 2 (-3) scenarioB). lia. Defined.

(** ** Completion with processes still pending *)

(** X4. The completion step with processes still pending (lines 135-150), on
    a state whose queues hold indices of [processes], with a ready queue
    [h :: rs] and a pending queue [j :: js]: [h] finishes at the 64-bit sum of
    the current time and its remaining burst and leaves the ready queue, and
    [j] alone joins it, if it has arrived by then; the processes of [js] stay
    pending, whether they have arrived or not. *)
Theorem completion_admits_one (M : Z) (st : state) (h j : Z) (rs js : list Z) :
  in_range st -> rq st = h :: rs -> jq st = j :: js ->
  exists st',
    complete_pending M st = Ok (Continue st') /\
    curr_time st' = add64 (curr_time st) (rem_of (remaining_bursts st) h) /\
    finish_time (proc (processes st') h) = curr_time st' /\
    rem_of (remaining_bursts st') h = 0 /\
    (arrival st j <= curr_time st' /\ rq st' = rs ++ [j] /\ jq st' = js \/
     curr_time st' < arrival st j /\ rq st' = rs /\ jq st' = j :: js).
Proof.
  intros R Hr Hj.
  destruct (complete_pending_w_eq M st R) as [E _]; [congruence|congruence|].
  exists (complete_pending_w M st). split; [exact E|].
  assert (Hh : 0 <= h < size (processes st)).
  { pose proof (rng_rq _ R) as V. rewrite Hr in V. now apply valid_cons in V. }
  assert (Hh' : 0 <= h < size (remaining_bursts st)) by (rewrite (rng_len _ R); exact Hh).
  unfold complete_pending_w.
  set (st2 := run_to_completion_w M st).
  assert (C2 : curr_time st2 = add64 (curr_time st) (rem_of (remaining_bursts st) h)).
  { unfold st2, run_to_completion_w. cbn [curr_time]. rewrite Hr. reflexivity. }
  assert (F2 : finish_time (proc (processes st2) h) = curr_time st2).
  { unfold st2, run_to_completion_w. cbn [processes curr_time]. rewrite Hr. cbn [hd].
    rewrite proc_put_same; [reflexivity|]. rewrite size_start_p. exact Hh. }
  assert (B2 : rem_of (remaining_bursts st2) h = 0).
  { unfold st2, run_to_completion_w. cbn [remaining_bursts]. rewrite Hr. cbn [hd].
    apply rem_of_put_same. exact Hh'. }
  assert (Q2 : rq st2 = rs /\ jq st2 = j :: js).
  { unfold st2, run_to_completion_w. cbn [rq jq]. rewrite Hr, Hj. split; reflexivity. }
  assert (A2 : arrival_time (proc (processes st2) j) = arrival st j).
  { unfold arrival. apply arrival_static.
    unfold st2, run_to_completion_w. cbn [processes].
    rewrite static_put; [apply static_start_p|].
    unfold with_finish, static. reflexivity. }
  destruct Q2 as [Qr Qj]. rewrite Qj. cbn [hd]. rewrite A2.
  destruct (Z.leb_spec (arrival st j) (curr_time st2)) as [Ha|Ha].
  - cbn [with_queues curr_time processes remaining_bursts rq jq].
    rewrite Qr. unfold push_back, erase_begin. cbn [tl]. auto 10.
  - rewrite Qr, Qj. auto 10.
Qed.

Lemma completion_admits_one_witness :
  exists st',
    complete_pending 10 tie_state = Ok (Continue st') /\
    curr_time st' = add64 (curr_time tie_state) (rem_of (remaining_bursts tie_state) 0) /\
    finish_time (proc (processes st') 0) = curr_time st' /\
    rem_of (remaining_bursts st') 0 = 0 /\
    (arrival tie_state 2 <= curr_time st' /\ rq st' = [1] ++ [2] /\ jq st' = [3; 4] \/
     curr_time st' < arrival tie_state 2 /\ rq st' = [1] /\ jq st' = [2; 3; 4]).
Proof.
  apply (completion_admits_one 10 tie_state 0 2 [1] [3; 4]);
    [exact tie_state_in_range | reflexivity | reflexivity].
Defined.

(** On [tie_state] the head completes at time 5; the processes 2, 3 and 4
    have arrived by then, and only 2 joins the ready queue. *)
Example tie_state_completion :
  complete_pending 10 tie_state =
    Ok (Continue (mkState 5 [1; 2] [3; 4] [0; 5; 5; 5; 5]
          [mkProcess 0 0 5 0 5; mkProcess 1 0 5 (-1) (-1);
           mkProcess 2 1 5 (-1) (-1); mkProcess 3 2 5 (-1) (-1);
           mkProcess 4 2 5 (-1) (-1)]
          [0])).
Proof. reflexivity. Qed.

(** ** The bulk skip stays clear of completions and arrivals *)

Lemma skip_input_indices : ids_are_indices skip_input.
Proof. reflexivity. Qed.

Lemma skip_input_bursts : positive_bursts skip_input.
Proof. repeat constructor. Qed.

Lemma skip_input_fits : fits 2 skip_input.
Proof. split; reflexivity. Qed.

Lemma skip_state_reachable : reachable true 2 10 skip_input skip_state.
Proof. apply reach_step with (initial skip_input); [constructor|reflexivity]. Qed.

(** X5. On an input with a positive quantum, positive bursts, ids equal to
    positions, and times that fit 64 bits, at the start of an iteration with
    a process in progress: when the scan of lines 64-79 (and 175-191) allows
    [n] full rounds, [n] is at least 1, and a bulk skip of [k <= n] rounds
    (lines 83-97 and 193-206) completes no process: the queues stay, every
    ready process keeps a positive remaining burst, the same amount less than
    before, and the time advances by [k] rounds.  With a process pending that
    arrives after the first round (the test of line 81), the division of line
    80 returns, and the number of rounds [min(n, m)] of line 83 is between 1
    and [n] and does not take the time past that arrival. *)
Theorem bulk_skip_safe (q M : Z) (ps : list Process) (st : state) (n : Z) :
  0 < q -> ids_are_indices ps -> positive_bursts ps -> fits q ps ->
  reachable true q M ps st -> rq st <> [] ->
  skippable_rounds q st = Ok (true, n) ->
  1 <= n /\
  (forall k, 1 <= k <= n ->
     exists st1,
       bulk_skip q M k st = Ok st1 /\
       rq st1 = rq st /\ jq st1 = jq st /\
       curr_time st1 = curr_time st + size (rq st) * q * k /\
       forall r, In r (rq st) ->
         rem_of (remaining_bursts st1) r = rem_of (remaining_bursts st) r - q * k /\
         0 < rem_of (remaining_bursts st1) r) /\
  (forall j js, jq st = j :: js ->
     add64 (curr_time st) (mul64 (int_size (rq st)) q) < arrival st j ->
     exists m,
       div64 (sub64 (arrival st j) (curr_time st)) (mul64 (int_size (rq st)) q) = Ok m /\
       1 <= Z.min n m <= n /\
       curr_time st + size (rq st) * q * Z.min n m <= arrival st j).
Proof.
  intros Hq Hi Hb Hf Rc Hne E.
  apply (reachable_ideal q ps Hq Hi Hb Hf) in Rc.
  destruct (ideal_reachable_within q ps Hq Hi Hb Hf true M st Rc) as [I W].
  rewrite (skippable_within q _ _ Hq st I W Hne) in E.
  assert (E' : Ideal.skippable_rounds q st = Ok (true, n)).
  { rewrite skippable_eq by (apply I || assumption).
    destruct (Z.eqb_spec q 0); [lia|exact E]. }
  destruct (ideal_skip_safe q M st n Hq I Hne E') as (N1 & N2 & N3).
  assert (Es : skippable_p q st = (true, n)) by congruence.
  destruct (skippable_spec q st n Hq Hne Es) as [_ Hall].
  split; [exact N1|]. split.
  - intros k Hk. destruct (N2 k Hk) as (st1 & B & _ & R1 & J1 & C1 & Rm).
    exists st1. split; [|auto].
    rewrite (bulk_within q _ _ Hq M k st I W Hne);
      [|lia|intros r Hr; destruct (Hall r Hr); nia].
    rewrite <- B. symmetry. apply bulk_skip_eq; [apply I|assumption].
  - intros j js Ej Hlt.
    pose proof (Inv_rq_size st I) as Hsz.
    assert (Hs1 : 1 <= size (rq st)).
    { destruct (rq st); [congruence|]. rewrite size_cons.
      pose proof (size_nonneg l). lia. }
    pose proof (wi_arr _ _ _ _ W j) as Ha.
    pose proof (sum_nonneg _ (inv_nonneg _ I)) as Ht. fold (total_remaining st) in Ht.
    assert (Hbd : int64 (size (rq st) * q) /\ 0 < size (rq st) * q /\
                  int64 (arrival st j - curr_time st) /\
                  int64 (curr_time st + size (rq st) * q)).
    { destruct W as [V1 V2 V3 V4 V5 V6]. unfold int64. repeat split; nia. }
    destruct Hbd as (B1 & B2 & B3 & B4).
    rewrite int_size_id in * by (pose proof (wi_size _ _ _ _ W); lia).
    rewrite mul64_id in * by assumption.
    rewrite sub64_id by assumption. rewrite add64_id in Hlt by assumption.
    rewrite div64_pos by assumption.
    eexists. split; [reflexivity|]. now apply N3.
Qed.

Lemma bulk_skip_safe_witness :
  1 <= 4 /\
  (forall k, 1 <= k <= 4 ->
     exists st1,
       bulk_skip 2 10 k skip_state = Ok st1 /\
       rq st1 = rq skip_state /\ jq st1 = jq skip_state /\
       curr_time st1 = curr_time skip_state + size (rq skip_state) * 2 * k /\
       forall r, In r (rq skip_state) ->
         rem_of (remaining_bursts st1) r = rem_of (remaining_bursts skip_state) r - 2 * k /\
         0 < rem_of (remaining_bursts st1) r) /\
  (forall j js, jq skip_state = j :: js ->
     add64 (curr_time skip_state) (mul64 (int_size (rq skip_state)) 2)
       < arrival skip_state j ->
     exists m,
       div64 (sub64 (arrival skip_state j) (curr_time skip_state))
         (mul64 (int_size (rq skip_state)) 2) = Ok m /\
       1 <= Z.min 4 m <= 4 /\
       curr_time skip_state + size (rq skip_state) * 2 * Z.min 4 m
         <= arrival skip_state j).
Proof.
  apply (bulk_skip_safe 2 10 skip_input skip_state 4);
    [lia | exact skip_input_indices | exact skip_input_bursts | exact skip_input_fits
     | exact skip_state_reachable | discriminate | reflexivity].
Defined.

(** From [skip_state] the iteration skips 4 rounds of the two ready
    processes, to time 16, and runs the head to completion. *)
Example skip_state_step :
  step true 2 10 skip_state =
    Ok (Continue (mkState 17 [1] [2] [0; 1; 1]
          [mkProcess 0 0 9 0 17; mkProcess 1 0 9 2 (-1);
           mkProcess 2 100 1 (-1) (-1)]
          [0; 1; 0; 1; 0; 1; 0; 1; 0])).
Proof. reflexivity. Qed.

(** ** The entries of the trace *)

(** X6. On an input with a positive quantum, positive bursts, ids equal to
    positions, and times that fit 64 bits, the entries of the trace are the
    idle marker -1 and ids of processes (lines 43-48, 93-95, 110-112, 140-142
    and their copies in the second block). *)
Theorem trace_entries (q M : Z) (ps : list Process) :
  0 < q -> ids_are_indices ps -> positive_bursts ps -> fits q ps ->
  exists ps' sq,
    simulate_rr (enough_fuel ps) q M ps = Ok (ps', sq) /\
    Forall (fun x => x = -1 \/ In x (map id ps)) sq.
Proof.
  intros Hq Hi Hb Hf. rewrite simulate_rr_ideal by assumption.
  now apply ideal_entries_of_trace.
Qed.

Lemma trace_entries_witness :
  exists ps' sq,
    simulate_rr (enough_fuel scenarioB) 2 10 scenarioB = Ok (ps', sq) /\
    Forall (fun x => x = -1 \/ In x (map id scenarioB)) sq.
Proof.
  apply (trace_entries 2 10 scenarioB);
    [lia | exact scenarioB_indices | exact scenarioB_bursts | exact scenarioB_fits].
Defined.

(** ** Every process shows in a trace below the cap *)

(** X7. On an input with a positive quantum, positive bursts, ids equal to
    positions, and times that fit 64 bits: when the trace ends below the cap,
    every process is in it: each completion (lines 140-142, 163-165 and
    232-234) appends the process to a trace below the cap unless it is the
    last entry. *)
Theorem every_process_in_trace (q M : Z) (ps : list Process) :
  0 < q -> ids_are_indices ps -> positive_bursts ps -> fits q ps ->
  exists ps' sq,
    simulate_rr (enough_fuel ps) q M ps = Ok (ps', sq) /\
    (size sq < M -> Forall (fun p => In (id p) sq) ps).
Proof.
  intros Hq Hi Hb Hf. rewrite simulate_rr_ideal by assumption.
  now apply ideal_processes_in_trace.
Qed.

Lemma every_process_in_trace_witness :
  exists ps' sq,
    simulate_rr (enough_fuel scenarioB) 2 10 scenarioB = Ok (ps', sq) /\
    (size sq < 10 -> Forall (fun p => In (id p) sq) scenarioB).
Proof.
  apply (every_process_in_trace 2 10 scenarioB);
    [lia | exact scenarioB_indices | exact scenarioB_bursts | exact scenarioB_fits].
Defined.

(** ** A process runs for its burst between its start and its finish *)

(** X8. On an input with a positive quantum, positive bursts, arrival times
    that are not negative, start times unset, ids equal to positions, and
    times that fit 64 bits, a process finishes no earlier than its burst
    after its start, hence no earlier than its burst after its arrival: a
    finish time is the time reached when the remaining burst is used up
    (lines 139-144, 162-166 and 231-236). *)
Theorem finish_after_burst (q M : Z) (ps : list Process) :
  0 < q -> ids_are_indices ps -> positive_bursts ps ->
  nonneg_arrivals ps -> unset_starts ps -> fits q ps ->
  exists ps' sq,
    simulate_rr (enough_fuel ps) q M ps = Ok (ps', sq) /\
    Forall (fun p => start_time p + burst p <= finish_time p /\
                     arrival_time p + burst p <= finish_time p) ps'.
Proof.
  intros Hq Hi Hb Ha Hu Hf. rewrite simulate_rr_ideal by assumption.
  now apply ideal_finish_past_burst.
Qed.

Lemma finish_after_burst_witness :
  exists ps' sq,
    simulate_rr (enough_fuel scenarioB) 2 10 scenarioB = Ok (ps', sq) /\
    Forall (fun p => start_time p + burst p <= finish_time p /\
                     arrival_time p + burst p <= finish_time p) ps'.
Proof.
  apply (finish_after_burst 2 10 scenarioB);
    [lia | exact scenarioB_indices | exact scenarioB_bursts | exact scenarioB_arrivals
     | exact scenarioB_unset | exact scenarioB_fits].
Defined.

(** ** No process finishes after the last arrival plus the total burst *)

(** X9. On an input with a positive quantum, positive bursts, ids equal to
    positions, and times that fit 64 bits, every process has finished by the
    latest arrival time plus the sum of all bursts: the time only advances by
    running a process (lines 90, 109, 139, 162 and their copies), except at
    the bootstrap dispatch of line 42, which sets it to an arrival time. *)
Theorem finish_by_total_burst (q M : Z) (ps : list Process) :
  0 < q -> ids_are_indices ps -> positive_bursts ps -> fits q ps ->
  exists ps' sq,
    simulate_rr (enough_fuel ps) q M ps = Ok (ps', sq) /\
    Forall (fun p => finish_time p <= latest_arrival ps + sum (map burst ps)) ps'.
Proof.
  intros Hq Hi Hb Hf. rewrite simulate_rr_ideal by assumption.
  now apply ideal_finish_bound.
Qed.

Lemma finish_by_total_burst_witness :
  exists ps' sq,
    simulate_rr (enough_fuel scenarioB) 2 10 scenarioB = Ok (ps', sq) /\
    Forall (fun p => finish_time p <= latest_arrival scenarioB + sum (map burst scenarioB)) ps'.
Proof.
  apply (finish_by_total_burst 2 10 scenarioB);
    [lia | exact scenarioB_indices | exact scenarioB_bursts | exact scenarioB_fits].
Defined.

(** ** The clock *)

Lemma idle_state_reachable : reachable true 1 10 idle_gap idle_state.
Proof. apply reach_step with (initial idle_gap); [constructor|reflexivity]. Qed.

(** X10. On an input with a positive quantum, positive bursts, arrival times
    that are not negative, ids equal to positions, and times that fit 64
    bits, at the start of every iteration of the run: the time is not
    negative; if the iteration takes the bootstrap dispatch of line 39 and is
    not the first to do so, the next process arrives strictly later than the
    current time, so that the idle marker of line 47 stands for a gap in
    which no process is ready; and the iteration does not take the time
    back. *)
Theorem clock_never_goes_back (q M : Z) (ps : list Process) (st : state) :
  0 < q -> ids_are_indices ps -> positive_bursts ps -> nonneg_arrivals ps ->
  fits q ps -> reachable true q M ps st ->
  0 <= curr_time st /\
  (rq st = [] -> jq st <> [] -> seq st <> [] ->
   curr_time st < arrival st (hd 0 (jq st))) /\
  (forall c, step true q M st = Ok c -> curr_time st <= curr_time (state_of c)).
Proof.
  intros Hq Hi Hb Ha Hf Rc.
  rewrite (reachable_step_ideal q ps Hq Hi Hb Hf true M st Rc).
  apply (reachable_ideal q ps Hq Hi Hb Hf) in Rc.
  now apply (ideal_clock q M ps st).
Qed.

(** In [idle_state] the first process of [idle_gap] has completed at time 1
    and the second arrives at time 5. *)
Lemma clock_never_goes_back_witness :
  0 <= curr_time idle_state /\
  curr_time idle_state < arrival idle_state (hd 0 (jq idle_state)) /\
  (forall c, step true 1 10 idle_state = Ok c ->
     curr_time idle_state <= curr_time (state_of c)).
Proof.
  destruct (clock_never_goes_back 1 10 idle_gap idle_state) as (A & B & C);
    [lia | exact idle_gap_indices | exact idle_gap_bursts | exact idle_gap_arrivals
     | exact idle_gap_fits | exact idle_state_reachable |].
  split; [exact A|]. split; [|exact C].
  apply B; [reflexivity|discriminate|discriminate].
Defined.

(** ** A trace within the cap has no repeated consecutive entries *)

(** X11. On an input with a positive quantum, positive bursts, arrival times
    that are not negative, ids equal to positions, and times that fit 64
    bits, a trace that ends within the cap is compressed: no two consecutive
    entries are equal.  Below the cap every emission of a process tests the
    last entry (lines 93, 110, 140, 163, 202, 216 and 232), and the bootstrap
    dispatch (lines 43-48) follows a process or starts the trace. *)
Theorem trace_within_cap_is_compressed (q M : Z) (ps : list Process) :
  0 < q -> ids_are_indices ps -> positive_bursts ps -> nonneg_arrivals ps ->
  fits q ps ->
  exists ps' sq,
    simulate_rr (enough_fuel ps) q M ps = Ok (ps', sq) /\
    (size sq <= M -> compressed sq).
Proof.
  intros Hq Hi Hb Ha Hf. rewrite simulate_rr_ideal by assumption.
  now apply ideal_compressed_within_cap.
Qed.

Lemma trace_within_cap_is_compressed_witness :
  exists ps' sq,
    simulate_rr (enough_fuel scenarioB) 2 10 scenarioB = Ok (ps', sq) /\
    (size sq <= 10 -> compressed sq).
Proof.
  apply (trace_within_cap_is_compressed 2 10 scenarioB);
    [lia | exact scenarioB_indices | exact scenarioB_bursts | exact scenarioB_arrivals
     | exact scenarioB_fits].
Defined.

(** ** The first entry of the trace *)

(** X12. On an input [p :: ps] with a positive quantum, positive bursts, ids
    equal to positions, and times that fit 64 bits, the trace starts with the
    first process, 0, when it arrives at time 0 and the cap is positive, and
    with the idle marker otherwise (lines 42-48). *)
Theorem trace_head (q M : Z) (p : Process) (ps : list Process) :
  0 < q -> ids_are_indices (p :: ps) -> positive_bursts (p :: ps) ->
  fits q (p :: ps) ->
  exists ps' sq,
    simulate_rr (enough_fuel (p :: ps)) q M (p :: ps) =
      Ok (ps', (if (0 <? M) && (arrival_time p =? 0) then 0 else -1) :: sq).
Proof.
  intros Hq Hi Hb Hf. rewrite simulate_rr_ideal by assumption.
  now apply ideal_head_of_trace.
Qed.

Lemma trace_head_witness :
  exists ps' sq,
    simulate_rr (enough_fuel scenarioB) 2 10 scenarioB = Ok (ps', 0 :: sq).
Proof.
  apply (trace_head 2 10 (mkProcess 0 0 4 (-1) (-1)) [mkProcess 1 1 4 (-1) (-1)]);
    [lia | exact scenarioB_indices | exact scenarioB_bursts | exact scenarioB_fits].
Defined.

(** ** No two processes finish at the same time *)

(** X13. On an input with a positive quantum, positive bursts, ids equal to
    positions, and times that fit 64 bits, no two processes finish at the
    same time: a finish time is the time at a completion (lines 144, 166 and
    236), and the time advances by a positive remaining burst from one
    completion to the next. *)
Theorem finish_times_differ (q M : Z) (ps : list Process) :
  0 < q -> ids_are_indices ps -> positive_bursts ps -> fits q ps ->
  exists ps' sq,
    simulate_rr (enough_fuel ps) q M ps = Ok (ps', sq) /\
    NoDup (map finish_time ps').
Proof.
  intros Hq Hi Hb Hf. rewrite simulate_rr_ideal by assumption.
  now apply ideal_finishes_differ.
Qed.

Lemma finish_times_differ_witness :
  exists ps' sq,
    simulate_rr (enough_fuel scenarioB) 2 10 scenarioB = Ok (ps', sq) /\
    NoDup (map finish_time ps').
Proof.
  apply (finish_times_differ 2 10 scenarioB);
    [lia | exact scenarioB_indices | exact scenarioB_bursts | exact scenarioB_fits].
Defined.

(** ** Processes start in the order of the input *)

(** X14. On an input with a positive quantum, positive bursts, arrival times
    that are not negative, start times unset, ids equal to positions, and
    times that fit 64 bits, processes are dispatched for the first time in
    the order of the input: start times increase strictly with the position
    in [processes], whatever the arrival times.  The pending queue is the
    input in order (lines 26-29), a process joins the ready queue at its tail
    (lines 40, 55, 116, 123, 147) behind the processes that have not run yet,
    and only a process that has run is requeued (lines 121 and 127). *)
Theorem first_dispatch_in_input_order (q M : Z) (ps : list Process) :
  0 < q -> ids_are_indices ps -> positive_bursts ps ->
  nonneg_arrivals ps -> unset_starts ps -> fits q ps ->
  exists ps' sq,
    simulate_rr (enough_fuel ps) q M ps = Ok (ps', sq) /\
    forall i j, 0 <= i -> i < j -> j < size ps' ->
      start_time (proc ps' i) < start_time (proc ps' j).
Proof.
  intros Hq Hi Hb Ha Hu Hf. rewrite simulate_rr_ideal by assumption.
  now apply ideal_dispatch_order.
Qed.

Lemma first_dispatch_in_input_order_witness :
  exists ps' sq,
    simulate_rr (enough_fuel scenarioB) 2 10 scenarioB = Ok (ps', sq) /\
    forall i j, 0 <= i -> i < j -> j < size ps' ->
      start_time (proc ps' i) < start_time (proc ps' j).
Proof.
  apply (first_dispatch_in_input_order 2 10 scenarioB);
    [lia | exact scenarioB_indices | exact scenarioB_bursts | exact scenarioB_arrivals
     | exact scenarioB_unset | exact scenarioB_fits].
Defined.

(** ** The first process starts when it arrives *)

(** X15. On an input [p :: ps] with a positive quantum, positive bursts,
    arrival times that are not negative, start times unset, ids equal to
    positions, and times that fit 64 bits, the first process of the input
    starts at its arrival time: the bootstrap dispatch sets the time to its
    arrival (lines 40-42) and it heads the ready queue until it runs. *)
Theorem first_process_starts_on_arrival (q M : Z) (p : Process) (ps : list Process) :
  0 < q -> ids_are_indices (p :: ps) -> positive_bursts (p :: ps) ->
  nonneg_arrivals (p :: ps) -> unset_starts (p :: ps) -> fits q (p :: ps) ->
  exists ps' sq,
    simulate_rr (enough_fuel (p :: ps)) q M (p :: ps) = Ok (ps', sq) /\
    start_time (proc ps' 0) = arrival_time p.
Proof.
  intros Hq Hi Hb Ha Hu Hf. rewrite simulate_rr_ideal by assumption.
  now apply ideal_first_start.
Qed.

Lemma first_process_starts_on_arrival_witness :
  exists ps' sq,
    simulate_rr (enough_fuel scenarioB) 2 10 scenarioB = Ok (ps', sq) /\
    start_time (proc ps' 0) = 0.
Proof.
  apply (first_process_starts_on_arrival 2 10
           (mkProcess 0 0 4 (-1) (-1)) [mkProcess 1 1 4 (-1) (-1)]);
    [lia | exact scenarioB_indices | exact scenarioB_bursts | exact scenarioB_arrivals
     | exact scenarioB_unset | exact scenarioB_fits].
Defined.
